(** * The CiderPress disk-image engine: [DiskImg]

    A shallow embedding of the block/track/sector layer of [DiskImg]
    (DiskImg.cpp): sector-order translation, block and sector I/O, the
    dirty flag and its propagation through parent images, wrapper
    analysis on open, filesystem probing, format override and create-time
    validation.

    Conventions of the embedding.
    - C++ integers ([long], [int], [di_off_t]) are [Z].  The code is
      written for the Win32 build (it includes the MFC header StdAfx.h and
      has [_WIN32] branches), where [int] and [long] are 32 bits wide and
      [di_off_t] 64.  Signed overflow is undefined in C++, and the
      compiled code wraps; the model writes that wrap-around out
      ([to_int], [to_long]) wherever the source computes a number of
      bytes in [int] or [long]: the track offset of [CalcSectorAndOffset],
      the size of the linear transfer of [ReadBlocks] and [WriteBlocks],
      and the offset and length of a sub-image in the two [OpenImage]
      overloads, whose other [long] and [int] arithmetic is wrapped as
      well.  A product of that kind leaves 32 bits from 2 GiB on.  The
      countdown of a loop on an [int] wraps too.
      Numbers of blocks, tracks and sectors are kept exact: the geometry
      that [AnalyzeImage] and [CreateImageCommon] derive, and the sums
      [startBlock + numBlocks] of the range checks and of
      [CheckForBadBlocks].  They leave 32 bits only from 2^31 sectors
      (512 GiB) on, or for a request that reaches block 2^31.
      Arithmetic on [di_off_t], and comparisons, are those of [Z].
    - A function that dereferences a nil or dangling pointer, or indexes a
      table out of its bounds, has no defined result: it returns [None].
    - [assert] is the release build's: it compiles to nothing.  What it
      documents is recalled in the comments.
    - Classes that live in other translation units (GenericFD, the image
      and outer wrappers, the DiskFS probes, the nibble codec) are taken as
      records of operations. *)

From Stdlib Require Import ZArith Lia Strings.Byte.
From stdpp Require Import gmap strings list.

Local Open Scope Z_scope.

(** ** Error codes (DIError) *)

Inductive DIError : Set :=
  | kDIErrNone
  | kDIErrAccessDenied | kDIErrVWAccessForbidden | kDIErrSharingViolation
  | kDIErrNoExclusiveAccess | kDIErrWriteProtected | kDIErrCDROMNotSupported
  | kDIErrASPIFailure | kDIErrSPTIFailure | kDIErrSCSIFailure
  | kDIErrDeviceNotReady
  | kDIErrFileNotFound | kDIErrForkNotFound | kDIErrAlreadyOpen
  | kDIErrFileOpen | kDIErrNotReady | kDIErrFileExists | kDIErrDirectoryExists
  | kDIErrEOF | kDIErrReadFailed | kDIErrWriteFailed | kDIErrDataUnderrun
  | kDIErrDataOverrun | kDIErrGenericIO
  | kDIErrOddLength | kDIErrUnrecognizedFileFmt | kDIErrBadFileFormat
  | kDIErrUnsupportedFileFmt | kDIErrUnsupportedPhysicalFmt
  | kDIErrUnsupportedFSFmt | kDIErrBadOrdering | kDIErrFilesystemNotFound
  | kDIErrUnsupportedAccess | kDIErrUnsupportedImageFeature
  | kDIErrInvalidTrack | kDIErrInvalidSector | kDIErrInvalidBlock
  | kDIErrInvalidIndex
  | kDIErrDirectoryLoop | kDIErrFileLoop | kDIErrBadDiskImage | kDIErrBadFile
  | kDIErrBadDirectory | kDIErrBadPartition
  | kDIErrFileArchive | kDIErrUnsupportedCompression | kDIErrBadChecksum
  | kDIErrBadCompressedData | kDIErrBadArchiveStruct
  | kDIErrBadNibbleSectors | kDIErrSectorUnreadable | kDIErrInvalidDiskByte
  | kDIErrBadRawData
  | kDIErrInvalidFileName | kDIErrDiskFull | kDIErrVolumeDirFull
  | kDIErrInvalidCreateReq | kDIErrTooBig
  | kDIErrGeneric | kDIErrInternal | kDIErrMalloc | kDIErrInvalidArg
  | kDIErrNotSupported | kDIErrCancelled | kDIErrNufxLibInitFailed.

Definition is_ok (e : DIError) : bool :=
  match e with kDIErrNone => true | _ => false end.

#[global] Instance DIError_eq_dec : EqDecision DIError.
Proof. solve_decision. Defined.

(** ** Format enumerations (DiskImg.h, as listed by the ToString tables) *)

Inductive OuterFormat : Set :=
  | kOuterFormatUnknown | kOuterFormatNone | kOuterFormatCompress
  | kOuterFormatGzip | kOuterFormatBzip2 | kOuterFormatZip.

Inductive FileFormat : Set :=
  | kFileFormatUnknown | kFileFormatUnadorned | kFileFormat2MG
  | kFileFormatNuFX | kFileFormatDiskCopy42 | kFileFormatDiskCopy60
  | kFileFormatDavex | kFileFormatSim2eHDV | kFileFormatTrackStar
  | kFileFormatFDI | kFileFormatDDD | kFileFormatDDDDeluxe.

Inductive PhysicalFormat : Set :=
  | kPhysicalFormatUnknown | kPhysicalFormatSectors
  | kPhysicalFormatNib525_6656 | kPhysicalFormatNib525_6384
  | kPhysicalFormatNib525_Var.

Inductive SectorOrder : Set :=
  | kSectorOrderUnknown | kSectorOrderProDOS | kSectorOrderDOS
  | kSectorOrderCPM | kSectorOrderPhysical.

Inductive FSFormat : Set :=
  | kFormatUnknown | kFormatProDOS | kFormatDOS33 | kFormatDOS32
  | kFormatPascal | kFormatMacHFS | kFormatMacMFS | kFormatLisa
  | kFormatCPM | kFormatMSDOS | kFormatISO9660
  | kFormatRDOS33 | kFormatRDOS32 | kFormatRDOS3
  | kFormatGenericDOSOrd | kFormatGenericProDOSOrd
  | kFormatGenericPhysicalOrd | kFormatGenericCPMOrd
  | kFormatUNIDOS | kFormatOzDOS | kFormatCFFA4 | kFormatCFFA8
  | kFormatMacPart | kFormatMicroDrive | kFormatFocusDrive.

Inductive NibbleEnc : Set := kNibbleEnc44 | kNibbleEnc53 | kNibbleEnc62.

Inductive FlushMode : Set := kFlushAll | kFlushFastOnly.

#[global] Instance OuterFormat_eq_dec : EqDecision OuterFormat.
Proof. solve_decision. Defined.
#[global] Instance FileFormat_eq_dec : EqDecision FileFormat.
Proof. solve_decision. Defined.
#[global] Instance PhysicalFormat_eq_dec : EqDecision PhysicalFormat.
Proof. solve_decision. Defined.
#[global] Instance SectorOrder_eq_dec : EqDecision SectorOrder.
Proof. solve_decision. Defined.
#[global] Instance FSFormat_eq_dec : EqDecision FSFormat.
Proof. solve_decision. Defined.
#[global] Instance NibbleEnc_eq_dec : EqDecision NibbleEnc.
Proof. solve_decision. Defined.

(** Modelled from the spec: [IsSectorFormat] is an inline helper of
    DiskImg.h, which is not among the sources.  The data model has one
    sector format, [Sectors]. *)
Definition IsSectorFormat (fmt : PhysicalFormat) : bool :=
  bool_decide (fmt = kPhysicalFormatSectors).

(** Modelled from the spec: [IsNibbleFormat] is an inline helper of
    DiskImg.h.  The data model has three nibble formats, [Nib525_6656],
    [Nib525_6384] and [Nib525_Var]. *)
Definition IsNibbleFormat (fmt : PhysicalFormat) : bool :=
  bool_decide (fmt = kPhysicalFormatNib525_6656) ||
  bool_decide (fmt = kPhysicalFormatNib525_6384) ||
  bool_decide (fmt = kPhysicalFormatNib525_Var).

(** ** Constants *)

(** Modelled from the spec: the constants of DiskImg.h, by the glossary
    (a sector is 256 bytes, a block 512 bytes, a 5.25 inch disk has 35
    tracks; a 13-sector image is 35 tracks of 13 sectors). *)
Definition kSectorSize : Z := 256.
Definition kBlockSize : Z := 512.
Definition kTrackCount525 : Z := 35.
Definition kD13Length : Z := 256 * 13 * 35.
Definition kVolumeNumNotSet : Z := -1.
Definition kDefaultNibbleVolumeNum : Z := 254.

(** ** Integer widths *)

(** The value of a 32-bit two's-complement integer that holds [z]. *)
Definition to_long (z : Z) : Z := (z + 2147483648) `mod` 4294967296 - 2147483648.
Definition to_int (z : Z) : Z := (z + 2147483648) `mod` 4294967296 - 2147483648.

(** [z] is a value of a 32-bit integer. *)
Definition fits_long (z : Z) : Prop := -2147483648 ≤ z ≤ 2147483647.

(** ** Sub-objects *)

(** The fields of [NibbleDescr] that this layer reads. *)
Record NibbleDescr : Set := mkNibbleDescr {
  numSectors : Z;
  encoding : NibbleEnc;
  dataVerifyChecksum : bool
}.

(** Modelled from the spec: GenericFD (the spec's ByteSource), whose
    implementation is not among the sources.  A GenericFD is a window that
    starts at [gfd_base] in a backing byte array; GFDGFD, the window over
    another GenericFD, adds its offset to the base and shares the array, so
    that a write through a sub-image lands in the parent's data.  A
    GenericFD whose array is gone is closed (its calls answer NotReady); a
    read or write succeeds when it lies inside the array. *)
Record GFD : Set := mkGFD {
  gfd_file : nat;
  gfd_base : Z;
  gfd_readOnly : bool
}.

Abbreviation Files := (gmap nat (list byte)).

Definition gfd_open (fs : Files) (g : GFD) : bool :=
  bool_decide (is_Some (fs !! gfd_file g)).

Definition gfd_bytes (fs : Files) (g : GFD) : list byte :=
  drop (Z.to_nat (gfd_base g)) (default [] (fs !! gfd_file g)).

Definition gfd_length (fs : Files) (g : GFD) : Z :=
  Z.of_nat (length (gfd_bytes fs g)).

(** Seek(offset, kSeekSet). *)
Definition GFD_Seek (fs : Files) (g : GFD) (offset : Z) : DIError :=
  if negb (gfd_open fs g) then kDIErrNotReady
  else if (offset <? 0) || (gfd_length fs g <? offset) then kDIErrInvalidArg
  else kDIErrNone.

(** Seek(0, kSeekEnd) followed by Tell(). *)
Definition GFD_SeekEnd (fs : Files) (g : GFD) : DIError * Z :=
  if negb (gfd_open fs g) then (kDIErrNotReady, 0)
  else (kDIErrNone, gfd_length fs g).

Definition GFD_Read (fs : Files) (g : GFD) (offset size : Z)
  : DIError * list byte :=
  if negb (gfd_open fs g) then (kDIErrNotReady, [])
  else if (size <? 0) || (gfd_length fs g <? offset + size)
  then (kDIErrEOF, [])
  else (kDIErrNone,
        take (Z.to_nat size) (drop (Z.to_nat offset) (gfd_bytes fs g))).

Definition splice (l : list byte) (pos : nat) (data : list byte) : list byte :=
  take pos l ++ data ++ drop (pos + length data) l.

Definition GFD_Write (fs : Files) (g : GFD) (offset : Z) (data : list byte)
  : DIError * Files :=
  if negb (gfd_open fs g) then (kDIErrNotReady, fs)
  else if gfd_readOnly g then (kDIErrAccessDenied, fs)
  else if gfd_length fs g <? offset + Z.of_nat (length data)
  then (kDIErrWriteFailed, fs)
  else (kDIErrNone,
        <[gfd_file g :=
            splice (default [] (fs !! gfd_file g))
                   (Z.to_nat (gfd_base g + offset)) data]> fs).

(** GFDGFD::Open(pGFD, offset, readOnly), when it opens: the window. *)
Definition GFDGFD_Open (parent : GFD) (offset : Z) (readOnly : bool) : GFD :=
  {| gfd_file := gfd_file parent;
     gfd_base := gfd_base parent + offset;
     gfd_readOnly := readOnly |}.

(** GFDGFD::Open returns a DIError.  Its code is in GenericFD.cpp: what it
    answers to a GenericFD (or nil), an offset and a read-only flag is an
    argument of the functions that call it, and nothing is assumed of
    it. *)
Definition GFDGFD_Open_answer : Type := option GFD → Z → bool → DIError.

(** The image wrapper classes and the outer wrapper classes. *)
Inductive ImageWrapperClass : Set :=
  | Wrapper2MG | WrapperDiskCopy42 | WrapperSim2eHDV | WrapperTrackStar
  | WrapperFDI | WrapperNuFX | WrapperDDD
  | WrapperUnadornedSector | WrapperUnadornedNibble.

Inductive OuterWrapperClass : Set := OuterGzip | OuterZip.

#[global] Instance ImageWrapperClass_eq_dec : EqDecision ImageWrapperClass.
Proof. solve_decision. Defined.
#[global] Instance OuterWrapperClass_eq_dec : EqDecision OuterWrapperClass.
Proof. solve_decision. Defined.

(** A wrapper object: its class and the damage flag that Prep or Load
    leaves in it (what [IsDamaged] returns). *)
Record ImageWrapper : Set := mkImageWrapper {
  iw_class : ImageWrapperClass;
  iw_damaged : bool
}.

Record OuterWrapper : Set := mkOuterWrapper {
  ow_class : OuterWrapperClass;
  ow_damaged : bool
}.

Abbreviation ImgId := nat.

(** ** The DiskImg object *)

Record DiskImg : Type := mkDiskImg {
  fOuterFormat : OuterFormat;
  fFileFormat : FileFormat;
  fPhysical : PhysicalFormat;
  fpNibbleDescr : option NibbleDescr;
  fOrder : SectorOrder;
  fFormat : FSFormat;
  fFileSysOrder : SectorOrder;
  fSectorPairing : bool;
  fSectorPairOffset : Z;
  fpOuterGFD : option GFD;
  fpWrapperGFD : option GFD;
  fpDataGFD : option GFD;
  fpOuterWrapper : option OuterWrapper;
  fpImageWrapper : option ImageWrapper;
  fpParentImg : option ImgId;
  fDOSVolumeNum : Z;
  fOuterLength : Z;
  fWrappedLength : Z;
  fLength : Z;
  fExpandable : bool;
  fReadOnly : bool;
  fDirty : bool;
  fHasSectors : bool;
  fHasBlocks : bool;
  fHasNibbles : bool;
  fNumTracks : Z;
  fNumSectPerTrack : Z;
  fNumBlocks : Z;
  fNotes : option string;
  fpBadBlockMap : option (gset Z)
}.

Definition set_fOuterFormat (v : OuterFormat) (d : DiskImg) : DiskImg :=
  {| fOuterFormat := v; fFileFormat := fFileFormat d; fPhysical := fPhysical d;
     fpNibbleDescr := fpNibbleDescr d; fOrder := fOrder d; fFormat := fFormat d;
     fFileSysOrder := fFileSysOrder d; fSectorPairing := fSectorPairing d;
     fSectorPairOffset := fSectorPairOffset d; fpOuterGFD := fpOuterGFD d;
     fpWrapperGFD := fpWrapperGFD d; fpDataGFD := fpDataGFD d;
     fpOuterWrapper := fpOuterWrapper d; fpImageWrapper := fpImageWrapper d;
     fpParentImg := fpParentImg d; fDOSVolumeNum := fDOSVolumeNum d;
     fOuterLength := fOuterLength d; fWrappedLength := fWrappedLength d; fLength := fLength d;
     fExpandable := fExpandable d; fReadOnly := fReadOnly d; fDirty := fDirty d;
     fHasSectors := fHasSectors d; fHasBlocks := fHasBlocks d; fHasNibbles := fHasNibbles d;
     fNumTracks := fNumTracks d; fNumSectPerTrack := fNumSectPerTrack d;
     fNumBlocks := fNumBlocks d; fNotes := fNotes d; fpBadBlockMap := fpBadBlockMap d |}.
Definition set_fFileFormat (v : FileFormat) (d : DiskImg) : DiskImg :=
  {| fOuterFormat := fOuterFormat d; fFileFormat := v; fPhysical := fPhysical d;
     fpNibbleDescr := fpNibbleDescr d; fOrder := fOrder d; fFormat := fFormat d;
     fFileSysOrder := fFileSysOrder d; fSectorPairing := fSectorPairing d;
     fSectorPairOffset := fSectorPairOffset d; fpOuterGFD := fpOuterGFD d;
     fpWrapperGFD := fpWrapperGFD d; fpDataGFD := fpDataGFD d;
     fpOuterWrapper := fpOuterWrapper d; fpImageWrapper := fpImageWrapper d;
     fpParentImg := fpParentImg d; fDOSVolumeNum := fDOSVolumeNum d;
     fOuterLength := fOuterLength d; fWrappedLength := fWrappedLength d; fLength := fLength d;
     fExpandable := fExpandable d; fReadOnly := fReadOnly d; fDirty := fDirty d;
     fHasSectors := fHasSectors d; fHasBlocks := fHasBlocks d; fHasNibbles := fHasNibbles d;
     fNumTracks := fNumTracks d; fNumSectPerTrack := fNumSectPerTrack d;
     fNumBlocks := fNumBlocks d; fNotes := fNotes d; fpBadBlockMap := fpBadBlockMap d |}.
Definition set_fPhysical (v : PhysicalFormat) (d : DiskImg) : DiskImg :=
  {| fOuterFormat := fOuterFormat d; fFileFormat := fFileFormat d; fPhysical := v;
     fpNibbleDescr := fpNibbleDescr d; fOrder := fOrder d; fFormat := fFormat d;
     fFileSysOrder := fFileSysOrder d; fSectorPairing := fSectorPairing d;
     fSectorPairOffset := fSectorPairOffset d; fpOuterGFD := fpOuterGFD d;
     fpWrapperGFD := fpWrapperGFD d; fpDataGFD := fpDataGFD d;
     fpOuterWrapper := fpOuterWrapper d; fpImageWrapper := fpImageWrapper d;
     fpParentImg := fpParentImg d; fDOSVolumeNum := fDOSVolumeNum d;
     fOuterLength := fOuterLength d; fWrappedLength := fWrappedLength d; fLength := fLength d;
     fExpandable := fExpandable d; fReadOnly := fReadOnly d; fDirty := fDirty d;
     fHasSectors := fHasSectors d; fHasBlocks := fHasBlocks d; fHasNibbles := fHasNibbles d;
     fNumTracks := fNumTracks d; fNumSectPerTrack := fNumSectPerTrack d;
     fNumBlocks := fNumBlocks d; fNotes := fNotes d; fpBadBlockMap := fpBadBlockMap d |}.
Definition set_fpNibbleDescr (v : option NibbleDescr) (d : DiskImg) : DiskImg :=
  {| fOuterFormat := fOuterFormat d; fFileFormat := fFileFormat d; fPhysical := fPhysical d;
     fpNibbleDescr := v; fOrder := fOrder d; fFormat := fFormat d;
     fFileSysOrder := fFileSysOrder d; fSectorPairing := fSectorPairing d;
     fSectorPairOffset := fSectorPairOffset d; fpOuterGFD := fpOuterGFD d;
     fpWrapperGFD := fpWrapperGFD d; fpDataGFD := fpDataGFD d;
     fpOuterWrapper := fpOuterWrapper d; fpImageWrapper := fpImageWrapper d;
     fpParentImg := fpParentImg d; fDOSVolumeNum := fDOSVolumeNum d;
     fOuterLength := fOuterLength d; fWrappedLength := fWrappedLength d; fLength := fLength d;
     fExpandable := fExpandable d; fReadOnly := fReadOnly d; fDirty := fDirty d;
     fHasSectors := fHasSectors d; fHasBlocks := fHasBlocks d; fHasNibbles := fHasNibbles d;
     fNumTracks := fNumTracks d; fNumSectPerTrack := fNumSectPerTrack d;
     fNumBlocks := fNumBlocks d; fNotes := fNotes d; fpBadBlockMap := fpBadBlockMap d |}.
Definition set_fOrder (v : SectorOrder) (d : DiskImg) : DiskImg :=
  {| fOuterFormat := fOuterFormat d; fFileFormat := fFileFormat d; fPhysical := fPhysical d;
     fpNibbleDescr := fpNibbleDescr d; fOrder := v; fFormat := fFormat d;
     fFileSysOrder := fFileSysOrder d; fSectorPairing := fSectorPairing d;
     fSectorPairOffset := fSectorPairOffset d; fpOuterGFD := fpOuterGFD d;
     fpWrapperGFD := fpWrapperGFD d; fpDataGFD := fpDataGFD d;
     fpOuterWrapper := fpOuterWrapper d; fpImageWrapper := fpImageWrapper d;
     fpParentImg := fpParentImg d; fDOSVolumeNum := fDOSVolumeNum d;
     fOuterLength := fOuterLength d; fWrappedLength := fWrappedLength d; fLength := fLength d;
     fExpandable := fExpandable d; fReadOnly := fReadOnly d; fDirty := fDirty d;
     fHasSectors := fHasSectors d; fHasBlocks := fHasBlocks d; fHasNibbles := fHasNibbles d;
     fNumTracks := fNumTracks d; fNumSectPerTrack := fNumSectPerTrack d;
     fNumBlocks := fNumBlocks d; fNotes := fNotes d; fpBadBlockMap := fpBadBlockMap d |}.
Definition set_fFormat (v : FSFormat) (d : DiskImg) : DiskImg :=
  {| fOuterFormat := fOuterFormat d; fFileFormat := fFileFormat d; fPhysical := fPhysical d;
     fpNibbleDescr := fpNibbleDescr d; fOrder := fOrder d; fFormat := v;
     fFileSysOrder := fFileSysOrder d; fSectorPairing := fSectorPairing d;
     fSectorPairOffset := fSectorPairOffset d; fpOuterGFD := fpOuterGFD d;
     fpWrapperGFD := fpWrapperGFD d; fpDataGFD := fpDataGFD d;
     fpOuterWrapper := fpOuterWrapper d; fpImageWrapper := fpImageWrapper d;
     fpParentImg := fpParentImg d; fDOSVolumeNum := fDOSVolumeNum d;
     fOuterLength := fOuterLength d; fWrappedLength := fWrappedLength d; fLength := fLength d;
     fExpandable := fExpandable d; fReadOnly := fReadOnly d; fDirty := fDirty d;
     fHasSectors := fHasSectors d; fHasBlocks := fHasBlocks d; fHasNibbles := fHasNibbles d;
     fNumTracks := fNumTracks d; fNumSectPerTrack := fNumSectPerTrack d;
     fNumBlocks := fNumBlocks d; fNotes := fNotes d; fpBadBlockMap := fpBadBlockMap d |}.
Definition set_fFileSysOrder (v : SectorOrder) (d : DiskImg) : DiskImg :=
  {| fOuterFormat := fOuterFormat d; fFileFormat := fFileFormat d; fPhysical := fPhysical d;
     fpNibbleDescr := fpNibbleDescr d; fOrder := fOrder d; fFormat := fFormat d;
     fFileSysOrder := v; fSectorPairing := fSectorPairing d;
     fSectorPairOffset := fSectorPairOffset d; fpOuterGFD := fpOuterGFD d;
     fpWrapperGFD := fpWrapperGFD d; fpDataGFD := fpDataGFD d;
     fpOuterWrapper := fpOuterWrapper d; fpImageWrapper := fpImageWrapper d;
     fpParentImg := fpParentImg d; fDOSVolumeNum := fDOSVolumeNum d;
     fOuterLength := fOuterLength d; fWrappedLength := fWrappedLength d; fLength := fLength d;
     fExpandable := fExpandable d; fReadOnly := fReadOnly d; fDirty := fDirty d;
     fHasSectors := fHasSectors d; fHasBlocks := fHasBlocks d; fHasNibbles := fHasNibbles d;
     fNumTracks := fNumTracks d; fNumSectPerTrack := fNumSectPerTrack d;
     fNumBlocks := fNumBlocks d; fNotes := fNotes d; fpBadBlockMap := fpBadBlockMap d |}.
Definition set_fSectorPairing (v : bool) (d : DiskImg) : DiskImg :=
  {| fOuterFormat := fOuterFormat d; fFileFormat := fFileFormat d; fPhysical := fPhysical d;
     fpNibbleDescr := fpNibbleDescr d; fOrder := fOrder d; fFormat := fFormat d;
     fFileSysOrder := fFileSysOrder d; fSectorPairing := v;
     fSectorPairOffset := fSectorPairOffset d; fpOuterGFD := fpOuterGFD d;
     fpWrapperGFD := fpWrapperGFD d; fpDataGFD := fpDataGFD d;
     fpOuterWrapper := fpOuterWrapper d; fpImageWrapper := fpImageWrapper d;
     fpParentImg := fpParentImg d; fDOSVolumeNum := fDOSVolumeNum d;
     fOuterLength := fOuterLength d; fWrappedLength := fWrappedLength d; fLength := fLength d;
     fExpandable := fExpandable d; fReadOnly := fReadOnly d; fDirty := fDirty d;
     fHasSectors := fHasSectors d; fHasBlocks := fHasBlocks d; fHasNibbles := fHasNibbles d;
     fNumTracks := fNumTracks d; fNumSectPerTrack := fNumSectPerTrack d;
     fNumBlocks := fNumBlocks d; fNotes := fNotes d; fpBadBlockMap := fpBadBlockMap d |}.
Definition set_fSectorPairOffset (v : Z) (d : DiskImg) : DiskImg :=
  {| fOuterFormat := fOuterFormat d; fFileFormat := fFileFormat d; fPhysical := fPhysical d;
     fpNibbleDescr := fpNibbleDescr d; fOrder := fOrder d; fFormat := fFormat d;
     fFileSysOrder := fFileSysOrder d; fSectorPairing := fSectorPairing d;
     fSectorPairOffset := v; fpOuterGFD := fpOuterGFD d; fpWrapperGFD := fpWrapperGFD d;
     fpDataGFD := fpDataGFD d; fpOuterWrapper := fpOuterWrapper d;
     fpImageWrapper := fpImageWrapper d; fpParentImg := fpParentImg d;
     fDOSVolumeNum := fDOSVolumeNum d; fOuterLength := fOuterLength d;
     fWrappedLength := fWrappedLength d; fLength := fLength d; fExpandable := fExpandable d;
     fReadOnly := fReadOnly d; fDirty := fDirty d; fHasSectors := fHasSectors d;
     fHasBlocks := fHasBlocks d; fHasNibbles := fHasNibbles d; fNumTracks := fNumTracks d;
     fNumSectPerTrack := fNumSectPerTrack d; fNumBlocks := fNumBlocks d; fNotes := fNotes d;
     fpBadBlockMap := fpBadBlockMap d |}.
Definition set_fpOuterGFD (v : option GFD) (d : DiskImg) : DiskImg :=
  {| fOuterFormat := fOuterFormat d; fFileFormat := fFileFormat d; fPhysical := fPhysical d;
     fpNibbleDescr := fpNibbleDescr d; fOrder := fOrder d; fFormat := fFormat d;
     fFileSysOrder := fFileSysOrder d; fSectorPairing := fSectorPairing d;
     fSectorPairOffset := fSectorPairOffset d; fpOuterGFD := v; fpWrapperGFD := fpWrapperGFD d;
     fpDataGFD := fpDataGFD d; fpOuterWrapper := fpOuterWrapper d;
     fpImageWrapper := fpImageWrapper d; fpParentImg := fpParentImg d;
     fDOSVolumeNum := fDOSVolumeNum d; fOuterLength := fOuterLength d;
     fWrappedLength := fWrappedLength d; fLength := fLength d; fExpandable := fExpandable d;
     fReadOnly := fReadOnly d; fDirty := fDirty d; fHasSectors := fHasSectors d;
     fHasBlocks := fHasBlocks d; fHasNibbles := fHasNibbles d; fNumTracks := fNumTracks d;
     fNumSectPerTrack := fNumSectPerTrack d; fNumBlocks := fNumBlocks d; fNotes := fNotes d;
     fpBadBlockMap := fpBadBlockMap d |}.
Definition set_fpWrapperGFD (v : option GFD) (d : DiskImg) : DiskImg :=
  {| fOuterFormat := fOuterFormat d; fFileFormat := fFileFormat d; fPhysical := fPhysical d;
     fpNibbleDescr := fpNibbleDescr d; fOrder := fOrder d; fFormat := fFormat d;
     fFileSysOrder := fFileSysOrder d; fSectorPairing := fSectorPairing d;
     fSectorPairOffset := fSectorPairOffset d; fpOuterGFD := fpOuterGFD d; fpWrapperGFD := v;
     fpDataGFD := fpDataGFD d; fpOuterWrapper := fpOuterWrapper d;
     fpImageWrapper := fpImageWrapper d; fpParentImg := fpParentImg d;
     fDOSVolumeNum := fDOSVolumeNum d; fOuterLength := fOuterLength d;
     fWrappedLength := fWrappedLength d; fLength := fLength d; fExpandable := fExpandable d;
     fReadOnly := fReadOnly d; fDirty := fDirty d; fHasSectors := fHasSectors d;
     fHasBlocks := fHasBlocks d; fHasNibbles := fHasNibbles d; fNumTracks := fNumTracks d;
     fNumSectPerTrack := fNumSectPerTrack d; fNumBlocks := fNumBlocks d; fNotes := fNotes d;
     fpBadBlockMap := fpBadBlockMap d |}.
Definition set_fpDataGFD (v : option GFD) (d : DiskImg) : DiskImg :=
  {| fOuterFormat := fOuterFormat d; fFileFormat := fFileFormat d; fPhysical := fPhysical d;
     fpNibbleDescr := fpNibbleDescr d; fOrder := fOrder d; fFormat := fFormat d;
     fFileSysOrder := fFileSysOrder d; fSectorPairing := fSectorPairing d;
     fSectorPairOffset := fSectorPairOffset d; fpOuterGFD := fpOuterGFD d;
     fpWrapperGFD := fpWrapperGFD d; fpDataGFD := v; fpOuterWrapper := fpOuterWrapper d;
     fpImageWrapper := fpImageWrapper d; fpParentImg := fpParentImg d;
     fDOSVolumeNum := fDOSVolumeNum d; fOuterLength := fOuterLength d;
     fWrappedLength := fWrappedLength d; fLength := fLength d; fExpandable := fExpandable d;
     fReadOnly := fReadOnly d; fDirty := fDirty d; fHasSectors := fHasSectors d;
     fHasBlocks := fHasBlocks d; fHasNibbles := fHasNibbles d; fNumTracks := fNumTracks d;
     fNumSectPerTrack := fNumSectPerTrack d; fNumBlocks := fNumBlocks d; fNotes := fNotes d;
     fpBadBlockMap := fpBadBlockMap d |}.
Definition set_fpOuterWrapper (v : option OuterWrapper) (d : DiskImg) : DiskImg :=
  {| fOuterFormat := fOuterFormat d; fFileFormat := fFileFormat d; fPhysical := fPhysical d;
     fpNibbleDescr := fpNibbleDescr d; fOrder := fOrder d; fFormat := fFormat d;
     fFileSysOrder := fFileSysOrder d; fSectorPairing := fSectorPairing d;
     fSectorPairOffset := fSectorPairOffset d; fpOuterGFD := fpOuterGFD d;
     fpWrapperGFD := fpWrapperGFD d; fpDataGFD := fpDataGFD d; fpOuterWrapper := v;
     fpImageWrapper := fpImageWrapper d; fpParentImg := fpParentImg d;
     fDOSVolumeNum := fDOSVolumeNum d; fOuterLength := fOuterLength d;
     fWrappedLength := fWrappedLength d; fLength := fLength d; fExpandable := fExpandable d;
     fReadOnly := fReadOnly d; fDirty := fDirty d; fHasSectors := fHasSectors d;
     fHasBlocks := fHasBlocks d; fHasNibbles := fHasNibbles d; fNumTracks := fNumTracks d;
     fNumSectPerTrack := fNumSectPerTrack d; fNumBlocks := fNumBlocks d; fNotes := fNotes d;
     fpBadBlockMap := fpBadBlockMap d |}.
Definition set_fpImageWrapper (v : option ImageWrapper) (d : DiskImg) : DiskImg :=
  {| fOuterFormat := fOuterFormat d; fFileFormat := fFileFormat d; fPhysical := fPhysical d;
     fpNibbleDescr := fpNibbleDescr d; fOrder := fOrder d; fFormat := fFormat d;
     fFileSysOrder := fFileSysOrder d; fSectorPairing := fSectorPairing d;
     fSectorPairOffset := fSectorPairOffset d; fpOuterGFD := fpOuterGFD d;
     fpWrapperGFD := fpWrapperGFD d; fpDataGFD := fpDataGFD d;
     fpOuterWrapper := fpOuterWrapper d; fpImageWrapper := v; fpParentImg := fpParentImg d;
     fDOSVolumeNum := fDOSVolumeNum d; fOuterLength := fOuterLength d;
     fWrappedLength := fWrappedLength d; fLength := fLength d; fExpandable := fExpandable d;
     fReadOnly := fReadOnly d; fDirty := fDirty d; fHasSectors := fHasSectors d;
     fHasBlocks := fHasBlocks d; fHasNibbles := fHasNibbles d; fNumTracks := fNumTracks d;
     fNumSectPerTrack := fNumSectPerTrack d; fNumBlocks := fNumBlocks d; fNotes := fNotes d;
     fpBadBlockMap := fpBadBlockMap d |}.
Definition set_fpParentImg (v : option ImgId) (d : DiskImg) : DiskImg :=
  {| fOuterFormat := fOuterFormat d; fFileFormat := fFileFormat d; fPhysical := fPhysical d;
     fpNibbleDescr := fpNibbleDescr d; fOrder := fOrder d; fFormat := fFormat d;
     fFileSysOrder := fFileSysOrder d; fSectorPairing := fSectorPairing d;
     fSectorPairOffset := fSectorPairOffset d; fpOuterGFD := fpOuterGFD d;
     fpWrapperGFD := fpWrapperGFD d; fpDataGFD := fpDataGFD d;
     fpOuterWrapper := fpOuterWrapper d; fpImageWrapper := fpImageWrapper d; fpParentImg := v;
     fDOSVolumeNum := fDOSVolumeNum d; fOuterLength := fOuterLength d;
     fWrappedLength := fWrappedLength d; fLength := fLength d; fExpandable := fExpandable d;
     fReadOnly := fReadOnly d; fDirty := fDirty d; fHasSectors := fHasSectors d;
     fHasBlocks := fHasBlocks d; fHasNibbles := fHasNibbles d; fNumTracks := fNumTracks d;
     fNumSectPerTrack := fNumSectPerTrack d; fNumBlocks := fNumBlocks d; fNotes := fNotes d;
     fpBadBlockMap := fpBadBlockMap d |}.
Definition set_fDOSVolumeNum (v : Z) (d : DiskImg) : DiskImg :=
  {| fOuterFormat := fOuterFormat d; fFileFormat := fFileFormat d; fPhysical := fPhysical d;
     fpNibbleDescr := fpNibbleDescr d; fOrder := fOrder d; fFormat := fFormat d;
     fFileSysOrder := fFileSysOrder d; fSectorPairing := fSectorPairing d;
     fSectorPairOffset := fSectorPairOffset d; fpOuterGFD := fpOuterGFD d;
     fpWrapperGFD := fpWrapperGFD d; fpDataGFD := fpDataGFD d;
     fpOuterWrapper := fpOuterWrapper d; fpImageWrapper := fpImageWrapper d;
     fpParentImg := fpParentImg d; fDOSVolumeNum := v; fOuterLength := fOuterLength d;
     fWrappedLength := fWrappedLength d; fLength := fLength d; fExpandable := fExpandable d;
     fReadOnly := fReadOnly d; fDirty := fDirty d; fHasSectors := fHasSectors d;
     fHasBlocks := fHasBlocks d; fHasNibbles := fHasNibbles d; fNumTracks := fNumTracks d;
     fNumSectPerTrack := fNumSectPerTrack d; fNumBlocks := fNumBlocks d; fNotes := fNotes d;
     fpBadBlockMap := fpBadBlockMap d |}.
Definition set_fOuterLength (v : Z) (d : DiskImg) : DiskImg :=
  {| fOuterFormat := fOuterFormat d; fFileFormat := fFileFormat d; fPhysical := fPhysical d;
     fpNibbleDescr := fpNibbleDescr d; fOrder := fOrder d; fFormat := fFormat d;
     fFileSysOrder := fFileSysOrder d; fSectorPairing := fSectorPairing d;
     fSectorPairOffset := fSectorPairOffset d; fpOuterGFD := fpOuterGFD d;
     fpWrapperGFD := fpWrapperGFD d; fpDataGFD := fpDataGFD d;
     fpOuterWrapper := fpOuterWrapper d; fpImageWrapper := fpImageWrapper d;
     fpParentImg := fpParentImg d; fDOSVolumeNum := fDOSVolumeNum d; fOuterLength := v;
     fWrappedLength := fWrappedLength d; fLength := fLength d; fExpandable := fExpandable d;
     fReadOnly := fReadOnly d; fDirty := fDirty d; fHasSectors := fHasSectors d;
     fHasBlocks := fHasBlocks d; fHasNibbles := fHasNibbles d; fNumTracks := fNumTracks d;
     fNumSectPerTrack := fNumSectPerTrack d; fNumBlocks := fNumBlocks d; fNotes := fNotes d;
     fpBadBlockMap := fpBadBlockMap d |}.
Definition set_fWrappedLength (v : Z) (d : DiskImg) : DiskImg :=
  {| fOuterFormat := fOuterFormat d; fFileFormat := fFileFormat d; fPhysical := fPhysical d;
     fpNibbleDescr := fpNibbleDescr d; fOrder := fOrder d; fFormat := fFormat d;
     fFileSysOrder := fFileSysOrder d; fSectorPairing := fSectorPairing d;
     fSectorPairOffset := fSectorPairOffset d; fpOuterGFD := fpOuterGFD d;
     fpWrapperGFD := fpWrapperGFD d; fpDataGFD := fpDataGFD d;
     fpOuterWrapper := fpOuterWrapper d; fpImageWrapper := fpImageWrapper d;
     fpParentImg := fpParentImg d; fDOSVolumeNum := fDOSVolumeNum d;
     fOuterLength := fOuterLength d; fWrappedLength := v; fLength := fLength d;
     fExpandable := fExpandable d; fReadOnly := fReadOnly d; fDirty := fDirty d;
     fHasSectors := fHasSectors d; fHasBlocks := fHasBlocks d; fHasNibbles := fHasNibbles d;
     fNumTracks := fNumTracks d; fNumSectPerTrack := fNumSectPerTrack d;
     fNumBlocks := fNumBlocks d; fNotes := fNotes d; fpBadBlockMap := fpBadBlockMap d |}.
Definition set_fLength (v : Z) (d : DiskImg) : DiskImg :=
  {| fOuterFormat := fOuterFormat d; fFileFormat := fFileFormat d; fPhysical := fPhysical d;
     fpNibbleDescr := fpNibbleDescr d; fOrder := fOrder d; fFormat := fFormat d;
     fFileSysOrder := fFileSysOrder d; fSectorPairing := fSectorPairing d;
     fSectorPairOffset := fSectorPairOffset d; fpOuterGFD := fpOuterGFD d;
     fpWrapperGFD := fpWrapperGFD d; fpDataGFD := fpDataGFD d;
     fpOuterWrapper := fpOuterWrapper d; fpImageWrapper := fpImageWrapper d;
     fpParentImg := fpParentImg d; fDOSVolumeNum := fDOSVolumeNum d;
     fOuterLength := fOuterLength d; fWrappedLength := fWrappedLength d; fLength := v;
     fExpandable := fExpandable d; fReadOnly := fReadOnly d; fDirty := fDirty d;
     fHasSectors := fHasSectors d; fHasBlocks := fHasBlocks d; fHasNibbles := fHasNibbles d;
     fNumTracks := fNumTracks d; fNumSectPerTrack := fNumSectPerTrack d;
     fNumBlocks := fNumBlocks d; fNotes := fNotes d; fpBadBlockMap := fpBadBlockMap d |}.
Definition set_fExpandable (v : bool) (d : DiskImg) : DiskImg :=
  {| fOuterFormat := fOuterFormat d; fFileFormat := fFileFormat d; fPhysical := fPhysical d;
     fpNibbleDescr := fpNibbleDescr d; fOrder := fOrder d; fFormat := fFormat d;
     fFileSysOrder := fFileSysOrder d; fSectorPairing := fSectorPairing d;
     fSectorPairOffset := fSectorPairOffset d; fpOuterGFD := fpOuterGFD d;
     fpWrapperGFD := fpWrapperGFD d; fpDataGFD := fpDataGFD d;
     fpOuterWrapper := fpOuterWrapper d; fpImageWrapper := fpImageWrapper d;
     fpParentImg := fpParentImg d; fDOSVolumeNum := fDOSVolumeNum d;
     fOuterLength := fOuterLength d; fWrappedLength := fWrappedLength d; fLength := fLength d;
     fExpandable := v; fReadOnly := fReadOnly d; fDirty := fDirty d;
     fHasSectors := fHasSectors d; fHasBlocks := fHasBlocks d; fHasNibbles := fHasNibbles d;
     fNumTracks := fNumTracks d; fNumSectPerTrack := fNumSectPerTrack d;
     fNumBlocks := fNumBlocks d; fNotes := fNotes d; fpBadBlockMap := fpBadBlockMap d |}.
Definition set_fReadOnly (v : bool) (d : DiskImg) : DiskImg :=
  {| fOuterFormat := fOuterFormat d; fFileFormat := fFileFormat d; fPhysical := fPhysical d;
     fpNibbleDescr := fpNibbleDescr d; fOrder := fOrder d; fFormat := fFormat d;
     fFileSysOrder := fFileSysOrder d; fSectorPairing := fSectorPairing d;
     fSectorPairOffset := fSectorPairOffset d; fpOuterGFD := fpOuterGFD d;
     fpWrapperGFD := fpWrapperGFD d; fpDataGFD := fpDataGFD d;
     fpOuterWrapper := fpOuterWrapper d; fpImageWrapper := fpImageWrapper d;
     fpParentImg := fpParentImg d; fDOSVolumeNum := fDOSVolumeNum d;
     fOuterLength := fOuterLength d; fWrappedLength := fWrappedLength d; fLength := fLength d;
     fExpandable := fExpandable d; fReadOnly := v; fDirty := fDirty d;
     fHasSectors := fHasSectors d; fHasBlocks := fHasBlocks d; fHasNibbles := fHasNibbles d;
     fNumTracks := fNumTracks d; fNumSectPerTrack := fNumSectPerTrack d;
     fNumBlocks := fNumBlocks d; fNotes := fNotes d; fpBadBlockMap := fpBadBlockMap d |}.
Definition set_fDirty (v : bool) (d : DiskImg) : DiskImg :=
  {| fOuterFormat := fOuterFormat d; fFileFormat := fFileFormat d; fPhysical := fPhysical d;
     fpNibbleDescr := fpNibbleDescr d; fOrder := fOrder d; fFormat := fFormat d;
     fFileSysOrder := fFileSysOrder d; fSectorPairing := fSectorPairing d;
     fSectorPairOffset := fSectorPairOffset d; fpOuterGFD := fpOuterGFD d;
     fpWrapperGFD := fpWrapperGFD d; fpDataGFD := fpDataGFD d;
     fpOuterWrapper := fpOuterWrapper d; fpImageWrapper := fpImageWrapper d;
     fpParentImg := fpParentImg d; fDOSVolumeNum := fDOSVolumeNum d;
     fOuterLength := fOuterLength d; fWrappedLength := fWrappedLength d; fLength := fLength d;
     fExpandable := fExpandable d; fReadOnly := fReadOnly d; fDirty := v;
     fHasSectors := fHasSectors d; fHasBlocks := fHasBlocks d; fHasNibbles := fHasNibbles d;
     fNumTracks := fNumTracks d; fNumSectPerTrack := fNumSectPerTrack d;
     fNumBlocks := fNumBlocks d; fNotes := fNotes d; fpBadBlockMap := fpBadBlockMap d |}.
Definition set_fHasSectors (v : bool) (d : DiskImg) : DiskImg :=
  {| fOuterFormat := fOuterFormat d; fFileFormat := fFileFormat d; fPhysical := fPhysical d;
     fpNibbleDescr := fpNibbleDescr d; fOrder := fOrder d; fFormat := fFormat d;
     fFileSysOrder := fFileSysOrder d; fSectorPairing := fSectorPairing d;
     fSectorPairOffset := fSectorPairOffset d; fpOuterGFD := fpOuterGFD d;
     fpWrapperGFD := fpWrapperGFD d; fpDataGFD := fpDataGFD d;
     fpOuterWrapper := fpOuterWrapper d; fpImageWrapper := fpImageWrapper d;
     fpParentImg := fpParentImg d; fDOSVolumeNum := fDOSVolumeNum d;
     fOuterLength := fOuterLength d; fWrappedLength := fWrappedLength d; fLength := fLength d;
     fExpandable := fExpandable d; fReadOnly := fReadOnly d; fDirty := fDirty d;
     fHasSectors := v; fHasBlocks := fHasBlocks d; fHasNibbles := fHasNibbles d;
     fNumTracks := fNumTracks d; fNumSectPerTrack := fNumSectPerTrack d;
     fNumBlocks := fNumBlocks d; fNotes := fNotes d; fpBadBlockMap := fpBadBlockMap d |}.
Definition set_fHasBlocks (v : bool) (d : DiskImg) : DiskImg :=
  {| fOuterFormat := fOuterFormat d; fFileFormat := fFileFormat d; fPhysical := fPhysical d;
     fpNibbleDescr := fpNibbleDescr d; fOrder := fOrder d; fFormat := fFormat d;
     fFileSysOrder := fFileSysOrder d; fSectorPairing := fSectorPairing d;
     fSectorPairOffset := fSectorPairOffset d; fpOuterGFD := fpOuterGFD d;
     fpWrapperGFD := fpWrapperGFD d; fpDataGFD := fpDataGFD d;
     fpOuterWrapper := fpOuterWrapper d; fpImageWrapper := fpImageWrapper d;
     fpParentImg := fpParentImg d; fDOSVolumeNum := fDOSVolumeNum d;
     fOuterLength := fOuterLength d; fWrappedLength := fWrappedLength d; fLength := fLength d;
     fExpandable := fExpandable d; fReadOnly := fReadOnly d; fDirty := fDirty d;
     fHasSectors := fHasSectors d; fHasBlocks := v; fHasNibbles := fHasNibbles d;
     fNumTracks := fNumTracks d; fNumSectPerTrack := fNumSectPerTrack d;
     fNumBlocks := fNumBlocks d; fNotes := fNotes d; fpBadBlockMap := fpBadBlockMap d |}.
Definition set_fHasNibbles (v : bool) (d : DiskImg) : DiskImg :=
  {| fOuterFormat := fOuterFormat d; fFileFormat := fFileFormat d; fPhysical := fPhysical d;
     fpNibbleDescr := fpNibbleDescr d; fOrder := fOrder d; fFormat := fFormat d;
     fFileSysOrder := fFileSysOrder d; fSectorPairing := fSectorPairing d;
     fSectorPairOffset := fSectorPairOffset d; fpOuterGFD := fpOuterGFD d;
     fpWrapperGFD := fpWrapperGFD d; fpDataGFD := fpDataGFD d;
     fpOuterWrapper := fpOuterWrapper d; fpImageWrapper := fpImageWrapper d;
     fpParentImg := fpParentImg d; fDOSVolumeNum := fDOSVolumeNum d;
     fOuterLength := fOuterLength d; fWrappedLength := fWrappedLength d; fLength := fLength d;
     fExpandable := fExpandable d; fReadOnly := fReadOnly d; fDirty := fDirty d;
     fHasSectors := fHasSectors d; fHasBlocks := fHasBlocks d; fHasNibbles := v;
     fNumTracks := fNumTracks d; fNumSectPerTrack := fNumSectPerTrack d;
     fNumBlocks := fNumBlocks d; fNotes := fNotes d; fpBadBlockMap := fpBadBlockMap d |}.
Definition set_fNumTracks (v : Z) (d : DiskImg) : DiskImg :=
  {| fOuterFormat := fOuterFormat d; fFileFormat := fFileFormat d; fPhysical := fPhysical d;
     fpNibbleDescr := fpNibbleDescr d; fOrder := fOrder d; fFormat := fFormat d;
     fFileSysOrder := fFileSysOrder d; fSectorPairing := fSectorPairing d;
     fSectorPairOffset := fSectorPairOffset d; fpOuterGFD := fpOuterGFD d;
     fpWrapperGFD := fpWrapperGFD d; fpDataGFD := fpDataGFD d;
     fpOuterWrapper := fpOuterWrapper d; fpImageWrapper := fpImageWrapper d;
     fpParentImg := fpParentImg d; fDOSVolumeNum := fDOSVolumeNum d;
     fOuterLength := fOuterLength d; fWrappedLength := fWrappedLength d; fLength := fLength d;
     fExpandable := fExpandable d; fReadOnly := fReadOnly d; fDirty := fDirty d;
     fHasSectors := fHasSectors d; fHasBlocks := fHasBlocks d; fHasNibbles := fHasNibbles d;
     fNumTracks := v; fNumSectPerTrack := fNumSectPerTrack d; fNumBlocks := fNumBlocks d;
     fNotes := fNotes d; fpBadBlockMap := fpBadBlockMap d |}.
Definition set_fNumSectPerTrack (v : Z) (d : DiskImg) : DiskImg :=
  {| fOuterFormat := fOuterFormat d; fFileFormat := fFileFormat d; fPhysical := fPhysical d;
     fpNibbleDescr := fpNibbleDescr d; fOrder := fOrder d; fFormat := fFormat d;
     fFileSysOrder := fFileSysOrder d; fSectorPairing := fSectorPairing d;
     fSectorPairOffset := fSectorPairOffset d; fpOuterGFD := fpOuterGFD d;
     fpWrapperGFD := fpWrapperGFD d; fpDataGFD := fpDataGFD d;
     fpOuterWrapper := fpOuterWrapper d; fpImageWrapper := fpImageWrapper d;
     fpParentImg := fpParentImg d; fDOSVolumeNum := fDOSVolumeNum d;
     fOuterLength := fOuterLength d; fWrappedLength := fWrappedLength d; fLength := fLength d;
     fExpandable := fExpandable d; fReadOnly := fReadOnly d; fDirty := fDirty d;
     fHasSectors := fHasSectors d; fHasBlocks := fHasBlocks d; fHasNibbles := fHasNibbles d;
     fNumTracks := fNumTracks d; fNumSectPerTrack := v; fNumBlocks := fNumBlocks d;
     fNotes := fNotes d; fpBadBlockMap := fpBadBlockMap d |}.
Definition set_fNumBlocks (v : Z) (d : DiskImg) : DiskImg :=
  {| fOuterFormat := fOuterFormat d; fFileFormat := fFileFormat d; fPhysical := fPhysical d;
     fpNibbleDescr := fpNibbleDescr d; fOrder := fOrder d; fFormat := fFormat d;
     fFileSysOrder := fFileSysOrder d; fSectorPairing := fSectorPairing d;
     fSectorPairOffset := fSectorPairOffset d; fpOuterGFD := fpOuterGFD d;
     fpWrapperGFD := fpWrapperGFD d; fpDataGFD := fpDataGFD d;
     fpOuterWrapper := fpOuterWrapper d; fpImageWrapper := fpImageWrapper d;
     fpParentImg := fpParentImg d; fDOSVolumeNum := fDOSVolumeNum d;
     fOuterLength := fOuterLength d; fWrappedLength := fWrappedLength d; fLength := fLength d;
     fExpandable := fExpandable d; fReadOnly := fReadOnly d; fDirty := fDirty d;
     fHasSectors := fHasSectors d; fHasBlocks := fHasBlocks d; fHasNibbles := fHasNibbles d;
     fNumTracks := fNumTracks d; fNumSectPerTrack := fNumSectPerTrack d; fNumBlocks := v;
     fNotes := fNotes d; fpBadBlockMap := fpBadBlockMap d |}.
Definition set_fNotes (v : option string) (d : DiskImg) : DiskImg :=
  {| fOuterFormat := fOuterFormat d; fFileFormat := fFileFormat d; fPhysical := fPhysical d;
     fpNibbleDescr := fpNibbleDescr d; fOrder := fOrder d; fFormat := fFormat d;
     fFileSysOrder := fFileSysOrder d; fSectorPairing := fSectorPairing d;
     fSectorPairOffset := fSectorPairOffset d; fpOuterGFD := fpOuterGFD d;
     fpWrapperGFD := fpWrapperGFD d; fpDataGFD := fpDataGFD d;
     fpOuterWrapper := fpOuterWrapper d; fpImageWrapper := fpImageWrapper d;
     fpParentImg := fpParentImg d; fDOSVolumeNum := fDOSVolumeNum d;
     fOuterLength := fOuterLength d; fWrappedLength := fWrappedLength d; fLength := fLength d;
     fExpandable := fExpandable d; fReadOnly := fReadOnly d; fDirty := fDirty d;
     fHasSectors := fHasSectors d; fHasBlocks := fHasBlocks d; fHasNibbles := fHasNibbles d;
     fNumTracks := fNumTracks d; fNumSectPerTrack := fNumSectPerTrack d;
     fNumBlocks := fNumBlocks d; fNotes := v; fpBadBlockMap := fpBadBlockMap d |}.
Definition set_fpBadBlockMap (v : option (gset Z)) (d : DiskImg) : DiskImg :=
  {| fOuterFormat := fOuterFormat d; fFileFormat := fFileFormat d; fPhysical := fPhysical d;
     fpNibbleDescr := fpNibbleDescr d; fOrder := fOrder d; fFormat := fFormat d;
     fFileSysOrder := fFileSysOrder d; fSectorPairing := fSectorPairing d;
     fSectorPairOffset := fSectorPairOffset d; fpOuterGFD := fpOuterGFD d;
     fpWrapperGFD := fpWrapperGFD d; fpDataGFD := fpDataGFD d;
     fpOuterWrapper := fpOuterWrapper d; fpImageWrapper := fpImageWrapper d;
     fpParentImg := fpParentImg d; fDOSVolumeNum := fDOSVolumeNum d;
     fOuterLength := fOuterLength d; fWrappedLength := fWrappedLength d; fLength := fLength d;
     fExpandable := fExpandable d; fReadOnly := fReadOnly d; fDirty := fDirty d;
     fHasSectors := fHasSectors d; fHasBlocks := fHasBlocks d; fHasNibbles := fHasNibbles d;
     fNumTracks := fNumTracks d; fNumSectPerTrack := fNumSectPerTrack d;
     fNumBlocks := fNumBlocks d; fNotes := fNotes d; fpBadBlockMap := v |}.

(** The state of the program: the DiskImg objects by address, and the byte
    arrays behind the GenericFDs. *)
Record World : Type := mkWorld {
  imgs : gmap ImgId DiskImg;
  files : Files
}.

Definition set_img (id : ImgId) (d : DiskImg) (w : World) : World :=
  {| imgs := <[id := d]> (imgs w); files := files w |}.

Definition set_files (fs : Files) (w : World) : World :=
  {| imgs := imgs w; files := fs |}.

(** DiskImg::DiskImg. *)
Definition DiskImg_new : DiskImg :=
  {| fOuterFormat := kOuterFormatUnknown; fFileFormat := kFileFormatUnknown;
     fPhysical := kPhysicalFormatUnknown; fpNibbleDescr := None;
     fOrder := kSectorOrderUnknown; fFormat := kFormatUnknown;
     fFileSysOrder := kSectorOrderUnknown;
     fSectorPairing := false; fSectorPairOffset := -1;
     fpOuterGFD := None; fpWrapperGFD := None; fpDataGFD := None;
     fpOuterWrapper := None; fpImageWrapper := None; fpParentImg := None;
     fDOSVolumeNum := kVolumeNumNotSet;
     fOuterLength := -1; fWrappedLength := -1; fLength := -1;
     fExpandable := false; fReadOnly := true; fDirty := false;
     fHasSectors := false; fHasBlocks := false; fHasNibbles := false;
     fNumTracks := -1; fNumSectPerTrack := -1; fNumBlocks := -1;
     fNotes := None; fpBadBlockMap := None |}.

(** ** Block/track/sector I/O *)

(** The sector order conversion tables of [CalcSectorAndOffset]. *)
Definition raw2dos : list Z :=
  [0; 7; 14; 6; 13; 5; 12; 4; 11; 3; 10; 2; 9; 1; 8; 15].
Definition dos2raw : list Z :=
  [0; 13; 11; 9; 7; 5; 3; 1; 14; 12; 10; 8; 6; 4; 2; 15].
Definition raw2prodos : list Z :=
  [0; 8; 1; 9; 2; 10; 3; 11; 4; 12; 5; 13; 6; 14; 7; 15].
Definition prodos2raw : list Z :=
  [0; 2; 4; 6; 8; 10; 12; 14; 1; 3; 5; 7; 9; 11; 13; 15].
Definition raw2cpm : list Z :=
  [0; 11; 6; 1; 12; 7; 2; 13; 8; 3; 14; 9; 4; 15; 10; 5].
Definition cpm2raw : list Z :=
  [0; 3; 6; 9; 12; 15; 2; 5; 8; 11; 14; 1; 4; 7; 10; 13].

(** [table[i]] for a C array: undefined outside the bounds. *)
Definition index (table : list Z) (i : Z) : option Z :=
  if i <? 0 then None else table !! Z.to_nat i.

(** "convert request to raw sector number": the switch on [fsOrder]. *)
Definition fs_to_raw (fsOrder : SectorOrder) (sector : Z) : option Z :=
  match fsOrder with
  | kSectorOrderProDOS => index prodos2raw sector
  | kSectorOrderDOS => index dos2raw sector
  | kSectorOrderCPM => index cpm2raw sector
  | kSectorOrderPhysical => Some sector
  | kSectorOrderUnknown => Some sector
  end.

(** "convert raw request to the image's ordering": the switch on
    [imageOrder]. *)
Definition raw_to_image (imageOrder : SectorOrder) (newSector : Z) : option Z :=
  match imageOrder with
  | kSectorOrderProDOS => index raw2prodos newSector
  | kSectorOrderDOS => index raw2dos newSector
  | kSectorOrderCPM => index raw2cpm newSector
  | kSectorOrderPhysical => Some newSector
  | kSectorOrderUnknown => Some newSector
  end.

(** The outcome of a function that returns a DIError and, on success,
    stores results through its pointer arguments. *)
Inductive result (A : Type) : Type :=
  | Ok (a : A)
  | Fail (e : DIError).
Arguments Ok {A} a.
Arguments Fail {A} e.

(** [track * fNumSectPerTrack * kSectorSize], the start of a track in the
    data as [CalcSectorAndOffset] computes it where the sectors are 13, 16
    or 32 to the track: a product of a [long] and two [int]s, taken in
    [long] and widened to [di_off_t] afterwards. *)
Definition track_start (img : DiskImg) (track : Z) : Z :=
  to_long (to_long (track * fNumSectPerTrack img) * kSectorSize).

(** DiskImg::CalcSectorAndOffset.  On success the result is
    [(offset, newSector)].  [offset] is a [di_off_t]: what is added to it
    is added in 64 bits.  ([track *= 2] and [track++] are [long]
    arithmetic; the last branch, for other numbers of sectors, casts
    [track] to [di_off_t] before it multiplies.  [newSector * kSectorSize]
    is a product of [int]s; with 13, 16 or 32 sectors [newSector] is below
    16 and the product exact.) *)
Definition CalcSectorAndOffset (img : DiskImg) (track sector : Z)
    (imageOrder fsOrder : SectorOrder) : option (result (Z * Z)) :=
  if negb (fHasSectors img) then Some (Fail kDIErrUnsupportedAccess)
  else if (track <? 0) || (fNumTracks img <=? track)
  then Some (Fail kDIErrInvalidTrack)
  else if (sector <? 0) || (fNumSectPerTrack img <=? sector)
  then Some (Fail kDIErrInvalidSector)
  else if (fNumSectPerTrack img =? 16) || (fNumSectPerTrack img =? 32) then
    let '(offset, sector) :=
      if fSectorPairing img then
        let track := to_long (track * 2) in
        let '(track, sector) :=
          if 16 <=? sector then (to_long (track + 1), sector - 16)
          else (track, sector) in
        let offset := track_start img track in
        let sector := sector * 2 + fSectorPairOffset img in
        if 16 <=? sector then (offset + 16 * kSectorSize, sector - 16)
        else (offset, sector)
      else
        let offset := track_start img track in
        if 16 <=? sector then (offset + 16 * kSectorSize, sector - 16)
        else (offset, sector) in
    newSector ← fs_to_raw fsOrder sector;
    newSector ← raw_to_image imageOrder newSector;
    Some (Ok (offset + newSector * kSectorSize, newSector))
  else if fNumSectPerTrack img =? 13 then
    let offset := track_start img track in
    let newSector := sector in
    Some (Ok (offset + newSector * kSectorSize, newSector))
  else
    let offset := track * fNumSectPerTrack img * kSectorSize in
    Some (Ok (offset + to_int (sector * kSectorSize), -1)).

(** The nibble codec (Nibble.cpp) is not part of this layer; the entry
    points that this layer calls are taken as operations. *)
Record NibbleOps : Type := mkNibbleOps {
  ReadNibbleSector : Files → DiskImg → Z → Z → DIError * list byte;
  WriteNibbleSector : World → ImgId → Z → Z → list byte → DIError * World;
  AnalyzeNibbleData : Files → DiskImg → DIError * DiskImg
}.

(** A destination buffer of a read: the nil pointer or caller memory.  A
    read returns, next to its DIError, the bytes it has stored from the
    start of the buffer. *)
Inductive OutBuf : Set := nil_buf | out_buf.

Definition out_is_nil (buf : OutBuf) : bool :=
  match buf with nil_buf => true | out_buf => false end.

(** DiskImg::IsLinearBlocks. *)
Definition IsLinearBlocks (img : DiskImg) (imageOrder fsOrder : SectorOrder)
  : bool :=
  IsSectorFormat (fPhysical img) && fHasBlocks img &&
  bool_decide (imageOrder = fsOrder).

(** DiskImg::CopyBytesOut: seek, then read. *)
Definition CopyBytesOut (fs : Files) (img : DiskImg) (buf : OutBuf)
    (offset size : Z) : option (DIError * list byte) :=
  g ← fpDataGFD img;
  let dierr := GFD_Seek fs g offset in
  if negb (is_ok dierr) then Some (dierr, [])
  else if out_is_nil buf then None
  else
    let '(dierr, data) := GFD_Read fs g offset size in
    if negb (is_ok dierr) then Some (dierr, data)
    else Some (kDIErrNone, data).

(** DiskImg::ReadTrackSectorSwapped. *)
Definition ReadTrackSectorSwapped (nib : NibbleOps) (fs : Files)
    (img : DiskImg) (track sector : Z) (buf : OutBuf)
    (imageOrder fsOrder : SectorOrder) : option (DIError * list byte) :=
  if out_is_nil buf then Some (kDIErrInvalidArg, [])
  else
    r ← CalcSectorAndOffset img track sector imageOrder fsOrder;
    match r with
    | Fail dierr => Some (dierr, [])
    | Ok (offset, newSector) =>
        if IsSectorFormat (fPhysical img)
        then CopyBytesOut fs img buf offset kSectorSize
        else if IsNibbleFormat (fPhysical img)
        then Some (ReadNibbleSector nib fs img track newSector)
        else Some (kDIErrInternal, [])
    end.

(** DiskImg::CheckForBadBlocks: is one of the blocks
    [startBlock .. startBlock+numBlocks-1] in the bad block map?  The
    bound [startBlock+numBlocks] of the loop is a sum of [long]s, exact
    as long as the request ends before block 2^31. *)
Definition CheckForBadBlocks (img : DiskImg) (startBlock numBlocks : Z)
  : bool :=
  match fpBadBlockMap img with
  | None => false
  | Some map =>
      existsb (λ i, bool_decide (i ∈ map)) (seqZ startBlock numBlocks)
  end.

(** [block / (fNumSectPerTrack/2)], the C++ integer division, with the
    block's place in the track. *)
Definition track_of_block (img : DiskImg) (block : Z) : option (Z * Z) :=
  let perTrack := Z.quot (fNumSectPerTrack img) 2 in
  if perTrack =? 0 then None
  else
    let track := Z.quot block perTrack in
    Some (track, block - track * perTrack).

(** DiskImg::ReadBlockSwapped. *)
Definition ReadBlockSwapped (nib : NibbleOps) (fs : Files) (img : DiskImg)
    (block : Z) (buf : OutBuf) (imageOrder fsOrder : SectorOrder)
  : option (DIError * list byte) :=
  if negb (fHasBlocks img) then Some (kDIErrUnsupportedAccess, [])
  else if (block <? 0) || (fNumBlocks img <=? block)
  then Some (kDIErrInvalidBlock, [])
  else if out_is_nil buf then Some (kDIErrInvalidArg, [])
  else if CheckForBadBlocks img block 1 then Some (kDIErrReadFailed, [])
  else if fHasSectors img && negb (IsLinearBlocks img imageOrder fsOrder) then
    '(track, blkInTrk) ← track_of_block img block;
    '(dierr, lo) ← ReadTrackSectorSwapped nib fs img track (blkInTrk * 2) buf
                      imageOrder fsOrder;
    if negb (is_ok dierr) then Some (dierr, lo)
    else
      '(dierr, hi) ← ReadTrackSectorSwapped nib fs img track
                        (blkInTrk * 2 + 1) buf imageOrder fsOrder;
      Some (dierr, lo ++ hi)
  else if fHasBlocks img
  then CopyBytesOut fs img buf (block * kBlockSize) kBlockSize
  else Some (kDIErrInternal, []).

(** Modelled from the spec: [ReadBlock] is an inline member of DiskImg.h.
    The spec's read_block reads in the image's own orderings (the
    "imageOrder" argument comes from fOrder and "fsOrder" from
    fFileSysOrder). *)
Definition ReadBlock (nib : NibbleOps) (fs : Files) (img : DiskImg)
    (block : Z) (buf : OutBuf) : option (DIError * list byte) :=
  ReadBlockSwapped nib fs img block buf (fOrder img) (fFileSysOrder img).

(** The accessors of DiskImg.h. *)
Definition GetNumBlocks (img : DiskImg) : Z := fNumBlocks img.
Definition GetNumTracks (img : DiskImg) : Z := fNumTracks img.
Definition GetNumSectPerTrack (img : DiskImg) : Z := fNumSectPerTrack img.
Definition GetHasSectors (img : DiskImg) : bool := fHasSectors img.
Definition GetHasBlocks (img : DiskImg) : bool := fHasBlocks img.
Definition GetHasNibbles (img : DiskImg) : bool := fHasNibbles img.
Definition GetReadOnly (img : DiskImg) : bool := fReadOnly img.

(** The block-at-a-time loop of [ReadBlocks]:
    [while (numBlocks--) { ReadBlock(startBlock, buf); ... startBlock++;
    buf += kBlockSize; }], leaving at the first failure.  [numBlocks] is an
    [int]: the loop goes on until the count is zero, also from a negative
    count.  [fuel] bounds the number of passes. *)
Fixpoint ReadBlocks_each (fuel : nat) (nib : NibbleOps) (fs : Files)
    (img : DiskImg) (numBlocks startBlock : Z) (buf : OutBuf)
  : option (DIError * list byte) :=
  if numBlocks =? 0 then Some (kDIErrNone, [])
  else
    match fuel with
    | O => None
    | S fuel =>
        '(dierr, blk) ← ReadBlock nib fs img startBlock buf;
        if negb (is_ok dierr) then Some (dierr, blk)
        else
          '(dierr, rest) ← ReadBlocks_each fuel nib fs img
                              (to_int (numBlocks - 1)) (startBlock + 1) buf;
          Some (dierr, blk ++ rest)
    end.

(** The passes that a block-at-a-time loop from [startBlock] can make: a
    pass for a block outside the image fails and ends the loop, so there
    is one pass for each block from [startBlock] to the end of the image
    and one more. *)
Definition loop_fuel (img : DiskImg) (startBlock : Z) : nat :=
  Z.to_nat (Z.max 0 (GetNumBlocks img - startBlock) + 1).

(** DiskImg::ReadBlocks.  The function asserts [fHasBlocks],
    [startBlock >= 0], [numBlocks > 0] and [buf != nil].  The size of the
    linear read, [numBlocks * kBlockSize], is a product of two [int]s
    passed as an [int]; the offset is cast to [di_off_t] first.  The sum
    [numBlocks + startBlock] of the range check is a [long], exact as
    long as the request ends before block 2^31. *)
Definition ReadBlocks (nib : NibbleOps) (fs : Files) (img : DiskImg)
    (startBlock numBlocks : Z) (buf : OutBuf)
  : option (DIError * list byte) :=
  if (startBlock <? 0) || (GetNumBlocks img <? numBlocks + startBlock)
  then Some (kDIErrInvalidArg, [])
  else if CheckForBadBlocks img startBlock numBlocks
  then Some (kDIErrReadFailed, [])
  else if negb (IsLinearBlocks img (fOrder img) (fFileSysOrder img))
  then ReadBlocks_each (loop_fuel img startBlock) nib fs img numBlocks
         startBlock buf
  else CopyBytesOut fs img buf (startBlock * kBlockSize)
         (to_int (numBlocks * kBlockSize)).

(** A source buffer of a write: the nil pointer or the caller's bytes.
    [buf_take buf size] are the [size] bytes the write reads at [buf];
    reading at nil or past the caller's bytes is undefined. *)
Definition buf_take (buf : option (list byte)) (size : Z)
  : option (list byte) :=
  data ← buf;
  if (size <? 0) || (Z.of_nat (length data) <? size) then None
  else Some (take (Z.to_nat size) data).

(** [(char* )buf + n]. *)
Definition buf_advance (buf : option (list byte)) (n : Z)
  : option (list byte) :=
  drop (Z.to_nat n) <$> buf.

(** The loop that ends [CopyBytesIn]:
    [while (pImg != nil) { pImg->fDirty = true; pImg = pImg->fpParentImg; }].
    [fuel] bounds the walk. *)
Fixpoint set_dirty_chain (fuel : nat) (pImg : option ImgId)
    (m : gmap ImgId DiskImg) : option (gmap ImgId DiskImg) :=
  match pImg with
  | None => Some m
  | Some id =>
      match fuel with
      | O => None
      | S fuel =>
          img ← m !! id;
          set_dirty_chain fuel (fpParentImg img)
            (<[id := set_fDirty true img]> m)
      end
  end.

(** A walk up the parent pointers that does not come back to an image it
    has passed is over after as many steps as there are images; a walk
    that goes round in a circle never ends in the source, and has no
    result here. *)
Definition chain_fuel (m : gmap ImgId DiskImg) : nat := S (size m).

(** DiskImg::CopyBytesIn.  ([DebugBreak] is a debugging aid and has no
    effect on the state.) *)
Definition CopyBytesIn (w : World) (this : ImgId) (buf : option (list byte))
    (offset size : Z) : option (DIError * World) :=
  img ← imgs w !! this;
  if fReadOnly img then Some (kDIErrAccessDenied, w)
  else
    g ← fpDataGFD img;
    let dierr := GFD_Seek (files w) g offset in
    if negb (is_ok dierr) then Some (dierr, w)
    else
      data ← buf_take buf size;
      let '(dierr, fs) := GFD_Write (files w) g offset data in
      if negb (is_ok dierr) then Some (dierr, set_files fs w)
      else
        m ← set_dirty_chain (chain_fuel (imgs w)) (Some this) (imgs w);
        Some (kDIErrNone, {| imgs := m; files := fs |}).

(** DiskImg::WriteTrackSector. *)
Definition WriteTrackSector (nib : NibbleOps) (w : World) (this : ImgId)
    (track sector : Z) (buf : option (list byte))
  : option (DIError * World) :=
  img ← imgs w !! this;
  if bool_decide (buf = None) then Some (kDIErrInvalidArg, w)
  else if fReadOnly img then Some (kDIErrAccessDenied, w)
  else
    r ← CalcSectorAndOffset img track sector (fOrder img) (fFileSysOrder img);
    match r with
    | Fail dierr => Some (dierr, w)
    | Ok (offset, newSector) =>
        if IsSectorFormat (fPhysical img)
        then CopyBytesIn w this buf offset kSectorSize
        else if IsNibbleFormat (fPhysical img)
        then data ← buf_take buf kSectorSize;
             Some (WriteNibbleSector nib w this track newSector data)
        else Some (kDIErrInternal, w)
    end.

(** DiskImg::WriteBlock. *)
Definition WriteBlock (nib : NibbleOps) (w : World) (this : ImgId)
    (block : Z) (buf : option (list byte)) : option (DIError * World) :=
  img ← imgs w !! this;
  if negb (fHasBlocks img) then Some (kDIErrUnsupportedAccess, w)
  else if (block <? 0) || (fNumBlocks img <=? block)
  then Some (kDIErrInvalidBlock, w)
  else if bool_decide (buf = None) then Some (kDIErrInvalidArg, w)
  else if fReadOnly img then Some (kDIErrAccessDenied, w)
  else if fHasSectors img
          && negb (IsLinearBlocks img (fOrder img) (fFileSysOrder img)) then
    '(track, blkInTrk) ← track_of_block img block;
    '(dierr, w) ← WriteTrackSector nib w this track (blkInTrk * 2) buf;
    if negb (is_ok dierr) then Some (dierr, w)
    else WriteTrackSector nib w this track (blkInTrk * 2 + 1)
           (buf_advance buf kSectorSize)
  else if fHasBlocks img
  then CopyBytesIn w this buf (block * kBlockSize) kBlockSize
  else Some (kDIErrInternal, w).

(** The block-at-a-time loop of [WriteBlocks], [while (numBlocks--)] as
    in [ReadBlocks]. *)
Fixpoint WriteBlocks_each (fuel : nat) (nib : NibbleOps) (w : World)
    (this : ImgId) (numBlocks startBlock : Z) (buf : option (list byte))
  : option (DIError * World) :=
  if numBlocks =? 0 then Some (kDIErrNone, w)
  else
    match fuel with
    | O => None
    | S fuel =>
        '(dierr, w) ← WriteBlock nib w this startBlock buf;
        if negb (is_ok dierr) then Some (dierr, w)
        else WriteBlocks_each fuel nib w this (to_int (numBlocks - 1))
               (startBlock + 1) (buf_advance buf kBlockSize)
    end.

(** DiskImg::WriteBlocks.  The function asserts [fHasBlocks],
    [startBlock >= 0], [numBlocks > 0] and [buf != nil].  The size of the
    linear write is the [int] product of [ReadBlocks], and the sum of the
    range check the [long] sum of [ReadBlocks].  The function does not
    look at [fReadOnly] itself: [WriteBlock] and [CopyBytesIn] do. *)
Definition WriteBlocks (nib : NibbleOps) (w : World) (this : ImgId)
    (startBlock numBlocks : Z) (buf : option (list byte))
  : option (DIError * World) :=
  img ← imgs w !! this;
  if (startBlock <? 0) || (GetNumBlocks img <? numBlocks + startBlock)
  then Some (kDIErrInvalidArg, w)
  else if negb (IsLinearBlocks img (fOrder img) (fFileSysOrder img))
  then WriteBlocks_each (loop_fuel img startBlock) nib w this numBlocks
         startBlock buf
  else CopyBytesIn w this buf (startBlock * kBlockSize)
         (to_int (numBlocks * kBlockSize)).

(** ** Wrappers *)

(** What ImageWrapper::Prep stores through its pointer arguments, the damage
    flag it leaves in the wrapper, and the byte arrays after it. *)
Record PrepResult : Type := mkPrepResult {
  pr_err : DIError;
  pr_length : Z;
  pr_physical : PhysicalFormat;
  pr_order : SectorOrder;
  pr_dosVolumeNum : Z;
  pr_badBlockMap : option (gset Z);
  pr_dataGFD : option GFD;
  pr_damaged : bool;
  pr_files : Files
}.

(** What OuterWrapper::Load stores, with the wrapper's damage flag and the
    extension it then reports through GetExtension. *)
Record LoadResult : Type := mkLoadResult {
  lo_err : DIError;
  lo_wrappedLength : Z;
  lo_newGFD : GFD;
  lo_damaged : bool;
  lo_extension : option string;
  lo_files : Files
}.

(** The wrapper classes (ImageWrapper.cpp, OuterWrapper.cpp), GFDFile and
    FindExtension are not part of this layer; they are taken as operations.
    [FindExtension] answers the position of the dot of the extension. *)
Record WrapperOps : Type := mkWrapperOps {
  FindExtension : string → Ascii.ascii → option nat;
  GFDFile_Open : Files → string → bool → DIError * GFD;
  Outer_Test : OuterWrapperClass → Files → GFD → Z → DIError;
  Outer_Load : OuterWrapperClass → Files → GFD → Z → bool → LoadResult;
  Outer_HasFastFlush : OuterWrapperClass → bool;
  Outer_Save : OuterWrapper → Files → option GFD → option GFD → Z
               → DIError * Files;
  Wrapper_Test : ImageWrapperClass → Files → GFD → Z → DIError;
  Wrapper_Prep : ImageWrapperClass → Files → DiskImg → PrepResult;
  Wrapper_HasFastFlush : ImageWrapperClass → bool;
  Wrapper_Flush : ImageWrapper → Files → GFD → GFD → Z → Z
                  → DIError * Z * Files;
  GFD_Flush : Files → GFD → DIError
}.

(** ** Open, flush *)

(** DiskImg::OpenImage(DiskImg* pParent, long firstBlock, long numBlocks):
    a sub-image over a range of blocks of an open image.  The sum
    [firstBlock + numBlocks] and the products [firstBlock * kBlockSize] and
    [numBlocks * kBlockSize] are computed in [long].  [fReadOnly] is
    assigned before GFDGFD::Open is called, and stays assigned when that
    call fails.  (A window that opens on a nil GenericFD is outside the
    model.) *)
Definition OpenImage_blocks (opens : GFDGFD_Open_answer) (w : World)
    (this : ImgId) (pParent : option ImgId) (firstBlock numBlocks : Z)
  : option (DIError * World) :=
  img ← imgs w !! this;
  match fpDataGFD img with
  | Some _ => Some (kDIErrAlreadyOpen, w)
  | None =>
      match pParent with
      | None => Some (kDIErrInvalidArg, w)
      | Some parentId =>
          parent ← imgs w !! parentId;
          if (firstBlock <? 0) || (numBlocks <=? 0)
             || (GetNumBlocks parent <? to_long (firstBlock + numBlocks))
          then Some (kDIErrInvalidArg, w)
          else
            let img := set_fReadOnly (GetReadOnly parent) img in
            let offset := to_long (firstBlock * kBlockSize) in
            let dierr := opens (fpDataGFD parent) offset (fReadOnly img) in
            if negb (is_ok dierr) then Some (dierr, set_img this img w)
            else
              parentGFD ← fpDataGFD parent;
              let gfd := GFDGFD_Open parentGFD offset (fReadOnly img) in
              let img := set_fpDataGFD (Some gfd) img in
              let img := set_fLength (to_long (numBlocks * kBlockSize)) img in
              let img := set_fOuterLength (fLength img)
                           (set_fWrappedLength (fLength img) img) in
              let img := set_fFileFormat kFileFormatUnadorned img in
              let img := set_fPhysical (fPhysical parent) img in
              let img := set_fOrder (fOrder parent) img in
              let img := set_fpParentImg (Some parentId) img in
              Some (dierr, set_img this img w)
      end
  end.

(** The fast-flush test of [FlushImage]: a wrapper is present and slow. *)
Definition slow_wrapper (ops : WrapperOps) (img : DiskImg) : bool :=
  match fpImageWrapper img with
  | Some iw => negb (Wrapper_HasFastFlush ops (iw_class iw))
  | None => false
  end
  || match fpOuterWrapper img with
     | Some ow => negb (Outer_HasFastFlush ops (ow_class ow))
     | None => false
     end.

(** Step 3 of [FlushImage] and its end: rebuild the outer file from the
    wrapper, then clear the dirty flag. *)
Definition FlushImage_outer (ops : WrapperOps) (w : World) (this : ImgId)
    (img : DiskImg) (fs : Files) : DIError * World :=
  match fpOuterWrapper img with
  | Some ow =>
      let '(dierr, fs) :=
        Outer_Save ops ow fs (fpOuterGFD img) (fpWrapperGFD img)
          (fWrappedLength img) in
      if negb (is_ok dierr)
      then (dierr, {| imgs := <[this := img]> (imgs w); files := fs |})
      else (kDIErrNone,
            {| imgs := <[this := set_fDirty false img]> (imgs w);
               files := fs |})
  | None =>
      (kDIErrNone,
       {| imgs := <[this := set_fDirty false img]> (imgs w); files := fs |})
  end.

(** DiskImg::FlushImage.  (The DIError of [fpWrapperGFD->Flush()] is
    overwritten before it is looked at.) *)
Definition FlushImage (ops : WrapperOps) (w : World) (this : ImgId)
    (mode : FlushMode) : option (DIError * World) :=
  img ← imgs w !! this;
  if negb (fDirty img) then Some (kDIErrNone, w)
  else
    match fpDataGFD img with
    | None => Some (kDIErrNone, set_img this (set_fDirty false img) w)
    | Some dataGFD =>
        if match mode with
           | kFlushFastOnly => slow_wrapper ops img
           | kFlushAll => false
           end
        then Some (kDIErrNone, w)
        else
          match fpWrapperGFD img with
          | Some wrapperGFD =>
              iw ← fpImageWrapper img;
              let '(dierr, wrappedLength, fs) :=
                Wrapper_Flush ops iw (files w) wrapperGFD dataGFD
                  (fLength img) (fWrappedLength img) in
              let img := set_fWrappedLength wrappedLength img in
              if negb (is_ok dierr)
              then Some (dierr,
                         {| imgs := <[this := img]> (imgs w); files := fs |})
              else
                let dierr := GFD_Flush ops fs wrapperGFD in
                Some (FlushImage_outer ops w this img fs)
          | None => Some (FlushImage_outer ops w this img (files w))
          end
    end.

(** ** Notes *)

Inductive NoteType : Set := kNoteInfo | kNoteWarning.

Definition newline : string := String (Ascii.ascii_of_nat 10) EmptyString.

Definition slash : Ascii.ascii := Ascii.ascii_of_nat 47.

Definition ends_with_newline (s : string) : bool :=
  match String.get (String.length s - 1) s with
  | Some c => bool_decide (c = Ascii.ascii_of_nat 10)
  | None => false
  end.

(** DiskImg::AddNote for a message without conversions: the highlighted
    note is cut to the 510 characters that fit the local buffer, ends in a
    line feed, and goes after the notes already there. *)
Definition AddNote (type : NoteType) (fmt : string) (img : DiskImg)
  : DiskImg :=
  let prefix := match type with
                | kNoteWarning => "- WARNING: "
                | kNoteInfo => "- "
                end%string in
  let buf := String.substring 0 510 (prefix +:+ fmt) in
  let buf := if (0 <? String.length buf)%nat && negb (ends_with_newline buf)
             then buf +:+ newline else buf in
  match fNotes img with
  | None => set_fNotes (Some buf) img
  | Some notes => set_fNotes (Some (notes +:+ buf)) img
  end.

(** DiskImg::GetNotes. *)
Definition GetNotes (img : DiskImg) : string := default ""%string (fNotes img).

(** ** Filesystem analysis *)

(** The TestFS entry points of the DiskFS classes, in the order in which
    [AnalyzeImageFS] calls them. *)
Inductive FSProbe : Set :=
  | DiskFSMacPart_TestFS | DiskFSMicroDrive_TestFS | DiskFSFocusDrive_TestFS
  | DiskFSCFFA_TestFS | DiskFSFAT_TestFS | DiskFSDOS33_TestFS
  | DiskFSUNIDOS_TestWideFS | DiskFSUNIDOS_TestFS | DiskFSOzDOS_TestFS
  | DiskFSProDOS_TestFS | DiskFSPascal_TestFS | DiskFSCPM_TestFS
  | DiskFSRDOS_TestFS | DiskFSHFS_TestFS.

Inductive FSLeniency : Set := kLeniencyNot | kLeniencyVery.

#[global] Instance FSProbe_eq_dec : EqDecision FSProbe.
Proof. solve_decision. Defined.

(** [TestFS(pImg, &order, &format, leniency)]: the probe reads the image and
    answers a DIError with the order and format it leaves behind the two
    pointers. *)
Definition TestFS := FSProbe → Files → DiskImg → SectorOrder → FSFormat
                     → FSLeniency → DIError * SectorOrder * FSFormat.

(** DiskImg::CalcFSSectorOrder. *)
Definition CalcFSSectorOrder (img : DiskImg) : SectorOrder :=
  if bool_decide (fFormat img = kFormatUnknown)
     || bool_decide (fOrder img = kSectorOrderUnknown)
  then fOrder img
  else
    match fFormat img with
    | kFormatGenericPhysicalOrd | kFormatRDOS32 | kFormatRDOS3 =>
        kSectorOrderPhysical
    | kFormatGenericDOSOrd | kFormatDOS33 | kFormatDOS32 | kFormatUNIDOS
    | kFormatOzDOS =>
        kSectorOrderDOS
    | kFormatGenericCPMOrd | kFormatCPM =>
        kSectorOrderCPM
    | kFormatGenericProDOSOrd | kFormatProDOS | kFormatRDOS33
    | kFormatPascal | kFormatMacHFS | kFormatMacMFS | kFormatLisa
    | kFormatMSDOS | kFormatISO9660 | kFormatCFFA4 | kFormatCFFA8
    | kFormatMacPart | kFormatMicroDrive | kFormatFocusDrive =>
        kSectorOrderProDOS
    | kFormatUnknown => fOrder img
    end.

(** One [TestFS(this, &fOrder, &fFormat, kLeniencyNot)] of [AnalyzeImageFS]:
    the probe writes into the image's own fields. *)
Definition probe_image (test : TestFS) (fs : Files) (p : FSProbe)
    (img : DiskImg) : bool * DiskImg :=
  let '(dierr, order, format) :=
    test p fs img (fOrder img) (fFormat img) kLeniencyNot in
  (is_ok dierr, set_fFormat format (set_fOrder order img)).

(** The "wide" geometry of the UNIDOS and OzDOS branches:
    [fNumSectPerTrack = 32; fNumTracks /= 2]. *)
Definition widen (img : DiskImg) : DiskImg :=
  set_fNumTracks (Z.quot (fNumTracks img) 2) (set_fNumSectPerTrack 32 img).

(** DiskImg::AnalyzeImageFS.  The result carries the probes that were
    called, in the order of the calls. *)
Definition AnalyzeImageFS (test : TestFS) (fs : Files) (img : DiskImg)
  : DiskImg * list FSProbe :=
  let finish (img : DiskImg) (called : list FSProbe) :=
    (set_fFileSysOrder (CalcFSSectorOrder img) img, called) in
  let called := [] in
  let '(found, img) := probe_image test fs DiskFSMacPart_TestFS img in
  let called := called ++ [DiskFSMacPart_TestFS] in
  if found then finish img called else
  let '(found, img) := probe_image test fs DiskFSMicroDrive_TestFS img in
  let called := called ++ [DiskFSMicroDrive_TestFS] in
  if found then finish img called else
  let '(found, img) := probe_image test fs DiskFSFocusDrive_TestFS img in
  let called := called ++ [DiskFSFocusDrive_TestFS] in
  if found then finish img called else
  let '(found, img) := probe_image test fs DiskFSCFFA_TestFS img in
  let called := called ++ [DiskFSCFFA_TestFS] in
  if found then finish img called else
  let '(found, img) := probe_image test fs DiskFSFAT_TestFS img in
  let called := called ++ [DiskFSFAT_TestFS] in
  if found then finish img called else
  let '(found, img) := probe_image test fs DiskFSDOS33_TestFS img in
  let called := called ++ [DiskFSDOS33_TestFS] in
  if found then finish (if fNumSectPerTrack img =? 13
            then set_fFormat kFormatDOS32 img else img) called else
  let '(found, img) := probe_image test fs DiskFSUNIDOS_TestWideFS img in
  let called := called ++ [DiskFSUNIDOS_TestWideFS] in
  if found then finish (widen img) called else
  let '(found, img) := probe_image test fs DiskFSUNIDOS_TestFS img in
  let called := called ++ [DiskFSUNIDOS_TestFS] in
  if found then finish (widen img) called else
  let '(found, img) := probe_image test fs DiskFSOzDOS_TestFS img in
  let called := called ++ [DiskFSOzDOS_TestFS] in
  if found then finish (widen img) called else
  let '(found, img) := probe_image test fs DiskFSProDOS_TestFS img in
  let called := called ++ [DiskFSProDOS_TestFS] in
  if found then finish img called else
  let '(found, img) := probe_image test fs DiskFSPascal_TestFS img in
  let called := called ++ [DiskFSPascal_TestFS] in
  if found then finish img called else
  let '(found, img) := probe_image test fs DiskFSCPM_TestFS img in
  let called := called ++ [DiskFSCPM_TestFS] in
  if found then finish img called else
  let '(found, img) := probe_image test fs DiskFSRDOS_TestFS img in
  let called := called ++ [DiskFSRDOS_TestFS] in
  if found then finish img called else
  let '(found, img) := probe_image test fs DiskFSHFS_TestFS img in
  let called := called ++ [DiskFSHFS_TestFS] in
  if found then finish img called else
  finish (set_fFormat kFormatUnknown img) called.

(** ** Geometry analysis *)

(** DiskImg::AnalyzeImage, the part that works out tracks and sectors.  The
    fields written before a failure stay written.  The quotients are
    taken in [di_off_t] and cast to [int] and [long]; the casts keep the
    value of every length under 512 GiB. *)
Definition AnalyzeImage_geometry (nib : NibbleOps) (fs : Files)
    (img : DiskImg) : option (DIError * DiskImg) :=
  if IsSectorFormat (fPhysical img) then
    if fLength img =? 0 then Some (kDIErrOddLength, img)
    else if fLength img =? kD13Length then
      Some (kDIErrNone,
            set_fNumTracks kTrackCount525
              (set_fNumSectPerTrack 13 (set_fHasSectors true img)))
    else if Z.rem (fLength img) (16 * kSectorSize) =? 0 then
      let img := set_fNumSectPerTrack 16 (set_fHasSectors true img) in
      let img := set_fNumTracks
                   (Z.quot (fLength img) (fNumSectPerTrack img * kSectorSize))
                   img in
      let img := if fSectorPairing img
                    && negb (Z.land (fNumTracks img) 1 =? 0)
                 then set_fSectorPairing false img else img in
      let img := if fSectorPairing img
                 then set_fNumTracks (Z.quot (fNumTracks img) 2) img
                 else img in
      Some (kDIErrNone, img)
    else if fSectorPairing img then Some (kDIErrOddLength, img)
    else
      Some (kDIErrNone,
            set_fNumBlocks (Z.quot (fLength img) kBlockSize)
              (set_fHasBlocks true img))
  else if IsNibbleFormat (fPhysical img) then
    let img := set_fHasSectors true (set_fHasNibbles true img) in
    let '(dierr, img) := AnalyzeNibbleData nib fs img in
    if is_ok dierr then
      descr ← fpNibbleDescr img;
      let img := set_fOrder kSectorOrderPhysical
                   (set_fNumSectPerTrack (numSectors descr) img) in
      if negb (fReadOnly img) && negb (dataVerifyChecksum descr)
      then Some (kDIErrNone,
                 set_fReadOnly true
                   (AddNote kNoteInfo
                      "Sectors use non-standard data checksums; writing disabled."
                      img))
      else Some (kDIErrNone, img)
    else
      Some (kDIErrNone,
            set_fHasSectors false
              (set_fOrder kSectorOrderPhysical
                 (set_fNumSectPerTrack (-1) img)))
  else Some (kDIErrGeneric, img).

(** DiskImg::AnalyzeImage, the part that works out the number of blocks.
    [fNumTracks * fNumSectPerTrack] is a product of [int]s, exact below
    2^31 sectors; the cast of [fLength / kBlockSize] to [long] keeps the
    value below 2^31 blocks. *)
Definition AnalyzeImage_blocks (img : DiskImg) : DIError * DiskImg :=
  if fHasSectors img then
    if Z.land (fNumSectPerTrack img) 1 =? 0
    then (kDIErrNone,
          set_fNumBlocks
            (Z.quot (fNumTracks img * fNumSectPerTrack img) 2)
            (set_fHasBlocks true img))
    else (kDIErrNone, img)
  else if fHasBlocks img then
    if Z.rem (fLength img) kBlockSize =? 0 then
      let img := set_fNumBlocks (Z.quot (fLength img) kBlockSize)
                   (set_fHasBlocks true img) in
      if fSectorPairing img then
        if negb (Z.land (fNumBlocks img) 1 =? 0)
        then (kDIErrNone, set_fSectorPairing false img)
        else (kDIErrNone, set_fNumBlocks (Z.quot (fNumBlocks img) 2) img)
      else (kDIErrNone, img)
    else (kDIErrGeneric, img)
  else if fHasNibbles img then (kDIErrNone, img)
  else (kDIErrInternal, img).

(** DiskImg::AnalyzeImage. *)
Definition AnalyzeImage (nib : NibbleOps) (test : TestFS) (fs : Files)
    (img : DiskImg) : option (DIError * DiskImg * list FSProbe) :=
  match fpDataGFD img with
  | None => Some (kDIErrInternal, img, [])
  | Some _ =>
      '(dierr, img) ← AnalyzeImage_geometry nib fs img;
      if negb (is_ok dierr) then Some (dierr, img, [])
      else
        let '(dierr, img) := AnalyzeImage_blocks img in
        if negb (is_ok dierr) then Some (dierr, img, [])
        else
          let '(img, called) := AnalyzeImageFS test fs img in
          Some (kDIErrNone, img, called)
  end.

(** ** Format override *)

(** The switch of [OverrideFormat]: the probe to run again for a format,
    if there is one to run. *)
Definition override_probe (format : FSFormat) : option (option FSProbe) :=
  match format with
  | kFormatDOS33 | kFormatDOS32 => Some (Some DiskFSDOS33_TestFS)
  | kFormatProDOS => Some (Some DiskFSProDOS_TestFS)
  | kFormatPascal => Some (Some DiskFSPascal_TestFS)
  | kFormatMacHFS => Some (Some DiskFSHFS_TestFS)
  | kFormatUNIDOS => Some (Some DiskFSUNIDOS_TestFS)
  | kFormatOzDOS => Some (Some DiskFSOzDOS_TestFS)
  | kFormatCFFA4 | kFormatCFFA8 => Some (Some DiskFSCFFA_TestFS)
  | kFormatMacPart => Some (Some DiskFSMacPart_TestFS)
  | kFormatMicroDrive => Some (Some DiskFSMicroDrive_TestFS)
  | kFormatFocusDrive => Some (Some DiskFSFocusDrive_TestFS)
  | kFormatCPM => Some (Some DiskFSCPM_TestFS)
  | kFormatMSDOS => Some (Some DiskFSFAT_TestFS)
  | kFormatRDOS33 | kFormatRDOS32 | kFormatRDOS3 =>
      Some (Some DiskFSRDOS_TestFS)
  | kFormatGenericPhysicalOrd | kFormatGenericProDOSOrd
  | kFormatGenericDOSOrd | kFormatGenericCPMOrd => Some None
  | kFormatUnknown => Some None
  | kFormatMacMFS | kFormatLisa | kFormatISO9660 => None
  end.

Definition is_RDOS (format : FSFormat) : bool :=
  match format with
  | kFormatRDOS33 | kFormatRDOS32 | kFormatRDOS3 => true
  | _ => false
  end.

(** DiskImg::OverrideFormat.  The result carries the probes that were
    called. *)
Definition OverrideFormat (test : TestFS) (fs : Files) (img : DiskImg)
    (physical : PhysicalFormat) (format : FSFormat) (order : SectorOrder)
  : DIError * DiskImg * list FSProbe :=
  if negb (IsSectorFormat physical) && negb (IsNibbleFormat physical)
  then (kDIErrUnsupportedPhysicalFmt, img, [])
  else if negb (bool_decide (physical = fPhysical img))
  then (kDIErrInvalidArg, img, [])
  else if bool_decide (physical = fPhysical img)
          && bool_decide (format = fFormat img)
          && bool_decide (order = fOrder img)
  then (kDIErrNone, img, [])
  else
    let '(dierr, newOrder, newFormat, called) :=
      match override_probe format with
      | Some (Some p) =>
          let '(dierr, newOrder, newFormat) :=
            test p fs img order format kLeniencyVery in
          if is_RDOS format && negb (bool_decide (newFormat = format))
          then (kDIErrFilesystemNotFound, newOrder, newFormat, [p])
          else (dierr, newOrder, newFormat, [p])
      | Some None => (kDIErrNone, order, format, [])
      | None => (kDIErrUnsupportedFSFmt, order, format, [])
      end in
    if negb (is_ok dierr) then (dierr, img, called)
    else if negb (bool_decide (newOrder = order))
    then (kDIErrBadOrdering, img, called)
    else
      let img := set_fOrder newOrder (set_fFormat format img) in
      (kDIErrNone, set_fFileSysOrder (CalcFSSectorOrder img) img, called).

(** ** Image creation *)

Definition is_ {A} `{EqDecision A} (x y : A) : bool := bool_decide (x = y).
Definition isnt {A} `{EqDecision A} (x y : A) : bool :=
  negb (bool_decide (x = y)).

(** [ValidateCreateFormat], "check for invalid arguments". *)
Definition validate_arguments (img : DiskImg) : DIError :=
  if fHasBlocks img && (4194304 <=? fNumBlocks img)
     && isnt (fFileFormat img) kFileFormatUnadorned
  then kDIErrInvalidCreateReq
  else if is_ (fOuterFormat img) kOuterFormatUnknown
          || is_ (fFileFormat img) kFileFormatUnknown
          || is_ (fPhysical img) kPhysicalFormatUnknown
          || is_ (fOrder img) kSectorOrderUnknown
          || is_ (fFormat img) kFormatUnknown
  then kDIErrInvalidCreateReq
  else if isnt (fOuterFormat img) kOuterFormatNone
          && isnt (fOuterFormat img) kOuterFormatGzip
          && isnt (fOuterFormat img) kOuterFormatZip
  then kDIErrInvalidCreateReq
  else if isnt (fFileFormat img) kFileFormatUnadorned
          && isnt (fFileFormat img) kFileFormat2MG
          && isnt (fFileFormat img) kFileFormatDiskCopy42
          && isnt (fFileFormat img) kFileFormatSim2eHDV
          && isnt (fFileFormat img) kFileFormatTrackStar
          && isnt (fFileFormat img) kFileFormatFDI
          && isnt (fFileFormat img) kFileFormatNuFX
          && isnt (fFileFormat img) kFileFormatDDD
  then kDIErrInvalidCreateReq
  else if isnt (fFormat img) kFormatGenericPhysicalOrd
          && isnt (fFormat img) kFormatGenericProDOSOrd
          && isnt (fFormat img) kFormatGenericDOSOrd
          && isnt (fFormat img) kFormatGenericCPMOrd
  then kDIErrInvalidCreateReq
  else kDIErrNone.

(** [ValidateCreateFormat], the block [if (fPhysical != kPhysicalFormatSectors)]. *)
Definition validate_nibble (img : DiskImg) : DIError :=
  if isnt (fPhysical img) kPhysicalFormatSectors then
    if isnt (fOrder img) kSectorOrderPhysical then kDIErrInvalidCreateReq
    else if negb (GetHasSectors img) && negb (GetHasNibbles img)
    then kDIErrInvalidCreateReq
    else if match fpNibbleDescr img with
            | None => 0 <? GetNumSectPerTrack img
            | Some _ => false
            end
    then kDIErrInvalidCreateReq
    else if match fpNibbleDescr img with
            | Some descr => negb (numSectors descr =? GetNumSectPerTrack img)
            | None => false
            end
    then kDIErrInvalidCreateReq
    else if match fpNibbleDescr img with
            | Some descr =>
                ((numSectors descr =? 13)
                 && isnt (encoding descr) kNibbleEnc53)
                || ((numSectors descr =? 16)
                    && isnt (encoding descr) kNibbleEnc62)
            | None => false
            end
    then kDIErrInvalidCreateReq
    else if negb (GetNumTracks img =? kTrackCount525)
            && negb ((GetNumTracks img =? 40)
                     && is_ (fFileFormat img) kFileFormatTrackStar)
    then kDIErrInvalidCreateReq
    else kDIErrNone
  else kDIErrNone.

(** [ValidateCreateFormat], the blocks of the file formats. *)
Definition validate_2MG (img : DiskImg) : DIError :=
  if is_ (fFileFormat img) kFileFormat2MG then
    if isnt (fPhysical img) kPhysicalFormatSectors
       && isnt (fPhysical img) kPhysicalFormatNib525_6656
    then kDIErrInvalidCreateReq
    else if is_ (fPhysical img) kPhysicalFormatSectors
            && (isnt (fOrder img) kSectorOrderProDOS
                && isnt (fOrder img) kSectorOrderDOS)
    then kDIErrInvalidCreateReq
    else kDIErrNone
  else kDIErrNone.

Definition validate_NuFX (img : DiskImg) : DIError :=
  if is_ (fFileFormat img) kFileFormatNuFX then
    if isnt (fOuterFormat img) kOuterFormatNone then kDIErrInvalidCreateReq
    else if isnt (fPhysical img) kPhysicalFormatSectors
    then kDIErrInvalidCreateReq
    else if isnt (fOrder img) kSectorOrderProDOS then kDIErrInvalidCreateReq
    else kDIErrNone
  else kDIErrNone.

Definition validate_DiskCopy42 (img : DiskImg) : DIError :=
  if is_ (fFileFormat img) kFileFormatDiskCopy42 then
    if isnt (fPhysical img) kPhysicalFormatSectors then kDIErrInvalidCreateReq
    else if (GetHasBlocks img && negb (GetNumBlocks img =? 1600))
            || (GetHasSectors img
                && (negb (GetNumTracks img =? 200)
                    || negb (GetNumSectPerTrack img =? 16)))
    then kDIErrInvalidCreateReq
    else if isnt (fOrder img) kSectorOrderProDOS
            && isnt (fOrder img) kSectorOrderDOS
    then kDIErrInvalidCreateReq
    else kDIErrNone
  else kDIErrNone.

Definition validate_Sim2eHDV (img : DiskImg) : DIError :=
  if is_ (fFileFormat img) kFileFormatSim2eHDV then
    if isnt (fPhysical img) kPhysicalFormatSectors then kDIErrInvalidCreateReq
    else if isnt (fOrder img) kSectorOrderProDOS then kDIErrInvalidCreateReq
    else kDIErrNone
  else kDIErrNone.

Definition validate_TrackStar (img : DiskImg) : DIError :=
  if is_ (fFileFormat img) kFileFormatTrackStar
     && isnt (fPhysical img) kPhysicalFormatNib525_Var
  then kDIErrInvalidCreateReq else kDIErrNone.

Definition validate_FDI (img : DiskImg) : DIError :=
  if is_ (fFileFormat img) kFileFormatFDI
     && isnt (fPhysical img) kPhysicalFormatNib525_Var
  then kDIErrInvalidCreateReq else kDIErrNone.

Definition validate_DDD (img : DiskImg) : DIError :=
  if is_ (fFileFormat img) kFileFormatDDD then
    if isnt (fPhysical img) kPhysicalFormatSectors then kDIErrInvalidCreateReq
    else if isnt (fOrder img) kSectorOrderDOS then kDIErrInvalidCreateReq
    else if negb (GetHasSectors img) || negb (GetNumTracks img =? 35)
            || negb (GetNumSectPerTrack img =? 16)
    then kDIErrInvalidCreateReq
    else kDIErrNone
  else kDIErrNone.

(** The first DIError of a sequence of checks, each of which returns from
    the function when it fails. *)
Fixpoint first_error (checks : list DIError) : DIError :=
  match checks with
  | [] => kDIErrNone
  | dierr :: checks => if is_ok dierr then first_error checks else dierr
  end.

(** DiskImg::ValidateCreateFormat. *)
Definition ValidateCreateFormat (img : DiskImg) : DIError :=
  first_error
    [ validate_arguments img; validate_nibble img; validate_2MG img;
      validate_NuFX img; validate_DiskCopy42 img; validate_Sim2eHDV img;
      validate_TrackStar img; validate_FDI img; validate_DDD img ].

(** DiskImg::SetCustomNibbleDescr (the descriptor table apart). *)
Definition SetCustomNibbleDescr (pDescr : option NibbleDescr)
    (img : DiskImg) : DiskImg :=
  set_fpNibbleDescr pDescr img.

(** DiskImg::CreateImageCommon, steps 1 and 2: the capability flags, then
    the validation.  (Steps 3 to 6 create the file and the wrapper.)
    [fNumTracks * fNumSectPerTrack] is a product of [int]s, exact below
    2^31 sectors. *)
Definition CreateImageCommon_validate (img : DiskImg) : DIError * DiskImg :=
  let img :=
    if fHasBlocks img then
      if Z.rem (fNumBlocks img) 8 =? 0
      then set_fNumTracks (Z.quot (fNumBlocks img) 8)
             (set_fNumSectPerTrack 16 (set_fHasSectors true img))
      else img
    else if fHasSectors img then
      if Z.land (fNumSectPerTrack img) 1 =? 0
      then set_fNumBlocks
             (Z.quot (fNumTracks img * fNumSectPerTrack img) 2)
             (set_fHasBlocks true img)
      else img
    else img in
  let img :=
    if fHasSectors img
       && negb (bool_decide (fPhysical img = kPhysicalFormatSectors))
    then set_fHasNibbles true img else img in
  let img := set_fFileSysOrder (CalcFSSectorOrder img) img in
  let img := set_fDirty true (set_fReadOnly false img) in
  (ValidateCreateFormat img, img).

(** DiskImg::CreateImage, the overload that takes tracks and sectors, up
    to the validation of [CreateImageCommon]. *)
Definition CreateImage_tracks (img : DiskImg) (outerFormat : OuterFormat)
    (fileFormat : FileFormat) (physical : PhysicalFormat)
    (pNibbleDescr : option NibbleDescr) (order : SectorOrder)
    (format : FSFormat) (numTracks numSectPerTrack : Z)
  : DIError * DiskImg :=
  if (numTracks <=? 0) || (numSectPerTrack =? 0)
  then (kDIErrInvalidCreateReq, img)
  else
    let img := set_fOuterFormat outerFormat img in
    let img := set_fFileFormat fileFormat img in
    let img := set_fPhysical physical img in
    let img := SetCustomNibbleDescr pNibbleDescr img in
    let img := set_fOrder order img in
    let img := set_fFormat format img in
    let img := set_fNumTracks numTracks img in
    let img := set_fNumSectPerTrack numSectPerTrack img in
    let img := set_fHasSectors true img in
    if numSectPerTrack <? 0 then
      if negb (IsNibbleFormat (fPhysical img))
      then (kDIErrInvalidCreateReq, img)
      else CreateImageCommon_validate
             (set_fpNibbleDescr None
                (set_fHasSectors false (set_fHasNibbles true img)))
    else CreateImageCommon_validate img.

(** ** Image file analysis *)

(** The calls that [AnalyzeImageFile] makes into the wrapper classes. *)
Inductive FileProbe : Set :=
  | CallOuterTest (c : OuterWrapperClass)
  | CallOuterLoad (c : OuterWrapperClass)
  | CallWrapperTest (c : ImageWrapperClass)
  | CallWrapperPrep (c : ImageWrapperClass).

Definition lower (c : Ascii.ascii) : Ascii.ascii :=
  let n := Ascii.nat_of_ascii c in
  if (65 <=? n)%nat && (n <=? 90)%nat then Ascii.ascii_of_nat (n + 32) else c.

Fixpoint lowercase (s : string) : string :=
  match s with
  | EmptyString => EmptyString
  | String c s => String (lower c) (lowercase s)
  end.

(** [strcasecmp(a, b) == 0]. *)
Definition strcasecmp_eq (a b : string) : bool :=
  bool_decide (lowercase a = lowercase b).

(** The text after the dot that [FindExtension] points at, or the empty
    string. *)
Definition extension (ops : WrapperOps) (pathName : string)
    (fssep : Ascii.ascii) : string :=
  match FindExtension ops pathName fssep with
  | Some dot =>
      String.substring (S dot) (String.length pathName - S dot) pathName
  | None => ""
  end.

(** "drop the .gz and get down to the next extension". *)
Definition extension_under_gz (ops : WrapperOps) (pathName : string)
    (fssep : Ascii.ascii) : string :=
  let extBuf := match FindExtension ops pathName fssep with
                | Some dot => String.substring 0 dot pathName
                | None => pathName
                end in
  extension ops extBuf fssep.

(** [AnalyzeImageFile], "finish up outer wrapper stuff". *)
Definition AnalyzeImageFile_load (ops : WrapperOps) (fs : Files)
    (img : DiskImg) (wrapperGFD : GFD) (c : OuterWrapperClass)
    (ext : string) (needExtFromOuter : bool)
  : DIError * DiskImg * Files * string :=
  let r := Outer_Load ops c fs wrapperGFD (fOuterLength img)
             (fReadOnly img) in
  let img := set_fWrappedLength (lo_wrappedLength r) img in
  if negb (is_ok (lo_err r)) then (lo_err r, img, lo_files r, ext)
  else
    let img := set_fpOuterWrapper (Some (mkOuterWrapper c (lo_damaged r)))
                 img in
    let img :=
      if lo_damaged r
      then set_fReadOnly true
             (AddNote kNoteWarning
                "The zip/gzip wrapper appears to be damaged." img)
      else img in
    let img := set_fpWrapperGFD (Some (lo_newGFD r))
                 (set_fpOuterGFD (fpWrapperGFD img) img) in
    let ext := if needExtFromOuter then default ""%string (lo_extension r)
               else ext in
    (kDIErrNone, img, lo_files r, ext).

(** [AnalyzeImageFile], the check for a zip/gzip "wrapper wrapper". *)
Definition AnalyzeImageFile_outer (ops : WrapperOps) (fs : Files)
    (img : DiskImg) (wrapperGFD : GFD) (pathName : string)
    (fssep : Ascii.ascii) (ext : string)
  : DIError * DiskImg * Files * string * list FileProbe :=
  if strcasecmp_eq ext "gz" then
    if is_ok (Outer_Test ops OuterGzip fs wrapperGFD (fOuterLength img)) then
      let img := set_fOuterFormat kOuterFormatGzip
                   (set_fpOuterWrapper (Some (mkOuterWrapper OuterGzip false))
                      img) in
      let ext := extension_under_gz ops pathName fssep in
      (AnalyzeImageFile_load ops fs img wrapperGFD OuterGzip ext false,
       [CallOuterTest OuterGzip; CallOuterLoad OuterGzip])
    else
      (kDIErrNone, set_fOuterFormat kOuterFormatNone img, fs, ext,
       [CallOuterTest OuterGzip])
  else if strcasecmp_eq ext "zip" then
    let dierr := Outer_Test ops OuterZip fs wrapperGFD (fOuterLength img) in
    if negb (is_ok dierr) then (dierr, img, fs, ext, [CallOuterTest OuterZip])
    else
      let img := set_fOuterFormat kOuterFormatZip
                   (set_fpOuterWrapper (Some (mkOuterWrapper OuterZip false))
                      img) in
      (AnalyzeImageFile_load ops fs img wrapperGFD OuterZip ext true,
       [CallOuterTest OuterZip; CallOuterLoad OuterZip])
  else (kDIErrNone, set_fOuterFormat kOuterFormatNone img, fs, ext, []).

(** [AnalyzeImageFile], the first pass: "try only what the filename says it
    is".  The first component is the DIError of a [goto bail], if one is
    taken; then come [probableFormat] and [reliableExt]. *)
Definition AnalyzeImageFile_byExtension (ops : WrapperOps) (fs : Files)
    (img : DiskImg) (g : GFD) (ext : string)
  : option DIError * FileFormat * bool * DiskImg * list FileProbe :=
  let len := fWrappedLength img in
  let hit (c : ImageWrapperClass) := is_ok (Wrapper_Test ops c fs g len) in
  if strcasecmp_eq ext "2mg" || strcasecmp_eq ext "2img" then
    (None, if hit Wrapper2MG then kFileFormat2MG else kFileFormatUnknown,
     true, img, [CallWrapperTest Wrapper2MG])
  else if strcasecmp_eq ext "shk" || strcasecmp_eq ext "sdk"
          || strcasecmp_eq ext "bxy" then
    let dierr2 := Wrapper_Test ops WrapperNuFX fs g len in
    if is_ok dierr2
    then (None, kFileFormatNuFX, true, img, [CallWrapperTest WrapperNuFX])
    else if bool_decide (dierr2 = kDIErrFileArchive)
    then (Some dierr2, kFileFormatUnknown, true, img,
          [CallWrapperTest WrapperNuFX])
    else (None, kFileFormatUnknown, true, img, [CallWrapperTest WrapperNuFX])
  else if strcasecmp_eq ext "hdv" then
    (None,
     if hit WrapperSim2eHDV then kFileFormatSim2eHDV else kFileFormatUnknown,
     false, set_fExpandable true img, [CallWrapperTest WrapperSim2eHDV])
  else if strcasecmp_eq ext "dsk" || strcasecmp_eq ext "dc" then
    (None,
     if hit WrapperDiskCopy42 then kFileFormatDiskCopy42
     else kFileFormatUnknown,
     false, img, [CallWrapperTest WrapperDiskCopy42])
  else if strcasecmp_eq ext "ddd" then
    (None, if hit WrapperDDD then kFileFormatDDD else kFileFormatUnknown,
     true, img, [CallWrapperTest WrapperDDD])
  else if strcasecmp_eq ext "app" then
    (None,
     if hit WrapperTrackStar then kFileFormatTrackStar
     else kFileFormatUnknown,
     true, img, [CallWrapperTest WrapperTrackStar])
  else if strcasecmp_eq ext "fdi" then
    (None, if hit WrapperFDI then kFileFormatFDI else kFileFormatUnknown,
     true, img, [CallWrapperTest WrapperFDI])
  else if strcasecmp_eq ext "img" then
    if hit WrapperUnadornedSector
    then (None, kFileFormatUnadorned, false,
          set_fOrder kSectorOrderPhysical
            (set_fPhysical kPhysicalFormatSectors img),
          [CallWrapperTest WrapperUnadornedSector])
    else (None, kFileFormatUnknown, false, img,
          [CallWrapperTest WrapperUnadornedSector])
  else if strcasecmp_eq ext "nib" || strcasecmp_eq ext "raw" then
    if hit WrapperUnadornedNibble
    then (None, kFileFormatUnadorned, false,
          set_fPhysical kPhysicalFormatNib525_6656 img,
          [CallWrapperTest WrapperUnadornedNibble])
    else (None, kFileFormatUnknown, false, img,
          [CallWrapperTest WrapperUnadornedNibble])
  else if strcasecmp_eq ext "do" || strcasecmp_eq ext "po"
          || strcasecmp_eq ext "d13" || strcasecmp_eq ext "dc6" then
    if hit WrapperUnadornedSector
    then (None, kFileFormatUnadorned, false,
          set_fOrder
            (if strcasecmp_eq ext "do" || strcasecmp_eq ext "d13"
             then kSectorOrderDOS else kSectorOrderProDOS)
            (set_fPhysical kPhysicalFormatSectors img),
          [CallWrapperTest WrapperUnadornedSector])
    else (None, kFileFormatUnknown, false, img,
          [CallWrapperTest WrapperUnadornedSector])
  else if strcasecmp_eq ext "cp-win-vol" then
    (None, kFileFormatUnadorned, true,
     set_fOrder kSectorOrderProDOS (set_fPhysical kPhysicalFormatSectors img),
     [])
  else (None, kFileFormatUnknown, false, img, []).

(** [AnalyzeImageFile], the tail of the second pass: the tests after
    NuFX and DiskCopy 4.2, an [if ... else if] chain. *)
Definition AnalyzeImageFile_guess (ops : WrapperOps) (fs : Files)
    (img : DiskImg) (g : GFD) : FileFormat * DiskImg * list FileProbe :=
  let len := fWrappedLength img in
  let hit (c : ImageWrapperClass) := is_ok (Wrapper_Test ops c fs g len) in
  let called := [CallWrapperTest Wrapper2MG] in
  if hit Wrapper2MG then (kFileFormat2MG, img, called) else
  let called := called ++ [CallWrapperTest WrapperDDD] in
  if hit WrapperDDD then (kFileFormatDDD, img, called) else
  let called := called ++ [CallWrapperTest WrapperSim2eHDV] in
  if hit WrapperSim2eHDV then (kFileFormatSim2eHDV, img, called) else
  let called := called ++ [CallWrapperTest WrapperTrackStar] in
  if hit WrapperTrackStar then (kFileFormatTrackStar, img, called) else
  let called := called ++ [CallWrapperTest WrapperFDI] in
  if hit WrapperFDI then (kFileFormatFDI, img, called) else
  let called := called ++ [CallWrapperTest WrapperUnadornedNibble] in
  if hit WrapperUnadornedNibble
  then (kFileFormatUnadorned, set_fPhysical kPhysicalFormatNib525_6656 img,
        called) else
  let called := called ++ [CallWrapperTest WrapperUnadornedSector] in
  if hit WrapperUnadornedSector
  then (kFileFormatUnadorned, set_fPhysical kPhysicalFormatSectors img,
        called)
  else (kFileFormatUnknown, img, called).

(** [AnalyzeImageFile], the second pass: "probe through the formats we
    know".  The first component tells whether [goto bail] is taken; the
    second is [dierr] as the pass leaves it. *)
Definition AnalyzeImageFile_probe (ops : WrapperOps) (fs : Files)
    (img : DiskImg) (g : GFD)
  : bool * DIError * FileFormat * DiskImg * list FileProbe :=
  let len := fWrappedLength img in
  let dierr := Wrapper_Test ops WrapperNuFX fs g len in
  let called := [CallWrapperTest WrapperNuFX] in
  if is_ok dierr then (false, dierr, kFileFormatNuFX, img, called)
  else if bool_decide (dierr = kDIErrFileArchive)
  then (true, dierr, kFileFormatUnknown, img, called)
  else if bool_decide (dierr = kDIErrBadChecksum)
  then (true, dierr, kFileFormatUnknown, img, called)
  else
    let dierr := Wrapper_Test ops WrapperDiskCopy42 fs g len in
    let called := called ++ [CallWrapperTest WrapperDiskCopy42] in
    if is_ok dierr then (false, dierr, kFileFormatDiskCopy42, img, called)
    else if bool_decide (dierr = kDIErrBadChecksum)
    then (true, dierr, kFileFormatUnknown, img, called)
    else
      let '(probableFormat, img, more) :=
        AnalyzeImageFile_guess ops fs img g in
      (false, dierr, probableFormat, img, called ++ more).

(** [AnalyzeImageFile], the switch on [probableFormat]: the wrapper object
    to create, if the format has one. *)
Definition wrapper_for (probableFormat : FileFormat) (img : DiskImg)
  : option ImageWrapperClass :=
  match probableFormat with
  | kFileFormat2MG => Some Wrapper2MG
  | kFileFormatDiskCopy42 => Some WrapperDiskCopy42
  | kFileFormatSim2eHDV => Some WrapperSim2eHDV
  | kFileFormatTrackStar => Some WrapperTrackStar
  | kFileFormatFDI => Some WrapperFDI
  | kFileFormatNuFX => Some WrapperNuFX
  | kFileFormatDDD => Some WrapperDDD
  | kFileFormatUnadorned =>
      if IsSectorFormat (fPhysical img) then Some WrapperUnadornedSector
      else if IsNibbleFormat (fPhysical img) then Some WrapperUnadornedNibble
      else None
  | _ => None
  end.

Definition in_wrapper_switch (probableFormat : FileFormat) : bool :=
  match probableFormat with
  | kFileFormat2MG | kFileFormatDiskCopy42 | kFileFormatSim2eHDV
  | kFileFormatTrackStar | kFileFormatFDI | kFileFormatNuFX
  | kFileFormatDDD | kFileFormatUnadorned => true
  | _ => false
  end.

(** What [fpImageWrapper->Prep(...)] stores in the image through its
    pointer arguments, with the new wrapper object itself. *)
Definition store_prep (c : ImageWrapperClass) (r : PrepResult)
    (img : DiskImg) : DiskImg :=
  let img := set_fpImageWrapper (Some (mkImageWrapper c (pr_damaged r)))
               img in
  let img := set_fLength (pr_length r) img in
  let img := set_fPhysical (pr_physical r) img in
  let img := set_fOrder (pr_order r) img in
  let img := set_fDOSVolumeNum (pr_dosVolumeNum r) img in
  let img := set_fpBadBlockMap (pr_badBlockMap r) img in
  set_fpDataGFD (pr_dataGFD r) img.

(** "check for non-fatal checksum failures, e.g. DiskCopy42". *)
Definition note_damage (img : DiskImg) : DiskImg :=
  set_fReadOnly true
    (AddNote kNoteWarning "File checksum didn't match." img).

(** [AnalyzeImageFile], from the switch on [probableFormat] to the end:
    create the wrapper, prepare it, note a damaged checksum. *)
Definition AnalyzeImageFile_prep (ops : WrapperOps) (fs : Files)
    (img : DiskImg) (dierr : DIError) (probableFormat : FileFormat)
  : DIError * DiskImg * Files * list FileProbe :=
  let img := match probableFormat with
             | kFileFormatFDI => set_fReadOnly true img
             | _ => img
             end in
  let dierr := if in_wrapper_switch probableFormat then dierr
               else kDIErrUnrecognizedFileFmt in
  match wrapper_for probableFormat img with
  | None =>
      (if is_ok dierr then kDIErrGeneric else dierr, img, fs, [])
  | Some c =>
      let r := Wrapper_Prep ops c fs img in
      let img := store_prep c r img in
      if negb (is_ok (pr_err r))
      then (pr_err r, img, pr_files r, [CallWrapperPrep c])
      else
        let img := if pr_damaged r then note_damage img else img in
        (kDIErrNone, set_fFileFormat probableFormat img, pr_files r,
         [CallWrapperPrep c])
  end.

(** DiskImg::AnalyzeImageFile.  The result carries the calls made into the
    wrapper classes, in their order. *)
Definition AnalyzeImageFile (ops : WrapperOps) (fs : Files) (img : DiskImg)
    (pathName : string) (fssep : Ascii.ascii)
  : option (DIError * DiskImg * Files * list FileProbe) :=
  let ext := extension ops pathName fssep in
  let img := set_fLength (-1) img in
  wrapperGFD ← fpWrapperGFD img;
  let '(dierr, len) := GFD_SeekEnd fs wrapperGFD in
  if negb (is_ok dierr) then Some (dierr, img, fs, [])
  else
    let img := set_fOuterLength len (set_fWrappedLength len img) in
    (* quick test for zero-length files *)
    if fWrappedLength img =? 0
    then Some (kDIErrUnrecognizedFileFmt, img, fs, [])
    else
      let '(dierr, img, fs, ext, outer) :=
        AnalyzeImageFile_outer ops fs img wrapperGFD pathName fssep ext in
      if negb (is_ok dierr) then Some (dierr, img, fs, outer)
      else
        g ← fpWrapperGFD img;
        let '(bail, probableFormat, reliableExt, img, first) :=
          AnalyzeImageFile_byExtension ops fs img g ext in
        match bail with
        | Some dierr => Some (dierr, img, fs, outer ++ first)
        | None =>
            if negb (bool_decide (probableFormat = kFileFormatUnknown)) then
              let '(dierr, img, fs, prep) :=
                AnalyzeImageFile_prep ops fs img dierr probableFormat in
              Some (dierr, img, fs, outer ++ first ++ prep)
            else if reliableExt
            then Some (kDIErrBadFileFormat, img, fs, outer ++ first)
            else
              let '(bail, dierr, probableFormat, img, second) :=
                AnalyzeImageFile_probe ops fs img g in
              if bail then Some (dierr, img, fs, outer ++ first ++ second)
              else
                let '(dierr, img, fs, prep) :=
                  AnalyzeImageFile_prep ops fs img dierr probableFormat in
                Some (dierr, img, fs, outer ++ first ++ second ++ prep)
        end.

(** DiskImg::OpenImage(const char* pathName, char fssep, bool readOnly),
    for a path that does not name a Windows device. *)
Definition OpenImage (ops : WrapperOps) (fs : Files) (img : DiskImg)
    (pathName : string) (fssep : Ascii.ascii) (readOnly : bool)
  : option (DIError * DiskImg * Files * list FileProbe) :=
  match fpDataGFD img with
  | Some _ => Some (kDIErrAlreadyOpen, img, fs, [])
  | None =>
      let img := set_fReadOnly readOnly img in
      let '(dierr, gfd) := GFDFile_Open ops fs pathName (fReadOnly img) in
      if negb (is_ok dierr) then Some (dierr, img, fs, [])
      else AnalyzeImageFile ops fs (set_fpWrapperGFD (Some gfd) img)
             pathName fssep
  end.

(** ** Sector order translation, as the specification words it *)

(** The address translation of the specification (4.4) composes two
    permutations of the sixteen sectors of a track: from the filesystem's
    order to the physical sector, and from the physical sector to the
    image's order.  They are written here without the tables of the code,
    as the interleaves of the Apple II in closed form: DOS 3.3 lays its
    sectors out two physical sectors apart going down, ProDOS two apart
    going up, CP/M three apart going up; sector 15 of DOS and ProDOS stays
    where it is, and "physical" is the identity. *)
Definition physical_of (order : SectorOrder) (sector : Z) : Z :=
  match order with
  | kSectorOrderDOS => if sector =? 15 then 15 else (13 * sector) `mod` 15
  | kSectorOrderProDOS => if sector =? 15 then 15 else (2 * sector) `mod` 15
  | kSectorOrderCPM => (3 * sector) `mod` 16
  | _ => sector
  end.

(** The way back: the sector that the ordering has in physical sector
    [raw]. *)
Definition logical_of (order : SectorOrder) (raw : Z) : Z :=
  match order with
  | kSectorOrderDOS => if raw =? 15 then 15 else (7 * raw) `mod` 15
  | kSectorOrderProDOS => if raw =? 15 then 15 else (8 * raw) `mod` 15
  | kSectorOrderCPM => (11 * raw) `mod` 16
  | _ => raw
  end.

(** [onDisk = raw_to_image[image_order][fs_to_raw[fs_order][sector]]]. *)
Definition stored_sector (imageOrder fsOrder : SectorOrder) (sector : Z) : Z :=
  logical_of imageOrder (physical_of fsOrder sector).

(** ** Linear block reads *)

(** What a successful read of one block is, on an image whose blocks lie
    one after the other in the data. *)
Definition block_read (fs : Files) (img : DiskImg) (block : Z)
    (blk : list byte) : Prop :=
  0 ≤ block < fNumBlocks img ∧
  CheckForBadBlocks img block 1 = false ∧
  ∃ g, fpDataGFD img = Some g ∧
       (block + 1) * 512 ≤ gfd_length fs g ∧
       blk = take 512 (drop (Z.to_nat block * 512) (gfd_bytes fs g)).

(** ** The parent chain *)

(** [ancestor_or_self m id a]: [a] is [id] or is reached from [id] through
    [fpParentImg] pointers. *)
Inductive ancestor_or_self (m : gmap ImgId DiskImg) : ImgId → ImgId → Prop :=
  | ancestor_self id : ancestor_or_self m id id
  | ancestor_parent id img parent a :
      m !! id = Some img →
      fpParentImg img = Some parent →
      ancestor_or_self m parent a →
      ancestor_or_self m id a.

(** The discipline of the store: a parent pointer leads to a DiskImg of the
    store, and the pointers do not lead round in a circle: some rank goes
    down along each of them. *)
Definition parents_ranked (rank : ImgId → nat) (m : gmap ImgId DiskImg)
  : Prop :=
  ∀ id img parent,
    m !! id = Some img → fpParentImg img = Some parent →
    (rank parent < rank id)%nat ∧ is_Some (m !! parent).

(** ** Filesystem detection, as the specification words it *)

(** The fixed order of the probes (4.6). *)
Definition probe_order : list FSProbe :=
  [ DiskFSMacPart_TestFS; DiskFSMicroDrive_TestFS; DiskFSFocusDrive_TestFS;
    DiskFSCFFA_TestFS; DiskFSFAT_TestFS; DiskFSDOS33_TestFS;
    DiskFSUNIDOS_TestWideFS; DiskFSUNIDOS_TestFS; DiskFSOzDOS_TestFS;
    DiskFSProDOS_TestFS; DiskFSPascal_TestFS; DiskFSCPM_TestFS;
    DiskFSRDOS_TestFS; DiskFSHFS_TestFS ].

(** [probing test fs order img called winner img']: trying the probes of
    [order] one after the other on [img] calls the probes [called], stops
    at the first that succeeds, [winner], and leaves [img']. *)
Inductive probing (test : TestFS) (fs : Files)
  : list FSProbe → DiskImg → list FSProbe → option FSProbe → DiskImg → Prop :=
  | probing_end img : probing test fs [] img [] None img
  | probing_hit p rest img order format :
      test p fs img (fOrder img) (fFormat img) kLeniencyNot
        = (kDIErrNone, order, format) →
      probing test fs (p :: rest) img [p] (Some p)
        (set_fFormat format (set_fOrder order img))
  | probing_miss p rest img dierr order format called winner img' :
      test p fs img (fOrder img) (fFormat img) kLeniencyNot
        = (dierr, order, format) →
      dierr ≠ kDIErrNone →
      probing test fs rest (set_fFormat format (set_fOrder order img))
        called winner img' →
      probing test fs (p :: rest) img (p :: called) winner img'.

(** The same as a function: the probes called, the first probe to succeed
    and the image as the probes leave it. *)
Fixpoint first_success (test : TestFS) (fs : Files) (order : list FSProbe)
    (img : DiskImg) : list FSProbe * option FSProbe * DiskImg :=
  match order with
  | [] => ([], None, img)
  | p :: rest =>
      let '(found, img) := probe_image test fs p img in
      if found then ([p], Some p, img)
      else
        let '(called, winner, img) := first_success test fs rest img in
        (p :: called, winner, img)
  end.

(** What the branch of a successful probe does to the image besides
    keeping the probe's answer. *)
Definition after_probe (winner : option FSProbe) (img : DiskImg) : DiskImg :=
  match winner with
  | None => set_fFormat kFormatUnknown img
  | Some DiskFSDOS33_TestFS =>
      if fNumSectPerTrack img =? 13 then set_fFormat kFormatDOS32 img
      else img
  | Some DiskFSUNIDOS_TestWideFS | Some DiskFSUNIDOS_TestFS
  | Some DiskFSOzDOS_TestFS => widen img
  | Some _ => img
  end.

(** ** Example states *)

(** A DOS-ordered 140K image: 35 tracks of 16 sectors. *)
Definition img_do140 : DiskImg :=
  set_fHasSectors true (set_fHasBlocks true
    (set_fNumTracks 35 (set_fNumSectPerTrack 16 (set_fNumBlocks 280
      (set_fPhysical kPhysicalFormatSectors (set_fOrder kSectorOrderDOS
        (set_fFileSysOrder kSectorOrderProDOS (set_fLength 143360
          DiskImg_new)))))))).

(** A 1024-byte ProDOS-ordered image of two blocks, over file 0. *)
Definition two_block_bytes : list byte :=
  replicate 512 x01 ++ replicate 512 x02.

Definition two_block_files : Files := {[ 0%nat := two_block_bytes ]}.

Definition img_po2 : DiskImg :=
  set_fHasBlocks true (set_fNumBlocks 2
    (set_fPhysical kPhysicalFormatSectors (set_fOrder kSectorOrderProDOS
      (set_fFileSysOrder kSectorOrderProDOS (set_fLength 1024
        (set_fReadOnly false (set_fFileFormat kFileFormatUnadorned
          (set_fOuterFormat kOuterFormatNone
            (set_fpDataGFD (Some (mkGFD 0 0 false))
              (set_fpWrapperGFD (Some (mkGFD 0 0 false))
                (set_fpImageWrapper
                   (Some (mkImageWrapper WrapperUnadornedSector false))
                   DiskImg_new))))))))))).

(** No nibble codec: every nibble call fails. *)
Definition no_nibbles : NibbleOps :=
  {| ReadNibbleSector := λ _ _ _ _, (kDIErrNotSupported, []);
     WriteNibbleSector := λ w _ _ _ _, (kDIErrNotSupported, w);
     AnalyzeNibbleData := λ _ img, (kDIErrBadNibbleSectors, img) |}.

(** No filesystem: every probe fails and leaves its arguments alone. *)
Definition no_filesystem : TestFS :=
  λ _ _ _ order format _, (kDIErrFilesystemNotFound, order, format).

(** Wrappers that recognise nothing and flush without work. *)
Definition plain_wrappers : WrapperOps :=
  {| FindExtension := λ _ _, None;
     GFDFile_Open := λ _ _ readOnly, (kDIErrNone, mkGFD 0 0 readOnly);
     Outer_Test := λ _ _ _ _, kDIErrGeneric;
     Outer_Load := λ _ fs g len _,
       mkLoadResult kDIErrGeneric len g false None fs;
     Outer_HasFastFlush := λ _, false;
     Outer_Save := λ _ fs _ _ _, (kDIErrNone, fs);
     Wrapper_Test := λ _ _ _ _, kDIErrGeneric;
     Wrapper_Prep := λ _ fs img,
       mkPrepResult kDIErrGeneric (fLength img) (fPhysical img) (fOrder img)
         (fDOSVolumeNum img) (fpBadBlockMap img) (fpDataGFD img) false fs;
     Wrapper_HasFastFlush := λ _, true;
     Wrapper_Flush := λ _ fs _ _ _ wrappedLength,
       (kDIErrNone, wrappedLength, fs);
     GFD_Flush := λ _ _, kDIErrNone |}.

(** The two-block image at address 0 and a fresh DiskImg at address 1. *)
Definition world0 : World :=
  {| imgs := {[ 0%nat := img_po2; 1%nat := DiskImg_new ]};
     files := two_block_files |}.

Definition world_of (r : option (DIError * World)) : World :=
  match r with Some (_, w) => w | None => world0 end.

(** A DOS-ordered image of 1048576 tracks of 16 sectors: 4 GiB. *)
Definition img_4GiB : DiskImg :=
  set_fNumTracks 1048576
    (set_fNumBlocks 8388608 (set_fLength 4294967296 img_do140)).

(** A ProDOS-ordered image of 8388608 blocks over a file of 4 GiB of
    zeros. *)
Definition files_4GiB : Files :=
  {[ 0%nat := replicate (Z.to_nat 4294967296) x00 ]}.

Definition img_po4GiB : DiskImg :=
  set_fNumBlocks 8388608 (set_fLength 4294967296 img_po2).

(** A GFDGFD::Open that opens whatever it is given. *)
Definition always_opens : GFDGFD_Open_answer := λ _ _ _, kDIErrNone.

(** ... the DiskImg at 1 opened as a sub-image on block 1 of the image ... *)
Definition world_child : World :=
  world_of (OpenImage_blocks always_opens world0 1%nat (Some 0%nat) 1 1).

Definition child_img : DiskImg :=
  default DiskImg_new (imgs world_child !! 1%nat).

(** ... a block written through the sub-image ... *)
Definition world_written : World :=
  world_of (CopyBytesIn world_child 1%nat (Some (replicate 512 x03)) 0 512).

(** ... and the image at 0 flushed. *)
Definition world_flushed : World :=
  world_of (FlushImage plain_wrappers world_written 0%nat kFlushAll).

(** A 13-sector image (.d13) as [AnalyzeImageFile] leaves it, and after
    [AnalyzeImage]: it has sectors and no blocks. *)
Definition img_d13_file : DiskImg :=
  set_fLength kD13Length (set_fPhysical kPhysicalFormatSectors
    (set_fOrder kSectorOrderDOS (set_fFileFormat kFileFormatUnadorned
      (set_fOuterFormat kOuterFormatNone (set_fReadOnly false
        (set_fpDataGFD (Some (mkGFD 0 0 false))
          (set_fpWrapperGFD (Some (mkGFD 0 0 false))
            (set_fpImageWrapper
               (Some (mkImageWrapper WrapperUnadornedSector false))
               DiskImg_new)))))))).

Definition d13_files : Files :=
  {[ 0%nat := replicate (Z.to_nat kD13Length) x00 ]}.

Definition img_d13 : DiskImg :=
  match AnalyzeImage no_nibbles no_filesystem d13_files img_d13_file with
  | Some (_, img, _) => img
  | None => img_d13_file
  end.

Definition world_d13 : World :=
  {| imgs := {[ 0%nat := img_d13 ]}; files := d13_files |}.

(** A request for a 35-track, 16-sector ProDOS-ordered sector image that
    comes with a 13-sector nibble descriptor. *)
Definition descr_13 : NibbleDescr :=
  {| numSectors := 13; encoding := kNibbleEnc62; dataVerifyChecksum := true |}.

(** A DiskCopy 4.2 file of two blocks behind an 84-byte header, whose
    wrapper recognises it and reports a checksum that does not match. *)
Definition dc42_files : Files :=
  {[ 0%nat := replicate 84 x00 ++ two_block_bytes ]}.

Definition damaged_dc42 : WrapperOps :=
  {| FindExtension := λ _ _, None;
     GFDFile_Open := λ _ _ readOnly, (kDIErrNone, mkGFD 0 0 readOnly);
     Outer_Test := λ _ _ _ _, kDIErrGeneric;
     Outer_Load := λ _ fs g len _,
       mkLoadResult kDIErrGeneric len g false None fs;
     Outer_HasFastFlush := λ _, false;
     Outer_Save := λ _ fs _ _ _, (kDIErrNone, fs);
     Wrapper_Test := λ c _ _ _,
       if bool_decide (c = WrapperDiskCopy42) then kDIErrNone
       else kDIErrGeneric;
     Wrapper_Prep := λ _ fs img,
       mkPrepResult kDIErrNone 1024 kPhysicalFormatSectors kSectorOrderProDOS
         kVolumeNumNotSet None (Some (mkGFD 0 84 (fReadOnly img))) true fs;
     Wrapper_HasFastFlush := λ _, true;
     Wrapper_Flush := λ _ fs _ _ _ wrappedLength,
       (kDIErrNone, wrappedLength, fs);
     GFD_Flush := λ _ _, kDIErrNone |}.

(** The file opened for writing, then analysed. *)
Definition img_dc42_opened : DiskImg :=
  match OpenImage damaged_dc42 dc42_files DiskImg_new "image" slash false with
  | Some (_, img, _, _) => img
  | None => DiskImg_new
  end.

Definition dc42_calls : list FileProbe :=
  match OpenImage damaged_dc42 dc42_files DiskImg_new "image" slash false with
  | Some (_, _, _, calls) => calls
  | None => []
  end.

Definition img_dc42 : DiskImg :=
  match AnalyzeImage no_nibbles no_filesystem dc42_files img_dc42_opened with
  | Some (_, img, _) => img
  | None => img_dc42_opened
  end.

Definition world_dc42 : World :=
  {| imgs := {[ 0%nat := img_dc42 ]}; files := dc42_files |}.

(** The note of a wrapper whose checksum does not match. *)
Definition checksum_warning : string :=
  "- WARNING: File checksum didn't match." +:+ newline.

(** The world with the bad block map of the image at [target] replaced. *)
Definition remap (map : option (gset Z)) (target : ImgId) (w : World)
  : World :=
  {| imgs := alter (set_fpBadBlockMap map) target (imgs w);
     files := files w |}.

(** A two-block image whose block 1 is in the bad block map. *)
Definition img_bad1 : DiskImg := set_fpBadBlockMap (Some {[ 1 ]}) img_po2.

Definition world_bad1 : World :=
  {| imgs := {[ 0%nat := img_bad1 ]}; files := two_block_files |}.

(** The result of a write, with the bad block map of [target] replaced in
    the world it leaves. *)
Definition remapped (map : option (gset Z)) (target : ImgId)
    (r : option (DIError * World)) : option (DIError * World) :=
  (λ '(dierr, w), (dierr, remap map target w)) <$> r.

(** ** Further operations *)

(** DiskImg::ZeroImage: [for (block = 0; block < GetNumBlocks(); block++)]
    writes a block of zeros, leaving at the first write that fails.  The
    bound is read before every pass; [fuel] is the number of passes that
    the first reading of the bound allows. *)
Fixpoint ZeroImage_from (nib : NibbleOps) (fuel : nat) (w : World)
    (this : ImgId) (block : Z) : option (DIError * World) :=
  img ← imgs w !! this;
  if block <? GetNumBlocks img then
    match fuel with
    | O => None
    | S fuel =>
        '(dierr, w) ← WriteBlock nib w this block
                         (Some (replicate (Z.to_nat kBlockSize) x00));
        if negb (is_ok dierr) then Some (dierr, w)
        else ZeroImage_from nib fuel w this (block + 1)
    end
  else Some (kDIErrNone, w).

Definition ZeroImage (nib : NibbleOps) (w : World) (this : ImgId)
  : option (DIError * World) :=
  img ← imgs w !! this;
  ZeroImage_from nib (Z.to_nat (GetNumBlocks img)) w this 0.

(** [lastTrack] of [OpenImage] on tracks:
    [firstTrack + (numSectors + prntSectPerTrack-1) / prntSectPerTrack],
    sums and quotient of [long]s, stored in an [int]. *)
Definition last_track (firstTrack numSectors prntSectPerTrack : Z) : Z :=
  to_int
    (to_long
       (firstTrack
        + to_long
            (Z.quot (to_long (to_long (numSectors + prntSectPerTrack) - 1))
               prntSectPerTrack))).

(** DiskImg::OpenImage(DiskImg* pParent, long firstTrack, long firstSector,
    long numSectors): a sub-image over whole tracks of an open image.  (The
    function asserts [firstSector == 0]; a division by zero sectors per
    track is undefined.)  [lastTrack] is an [int] computed in [long], the
    offset [kSectorSize * firstTrack * prntSectPerTrack] and the length
    [numSectors * kSectorSize] are products in [long].  As in the overload
    for blocks, [fReadOnly] is assigned before GFDGFD::Open is called. *)
Definition OpenImage_sectors (opens : GFDGFD_Open_answer) (w : World)
    (this : ImgId) (pParent : option ImgId)
    (firstTrack firstSector numSectors : Z)
  : option (DIError * World) :=
  img ← imgs w !! this;
  match fpDataGFD img with
  | Some _ => Some (kDIErrAlreadyOpen, w)
  | None =>
      match pParent with
      | None => Some (kDIErrInvalidArg, w)
      | Some parentId =>
          parent ← imgs w !! parentId;
          let prntSectPerTrack := GetNumSectPerTrack parent in
          if prntSectPerTrack =? 0 then None
          else
            let lastTrack :=
              last_track firstTrack numSectors prntSectPerTrack in
            if (firstTrack <? 0) || (numSectors <=? 0)
               || (GetNumTracks parent <? lastTrack)
            then Some (kDIErrInvalidArg, w)
            else
              let img := set_fReadOnly (GetReadOnly parent) img in
              let offset :=
                to_long (to_long (kSectorSize * firstTrack)
                         * prntSectPerTrack) in
              let dierr := opens (fpDataGFD parent) offset (fReadOnly img) in
              if negb (is_ok dierr) then Some (dierr, set_img this img w)
              else
                parentGFD ← fpDataGFD parent;
                let gfd := GFDGFD_Open parentGFD offset (fReadOnly img) in
                let img := set_fpDataGFD (Some gfd) img in
                let img := set_fLength (to_long (numSectors * kSectorSize))
                             img in
                let img := set_fOuterLength (fLength img)
                             (set_fWrappedLength (fLength img) img) in
                let img := set_fFileFormat kFileFormatUnadorned img in
                let img := set_fPhysical (fPhysical parent) img in
                let img := set_fOrder (fOrder parent) img in
                let img := set_fpParentImg (Some parentId) img in
                Some (dierr, set_img this img w)
      end
  end.

(** DiskImg::SetPairedSectors. *)
Definition SetPairedSectors (enable : bool) (idx : Z) (img : DiskImg)
  : DiskImg :=
  set_fSectorPairOffset idx (set_fSectorPairing enable img).

(** The end of [CloseImage]: the three GenericFDs are closed and deleted,
    the two wrappers deleted, and the five pointers set to nil. *)
Definition release (img : DiskImg) : DiskImg :=
  set_fpOuterWrapper None
    (set_fpImageWrapper None
       (set_fpOuterGFD None
          (set_fpWrapperGFD None (set_fpDataGFD None img)))).

(** DiskImg::CloseImage: flush everything, and if that went well let go of
    the GenericFDs and the wrappers. *)
Definition CloseImage (ops : WrapperOps) (w : World) (this : ImgId)
  : option (DIError * World) :=
  '(dierr, w) ← FlushImage ops w this kFlushAll;
  if negb (is_ok dierr) then Some (dierr, w)
  else
    img ← imgs w !! this;
    Some (dierr, set_img this (release img) w).

(** The case in which [FlushImage] returns without flushing a dirty
    image: "fast flush requested, but one or both wrappers are slow". *)
Definition flush_skipped (ops : WrapperOps) (mode : FlushMode)
    (img : DiskImg) : bool :=
  match mode, fpDataGFD img with
  | kFlushFastOnly, Some _ => slow_wrapper ops img
  | _, _ => false
  end.

(** A nibble image of 35 tracks of 6656 bytes, opened for writing, and a
    nibble scan that finds 16-sector tracks whose descriptor does not
    verify the data checksum. *)
Definition descr_unverified : NibbleDescr :=
  {| numSectors := 16; encoding := kNibbleEnc62;
     dataVerifyChecksum := false |}.

Definition nib_files : Files :=
  {[ 0%nat := replicate (Z.to_nat 232960) x00 ]}.

Definition img_nib_file : DiskImg :=
  set_fLength 232960 (set_fPhysical kPhysicalFormatNib525_6656
    (set_fOrder kSectorOrderPhysical (set_fFileFormat kFileFormatUnadorned
      (set_fOuterFormat kOuterFormatNone (set_fReadOnly false
        (set_fpDataGFD (Some (mkGFD 0 0 false))
          (set_fpWrapperGFD (Some (mkGFD 0 0 false))
            (set_fpImageWrapper
               (Some (mkImageWrapper WrapperUnadornedNibble false))
               DiskImg_new)))))))).

Definition unverified_nibbles : NibbleOps :=
  {| ReadNibbleSector := λ _ _ _ _, (kDIErrNotSupported, []);
     WriteNibbleSector := λ w _ _ _ _, (kDIErrNotSupported, w);
     AnalyzeNibbleData := λ _ img,
       (kDIErrNone,
        set_fNumTracks 35 (set_fpNibbleDescr (Some descr_unverified) img)) |}.

(** What [IsDamaged] answers for the wrappers of an image, if it has
    them. *)
Definition outer_damaged (img : DiskImg) : bool :=
  from_option ow_damaged false (fpOuterWrapper img).
Definition wrapper_damaged (img : DiskImg) : bool :=
  from_option iw_damaged false (fpImageWrapper img).

(** The extensions that [AnalyzeImageFile] marks [reliableExt] in its
    first pass when it has a format to test, each with the wrapper class
    whose [Test] it calls. *)
Definition reliable_extensions : list (string * ImageWrapperClass) :=
  [ ("2mg", Wrapper2MG); ("2img", Wrapper2MG); ("shk", WrapperNuFX);
    ("sdk", WrapperNuFX); ("bxy", WrapperNuFX); ("ddd", WrapperDDD);
    ("app", WrapperTrackStar); ("fdi", WrapperFDI) ]%string.

(** Wrappers whose tests all fail, with a [FindExtension] that answers
    [dot]; an image with a file behind it that has not been analysed. *)
Definition failing_wrappers (dot : option nat) : WrapperOps :=
  {| FindExtension := λ _ _, dot;
     GFDFile_Open := λ _ _ readOnly, (kDIErrNone, mkGFD 0 0 readOnly);
     Outer_Test := λ _ _ _ _, kDIErrGeneric;
     Outer_Load := λ _ fs g len _,
       mkLoadResult kDIErrGeneric len g false None fs;
     Outer_HasFastFlush := λ _, false;
     Outer_Save := λ _ fs _ _ _, (kDIErrNone, fs);
     Wrapper_Test := λ _ _ _ _, kDIErrGeneric;
     Wrapper_Prep := λ _ fs img,
       mkPrepResult kDIErrGeneric (fLength img) (fPhysical img) (fOrder img)
         (fDOSVolumeNum img) (fpBadBlockMap img) (fpDataGFD img) false fs;
     Wrapper_HasFastFlush := λ _, true;
     Wrapper_Flush := λ _ fs _ _ _ wrappedLength,
       (kDIErrNone, wrappedLength, fs);
     GFD_Flush := λ _ _, kDIErrNone |}.

Definition img_unopened : DiskImg :=
  set_fpWrapperGFD (Some (mkGFD 0 0 false)) DiskImg_new.

(** The wrapper classes in the order in which the second pass of
    [AnalyzeImageFile] calls their [Test]. *)
Definition guess_order : list ImageWrapperClass :=
  [ WrapperNuFX; WrapperDiskCopy42; Wrapper2MG; WrapperDDD; WrapperSim2eHDV;
    WrapperTrackStar; WrapperFDI; WrapperUnadornedNibble;
    WrapperUnadornedSector ].

(** DiskImg::CreateImage, the overload that takes a number of blocks, up
    to the validation of [CreateImageCommon]. *)
Definition CreateImage_blocks (img : DiskImg) (outerFormat : OuterFormat)
    (fileFormat : FileFormat) (physical : PhysicalFormat)
    (pNibbleDescr : option NibbleDescr) (order : SectorOrder)
    (format : FSFormat) (numBlocks : Z) : DIError * DiskImg :=
  if numBlocks <=? 0 then (kDIErrInvalidCreateReq, img)
  else
    let img := set_fOuterFormat outerFormat img in
    let img := set_fFileFormat fileFormat img in
    let img := set_fPhysical physical img in
    let img := SetCustomNibbleDescr pNibbleDescr img in
    let img := set_fOrder order img in
    let img := set_fFormat format img in
    let img := set_fNumBlocks numBlocks img in
    let img := set_fHasBlocks true img in
    CreateImageCommon_validate img.

(** The filesystem order of a generic format. *)
Definition generic_order (format : FSFormat) : option SectorOrder :=
  match format with
  | kFormatGenericPhysicalOrd => Some kSectorOrderPhysical
  | kFormatGenericProDOSOrd => Some kSectorOrderProDOS
  | kFormatGenericDOSOrd => Some kSectorOrderDOS
  | kFormatGenericCPMOrd => Some kSectorOrderCPM
  | _ => None
  end.

(** ** Sub-images *)

(** The image that an [OpenImage] on a parent leaves when it succeeds:
    [start] is the offset of the sub-image in the parent's data and [len]
    its length. *)
Definition sub_image (parentId : ImgId) (parent : DiskImg) (parentGFD : GFD)
    (start len : Z) (img : DiskImg) : DiskImg :=
  set_fpParentImg (Some parentId)
    (set_fOrder (fOrder parent)
       (set_fPhysical (fPhysical parent)
          (set_fFileFormat kFileFormatUnadorned
             (set_fOuterLength len
                (set_fWrappedLength len
                   (set_fLength len
                      (set_fpDataGFD
                         (Some (GFDGFD_Open parentGFD start
                                  (fReadOnly parent)))
                         (set_fReadOnly (fReadOnly parent) img)))))))).

(** ** Images of plain sectors *)

(** An image in sector format as [AnalyzeImage] leaves it when sector
    pairing is off: if it has sectors, they are 16 or 32 to the track, and
    its data starts at or after the start of the bytes behind it. *)
Definition plain_sector_image (img : DiskImg) : Prop :=
  IsSectorFormat (fPhysical img) = true ∧
  fSectorPairing img = false ∧
  (fHasSectors img = true →
     fNumSectPerTrack img = 16 ∨ fNumSectPerTrack img = 32) ∧
  (∀ g, fpDataGFD img = Some g → 0 ≤ gfd_base g).

(** * Theorems *)

(** ** Integer widths *)

Lemma to_long_fits z : fits_long z → to_long z = z.
Proof.
  unfold fits_long, to_long. intros H. rewrite Z.mod_small by lia. lia.
Qed.

Lemma to_int_fits z : fits_long z → to_int z = z.
Proof.
  unfold fits_long, to_int. intros H. rewrite Z.mod_small by lia. lia.
Qed.

Lemma to_long_is_long z : fits_long (to_long z).
Proof.
  unfold fits_long, to_long.
  pose proof (Z.mod_pos_bound (z + 2147483648) 4294967296). lia.
Qed.

(** A wrapped value is never more than the value, from the least [long]
    on. *)
Lemma to_long_le z : -2147483648 ≤ z → to_long z ≤ z.
Proof.
  unfold to_long. intros H.
  pose proof (Z.mod_le (z + 2147483648) 4294967296). lia.
Qed.

(** Wrapping keeps a multiple of the sector size a multiple of it. *)
Lemma to_long_aligned z : ∃ k, to_long (z * 256) = k * 256.
Proof.
  unfold to_long.
  exists (z - 16777216 * ((z * 256 + 2147483648) `div` 4294967296)).
  pose proof (Z.div_mod (z * 256 + 2147483648) 4294967296). lia.
Qed.

Lemma track_start_aligned img track : ∃ k, track_start img track = k * 256.
Proof. unfold track_start, kSectorSize. apply to_long_aligned. Qed.

(** Below 2 GiB the start of a track is what the product says. *)
Lemma track_start_exact img track :
  fits_long (track * fNumSectPerTrack img * kSectorSize) →
  track_start img track = track * fNumSectPerTrack img * 256.
Proof.
  unfold track_start, kSectorSize, fits_long. intros H.
  rewrite (to_long_fits (track * fNumSectPerTrack img))
    by (unfold fits_long; lia).
  apply to_long_fits. exact H.
Qed.

(** The tracks of an image whose sectors take less than 2 GiB. *)
Lemma track_fits img track :
  fits_long (fNumTracks img * fNumSectPerTrack img * kSectorSize) →
  0 < fNumSectPerTrack img →
  0 ≤ track < fNumTracks img →
  fits_long (track * fNumSectPerTrack img * kSectorSize).
Proof. unfold fits_long, kSectorSize. intros H Hn Ht. nia. Qed.

(** ** Sector order translation *)

Lemma below16 (P : Z → Prop) :
  (∀ n : nat, (n < 16)%nat → P (Z.of_nat n)) → ∀ s, 0 ≤ s < 16 → P s.
Proof.
  intros H s Hs. rewrite <- (Z2Nat.id s) by lia. apply H. lia.
Qed.

Ltac each_below16 n :=
  do 16 (try destruct n as [|n]); try (exfalso; lia).

(** The two switches of the code, with its six tables, compute the
    composition of the interleaves, and the stored sector is again a
    sector of the track. *)
Lemma translate_stored_sector imageOrder fsOrder sector :
  0 ≤ sector < 16 →
  0 ≤ stored_sector imageOrder fsOrder sector < 16 ∧
  (fs_to_raw fsOrder sector ≫= raw_to_image imageOrder)
  = Some (stored_sector imageOrder fsOrder sector).
Proof.
  revert sector. apply below16. intros n Hn.
  each_below16 n; destruct imageOrder, fsOrder;
    (split; [ vm_compute; split; [discriminate | reflexivity]
            | reflexivity ]).
Qed.

(** Each interleave is undone by the way back of the same ordering: with
    [imageOrder = fsOrder] no sector moves. *)
Lemma stored_sector_same_order order sector :
  0 ≤ sector < 16 → stored_sector order order sector = sector.
Proof.
  revert sector. apply below16. intros n Hn.
  each_below16 n; destruct order; reflexivity.
Qed.

(** The closed form of [CalcSectorAndOffset] without sector pairing, from
    the start of the track as the code computes it. *)
Lemma CalcSectorAndOffset_from_track_start img track sector imageOrder
    fsOrder :
  fHasSectors img = true →
  fSectorPairing img = false →
  fNumSectPerTrack img = 16 ∨ fNumSectPerTrack img = 32 →
  0 ≤ track < fNumTracks img →
  0 ≤ sector < fNumSectPerTrack img →
  CalcSectorAndOffset img track sector imageOrder fsOrder
  = Some (Ok (track_start img track
              + (if 16 <=? sector then 16 * 256 else 0)
              + 256 * stored_sector imageOrder fsOrder (sector `mod` 16),
              stored_sector imageOrder fsOrder (sector `mod` 16))).
Proof.
  intros Hsec Hpair Hnspt Htrack Hsector.
  destruct (translate_stored_sector imageOrder fsOrder (sector `mod` 16))
    as (Hrange & Hcode).
  { apply Z.mod_pos_bound. lia. }
  set (onDisk := stored_sector imageOrder fsOrder (sector `mod` 16)) in *.
  unfold CalcSectorAndOffset. rewrite Hsec, Hpair. simpl negb. cbv iota.
  replace ((track <? 0) || (fNumTracks img <=? track)) with false
    by (symmetry; apply orb_false_iff; split;
        [apply Z.ltb_ge|apply Z.leb_gt]; lia).
  replace ((sector <? 0) || (fNumSectPerTrack img <=? sector)) with false
    by (symmetry; apply orb_false_iff; split;
        [apply Z.ltb_ge|apply Z.leb_gt]; lia).
  replace ((fNumSectPerTrack img =? 16) || (fNumSectPerTrack img =? 32))
    with true by (destruct Hnspt as [-> | ->]; reflexivity).
  unfold kSectorSize.
  destruct (Z.leb_spec 16 sector) as [Hhi | Hlo].
  - replace (sector `mod` 16) with (sector - 16) in Hcode.
    2:{ apply Z.mod_unique with 1; lia. }
    destruct (fs_to_raw fsOrder (sector - 16)) as [raw|]; [|discriminate].
    simpl in Hcode |- *. rewrite Hcode. simpl. do 3 f_equal. lia.
  - rewrite Z.mod_small in Hcode by lia.
    destruct (fs_to_raw fsOrder sector) as [raw|]; [|discriminate].
    simpl in Hcode |- *. rewrite Hcode. simpl. do 3 f_equal. lia.
Qed.




(** ** Linear block reads *)

Lemma existsb_false_iff {A} (f : A → bool) (l : list A) :
  existsb f l = false ↔ ∀ x, x ∈ l → f x = false.
Proof.
  induction l as [|a l IH]; simpl.
  - split; [intros _ x Hx; inversion Hx | reflexivity].
  - rewrite orb_false_iff, IH. split.
    + intros [Ha Hl] x Hx. inversion Hx; subst; auto.
    + intros H. split; [apply H; left | intros x Hx; apply H; right; exact Hx].
Qed.

(** A range is free of bad blocks when each of its blocks is. *)
Lemma CheckForBadBlocks_range img startBlock numBlocks :
  CheckForBadBlocks img startBlock numBlocks = false ↔
  ∀ b, startBlock ≤ b < startBlock + numBlocks →
       CheckForBadBlocks img b 1 = false.
Proof.
  unfold CheckForBadBlocks. destruct (fpBadBlockMap img) as [map|]; [|tauto].
  rewrite existsb_false_iff. split.
  - intros H b Hb. apply existsb_false_iff. intros x Hx.
    apply elem_of_seqZ in Hx. assert (x = b) as -> by lia.
    apply H. apply elem_of_seqZ. lia.
  - intros H b Hb. apply elem_of_seqZ in Hb.
    specialize (H b Hb). rewrite existsb_false_iff in H.
    apply H. apply elem_of_seqZ. lia.
Qed.

(** Cutting [n] consecutive chunks of [k] elements out of a list and
    joining them gives the one slice of [n * k] elements. *)
Lemma concat_chunks {A} (l : list A) (k n s : nat) :
  concat ((λ i, take k (drop ((s + i) * k) l)) <$> seq 0 n)
  = take (n * k) (drop (s * k) l).
Proof.
  revert s. induction n as [|n IH]; intros s; [reflexivity|].
  simpl seq. rewrite fmap_cons. simpl concat.
  rewrite <- fmap_S_seq, <- list_fmap_compose.
  replace (S n * k)%nat with (k + n * k)%nat by lia.
  rewrite <- take_take_drop, drop_drop. f_equal.
  - f_equal. f_equal. lia.
  - replace (s * k + k)%nat with (S s * k)%nat by lia.
    rewrite <- (IH (S s)). f_equal. apply list_fmap_ext.
    intros _ i _. simpl. do 2 f_equal. lia.
Qed.

Section LinearReads.
Context (nib : NibbleOps) (fs : Files) (img : DiskImg).
Hypothesis Hsectors : IsSectorFormat (fPhysical img) = true.
Hypothesis Hblocks : fHasBlocks img = true.
Hypothesis Horder : fOrder img = fFileSysOrder img.

Lemma linear_image : IsLinearBlocks img (fOrder img) (fFileSysOrder img) = true.
Proof.
  unfold IsLinearBlocks. rewrite Hsectors, Hblocks, Horder.
  rewrite bool_decide_eq_true_2; reflexivity.
Qed.

Lemma CopyBytesOut_ok offset size data :
  0 ≤ offset → 0 < size →
  CopyBytesOut fs img out_buf offset size = Some (kDIErrNone, data) ↔
  ∃ g, fpDataGFD img = Some g ∧
       offset + size ≤ gfd_length fs g ∧
       data = take (Z.to_nat size) (drop (Z.to_nat offset) (gfd_bytes fs g)).
Proof.
  intros Hoff Hsize. unfold CopyBytesOut, GFD_Seek, GFD_Read.
  destruct (fpDataGFD img) as [g|]; simpl.
  2:{ split; [discriminate | intros (g & Hg & _); discriminate]. }
  destruct (gfd_open fs g) eqn:Hopen; simpl.
  2:{ split; [discriminate | intros (g' & [= <-] & Hlen & _)].
      unfold gfd_length, gfd_bytes, gfd_open in *.
      apply bool_decide_eq_false in Hopen.
      destruct (fs !! gfd_file g); [exfalso; apply Hopen; eauto|].
      simpl in Hlen. rewrite drop_nil in Hlen. simpl in Hlen. lia. }
  destruct (Z.ltb_spec offset 0); [lia|]. simpl.
  destruct (Z.ltb_spec (gfd_length fs g) offset); simpl.
  { split; [discriminate | intros (g' & [= <-] & Hlen & _); lia]. }
  destruct (Z.ltb_spec size 0); [lia|]. simpl.
  destruct (Z.ltb_spec (gfd_length fs g) (offset + size)); simpl.
  { split; [discriminate | intros (g' & [= <-] & Hlen & _); lia]. }
  split.
  - intros [= <-]. exists g. split; [reflexivity|]. split; [lia|reflexivity].
  - intros (g' & [= <-] & _ & ->). reflexivity.
Qed.

Lemma ReadBlock_linear block blk :
  ReadBlock nib fs img block out_buf = Some (kDIErrNone, blk) ↔
  block_read fs img block blk.
Proof.
  unfold ReadBlock, ReadBlockSwapped, block_read.
  rewrite linear_image, Hblocks, andb_false_r. simpl.
  destruct (Z.ltb_spec block 0); simpl.
  { split; [discriminate | intros [? _]; lia]. }
  destruct (Z.leb_spec (fNumBlocks img) block); simpl.
  { split; [discriminate | intros [? _]; lia]. }
  destruct (CheckForBadBlocks img block 1) eqn:Hbad.
  { split; [discriminate | intros (_ & ? & _); discriminate]. }
  unfold kBlockSize. rewrite CopyBytesOut_ok by lia.
  replace (Z.to_nat (block * 512)) with (Z.to_nat block * 512)%nat by lia.
  replace (block * 512 + 512) with ((block + 1) * 512) by lia.
  change (Z.to_nat 512) with 512%nat.
  split; [intros Hg; split; [lia | split; [reflexivity | exact Hg]]
         | intros (_ & _ & Hg); exact Hg].
Qed.

Lemma ReadBlock_nil_buf block blk :
  ReadBlock nib fs img block nil_buf ≠ Some (kDIErrNone, blk).
Proof.
  unfold ReadBlock, ReadBlockSwapped. rewrite Hblocks. simpl.
  destruct ((block <? 0) || (fNumBlocks img <=? block)); discriminate.
Qed.

Lemma ReadBlocks_linear startBlock numBlocks data :
  0 < numBlocks →
  numBlocks * kBlockSize ≤ 2147483647 →
  ReadBlocks nib fs img startBlock numBlocks out_buf
    = Some (kDIErrNone, data) ↔
  0 ≤ startBlock ∧ startBlock + numBlocks ≤ fNumBlocks img ∧
  CheckForBadBlocks img startBlock numBlocks = false ∧
  ∃ g, fpDataGFD img = Some g ∧
       (startBlock + numBlocks) * 512 ≤ gfd_length fs g ∧
       data = take (Z.to_nat numBlocks * 512)
                (drop (Z.to_nat startBlock * 512) (gfd_bytes fs g)).
Proof.
  intros Hn Hint. unfold ReadBlocks, GetNumBlocks. rewrite linear_image. simpl.
  destruct (Z.ltb_spec startBlock 0); simpl.
  { split; [discriminate | intros [? _]; lia]. }
  destruct (Z.ltb_spec (fNumBlocks img) (numBlocks + startBlock)); simpl.
  { split; [discriminate | intros (_ & ? & _); lia]. }
  destruct (CheckForBadBlocks img startBlock numBlocks) eqn:Hbad.
  { split; [discriminate | intros (_ & _ & ? & _); discriminate]. }
  unfold kBlockSize in *.
  rewrite to_int_fits by (unfold fits_long; lia).
  rewrite CopyBytesOut_ok by lia.
  replace (Z.to_nat (startBlock * 512))
    with (Z.to_nat startBlock * 512)%nat by lia.
  replace (Z.to_nat (numBlocks * 512))
    with (Z.to_nat numBlocks * 512)%nat by lia.
  replace (startBlock * 512 + numBlocks * 512)
    with ((startBlock + numBlocks) * 512) by lia.
  split; [intros Hg; split; [lia | split; [lia | split; [reflexivity | exact Hg]]]
         | intros (_ & _ & _ & Hg); exact Hg].
Qed.
End LinearReads.

(** A [ReadBlocks] that succeeds was asked for blocks of the image. *)
Lemma ReadBlocks_guard nib fs img startBlock numBlocks buf data :
  ReadBlocks nib fs img startBlock numBlocks buf = Some (kDIErrNone, data) →
  0 ≤ startBlock ∧ startBlock + numBlocks ≤ fNumBlocks img.
Proof.
  unfold ReadBlocks, GetNumBlocks.
  destruct (Z.ltb_spec startBlock 0); [discriminate|].
  destruct (Z.ltb_spec (fNumBlocks img) (numBlocks + startBlock));
    [discriminate|].
  intros _. lia.
Qed.

(** Counting down from a count that an [int] holds. *)
Lemma count_down n : 0 < n ≤ 2147483647 → to_int (n - 1) = n - 1.
Proof. intros H. apply to_int_fits. unfold fits_long. lia. Qed.

(** The block-at-a-time loop, when it succeeds, has made one successful
    [ReadBlock] call for each block and stored their blocks one after the
    other... *)
Lemma ReadBlocks_each_blocks nib fs img buf fuel numBlocks startBlock data :
  0 ≤ numBlocks ≤ 2147483647 →
  ReadBlocks_each fuel nib fs img numBlocks startBlock buf
    = Some (kDIErrNone, data) →
  ∃ blocks : list (list byte),
    length blocks = Z.to_nat numBlocks ∧
    (∀ (i : nat) blk, blocks !! i = Some blk →
       ReadBlock nib fs img (startBlock + Z.of_nat i) buf
       = Some (kDIErrNone, blk)) ∧
    data = concat blocks.
Proof.
  revert numBlocks startBlock data.
  induction fuel as [|fuel IH]; intros n s data Hn; cbn [ReadBlocks_each];
    destruct (Z.eqb_spec n 0) as [-> | Hnz].
  - intros [= <-]. exists []. split; [reflexivity|]. split; [|reflexivity].
    intros i blk Hi. destruct i; discriminate.
  - discriminate.
  - intros [= <-]. exists []. split; [reflexivity|]. split; [|reflexivity].
    intros i blk Hi. destruct i; discriminate.
  - destruct (ReadBlock nib fs img s buf) as [[dierr blk]|] eqn:Hfirst;
      [|discriminate]. simpl.
    destruct dierr; simpl; try discriminate.
    rewrite count_down by lia.
    destruct (ReadBlocks_each fuel nib fs img (n - 1) (s + 1) buf)
      as [[dierr rest]|] eqn:Hrest; [|discriminate]. simpl.
    intros [= -> <-]. apply IH in Hrest as (blocks & Hlen & Hall & ->);
      [|lia].
    exists (blk :: blocks). split; [simpl; lia|]. split; [|reflexivity].
    intros [|i] b Hb; simpl in Hb.
    + injection Hb as <-. rewrite Z.add_0_r. exact Hfirst.
    + replace (s + Z.of_nat (S i)) with (s + 1 + Z.of_nat i) by lia. auto.
Qed.

(** ... and it succeeds when each of these calls does and it has a pass
    for each. *)
Lemma ReadBlocks_each_enough nib fs img buf fuel numBlocks startBlock
    (blocks : list (list byte)) :
  0 ≤ numBlocks ≤ 2147483647 →
  (Z.to_nat numBlocks ≤ fuel)%nat →
  length blocks = Z.to_nat numBlocks →
  (∀ (i : nat) blk, blocks !! i = Some blk →
     ReadBlock nib fs img (startBlock + Z.of_nat i) buf
     = Some (kDIErrNone, blk)) →
  ReadBlocks_each fuel nib fs img numBlocks startBlock buf
  = Some (kDIErrNone, concat blocks).
Proof.
  revert numBlocks startBlock blocks.
  induction fuel as [|fuel IH]; intros n s blocks Hn Hfuel Hlen Hall;
    cbn [ReadBlocks_each]; destruct (Z.eqb_spec n 0) as [-> | Hnz].
  - destruct blocks; [reflexivity|discriminate].
  - lia.
  - destruct blocks; [reflexivity|discriminate].
  - destruct blocks as [|blk blocks]; [simpl in Hlen; lia|].
    pose proof (Hall 0%nat blk eq_refl) as Hfirst.
    change (Z.of_nat 0) with 0 in Hfirst. rewrite Z.add_0_r in Hfirst.
    rewrite Hfirst. simpl. rewrite count_down by lia.
    rewrite (IH (n - 1) (s + 1) blocks); [reflexivity | lia | lia | |].
    + simpl in Hlen. lia.
    + intros i b Hb.
      replace (s + 1 + Z.of_nat i) with (s + Z.of_nat (S i)) by lia.
      apply Hall. exact Hb.
Qed.

(** The passes that the loop of [ReadBlocks] and [WriteBlocks] is given
    are enough for a range of blocks of the image. *)
Lemma loop_fuel_enough img startBlock numBlocks :
  startBlock + numBlocks ≤ fNumBlocks img →
  (Z.to_nat numBlocks ≤ loop_fuel img startBlock)%nat.
Proof. unfold loop_fuel, GetNumBlocks. lia. Qed.

(** C2.  On an image in sector format that has blocks and whose image
    order is its filesystem order, for a count of blocks whose bytes an
    [int] can count ([n * 512 <= 2147483647]), [ReadBlocks(s, n, buf)]
    succeeds exactly when the [n] calls [ReadBlock(s+i)] succeed, and it
    then fills [buf] with their [n] blocks of 512 bytes one after the
    other; this is also what the block-at-a-time loop of the fallback path
    does. *)
Theorem ReadBlocks_linear_is_blockwise nib fs img startBlock numBlocks buf :
  IsSectorFormat (fPhysical img) = true →
  fHasBlocks img = true →
  fOrder img = fFileSysOrder img →
  0 < numBlocks →
  numBlocks * kBlockSize ≤ 2147483647 →
  (∀ data,
     ReadBlocks nib fs img startBlock numBlocks buf = Some (kDIErrNone, data) ↔
     ∃ blocks : list (list byte),
       length blocks = Z.to_nat numBlocks ∧
       (∀ (i : nat) blk, blocks !! i = Some blk →
          ReadBlock nib fs img (startBlock + Z.of_nat i) buf
          = Some (kDIErrNone, blk)) ∧
       data = concat blocks) ∧
  (∀ block blk,
     ReadBlock nib fs img block buf = Some (kDIErrNone, blk) →
     length blk = 512%nat) ∧
  (∀ data,
     ReadBlocks nib fs img startBlock numBlocks buf = Some (kDIErrNone, data) ↔
     ReadBlocks_each (loop_fuel img startBlock) nib fs img numBlocks
       startBlock buf
     = Some (kDIErrNone, data)).
Proof.
  intros Hsectors Hblocks Horder Hn Hint.
  assert (Hmain : ∀ data,
     ReadBlocks nib fs img startBlock numBlocks buf = Some (kDIErrNone, data) ↔
     ∃ blocks : list (list byte),
       length blocks = Z.to_nat numBlocks ∧
       (∀ (i : nat) blk, blocks !! i = Some blk →
          ReadBlock nib fs img (startBlock + Z.of_nat i) buf
          = Some (kDIErrNone, blk)) ∧
       data = concat blocks).
  { intros data. destruct buf.
    - (* a nil buffer: neither side succeeds *)
      split.
      + unfold ReadBlocks, CopyBytesOut.
        rewrite (linear_image img Hsectors Hblocks Horder). simpl.
        destruct (_ || _); [discriminate|].
        destruct (CheckForBadBlocks _ _ _); [discriminate|].
        destruct (fpDataGFD img); simpl; [|discriminate].
        destruct (GFD_Seek _ _ _); discriminate.
      + intros (blocks & Hlen & Hall & _).
        destruct blocks as [|blk blocks]; [simpl in Hlen; lia|].
        specialize (Hall 0%nat blk eq_refl).
        exfalso. eapply ReadBlock_nil_buf; eauto.
    - rewrite (ReadBlocks_linear nib fs img Hsectors Hblocks Horder)
        by assumption.
      split.
      + intros (Hs & Hend & Hbad & g & Hg & Hlen & ->).
        exists ((λ i, take 512 (drop ((Z.to_nat startBlock + i) * 512)
                                  (gfd_bytes fs g)))
                <$> seq 0 (Z.to_nat numBlocks)).
        split; [rewrite length_fmap, length_seq; reflexivity|].
        split; [|symmetry; apply concat_chunks].
        intros i blk Hi. rewrite list_lookup_fmap in Hi.
        destruct (seq 0 (Z.to_nat numBlocks) !! i) as [j|] eqn:Hj;
          [|discriminate].
        apply lookup_seq in Hj as [-> Hlt]. simpl in Hi. injection Hi as <-.
        apply (ReadBlock_linear nib fs img Hsectors Hblocks Horder).
        split; [lia|]. split.
        { apply (proj1 (CheckForBadBlocks_range img startBlock numBlocks) Hbad).
          lia. }
        exists g. split; [exact Hg|]. split; [lia|].
        do 3 f_equal. lia.
      + intros (blocks & Hlen & Hall & ->).
        assert (Hread : ∀ i : nat, (i < Z.to_nat numBlocks)%nat →
                  ∃ blk, blocks !! i = Some blk ∧
                         block_read fs img (startBlock + Z.of_nat i) blk).
        { intros i Hi. destruct (lookup_lt_is_Some_2 blocks i) as [blk Hblk];
            [lia|]. exists blk. split; [exact Hblk|].
          apply (ReadBlock_linear nib fs img Hsectors Hblocks Horder).
          apply Hall. exact Hblk. }
        destruct (Hread 0%nat) as (blk0 & _ & [Hs0 _] & _ & g & Hg & _); [lia|].
        destruct (Hread (Z.to_nat numBlocks - 1)%nat)
          as (blkn & _ & [_ Hsn] & _ & g' & Hg' & Hlen' & _); [lia|].
        rewrite Hg in Hg'. injection Hg' as <-.
        split; [lia|]. split; [lia|]. split.
        { apply CheckForBadBlocks_range. intros b Hb.
          destruct (Hread (Z.to_nat (b - startBlock)))
            as (blk & _ & _ & Hbad & _); [lia|].
          replace (startBlock + Z.of_nat (Z.to_nat (b - startBlock)))
            with b in Hbad by lia. exact Hbad. }
        exists g. split; [exact Hg|]. split; [lia|].
        rewrite <- concat_chunks. f_equal. apply list_eq. intros i.
        rewrite list_lookup_fmap.
        destruct (decide (i < Z.to_nat numBlocks)%nat) as [Hi|Hi].
        * destruct (Hread i Hi) as (blk & Hblk & _ & _ & g' & Hg' & _ & ->).
          rewrite Hg in Hg'. injection Hg' as <-.
          rewrite Hblk, lookup_seq_lt by exact Hi. simpl.
          do 4 f_equal. lia.
        * rewrite lookup_ge_None_2 by lia.
          rewrite lookup_ge_None_2 by (rewrite length_seq; lia). reflexivity. }
  assert (Hcount : 0 ≤ numBlocks ≤ 2147483647)
    by (unfold kBlockSize in Hint; lia).
  split; [exact Hmain|]. split.
  - intros block blk Hblk. destruct buf.
    + exfalso. eapply ReadBlock_nil_buf; eauto.
    + apply (ReadBlock_linear nib fs img Hsectors Hblocks Horder) in Hblk
        as ([Hb0 _] & _ & g & _ & Hlen & ->).
      rewrite length_take, length_drop.
      unfold gfd_length in Hlen. lia.
  - intros data. split.
    + intros Hrun. pose proof (ReadBlocks_guard _ _ _ _ _ _ _ Hrun) as [_ Hend].
      apply Hmain in Hrun as (blocks & Hlen & Hall & ->).
      apply ReadBlocks_each_enough;
        [exact Hcount | apply loop_fuel_enough; exact Hend | exact Hlen
        | exact Hall].
    + intros Hloop. apply Hmain.
      apply (ReadBlocks_each_blocks _ _ _ _ _ _ _ _ Hcount Hloop).
Qed.

Lemma ReadBlocks_linear_is_blockwise_witness :
  ReadBlocks no_nibbles two_block_files img_po2 0 2 out_buf
  = Some (kDIErrNone, two_block_bytes) ∧
  ReadBlocks_each (loop_fuel img_po2 0) no_nibbles two_block_files img_po2 2
    0 out_buf
  = Some (kDIErrNone, two_block_bytes).
Proof.
  pose proof (ReadBlocks_linear_is_blockwise no_nibbles two_block_files
                img_po2 0 2 out_buf eq_refl eq_refl eq_refl eq_refl)
    as Hthm.
  destruct Hthm as (_ & _ & Hloop); [vm_compute; discriminate|].
  assert (Hfast : ReadBlocks no_nibbles two_block_files img_po2 0 2 out_buf
                  = Some (kDIErrNone, two_block_bytes))
    by (vm_compute; reflexivity).
  split; [exact Hfast | apply Hloop; exact Hfast].
Defined.

Lemma gfd_bytes_4GiB :
  gfd_bytes files_4GiB (mkGFD 0 0 false)
  = replicate (Z.to_nat 4294967296) x00.
Proof.
  unfold gfd_bytes, files_4GiB. cbn [gfd_file gfd_base].
  rewrite lookup_singleton_eq. reflexivity.
Qed.

(** C2, the other way: an image of 8388608 blocks over 4 GiB of zeros.
    Each [ReadBlock] of the image succeeds and gives its 512 bytes; the
    size that [ReadBlocks] computes for all of them, [8388608 * 512] in
    [int], is 0, and the call succeeds with nothing read. *)
Lemma ReadBlocks_of_4GiB_reads_nothing :
  IsSectorFormat (fPhysical img_po4GiB) = true ∧
  fHasBlocks img_po4GiB = true ∧
  fOrder img_po4GiB = fFileSysOrder img_po4GiB ∧
  fNumBlocks img_po4GiB = 8388608 ∧
  (∀ i, 0 ≤ i < 8388608 →
     ReadBlock no_nibbles files_4GiB img_po4GiB i out_buf
     = Some (kDIErrNone, replicate 512 x00)) ∧
  ReadBlocks no_nibbles files_4GiB img_po4GiB 0 8388608 out_buf
  = Some (kDIErrNone, []).
Proof.
  split; [reflexivity|]. split; [reflexivity|]. split; [reflexivity|].
  split; [reflexivity|]. split.
  - intros i Hi.
    apply (ReadBlock_linear no_nibbles files_4GiB img_po4GiB eq_refl eq_refl
             eq_refl).
    split; [exact Hi|]. split; [reflexivity|].
    exists (mkGFD 0 0 false). split; [reflexivity|].
    unfold gfd_length. rewrite gfd_bytes_4GiB, length_replicate.
    split; [lia|].
    rewrite drop_replicate, take_replicate. f_equal. lia.
  - unfold ReadBlocks, GetNumBlocks.
    rewrite (linear_image img_po4GiB eq_refl eq_refl eq_refl).
    change (fNumBlocks img_po4GiB) with 8388608.
    change (CheckForBadBlocks img_po4GiB 0 8388608) with false.
    change ((0 <? 0) || (8388608 <? 8388608 + 0)) with false.
    cbn [negb]. cbv iota.
    change (to_int (8388608 * kBlockSize)) with 0.
    unfold CopyBytesOut.
    change (fpDataGFD img_po4GiB) with (Some (mkGFD 0 0 false)).
    cbn [mbind option_bind].
    unfold GFD_Seek, GFD_Read, gfd_open, gfd_length.
    rewrite gfd_bytes_4GiB, length_replicate.
    unfold files_4GiB. cbn [gfd_file]. rewrite lookup_singleton_eq.
    rewrite bool_decide_eq_true_2 by eauto. cbn [negb].
    change (0 <? 0) with false. cbn [orb].
    destruct (Z.ltb_spec (Z.of_nat (Z.to_nat 4294967296)) 0) as [H|H];
      [lia|].
    cbn [is_ok negb out_is_nil].
    destruct (Z.ltb_spec (Z.of_nat (Z.to_nat 4294967296)) (0 + 0))
      as [H'|H']; [lia|].
    cbn [is_ok negb]. reflexivity.
Qed.

(** ** Dirty flags along the parent chain *)

Lemma ancestor_or_self_dirtied m id img x a :
  m !! id = Some img →
  ancestor_or_self m x a →
  ancestor_or_self (<[id := set_fDirty true img]> m) x a.
Proof.
  intros Hid Hanc. induction Hanc as [x | x imgx parent a Hx Hparent _ IH].
  - apply ancestor_self.
  - destruct (decide (id = x)) as [-> | Hne].
    + rewrite Hid in Hx. injection Hx as <-.
      eapply ancestor_parent; [apply lookup_insert_eq | exact Hparent | exact IH].
    + eapply ancestor_parent;
        [rewrite lookup_insert_ne by exact Hne; exact Hx | exact Hparent | exact IH].
Qed.

(** The walk changes dirty flags only, never clears one, and sets the flag
    of every image that it passes. *)
Lemma set_dirty_chain_spec fuel pImg m m' :
  set_dirty_chain fuel pImg m = Some m' →
  (∀ j img, m !! j = Some img →
     ∃ img', m' !! j = Some img' ∧
             (fDirty img = true → fDirty img' = true) ∧
             img' = set_fDirty (fDirty img') img) ∧
  (∀ id a, pImg = Some id → ancestor_or_self m id a →
     ∃ img', m' !! a = Some img' ∧ fDirty img' = true).
Proof.
  revert pImg m. induction fuel as [|fuel IH]; intros pImg m Hrun.
  - destruct pImg; [discriminate|]. injection Hrun as <-. split.
    + intros j img Hj. exists img. split; [exact Hj|]. split; [auto|].
      destruct img; reflexivity.
    + intros id a [=].
  - destruct pImg as [id|]; simpl in Hrun.
    2:{ injection Hrun as <-. split.
        - intros j img Hj. exists img. split; [exact Hj|]. split; [auto|].
          destruct img; reflexivity.
        - intros id a [=]. }
    destruct (m !! id) as [img|] eqn:Hid; [|discriminate]. simpl in Hrun.
    apply IH in Hrun as [Hkeep Hmark].
    assert (Hkeep' : ∀ j x, m !! j = Some x →
      ∃ x', m' !! j = Some x' ∧ (fDirty x = true → fDirty x' = true) ∧
            x' = set_fDirty (fDirty x') x).
    { intros j x Hj. destruct (decide (id = j)) as [<- | Hne].
      - rewrite Hid in Hj. injection Hj as <-.
        destruct (Hkeep id (set_fDirty true img)) as (x' & Hx' & Hmono & Heq);
          [apply lookup_insert_eq|].
        exists x'. split; [exact Hx'|]. split; [intros _; apply Hmono; reflexivity|].
        exact Heq.
      - apply Hkeep. rewrite lookup_insert_ne by exact Hne. exact Hj. }
    split; [exact Hkeep'|].
    intros id' a [= <-] Hanc. inversion Hanc as [| ? img0 parent ? Hid0 Hparent Hrest]; subst.
    + destruct (Hkeep _ (set_fDirty true img) (lookup_insert_eq _ _ _))
        as (x' & Hx' & Hmono & _).
      exists x'. split; [exact Hx' | apply Hmono; reflexivity].
    + rewrite Hid in Hid0. injection Hid0 as <-.
      apply (Hmark parent a Hparent).
      apply ancestor_or_self_dirtied; assumption.
Qed.

Lemma parents_ranked_dirtied rank m id img :
  parents_ranked rank m → m !! id = Some img →
  parents_ranked rank (<[id := set_fDirty true img]> m).
Proof.
  intros Hwf Hid j x parent Hj Hparent.
  assert (Hj' : ∃ y, m !! j = Some y ∧ fpParentImg y = Some parent).
  { destruct (decide (id = j)) as [<- | Hne].
    - rewrite lookup_insert_eq in Hj. injection Hj as <-. eauto.
    - rewrite lookup_insert_ne in Hj by exact Hne. eauto. }
  destruct Hj' as (y & Hy & Hyp). destruct (Hwf j y parent Hy Hyp) as [Hlt Hsome].
  split; [exact Hlt|]. destruct (decide (id = parent)) as [<- | Hne].
  - rewrite lookup_insert_eq. eauto.
  - rewrite lookup_insert_ne by exact Hne. exact Hsome.
Qed.

Lemma set_dirty_chain_step fuel id m :
  set_dirty_chain (S fuel) (Some id) m
  = (img ← m !! id;
     set_dirty_chain fuel (fpParentImg img) (<[id := set_fDirty true img]> m)).
Proof. reflexivity. Qed.

(** In a store that keeps the discipline the walk ends within its fuel:
    the images that it has passed, [visited], are images of the store, all
    of a higher rank than the one it is at, and it has a step left for
    each of the others. *)
Lemma set_dirty_chain_ends rank (visited : gset ImgId) fuel id m :
  parents_ranked rank m → is_Some (m !! id) →
  visited ⊆ dom m →
  (∀ v, v ∈ visited → (rank id < rank v)%nat) →
  (size (dom m) < size visited + fuel)%nat →
  is_Some (set_dirty_chain fuel (Some id) m).
Proof.
  revert visited id m.
  induction fuel as [|fuel IH]; intros visited id m Hwf [img Hid] Hsub Hrank
    Hfuel.
  - exfalso.
    assert (Hnew : id ∉ visited) by (intros Hv; apply Hrank in Hv; lia).
    assert (Hin : id ∈ dom m) by (apply elem_of_dom; eauto).
    assert (Hle : (size (visited ∪ {[ id ]}) ≤ size (dom m))%nat)
      by (apply subseteq_size, union_subseteq; split;
          [exact Hsub | apply singleton_subseteq_l; exact Hin]).
    rewrite size_union, size_singleton in Hle
      by (apply disjoint_singleton_r; exact Hnew).
    lia.
  - rewrite set_dirty_chain_step, Hid. cbn [mbind option_bind].
    destruct (fpParentImg img) as [parent|] eqn:Hparent;
      [|destruct fuel; simpl; eauto].
    destruct (Hwf id img parent Hid Hparent) as [Hbelow [x Hx]].
    assert (Hnew : id ∉ visited) by (intros Hv; apply Hrank in Hv; lia).
    assert (Hdom : dom (<[id := set_fDirty true img]> m) = dom m)
      by (apply dom_insert_lookup_L; eauto).
    apply (IH (visited ∪ {[ id ]})).
    + apply parents_ranked_dirtied; assumption.
    + destruct (decide (id = parent)) as [<- | Hne].
      * rewrite lookup_insert_eq. eauto.
      * rewrite lookup_insert_ne by exact Hne. eauto.
    + rewrite Hdom. apply union_subseteq. split; [exact Hsub|].
      apply singleton_subseteq_l. apply elem_of_dom. eauto.
    + intros v Hv. apply elem_of_union in Hv as [Hv | Hv].
      * apply Hrank in Hv. lia.
      * apply elem_of_singleton in Hv as ->. exact Hbelow.
    + rewrite Hdom, size_union, size_singleton
        by (apply disjoint_singleton_r; exact Hnew).
      lia.
Qed.

Lemma set_dirty_chain_total rank id m :
  parents_ranked rank m → is_Some (m !! id) →
  is_Some (set_dirty_chain (chain_fuel m) (Some id) m).
Proof.
  intros Hwf Hid.
  apply (set_dirty_chain_ends rank ∅); [exact Hwf | exact Hid | | |].
  - apply empty_subseteq.
  - intros v Hv. apply elem_of_empty in Hv as [].
  - unfold chain_fuel. rewrite size_dom, size_empty. lia.
Qed.

(** A call of [CopyBytesIn] that returns no error has walked up the parent
    chain. *)
Lemma CopyBytesIn_walked w this buf offset size w' :
  CopyBytesIn w this buf offset size = Some (kDIErrNone, w') →
  set_dirty_chain (chain_fuel (imgs w)) (Some this) (imgs w)
  = Some (imgs w').
Proof.
  unfold CopyBytesIn. intros Hwrite.
  destruct (imgs w !! this) as [img|] eqn:Hthis; [|discriminate].
  cbn [mbind option_bind] in Hwrite.
  destruct (fReadOnly img); [discriminate|].
  destruct (fpDataGFD img) as [g|]; [|discriminate].
  cbn [mbind option_bind] in Hwrite.
  destruct (is_ok (GFD_Seek (files w) g offset)) eqn:Hseek;
    cbn [negb] in Hwrite.
  2:{ injection Hwrite as Herr _. rewrite Herr in Hseek. discriminate. }
  destruct (buf_take buf size) as [data|]; [|discriminate].
  cbn [mbind option_bind] in Hwrite.
  destruct (GFD_Write (files w) g offset data) as [dierr fs].
  destruct (is_ok dierr) eqn:Hok; cbn [negb] in Hwrite.
  2:{ injection Hwrite as Herr _. rewrite Herr in Hok. discriminate. }
  destruct (set_dirty_chain (chain_fuel (imgs w)) (Some this) (imgs w))
    as [m|]; cbn [mbind option_bind] in Hwrite; [|discriminate].
  injection Hwrite as <-. reflexivity.
Qed.

(** What [FlushImage] does to the image: nothing but to its wrapped length
    and its dirty flag, which is cleared exactly when the image was flushed
    without error. *)
Lemma FlushImage_effect ops w this mode img dierr w' :
  imgs w !! this = Some img →
  FlushImage ops w this mode = Some (dierr, w') →
  ∃ wrappedLength,
    imgs w'
    = <[this := set_fDirty
                  (fDirty img
                   && (if is_ok dierr then flush_skipped ops mode img
                       else true))
                  (set_fWrappedLength wrappedLength img)]> (imgs w).
Proof.
  intros Hthis Hrun. unfold FlushImage in Hrun. rewrite Hthis in Hrun.
  cbn [mbind option_bind] in Hrun.
  assert (Hid : ∀ d, d = fDirty img →
            imgs w = <[this := set_fDirty d
                         (set_fWrappedLength (fWrappedLength img) img)]>
                       (imgs w)).
  { intros d ->. symmetry. apply insert_id. rewrite Hthis. f_equal.
    destruct img; reflexivity. }
  destruct (fDirty img) eqn:Hdirty; cbn [negb andb] in Hrun |- *.
  2:{ injection Hrun as <- <-. exists (fWrappedLength img).
      apply Hid. reflexivity. }
  unfold flush_skipped.
  destruct (fpDataGFD img) as [dataGFD|] eqn:Hdata.
  2:{ injection Hrun as <- <-. exists (fWrappedLength img).
      destruct mode; cbn [is_ok set_img imgs]; f_equal;
        destruct img; cbn in Hdirty |- *; reflexivity. }
  assert (Houter : ∀ wl fs0,
    FlushImage_outer ops w this (set_fWrappedLength wl img) fs0 = (dierr, w') →
    imgs w' = <[this := set_fDirty
                          (if is_ok dierr then false else true)
                          (set_fWrappedLength wl img)]> (imgs w)).
  { intros wl fs0. unfold FlushImage_outer.
    assert (Hkeep : set_fWrappedLength wl img
                    = set_fDirty true (set_fWrappedLength wl img))
      by (destruct img; cbn in Hdirty |- *; rewrite Hdirty; reflexivity).
    destruct (fpOuterWrapper (set_fWrappedLength wl img)) as [ow|].
    - destruct (Outer_Save ops ow fs0 _ _ _) as [e fs1].
      destruct (is_ok e) eqn:Hok; cbn [negb].
      + intros [= <- <-]. reflexivity.
      + intros [= <- <-]. rewrite Hok. cbn [imgs]. rewrite <- Hkeep.
        reflexivity.
    - intros [= <- <-]. reflexivity. }
  assert (Hplain : img = set_fWrappedLength (fWrappedLength img) img)
    by (destruct img; reflexivity).
  destruct (match mode with
            | kFlushAll => false
            | kFlushFastOnly => slow_wrapper ops img
            end) eqn:Hskip.
  { injection Hrun as <- <-. exists (fWrappedLength img).
    apply Hid. reflexivity. }
  destruct (fpWrapperGFD img) as [wrapperGFD|].
  - destruct (fpImageWrapper img) as [iw|]; [|discriminate].
    cbn [mbind option_bind] in Hrun.
    destruct (Wrapper_Flush ops iw _ _ _ _ _) as [[e wl] fs1].
    destruct (is_ok e) eqn:Hok; cbn [negb] in Hrun.
    + injection Hrun as Hrun. exists wl. apply (Houter wl fs1). exact Hrun.
    + injection Hrun as <- <-. exists wl. rewrite Hok. cbn [imgs].
      f_equal. destruct img; cbn in Hdirty |- *; rewrite Hdirty. reflexivity.
  - injection Hrun as Hrun. exists (fWrappedLength img).
    apply (Houter (fWrappedLength img) (files w)).
    rewrite <- Hplain. exact Hrun.
Qed.


Lemma world_child_parents_ranked :
  parents_ranked (λ id, id) (imgs world_child).
Proof.
  assert (Hshape : imgs world_child
            = <[1%nat := child_img]> (<[0%nat := img_po2]> ∅))
    by (vm_compute; reflexivity).
  assert (Hroot : is_Some (imgs world_child !! 0%nat)) by (vm_compute; eauto).
  intros id img parent Hid Hparent. rewrite Hshape in Hid.
  apply lookup_insert_Some in Hid as [[<- <-] | [_ Hid]].
  - vm_compute in Hparent. injection Hparent as <-.
    split; [lia | exact Hroot].
  - apply lookup_insert_Some in Hid as [[<- <-] | [_ Hid]];
      [vm_compute in Hparent; discriminate|].
    rewrite lookup_empty in Hid. discriminate.
Qed.

Lemma world_child_ancestor : ancestor_or_self (imgs world_child) 1%nat 0%nat.
Proof.
  eapply (ancestor_parent _ 1%nat child_img 0%nat 0%nat);
    [vm_compute; reflexivity | vm_compute; reflexivity | apply ancestor_self].
Qed.



(** ** Filesystem detection *)

Lemma is_ok_true dierr : is_ok dierr = true ↔ dierr = kDIErrNone.
Proof. destruct dierr; simpl; split; congruence. Qed.

Lemma is_ok_false dierr : is_ok dierr = false ↔ dierr ≠ kDIErrNone.
Proof. destruct dierr; simpl; split; congruence. Qed.

Lemma first_success_probing test fs order img :
  probing test fs order img
    (first_success test fs order img).1.1
    (first_success test fs order img).1.2
    (first_success test fs order img).2.
Proof.
  revert img. induction order as [|p rest IH]; intros img; simpl.
  - apply probing_end.
  - unfold probe_image.
    destruct (test p fs img (fOrder img) (fFormat img) kLeniencyNot)
      as [[dierr order] format] eqn:Hp.
    destruct (is_ok dierr) eqn:Hok.
    + apply is_ok_true in Hok as ->. simpl. eapply probing_hit; exact Hp.
    + apply is_ok_false in Hok.
      specialize (IH (set_fFormat format (set_fOrder order img))).
      destruct (first_success test fs rest _) as [[called winner] img'].
      simpl in *. eapply probing_miss; eassumption.
Qed.

(** The probes called are the first ones of the order. *)
Lemma probing_prefix test fs order img called winner img' :
  probing test fs order img called winner img' → called `prefix_of` order.
Proof.
  induction 1 as [ | p rest | p rest img dierr o f called winner img' _ _ _ IH].
  - reflexivity.
  - exists rest. reflexivity.
  - destruct IH as [more ->]. exists more. reflexivity.
Qed.

(** The winner's own call succeeded, and the image holds its answer. *)
Lemma probing_winner test fs order img called p img' :
  probing test fs order img called (Some p) img' →
  ∃ before order' format,
    test p fs before (fOrder before) (fFormat before) kLeniencyNot
      = (kDIErrNone, order', format) ∧
    img' = set_fFormat format (set_fOrder order' before) ∧
    last called = Some p.
Proof.
  remember (Some p) as winner eqn:Hw. intros Hrun. revert Hw.
  induction Hrun as [ | q rest img o f Hq
                      | q rest img dierr o f tried winner img' _ _ Hrest IH];
    intros Hw.
  - discriminate.
  - injection Hw as ->. exists img, o, f. auto.
  - destruct (IH Hw) as (before & o' & f' & Htest & -> & Hlast).
    exists before, o', f'. split; [exact Htest|]. split; [reflexivity|].
    subst winner. destruct tried; [discriminate Hlast | exact Hlast].
Qed.

(** Without a winner every probe of the order was called. *)
Lemma probing_none test fs order img called img' :
  probing test fs order img called None img' → called = order.
Proof.
  remember None as winner eqn:Hw. intros Hrun. revert Hw.
  induction Hrun as [ | | q rest img dierr o f called winner img' _ _ _ IH];
    intros Hw; [reflexivity | discriminate | rewrite (IH Hw); reflexivity].
Qed.

Ltac step_probe :=
  match goal with
  | |- context [probe_image ?t ?fs ?p ?i] =>
      destruct (probe_image t fs p i) as [[] ?img]; [reflexivity|]
  end.

(** The chain of [else if] of [AnalyzeImageFS] is the search for the first
    success along [probe_order]. *)
Lemma AnalyzeImageFS_first_success test fs img :
  AnalyzeImageFS test fs img
  = (let '(called, winner, img1) := first_success test fs probe_order img in
     let img2 := after_probe winner img1 in
     (set_fFileSysOrder (CalcFSSectorOrder img2) img2, called)).
Proof.
  unfold AnalyzeImageFS, probe_order. cbn [first_success].
  do 14 step_probe. reflexivity.
Qed.

(** C4.  [AnalyzeImageFS] calls the probes in the order MacPart, MicroDrive,
    FocusDrive, CFFA, FAT, DOS 3.3/3.2, wide UNIDOS, UNIDOS, OzDOS, ProDOS,
    Pascal, CPM, RDOS, HFS, and stops at the first that succeeds.  The
    format of the image is then the one that this probe answered (the DOS
    branch making it DOS 3.2 on a 13-sector image); when every probe fails
    all fourteen were called and the format is Unknown.  The function
    returns no DIError. *)
Theorem AnalyzeImageFS_fixed_order test fs img :
  ∃ called winner img1,
    probing test fs probe_order img called winner img1 ∧
    called `prefix_of` probe_order ∧
    snd (AnalyzeImageFS test fs img) = called ∧
    match winner with
    | Some p =>
        last called = Some p ∧
        ∃ before order format,
          test p fs before (fOrder before) (fFormat before) kLeniencyNot
            = (kDIErrNone, order, format) ∧
          fFormat (fst (AnalyzeImageFS test fs img))
          = if bool_decide (p = DiskFSDOS33_TestFS)
               && (fNumSectPerTrack before =? 13)
            then kFormatDOS32 else format
    | None =>
        called = probe_order ∧
        fFormat (fst (AnalyzeImageFS test fs img)) = kFormatUnknown
    end.
Proof.
  pose proof (first_success_probing test fs probe_order img) as Hrun.
  rewrite AnalyzeImageFS_first_success.
  destruct (first_success test fs probe_order img) as [[called winner] img1].
  simpl in Hrun. exists called, winner, img1.
  split; [exact Hrun|]. split; [eapply probing_prefix; exact Hrun|].
  split; [reflexivity|]. destruct winner as [p|].
  - destruct (probing_winner _ _ _ _ _ _ _ Hrun)
      as (before & order & format & Htest & -> & Hlast).
    split; [exact Hlast|]. exists before, order, format.
    split; [exact Htest|]. cbn [fst].
    destruct p; cbn [after_probe bool_decide decide_rel]; try reflexivity.
    simpl. destruct (fNumSectPerTrack before =? 13); reflexivity.
  - split; [eapply probing_none; exact Hrun | reflexivity].
Qed.

(** ** Writes out of range *)

(** C6, as the code has it.  On an image that has blocks, [WriteBlock] with
    a block index that is negative or at least [fNumBlocks] (so also
    exactly [fNumBlocks]) returns InvalidBlock; on an image without blocks
    [WriteBlock] returns UnsupportedAccess whatever the block index.
    Either way nothing is changed: neither the data nor any DiskImg, so no
    dirty flag. *)
Theorem WriteBlock_out_of_range nib w this img block buf :
  imgs w !! this = Some img →
  (fHasBlocks img = true →
   block < 0 ∨ fNumBlocks img ≤ block →
   WriteBlock nib w this block buf = Some (kDIErrInvalidBlock, w)) ∧
  (fHasBlocks img = false →
   WriteBlock nib w this block buf = Some (kDIErrUnsupportedAccess, w)).
Proof.
  intros Hthis. unfold WriteBlock. rewrite Hthis. cbn [mbind option_bind].
  split; intros Hblocks; rewrite Hblocks; cbn [negb]; [|reflexivity].
  intros Hrange.
  replace ((block <? 0) || (fNumBlocks img <=? block)) with true;
    [reflexivity|].
  symmetry. apply orb_true_iff.
  destruct Hrange; [left; apply Z.ltb_lt | right; apply Z.leb_le]; lia.
Qed.

Lemma WriteBlock_out_of_range_witness :
  WriteBlock no_nibbles world0 0%nat 2 (Some (replicate 512 x03))
  = Some (kDIErrInvalidBlock, world0).
Proof.
  destruct (WriteBlock_out_of_range no_nibbles world0 0%nat img_po2 2
              (Some (replicate 512 x03))) as [Hrange _];
    [vm_compute; reflexivity|].
  apply Hrange; [reflexivity | right; vm_compute; discriminate].
Defined.

(** The claim as the specification has it fails on an image without
    blocks: a 13-sector image has [fNumBlocks = -1], and a write to block 0
    returns UnsupportedAccess. *)
Lemma WriteBlock_without_blocks :
  AnalyzeImage no_nibbles no_filesystem d13_files img_d13_file
    = Some (kDIErrNone, img_d13, probe_order) ∧
  fHasBlocks img_d13 = false ∧
  fNumBlocks img_d13 = -1 ∧
  WriteBlock no_nibbles world_d13 0%nat 0 (Some (replicate 512 x03))
  = Some (kDIErrUnsupportedAccess, world_d13).
Proof.
  assert (Hblocks : fHasBlocks img_d13 = false) by (lazy; reflexivity).
  repeat apply conj; [lazy; reflexivity | exact Hblocks | lazy; reflexivity |].
  unfold WriteBlock, world_d13. cbn [imgs].
  rewrite lookup_singleton_eq. cbn [mbind option_bind].
  rewrite Hblocks. reflexivity.
Qed.

(** ** Format override *)

(** C9.  On an image whose physical format is known (the sector format or
    a nibble format, as for every open image), [OverrideFormat] with the
    image's own physical format, filesystem format and sector order
    returns success at once: no probe is called and the image is
    unchanged. *)
Theorem OverrideFormat_same_is_noop test fs img :
  fPhysical img ≠ kPhysicalFormatUnknown →
  OverrideFormat test fs img (fPhysical img) (fFormat img) (fOrder img)
  = (kDIErrNone, img, []).
Proof.
  intros Hknown. unfold OverrideFormat.
  assert (Hguard : negb (IsSectorFormat (fPhysical img))
                   && negb (IsNibbleFormat (fPhysical img)) = false)
    by (destruct (fPhysical img); [congruence | reflexivity ..]).
  rewrite Hguard. rewrite !bool_decide_eq_true_2 by reflexivity. reflexivity.
Qed.

Lemma OverrideFormat_same_is_noop_witness :
  OverrideFormat no_filesystem two_block_files img_po2
    (fPhysical img_po2) (fFormat img_po2) (fOrder img_po2)
  = (kDIErrNone, img_po2, []).
Proof.
  apply (OverrideFormat_same_is_noop no_filesystem two_block_files img_po2).
  vm_compute. discriminate.
Defined.

(** ** Zero-length sources *)

(** C7.  When the source opens and its length measures zero,
    [AnalyzeImageFile] returns UnrecognizedFileFmt without a single call
    into an outer or image wrapper, and so does [OpenImage]. *)
Theorem zero_length_unrecognized ops fs img pathName fssep readOnly g :
  fpDataGFD img = None →
  GFDFile_Open ops fs pathName readOnly = (kDIErrNone, g) →
  gfd_open fs g = true →
  gfd_length fs g = 0 →
  ∃ img',
    AnalyzeImageFile ops fs
      (set_fpWrapperGFD (Some g) (set_fReadOnly readOnly img)) pathName fssep
      = Some (kDIErrUnrecognizedFileFmt, img', fs, []) ∧
    OpenImage ops fs img pathName fssep readOnly
      = Some (kDIErrUnrecognizedFileFmt, img', fs, []) ∧
    fWrappedLength img' = 0 ∧ fpImageWrapper img' = fpImageWrapper img ∧
    fpOuterWrapper img' = fpOuterWrapper img.
Proof.
  intros Hclosed Hopen Hgfd Hlen.
  assert (Hanalyze : ∃ img',
    AnalyzeImageFile ops fs
      (set_fpWrapperGFD (Some g) (set_fReadOnly readOnly img)) pathName fssep
      = Some (kDIErrUnrecognizedFileFmt, img', fs, []) ∧
    fWrappedLength img' = 0 ∧ fpImageWrapper img' = fpImageWrapper img ∧
    fpOuterWrapper img' = fpOuterWrapper img).
  { unfold AnalyzeImageFile, GFD_SeekEnd. simpl. rewrite Hgfd, Hlen. simpl.
    eexists. split; [reflexivity|]. repeat split. }
  destruct Hanalyze as (img' & Hrun & Hfacts). exists img'.
  split; [exact Hrun|]. split; [|exact Hfacts].
  unfold OpenImage. rewrite Hclosed. simpl. rewrite Hopen. simpl. exact Hrun.
Qed.

Lemma zero_length_unrecognized_witness :
  ∃ img',
    AnalyzeImageFile plain_wrappers {[ 0%nat := [] ]}
      (set_fpWrapperGFD (Some (mkGFD 0 0 true))
         (set_fReadOnly true DiskImg_new)) "empty.po" slash
      = Some (kDIErrUnrecognizedFileFmt, img', {[ 0%nat := [] ]}, []) ∧
    OpenImage plain_wrappers {[ 0%nat := [] ]} DiskImg_new "empty.po" slash true
      = Some (kDIErrUnrecognizedFileFmt, img', {[ 0%nat := [] ]}, []) ∧
    fWrappedLength img' = 0 ∧
    fpImageWrapper img' = fpImageWrapper DiskImg_new ∧
    fpOuterWrapper img' = fpOuterWrapper DiskImg_new.
Proof.
  apply (zero_length_unrecognized plain_wrappers {[ 0%nat := [] ]} DiskImg_new
           "empty.po" slash true (mkGFD 0 0 true));
    vm_compute; reflexivity.
Defined.

(** ** Damaged wrappers *)

Ltac split_ifs :=
  repeat match goal with
         | |- context [if ?b then _ else _] => destruct b
         end.

Ltac not_in_trace :=
  let H := fresh "Hin" in
  intros H;
  repeat (apply elem_of_cons in H as [H|H]; [discriminate H|]);
  apply elem_of_nil in H; exact H.

(** Before the switch on [probableFormat] no wrapper is prepared. *)
Lemma outer_calls_no_prep ops fs img g pathName fssep ext c :
  CallWrapperPrep c ∉ (AnalyzeImageFile_outer ops fs img g pathName fssep ext).2.
Proof. unfold AnalyzeImageFile_outer. split_ifs; simpl; not_in_trace. Qed.

Lemma byExtension_calls_no_prep ops fs img g ext c :
  CallWrapperPrep c ∉ (AnalyzeImageFile_byExtension ops fs img g ext).2.
Proof.
  unfold AnalyzeImageFile_byExtension. cbv zeta. split_ifs; simpl; not_in_trace.
Qed.

Lemma probe_calls_no_prep ops fs img g c :
  CallWrapperPrep c ∉ (AnalyzeImageFile_probe ops fs img g).2.
Proof.
  unfold AnalyzeImageFile_probe, AnalyzeImageFile_guess. cbv zeta.
  split_ifs; simpl; not_in_trace.
Qed.

(** [AddNote] puts the new note after the old ones and leaves the other
    fields alone. *)
Lemma AddNote_checksum_warning img :
  fNotes (AddNote kNoteWarning "File checksum didn't match." img)
  = Some (GetNotes img +:+ checksum_warning).
Proof.
  unfold AddNote, GetNotes. destruct (fNotes img); vm_compute; reflexivity.
Qed.

Lemma AddNote_fpImageWrapper type fmt img :
  fpImageWrapper (AddNote type fmt img) = fpImageWrapper img.
Proof. unfold AddNote. destruct (fNotes img); reflexivity. Qed.

Lemma store_prep_fpImageWrapper c r img :
  fpImageWrapper (store_prep c r img)
  = Some (mkImageWrapper c (pr_damaged r)).
Proof. reflexivity. Qed.

Lemma store_prep_GetNotes c r img :
  GetNotes (store_prep c r img) = GetNotes img.
Proof. reflexivity. Qed.

Lemma note_damage_fields fmt img :
  fReadOnly (set_fFileFormat fmt (note_damage img)) = true ∧
  fpImageWrapper (set_fFileFormat fmt (note_damage img)) = fpImageWrapper img ∧
  fNotes (set_fFileFormat fmt (note_damage img))
  = Some (GetNotes img +:+ checksum_warning).
Proof.
  split; [reflexivity|]. split.
  - exact (AddNote_fpImageWrapper _ _ img).
  - exact (AddNote_checksum_warning img).
Qed.

(** The end of [AnalyzeImageFile]: the DIError is the one of Prep, and a
    wrapper that Prep leaves damaged makes the image read-only and adds the
    checksum warning to the notes. *)
Lemma AnalyzeImageFile_prep_damaged ops fs img dierr0 fmt dierr img' fs' calls c :
  AnalyzeImageFile_prep ops fs img dierr0 fmt = (dierr, img', fs', calls) →
  CallWrapperPrep c ∈ calls →
  ∃ fsp imgp,
    let r := Wrapper_Prep ops c fsp imgp in
    dierr = pr_err r ∧
    (pr_err r = kDIErrNone → pr_damaged r = true →
       fReadOnly img' = true ∧
       iw_damaged <$> fpImageWrapper img' = Some true ∧
       fNotes img' = Some (GetNotes imgp +:+ checksum_warning)).
Proof.
  unfold AnalyzeImageFile_prep.
  set (img1 := match fmt with kFileFormatFDI => set_fReadOnly true img
               | _ => img end).
  destruct (wrapper_for fmt img1) as [c'|].
  2:{ intros [= _ _ _ <-] Hin. apply elem_of_nil in Hin. destruct Hin. }
  set (r := Wrapper_Prep ops c' fs img1).
  destruct (is_ok (pr_err r)) eqn:Hok; cbn [negb]; intros Heq Hin;
    injection Heq as Hdierr Himg _ Hcalls; subst calls;
    apply list_elem_of_singleton in Hin; injection Hin as ->;
    exists fs, img1; fold r; cbv zeta.
  - apply is_ok_true in Hok. split; [congruence|]. intros _ Hdamaged.
    rewrite Hdamaged in Himg. subst img'.
    destruct (note_damage_fields fmt (store_prep c' r img1))
      as (Hro & Hwrapper & Hnotes).
    rewrite Hro, Hwrapper, Hnotes.
    rewrite store_prep_fpImageWrapper, store_prep_GetNotes, Hdamaged.
    split; [reflexivity|]. split; reflexivity.
  - apply is_ok_false in Hok. split; [congruence|]. intros Herr. contradiction.
Qed.

Lemma AnalyzeImageFile_damaged ops fs img pathName fssep dierr img' fs' calls c :
  AnalyzeImageFile ops fs img pathName fssep = Some (dierr, img', fs', calls) →
  CallWrapperPrep c ∈ calls →
  ∃ fsp imgp,
    let r := Wrapper_Prep ops c fsp imgp in
    dierr = pr_err r ∧
    (pr_err r = kDIErrNone → pr_damaged r = true →
       fReadOnly img' = true ∧
       iw_damaged <$> fpImageWrapper img' = Some true ∧
       fNotes img' = Some (GetNotes imgp +:+ checksum_warning)).
Proof.
  unfold AnalyzeImageFile.
  destruct (fpWrapperGFD (set_fLength (-1) img)) as [g0|]; [|discriminate].
  cbn [mbind option_bind].
  destruct (GFD_SeekEnd fs g0) as [dierr0 len].
  destruct (is_ok dierr0); cbn [negb].
  2:{ intros [= _ _ _ <-] Hin. apply elem_of_nil in Hin. destruct Hin. }
  destruct (_ =? 0).
  { intros [= _ _ _ <-] Hin. apply elem_of_nil in Hin. destruct Hin. }
  pose proof (outer_calls_no_prep ops fs
    (set_fOuterLength len (set_fWrappedLength len (set_fLength (-1) img)))
    g0 pathName fssep (extension ops pathName fssep) c) as Houter.
  destruct (AnalyzeImageFile_outer _ _ _ _ _ _ _)
    as [[[[dierr1 img1] fs1] ext1] outer]. cbn [snd] in Houter.
  destruct (is_ok dierr1); cbn [negb].
  2:{ intros [= _ _ _ <-] Hin. contradiction. }
  destruct (fpWrapperGFD img1) as [g|]; [|discriminate].
  cbn [mbind option_bind].
  pose proof (byExtension_calls_no_prep ops fs1 img1 g ext1 c) as Hfirst.
  destruct (AnalyzeImageFile_byExtension _ _ _ _ _)
    as [[[[bail fmt] reliable] img2] first]. cbn [snd] in Hfirst.
  destruct bail as [dierr2|].
  { intros [= _ _ _ <-] Hin. apply elem_of_app in Hin as [Hin|Hin]; contradiction. }
  destruct (bool_decide (fmt = kFileFormatUnknown)); cbn [negb].
  - destruct reliable.
    { intros [= _ _ _ <-] Hin.
      apply elem_of_app in Hin as [Hin|Hin]; contradiction. }
    pose proof (probe_calls_no_prep ops fs1 img2 g c) as Hsecond.
    destruct (AnalyzeImageFile_probe _ _ _ _)
      as [[[[bail dierr3] fmt3] img3] second]. cbn [snd] in Hsecond.
    destruct bail.
    { intros [= _ _ _ <-] Hin.
      rewrite !elem_of_app in Hin. destruct Hin as [Hin|[Hin|Hin]]; contradiction. }
    destruct (AnalyzeImageFile_prep ops fs1 img3 dierr3 fmt3)
      as [[[dierr4 img4] fs4] prep] eqn:Hprep.
    intros [= <- <- <- <-] Hin.
    rewrite !elem_of_app in Hin.
    destruct Hin as [Hin|[Hin|[Hin|Hin]]]; try contradiction.
    eapply AnalyzeImageFile_prep_damaged; eassumption.
  - destruct (AnalyzeImageFile_prep ops fs1 img2 dierr1 fmt)
      as [[[dierr4 img4] fs4] prep] eqn:Hprep.
    intros [= <- <- <- <-] Hin.
    rewrite !elem_of_app in Hin.
    destruct Hin as [Hin|[Hin|Hin]]; try contradiction.
    eapply AnalyzeImageFile_prep_damaged; eassumption.
Qed.

Lemma OpenImage_damaged ops fs img pathName fssep readOnly dierr img' fs' calls c :
  OpenImage ops fs img pathName fssep readOnly = Some (dierr, img', fs', calls) →
  CallWrapperPrep c ∈ calls →
  ∃ fsp imgp,
    let r := Wrapper_Prep ops c fsp imgp in
    dierr = pr_err r ∧
    (pr_err r = kDIErrNone → pr_damaged r = true →
       fReadOnly img' = true ∧
       iw_damaged <$> fpImageWrapper img' = Some true ∧
       fNotes img' = Some (GetNotes imgp +:+ checksum_warning)).
Proof.
  unfold OpenImage. destruct (fpDataGFD img).
  { intros [= _ _ _ <-] Hin. apply elem_of_nil in Hin. destruct Hin. }
  destruct (GFDFile_Open ops fs pathName _) as [dierr0 gfd].
  destruct (is_ok dierr0); cbn [negb].
  - apply AnalyzeImageFile_damaged.
  - intros [= _ _ _ <-] Hin. apply elem_of_nil in Hin. destruct Hin.
Qed.

(** On a read-only image the guards of the write calls come first, then
    AccessDenied; nothing is written. *)
Lemma WriteBlock_read_only nib w this img block buf :
  imgs w !! this = Some img → fReadOnly img = true →
  ∃ dierr,
    WriteBlock nib w this block buf = Some (dierr, w) ∧
    dierr ≠ kDIErrNone ∧
    (fHasBlocks img = true → 0 ≤ block < fNumBlocks img → buf ≠ None →
     dierr = kDIErrAccessDenied).
Proof.
  intros Hthis Hro. unfold WriteBlock. rewrite Hthis. cbn [mbind option_bind].
  destruct (fHasBlocks img); cbn [negb].
  2:{ eexists. split; [reflexivity|]. split; [discriminate|]. discriminate. }
  destruct (Z.ltb_spec block 0); cbn [orb].
  { eexists. split; [reflexivity|]. split; [discriminate|]. lia. }
  destruct (Z.leb_spec (fNumBlocks img) block).
  { eexists. split; [reflexivity|]. split; [discriminate|]. lia. }
  destruct buf as [data|].
  2:{ eexists. split; [reflexivity|]. split; [discriminate|]. congruence. }
  rewrite bool_decide_eq_false_2 by discriminate. rewrite Hro.
  eexists. split; [reflexivity|]. split; [discriminate | reflexivity].
Qed.

(** C5.  When the wrapper that [OpenImage] prepares returns no error and
    reports damage (a DiskCopy 4.2 file whose data checksum does not
    match), [OpenImage] returns no error, the image is read-only and the
    checksum warning stands at the end of its notes.  On a read-only image
    every write call ([WriteBlock], [WriteTrackSector], [WriteBlocks],
    [CopyBytesIn]) leaves everything as it was, and a write call returns
    AccessDenied when its arguments are those of a write: the image has
    blocks, the block or the range of blocks is inside the image, the
    count of blocks is positive (as [WriteBlocks] asserts) and the buffer
    is not nil.  (The read-only test of [WriteBlock] and [WriteBlocks]
    comes after the tests of these arguments; [WriteTrackSector] tests the
    buffer first and [CopyBytesIn] nothing.) *)
Theorem damaged_wrapper_opens_read_only :
  (∀ ops fs img pathName fssep readOnly dierr img' fs' calls c,
     OpenImage ops fs img pathName fssep readOnly
       = Some (dierr, img', fs', calls) →
     CallWrapperPrep c ∈ calls →
     ∃ fsp imgp,
       let r := Wrapper_Prep ops c fsp imgp in
       dierr = pr_err r ∧
       (pr_err r = kDIErrNone → pr_damaged r = true →
          dierr = kDIErrNone ∧
          fReadOnly img' = true ∧
          iw_damaged <$> fpImageWrapper img' = Some true ∧
          fNotes img' = Some (GetNotes imgp +:+ checksum_warning))) ∧
  (∀ nib w this img,
     imgs w !! this = Some img → fReadOnly img = true →
     (∀ block buf,
        ∃ dierr, WriteBlock nib w this block buf = Some (dierr, w) ∧
                 dierr ≠ kDIErrNone ∧
                 (fHasBlocks img = true → 0 ≤ block < fNumBlocks img →
                  buf ≠ None → dierr = kDIErrAccessDenied)) ∧
     (∀ track sector buf,
        ∃ dierr, WriteTrackSector nib w this track sector buf
                 = Some (dierr, w) ∧
                 dierr ≠ kDIErrNone ∧
                 (buf ≠ None → dierr = kDIErrAccessDenied)) ∧
     (∀ startBlock numBlocks buf,
        ∃ dierr, WriteBlocks nib w this startBlock numBlocks buf
                 = Some (dierr, w) ∧
                 (fHasBlocks img = true → 0 ≤ startBlock → 0 < numBlocks →
                  startBlock + numBlocks ≤ fNumBlocks img → buf ≠ None →
                  dierr = kDIErrAccessDenied)) ∧
     (∀ buf offset size,
        CopyBytesIn w this buf offset size = Some (kDIErrAccessDenied, w))).
Proof.
  split.
  - intros ops fs img pathName fssep readOnly dierr img' fs' calls c Hopen Hin.
    destruct (OpenImage_damaged _ _ _ _ _ _ _ _ _ _ _ Hopen Hin)
      as (fsp & imgp & Herr & Hdamaged).
    exists fsp, imgp. cbv zeta in *. split; [exact Herr|].
    intros Hok Hbad. split; [congruence | exact (Hdamaged Hok Hbad)].
  - intros nib w this img Hthis Hro.
    assert (Hcopy : ∀ buf offset size,
      CopyBytesIn w this buf offset size = Some (kDIErrAccessDenied, w)).
    { intros buf offset size. unfold CopyBytesIn. rewrite Hthis.
      cbn [mbind option_bind]. rewrite Hro. reflexivity. }
    split; [intros; eapply WriteBlock_read_only; eassumption|].
    split; [|split; [|exact Hcopy]].
    + intros track sector buf. unfold WriteTrackSector. rewrite Hthis.
      cbn [mbind option_bind].
      destruct (decide (buf = None)) as [Hnil | Hbuf].
      * rewrite bool_decide_eq_true_2 by exact Hnil.
        eexists. split; [reflexivity|]. split; [discriminate|].
        intros Hbuf. contradiction.
      * rewrite bool_decide_eq_false_2 by exact Hbuf. rewrite Hro.
        eexists. split; [reflexivity|]. split; [discriminate | reflexivity].
    + intros startBlock numBlocks buf.
      unfold WriteBlocks, GetNumBlocks. rewrite Hthis. cbn [mbind option_bind].
      destruct (Z.ltb_spec startBlock 0); cbn [orb].
      { eexists. split; [reflexivity|]. intros; lia. }
      destruct (Z.ltb_spec (fNumBlocks img) (numBlocks + startBlock)).
      { eexists. split; [reflexivity|]. intros; lia. }
      destruct (IsLinearBlocks img (fOrder img) (fFileSysOrder img));
        cbn [negb].
      { eexists. split; [apply Hcopy | reflexivity]. }
      destruct (loop_fuel img startBlock) as [|fuel] eqn:Hfuel;
        [unfold loop_fuel in Hfuel; lia|].
      cbn [WriteBlocks_each].
      destruct (Z.eqb_spec numBlocks 0) as [-> | Hnz].
      { eexists. split; [reflexivity|]. intros; lia. }
      destruct (WriteBlock_read_only nib w this img startBlock buf Hthis Hro)
        as (dierr & Hrun & Hfail & Hdenied).
      rewrite Hrun. cbn [mbind option_bind].
      apply is_ok_false in Hfail. rewrite Hfail. cbn [negb].
      eexists. split; [reflexivity|].
      intros Hb Hs Hn Hend Hbuf. apply Hdenied; [exact Hb | lia | exact Hbuf].
Qed.

Lemma damaged_wrapper_opens_read_only_witness :
  fReadOnly img_dc42_opened = true ∧
  fNotes img_dc42_opened = Some checksum_warning ∧
  WriteBlock no_nibbles world_dc42 0%nat 1 (Some (replicate 512 x03))
  = Some (kDIErrAccessDenied, world_dc42).
Proof.
  destruct damaged_wrapper_opens_read_only as [Hopen Hwrite].
  destruct (Hopen damaged_dc42 dc42_files DiskImg_new "image"%string slash
              false kDIErrNone img_dc42_opened dc42_files dc42_calls
              WrapperDiskCopy42) as (fsp & imgp & _ & Hdamaged);
    [vm_compute; reflexivity | vm_compute; do 2 right; left |].
  destruct (Hdamaged eq_refl eq_refl) as (_ & Hro & _ & _).
  split; [exact Hro|]. split; [vm_compute; reflexivity|].
  destruct (Hwrite no_nibbles world_dc42 0%nat img_dc42) as (Hblock & _);
    [vm_compute; reflexivity | vm_compute; reflexivity |].
  destruct (Hblock 1 (Some (replicate 512 x03)))
    as (dierr & Hrun & _ & Hdenied).
  rewrite Hrun. rewrite Hdenied;
    [reflexivity | vm_compute; reflexivity
    | vm_compute; split; [discriminate | reflexivity] | discriminate].
Defined.

(** ** Create-time validation *)

Ltac split_ifs_eqn :=
  repeat match goal with
         | |- context [if ?b then _ else _] => destruct b eqn:?
         end.

Lemma validate_nibble_rejects img :
  fPhysical img ≠ kPhysicalFormatSectors →
  fOrder img ≠ kSectorOrderPhysical ∨
  (∃ descr, fpNibbleDescr img = Some descr ∧
     (numSectors descr ≠ GetNumSectPerTrack img ∨
      (numSectors descr = 13 ∧ encoding descr ≠ kNibbleEnc53) ∨
      (numSectors descr = 16 ∧ encoding descr ≠ kNibbleEnc62))) →
  validate_nibble img = kDIErrInvalidCreateReq.
Proof.
  intros Hphys Hbad. unfold validate_nibble, isnt.
  rewrite (bool_decide_eq_false_2 _ Hphys). cbn [negb].
  destruct (bool_decide (fOrder img = kSectorOrderPhysical)) eqn:Horder;
    cbn [negb]; [|reflexivity].
  apply bool_decide_eq_true in Horder.
  destruct Hbad as [Hbad | (descr & Hdescr & Hbad)]; [contradiction|].
  rewrite Hdescr.
  destruct (negb (GetHasSectors img) && negb (GetHasNibbles img));
    [reflexivity|].
  destruct (Z.eqb_spec (numSectors descr) (GetNumSectPerTrack img)) as [Hn|Hn];
    cbn [negb]; [|reflexivity].
  destruct Hbad as [Hbad | [[H13 Henc] | [H16 Henc]]]; [contradiction| |].
  - rewrite H13, (bool_decide_eq_false_2 _ Henc). reflexivity.
  - rewrite H16, (bool_decide_eq_false_2 _ Henc). reflexivity.
Qed.

(** Every check of the validation answers success or InvalidCreateReq. *)
Lemma validate_codes img :
  Forall (λ dierr, dierr = kDIErrNone ∨ dierr = kDIErrInvalidCreateReq)
    [ validate_arguments img; validate_nibble img; validate_2MG img;
      validate_NuFX img; validate_DiskCopy42 img; validate_Sim2eHDV img;
      validate_TrackStar img; validate_FDI img; validate_DDD img ].
Proof.
  repeat apply Forall_cons_2; [..|apply Forall_nil_2].
  - unfold validate_arguments. split_ifs; auto.
  - unfold validate_nibble. split_ifs; auto.
  - unfold validate_2MG. split_ifs; auto.
  - unfold validate_NuFX. split_ifs; auto.
  - unfold validate_DiskCopy42. split_ifs; auto.
  - unfold validate_Sim2eHDV. split_ifs; auto.
  - unfold validate_TrackStar. split_ifs; auto.
  - unfold validate_FDI. split_ifs; auto.
  - unfold validate_DDD. split_ifs; auto.
Qed.

Lemma first_error_rejects checks :
  Forall (λ dierr, dierr = kDIErrNone ∨ dierr = kDIErrInvalidCreateReq) checks →
  kDIErrInvalidCreateReq ∈ checks →
  first_error checks = kDIErrInvalidCreateReq.
Proof.
  induction 1 as [|dierr checks [-> | ->] _ IH]; intros Hin.
  - apply elem_of_nil in Hin. destruct Hin.
  - apply elem_of_cons in Hin as [Hin|Hin]; [discriminate | exact (IH Hin)].
  - reflexivity.
Qed.

(** What the validation answers to the fields of the image. *)
Lemma ValidateCreateFormat_rejects img :
  fPhysical img ≠ kPhysicalFormatSectors →
  fOrder img ≠ kSectorOrderPhysical ∨
  (∃ descr, fpNibbleDescr img = Some descr ∧
     (numSectors descr ≠ GetNumSectPerTrack img ∨
      (numSectors descr = 13 ∧ encoding descr ≠ kNibbleEnc53) ∨
      (numSectors descr = 16 ∧ encoding descr ≠ kNibbleEnc62))) →
  ValidateCreateFormat img = kDIErrInvalidCreateReq.
Proof.
  intros Hphys Hbad. unfold ValidateCreateFormat.
  apply first_error_rejects; [apply validate_codes|].
  rewrite <- (validate_nibble_rejects img Hphys Hbad).
  apply elem_of_cons. right. apply elem_of_cons. left. reflexivity.
Qed.

(** The steps of [CreateImageCommon] before the validation leave the
    physical format, the order and the NibbleDescr as they are, and the
    sectors per track too unless the image has blocks. *)
Lemma CreateImageCommon_validate_keeps img :
  let img' := (CreateImageCommon_validate img).2 in
  (CreateImageCommon_validate img).1 = ValidateCreateFormat img' ∧
  fPhysical img' = fPhysical img ∧ fOrder img' = fOrder img ∧
  fpNibbleDescr img' = fpNibbleDescr img ∧
  (fHasBlocks img = false → fNumSectPerTrack img' = fNumSectPerTrack img).
Proof.
  unfold CreateImageCommon_validate. cbv zeta. cbn [fst snd].
  split; [reflexivity|].
  destruct (fHasBlocks img) eqn:Hb, (fHasSectors img) eqn:Hs,
    (Z.rem (fNumBlocks img) 8 =? 0), (Z.land (fNumSectPerTrack img) 1 =? 0);
    match goal with
    | |- context [if ?b then _ else _] => destruct b
    end;
    repeat split; try reflexivity; try discriminate.
Qed.

(** The NibbleDescr goes through the steps of [CreateImageCommon] before
    the validation untouched and unread. *)
Lemma CreateImageCommon_validate_descr descr img :
  (CreateImageCommon_validate (set_fpNibbleDescr descr img)).2
  = set_fpNibbleDescr descr (CreateImageCommon_validate img).2.
Proof.
  unfold CreateImageCommon_validate. cbv zeta. cbn [snd].
  change (fHasBlocks (set_fpNibbleDescr descr img)) with (fHasBlocks img).
  change (fHasSectors (set_fpNibbleDescr descr img)) with (fHasSectors img).
  change (fNumBlocks (set_fpNibbleDescr descr img)) with (fNumBlocks img).
  change (fNumSectPerTrack (set_fpNibbleDescr descr img))
    with (fNumSectPerTrack img).
  destruct (fHasBlocks img), (fHasSectors img) eqn:Hs,
    (Z.rem (fNumBlocks img) 8 =? 0), (Z.land (fNumSectPerTrack img) 1 =? 0);
    destruct img; cbn [fHasSectors] in Hs; subst;
    cbn -[CalcFSSectorOrder];
    repeat match goal with
           | |- context [bool_decide (?p = kPhysicalFormatSectors)] =>
               destruct (bool_decide (p = kPhysicalFormatSectors))
           end; reflexivity.
Qed.

(** In sector format the validation does not look at the NibbleDescr. *)
Lemma ValidateCreateFormat_sectors descr img :
  fPhysical img = kPhysicalFormatSectors →
  ValidateCreateFormat (set_fpNibbleDescr descr img)
  = ValidateCreateFormat img.
Proof.
  intros Hphys. unfold ValidateCreateFormat.
  assert (Hn : ∀ x, fPhysical x = kPhysicalFormatSectors →
            validate_nibble x = kDIErrNone).
  { intros x Hx. unfold validate_nibble, isnt. rewrite Hx. reflexivity. }
  rewrite !Hn by assumption. reflexivity.
Qed.

Lemma CreateImageCommon_validate_sectors descr img :
  fPhysical img = kPhysicalFormatSectors →
  (CreateImageCommon_validate (set_fpNibbleDescr descr img)).1
  = (CreateImageCommon_validate img).1.
Proof.
  intros Hphys.
  destruct (CreateImageCommon_validate_keeps (set_fpNibbleDescr descr img))
    as (-> & _).
  destruct (CreateImageCommon_validate_keeps img) as (-> & Kp & _).
  rewrite CreateImageCommon_validate_descr.
  apply ValidateCreateFormat_sectors. rewrite Kp. exact Hphys.
Qed.




(** ** Bad blocks *)

Lemma CheckForBadBlocks_member img map startBlock numBlocks block :
  fpBadBlockMap img = Some map → block ∈ map →
  startBlock ≤ block < startBlock + numBlocks →
  CheckForBadBlocks img startBlock numBlocks = true.
Proof.
  intros Hmap Hin Hrange.
  destruct (CheckForBadBlocks img startBlock numBlocks) eqn:Hcheck;
    [reflexivity|].
  pose proof (proj1 (CheckForBadBlocks_range img startBlock numBlocks)
                Hcheck block Hrange) as Hone.
  unfold CheckForBadBlocks in Hone. rewrite Hmap in Hone.
  rewrite existsb_false_iff in Hone.
  specialize (Hone block). rewrite bool_decide_eq_true_2 in Hone by exact Hin.
  symmetry. apply Hone. apply elem_of_seqZ. lia.
Qed.

(** The walk up the parent chain does not look at bad block maps. *)
Lemma set_dirty_chain_remap map target fuel pImg m :
  set_dirty_chain fuel pImg (alter (set_fpBadBlockMap map) target m)
  = alter (set_fpBadBlockMap map) target <$> set_dirty_chain fuel pImg m.
Proof.
  revert pImg m. induction fuel as [|fuel IH]; intros [id|] m; try reflexivity.
  rewrite !set_dirty_chain_step, lookup_alter.
  destruct (decide (target = id)) as [-> | Hne].
  - destruct (m !! id) as [img|]; cbn [fmap option_fmap option_map mbind option_bind];
      [|reflexivity].
    rewrite insert_alter_eq.
    rewrite <- (alter_insert_eq m id (set_fpBadBlockMap map)
                  (set_fDirty true img)).
    apply IH.
  - destruct (m !! id) as [img|]; cbn [mbind option_bind]; [|reflexivity].
    rewrite insert_alter_ne by congruence. apply IH.
Qed.

Lemma chain_fuel_alter (f : DiskImg → DiskImg) i m :
  chain_fuel (alter f i m) = chain_fuel m.
Proof.
  unfold chain_fuel. f_equal.
  rewrite <- !(size_dom (D:=gset ImgId)), dom_alter_L. reflexivity.
Qed.

Lemma lookup_remap map target w this :
  imgs (remap map target w) !! this
  = (if decide (target = this) then set_fpBadBlockMap map else id)
    <$> imgs w !! this.
Proof.
  unfold remap. cbn [imgs]. rewrite lookup_alter.
  destruct (decide (target = this)) as [-> | _]; [reflexivity|].
  destruct (imgs w !! this); reflexivity.
Qed.

(** [CopyBytesIn] does the same whatever the bad block maps hold. *)
Lemma CopyBytesIn_remap map target w this buf offset size :
  CopyBytesIn (remap map target w) this buf offset size
  = remapped map target (CopyBytesIn w this buf offset size).
Proof.
  unfold CopyBytesIn. rewrite lookup_remap.
  destruct (imgs w !! this) as [img|]; [|reflexivity].
  assert (Hsame : ∀ f : DiskImg → DiskImg,
            f = set_fpBadBlockMap map ∨ f = id →
            fReadOnly (f img) = fReadOnly img ∧
            fpDataGFD (f img) = fpDataGFD img)
    by (intros f [-> | ->]; split; reflexivity).
  destruct (Hsame (if decide (target = this) then set_fpBadBlockMap map else id))
    as [Hro Hgfd]; [destruct (decide _); auto|].
  cbn [fmap option_fmap option_map mbind option_bind].
  rewrite Hro, Hgfd. destruct (fReadOnly img); [reflexivity|].
  destruct (fpDataGFD img) as [g|]; [|reflexivity].
  cbn [mbind option_bind files remap].
  destruct (is_ok (GFD_Seek (files w) g offset)); [|reflexivity]. cbn [negb].
  destruct (buf_take buf size) as [data|]; [|reflexivity].
  cbn [mbind option_bind].
  destruct (GFD_Write (files w) g offset data) as [dierr fs].
  destruct (is_ok dierr); cbn [negb]; [|reflexivity].
  change (imgs (remap map target w))
    with (alter (set_fpBadBlockMap map) target (imgs w)).
  rewrite chain_fuel_alter, set_dirty_chain_remap.
  destruct (set_dirty_chain (chain_fuel (imgs w)) (Some this) (imgs w));
    reflexivity.
Qed.

Lemma CopyBytesIn_keeps_physical w this buf offset size dierr w1 img :
  CopyBytesIn w this buf offset size = Some (dierr, w1) →
  imgs w !! this = Some img →
  ∃ img1, imgs w1 !! this = Some img1 ∧ fPhysical img1 = fPhysical img.
Proof.
  intros Hrun Hthis. unfold CopyBytesIn in Hrun. rewrite Hthis in Hrun.
  cbn [mbind option_bind] in Hrun.
  destruct (fReadOnly img); [injection Hrun as _ <-; eauto|].
  destruct (fpDataGFD img) as [g|]; [|discriminate].
  cbn [mbind option_bind] in Hrun.
  destruct (is_ok (GFD_Seek (files w) g offset)); cbn [negb] in Hrun;
    [|injection Hrun as _ <-; eauto].
  destruct (buf_take buf size) as [data|]; [|discriminate].
  cbn [mbind option_bind] in Hrun.
  destruct (GFD_Write (files w) g offset data) as [dierr' fs].
  destruct (is_ok dierr'); cbn [negb] in Hrun;
    [|injection Hrun as _ <-; eauto].
  destruct (set_dirty_chain (chain_fuel (imgs w)) (Some this) (imgs w)) as [m|] eqn:Hchain;
    [|discriminate].
  cbn [mbind option_bind] in Hrun. injection Hrun as _ <-.
  apply set_dirty_chain_spec in Hchain as [Hkeep _].
  destruct (Hkeep this img Hthis) as (img1 & Himg1 & _ & Heq).
  exists img1. split; [exact Himg1|]. rewrite Heq. reflexivity.
Qed.

Section SectorFormatWrites.
Context (nib : NibbleOps) (map : option (gset Z)) (target : ImgId).

Lemma WriteTrackSector_remap w this img track sector buf :
  imgs w !! this = Some img →
  IsSectorFormat (fPhysical img) = true →
  WriteTrackSector nib (remap map target w) this track sector buf
  = remapped map target (WriteTrackSector nib w this track sector buf).
Proof.
  intros Hthis Hsector. unfold WriteTrackSector.
  rewrite lookup_remap, Hthis.
  cbn [fmap option_fmap option_map mbind option_bind].
  set (img' := (if decide (target = this) then set_fpBadBlockMap map else id) img).
  assert (Hsame : fReadOnly img' = fReadOnly img ∧
                  fPhysical img' = fPhysical img ∧
                  CalcSectorAndOffset img' track sector (fOrder img')
                    (fFileSysOrder img')
                  = CalcSectorAndOffset img track sector (fOrder img)
                      (fFileSysOrder img))
    by (subst img'; destruct (decide (target = this)); repeat split).
  destruct Hsame as (-> & -> & ->). clearbody img'.
  destruct (bool_decide (buf = None)); [reflexivity|].
  destruct (fReadOnly img); [reflexivity|].
  destruct (CalcSectorAndOffset img track sector _ _) as [[[offset newSector]|dierr]|];
    cbn [mbind option_bind]; [|reflexivity|reflexivity].
  rewrite Hsector. apply CopyBytesIn_remap.
Qed.

Lemma WriteTrackSector_keeps_physical w this img track sector buf dierr w1 :
  imgs w !! this = Some img →
  IsSectorFormat (fPhysical img) = true →
  WriteTrackSector nib w this track sector buf = Some (dierr, w1) →
  ∃ img1, imgs w1 !! this = Some img1 ∧ fPhysical img1 = fPhysical img.
Proof.
  intros Hthis Hsector Hrun. unfold WriteTrackSector in Hrun.
  rewrite Hthis in Hrun. cbn [mbind option_bind] in Hrun.
  destruct (bool_decide (buf = None)); [injection Hrun as _ <-; eauto|].
  destruct (fReadOnly img); [injection Hrun as _ <-; eauto|].
  destruct (CalcSectorAndOffset img track sector _ _) as [[[offset newSector]|e]|];
    cbn [mbind option_bind] in Hrun;
    [|injection Hrun as _ <-; eauto|discriminate].
  rewrite Hsector in Hrun. eapply CopyBytesIn_keeps_physical; eassumption.
Qed.

(** [WriteBlock] on an image in sector format does the same whatever the
    bad block maps hold. *)
Lemma WriteBlock_remap w this img block buf :
  imgs w !! this = Some img →
  IsSectorFormat (fPhysical img) = true →
  WriteBlock nib (remap map target w) this block buf
  = remapped map target (WriteBlock nib w this block buf).
Proof.
  intros Hthis Hsector. unfold WriteBlock.
  rewrite lookup_remap, Hthis.
  cbn [fmap option_fmap option_map mbind option_bind].
  set (img' := (if decide (target = this) then set_fpBadBlockMap map else id) img).
  assert (Hsame : fHasBlocks img' = fHasBlocks img ∧
                  fNumBlocks img' = fNumBlocks img ∧
                  fReadOnly img' = fReadOnly img ∧
                  fHasSectors img' = fHasSectors img ∧
                  IsLinearBlocks img' (fOrder img') (fFileSysOrder img')
                  = IsLinearBlocks img (fOrder img) (fFileSysOrder img) ∧
                  track_of_block img' block = track_of_block img block)
    by (subst img'; destruct (decide (target = this)); repeat split).
  destruct Hsame as (-> & -> & -> & -> & -> & ->). clearbody img'.
  destruct (fHasBlocks img); [|reflexivity]. cbn [negb].
  destruct ((block <? 0) || (fNumBlocks img <=? block)); [reflexivity|].
  destruct (bool_decide (buf = None)); [reflexivity|].
  destruct (fReadOnly img); [reflexivity|].
  destruct (fHasSectors img
            && negb (IsLinearBlocks img (fOrder img) (fFileSysOrder img)));
    [|apply CopyBytesIn_remap].
  destruct (track_of_block img block) as [[track blkInTrk]|]; [|reflexivity].
  cbn [mbind option_bind].
  rewrite (WriteTrackSector_remap w this img) by assumption.
  destruct (WriteTrackSector nib w this track (blkInTrk * 2) buf)
    as [[dierr w1]|] eqn:Hfirst; [|reflexivity].
  cbn [remapped fmap option_fmap option_map mbind option_bind].
  destruct (is_ok dierr); [|reflexivity]. cbn [negb].
  destruct (WriteTrackSector_keeps_physical w this img _ _ _ _ _
              Hthis Hsector Hfirst) as (img1 & Himg1 & Hphys).
  apply (WriteTrackSector_remap w1 this img1); [exact Himg1|].
  rewrite Hphys. exact Hsector.
Qed.
End SectorFormatWrites.

(** C10.  For an image with a bad block map, a [ReadBlockSwapped] (in any
    orderings, so also a [ReadBlock]) of a block of the image that is in
    the map, and a [ReadBlocks] of a range inside the image that holds such
    a block, return ReadFailed and store nothing in the buffer.  [WriteBlock] does not look at the map: on an image in
    sector format its result is the same whatever map the image has. *)
Theorem bad_blocks_fail_reads_not_writes nib img map block :
  fpBadBlockMap img = Some map →
  block ∈ map →
  fHasBlocks img = true →
  0 ≤ block < fNumBlocks img →
  (∀ fs imageOrder fsOrder,
     ReadBlockSwapped nib fs img block out_buf imageOrder fsOrder
     = Some (kDIErrReadFailed, [])) ∧
  (∀ fs, ReadBlock nib fs img block out_buf = Some (kDIErrReadFailed, [])) ∧
  (∀ fs startBlock numBlocks buf,
     0 ≤ startBlock → startBlock ≤ block < startBlock + numBlocks →
     startBlock + numBlocks ≤ fNumBlocks img →
     ReadBlocks nib fs img startBlock numBlocks buf
     = Some (kDIErrReadFailed, [])) ∧
  (∀ w this map' buf,
     imgs w !! this = Some img →
     IsSectorFormat (fPhysical img) = true →
     WriteBlock nib (remap map' this w) this block buf
     = remapped map' this (WriteBlock nib w this block buf)).
Proof.
  intros Hmap Hin Hblocks Hrange.
  assert (Hswapped : ∀ fs imageOrder fsOrder,
            ReadBlockSwapped nib fs img block out_buf imageOrder fsOrder
            = Some (kDIErrReadFailed, [])).
  { intros fs imageOrder fsOrder. unfold ReadBlockSwapped.
    rewrite Hblocks. cbn [negb].
    destruct (Z.ltb_spec block 0); [lia|]. cbn [orb].
    destruct (Z.leb_spec (fNumBlocks img) block); [lia|]. cbn [out_is_nil].
    rewrite (CheckForBadBlocks_member img map block 1 block Hmap Hin) by lia.
    reflexivity. }
  split; [exact Hswapped|]. split; [|split].
  - intros fs. apply Hswapped.
  - intros fs startBlock numBlocks buf Hstart Hinside Hend.
    unfold ReadBlocks, GetNumBlocks.
    destruct (Z.ltb_spec startBlock 0); [lia|]. cbn [orb].
    destruct (Z.ltb_spec (fNumBlocks img) (numBlocks + startBlock)); [lia|].
    rewrite (CheckForBadBlocks_member img map startBlock numBlocks block
               Hmap Hin Hinside).
    reflexivity.
  - intros w this map' buf Hthis Hsector.
    apply (WriteBlock_remap nib map' this w this img); assumption.
Qed.

Lemma bad_blocks_fail_reads_not_writes_witness :
  ReadBlock no_nibbles two_block_files img_bad1 1 out_buf
    = Some (kDIErrReadFailed, []) ∧
  ReadBlocks no_nibbles two_block_files img_bad1 0 2 out_buf
    = Some (kDIErrReadFailed, []) ∧
  fst <$> WriteBlock no_nibbles world_bad1 0%nat 1 (Some (replicate 512 x03))
    = Some kDIErrNone.
Proof.
  destruct (bad_blocks_fail_reads_not_writes no_nibbles img_bad1 {[ 1 ]} 1)
    as (_ & Hread & Hrange & _);
    [reflexivity | apply elem_of_singleton; reflexivity | reflexivity
    | vm_compute; split; [discriminate | reflexivity] |].
  split; [apply Hread|]. split; [|vm_compute; reflexivity].
  apply Hrange; vm_compute; try split; try discriminate; reflexivity.
Defined.

(** * Further properties of the code *)

(** ** Sector addresses *)

(** Going from one ordering to another and back gives the sector again. *)
Lemma translate_back imageOrder fsOrder sector :
  0 ≤ sector < 16 →
  ∃ onDisk,
    (fs_to_raw fsOrder sector ≫= raw_to_image imageOrder) = Some onDisk ∧
    0 ≤ onDisk < 16 ∧
    (fs_to_raw imageOrder onDisk ≫= raw_to_image fsOrder) = Some sector.
Proof.
  revert sector. apply below16. intros n Hn.
  each_below16 n; destruct imageOrder, fsOrder;
    (eexists; split; [ vm_compute; reflexivity | split; [ lia | reflexivity ] ]).
Qed.

Lemma translate_injective imageOrder fsOrder s1 s2 n :
  0 ≤ s1 < 16 → 0 ≤ s2 < 16 →
  (fs_to_raw fsOrder s1 ≫= raw_to_image imageOrder) = Some n →
  (fs_to_raw fsOrder s2 ≫= raw_to_image imageOrder) = Some n →
  s1 = s2.
Proof.
  intros H1 H2 E1 E2.
  destruct (translate_back imageOrder fsOrder s1 H1) as (n1 & F1 & _ & B1).
  destruct (translate_back imageOrder fsOrder s2 H2) as (n2 & F2 & _ & B2).
  congruence.
Qed.

(** A call of [CalcSectorAndOffset] that succeeds was made on an image with
    sectors, for a track and a sector of the image. *)
Lemma CalcSectorAndOffset_Ok img track sector imageOrder fsOrder r :
  CalcSectorAndOffset img track sector imageOrder fsOrder = Some (Ok r) →
  fHasSectors img = true ∧ 0 ≤ track < fNumTracks img ∧
  0 ≤ sector < fNumSectPerTrack img.
Proof.
  unfold CalcSectorAndOffset. intros H.
  destruct (fHasSectors img); [|discriminate]. cbn [negb] in H.
  destruct (Z.ltb_spec track 0); [discriminate|].
  destruct (Z.leb_spec (fNumTracks img) track); [discriminate|].
  cbn [orb] in H.
  destruct (Z.ltb_spec sector 0); [discriminate|].
  destruct (Z.leb_spec (fNumSectPerTrack img) sector); [discriminate|].
  repeat split; lia.
Qed.

(** The closed form of [CalcSectorAndOffset] without sector pairing. *)
Lemma CalcSectorAndOffset_unpaired img track sector imageOrder fsOrder :
  fHasSectors img = true →
  fSectorPairing img = false →
  fNumSectPerTrack img = 16 ∨ fNumSectPerTrack img = 32 →
  0 ≤ track < fNumTracks img →
  0 ≤ sector < fNumSectPerTrack img →
  ∃ onDisk,
    (fs_to_raw fsOrder (sector `mod` 16) ≫= raw_to_image imageOrder)
      = Some onDisk ∧
    0 ≤ onDisk < 16 ∧
    CalcSectorAndOffset img track sector imageOrder fsOrder
    = Some (Ok (track_start img track
                + (if 16 <=? sector then 16 * 256 else 0)
                + 256 * onDisk, onDisk)).
Proof.
  intros Hsec Hpair Hnspt Htrack Hsector.
  destruct (translate_stored_sector imageOrder fsOrder (sector `mod` 16))
    as (Hrange & Hcode).
  { apply Z.mod_pos_bound. lia. }
  exists (stored_sector imageOrder fsOrder (sector `mod` 16)).
  split; [exact Hcode|]. split; [exact Hrange|].
  apply CalcSectorAndOffset_from_track_start; assumption.
Qed.

(** The closed form on a 13-sector image. *)
Lemma CalcSectorAndOffset_13 img track sector imageOrder fsOrder :
  fHasSectors img = true →
  fNumSectPerTrack img = 13 →
  0 ≤ track < fNumTracks img →
  0 ≤ sector < 13 →
  CalcSectorAndOffset img track sector imageOrder fsOrder
  = Some (Ok (track_start img track + sector * 256, sector)).
Proof.
  intros Hsec Hnspt Htrack Hsector.
  unfold CalcSectorAndOffset. rewrite Hsec, Hnspt. simpl negb. cbv iota.
  replace ((track <? 0) || (fNumTracks img <=? track)) with false
    by (symmetry; apply orb_false_iff; split; [apply Z.ltb_ge|apply Z.leb_gt]; lia).
  replace ((sector <? 0) || (13 <=? sector)) with false
    by (symmetry; apply orb_false_iff; split; [apply Z.ltb_ge|apply Z.leb_gt]; lia).
  reflexivity.
Qed.

(** What a successful call answers, without sector pairing: the sector slot
    [slot] of the track, counted in sectors from the start of the track. *)
Lemma CalcSectorAndOffset_slot img track sector imageOrder fsOrder offset
    newSector :
  fSectorPairing img = false →
  fNumSectPerTrack img = 13 ∨ fNumSectPerTrack img = 16
    ∨ fNumSectPerTrack img = 32 →
  CalcSectorAndOffset img track sector imageOrder fsOrder
    = Some (Ok (offset, newSector)) →
  0 ≤ track < fNumTracks img ∧ 0 ≤ sector < fNumSectPerTrack img ∧
  ∃ slot,
    0 ≤ slot < fNumSectPerTrack img ∧
    offset = track_start img track + slot * 256 ∧
    (fNumSectPerTrack img = 13 → slot = sector) ∧
    (fNumSectPerTrack img ≠ 13 →
       slot `div` 16 = sector `div` 16 ∧
       (fs_to_raw fsOrder (sector `mod` 16) ≫= raw_to_image imageOrder)
         = Some (slot `mod` 16)).
Proof.
  intros Hpair Hnspt Hcalc.
  destruct (CalcSectorAndOffset_Ok _ _ _ _ _ _ Hcalc) as (Hsec & Htrack & Hsector).
  split; [exact Htrack|]. split; [exact Hsector|].
  destruct Hnspt as [H13 | Hnspt].
  - rewrite (CalcSectorAndOffset_13 img track sector imageOrder fsOrder)
      in Hcalc by (try assumption; lia).
    injection Hcalc as <- <-. exists sector.
    split; [exact Hsector|]. split; [reflexivity|].
    split; [reflexivity | intros Hne; contradiction].
  - destruct (CalcSectorAndOffset_unpaired img track sector imageOrder fsOrder
                Hsec Hpair Hnspt Htrack Hsector)
      as (onDisk & Hcode & Hrange & Heq).
    rewrite Heq in Hcalc. injection Hcalc as <- <-.
    destruct (Z.leb_spec 16 sector) as [Hhi | Hlo].
    + exists (16 + onDisk). split; [lia|]. split; [lia|].
      split; [intros H13; lia|]. intros _.
      assert (sector < 32) by (destruct Hnspt; lia).
      assert (sector `div` 16 = 1) as -> by (Z.div_mod_to_equations; lia).
      assert ((16 + onDisk) `div` 16 = 1) as ->
        by (Z.div_mod_to_equations; lia).
      split; [reflexivity|].
      assert ((16 + onDisk) `mod` 16 = onDisk) as ->
        by (Z.div_mod_to_equations; lia).
      exact Hcode.
    + exists onDisk. split; [lia|]. split; [lia|].
      split; [intros H13; lia|]. intros _.
      rewrite !Z.div_small by lia. split; [reflexivity|].
      rewrite (Z.mod_small onDisk) by lia. exact Hcode.
Qed.

(** With one ordering on both sides the tables cancel. *)
Lemma CalcSectorAndOffset_one_order img track sector order :
  fHasSectors img = true →
  fSectorPairing img = false →
  fNumSectPerTrack img = 16 ∨ fNumSectPerTrack img = 32 →
  0 ≤ track < fNumTracks img →
  0 ≤ sector < fNumSectPerTrack img →
  CalcSectorAndOffset img track sector order order
  = Some (Ok (track_start img track + sector * kSectorSize,
              if 16 <=? sector then sector - 16 else sector)).
Proof.
  intros Hsec Hpair Hnspt Htrack Hsector.
  rewrite CalcSectorAndOffset_from_track_start by assumption.
  assert (Hmod : 0 ≤ sector `mod` 16 < 16) by (apply Z.mod_pos_bound; lia).
  rewrite stored_sector_same_order by exact Hmod.
  unfold kSectorSize.
  assert (sector < 32) by (destruct Hnspt; lia).
  destruct (Z.leb_spec 16 sector); do 3 f_equal;
    Z.div_mod_to_equations; lia.
Qed.

(** The start of a track of an image whose sectors take less than
    2 GiB. *)
Lemma track_start_in_image img track :
  fits_long (fNumTracks img * fNumSectPerTrack img * kSectorSize) →
  fNumSectPerTrack img = 13 ∨ fNumSectPerTrack img = 16
    ∨ fNumSectPerTrack img = 32 →
  0 ≤ track < fNumTracks img →
  track_start img track = track * fNumSectPerTrack img * 256.
Proof.
  intros Hfits Hnspt Htrack. apply track_start_exact.
  apply track_fits; [exact Hfits | lia | exact Htrack].
Qed.

(** X1.  With the image order equal to the filesystem order no sector
    moves (the [assert(sector == newSector)] of the code): on an image of
    16 or 32 sectors per track without sector pairing, whose sectors take
    less than 2 GiB ([fNumTracks * fNumSectPerTrack * 256], a [long]
    product in the code, is at most 2147483647), sector [sector] of track
    [track] lies at [track*spt*256 + sector*256], whatever the ordering
    is. *)
Theorem CalcSectorAndOffset_same_order img track sector order :
  fHasSectors img = true →
  fSectorPairing img = false →
  fNumSectPerTrack img = 16 ∨ fNumSectPerTrack img = 32 →
  fits_long (fNumTracks img * fNumSectPerTrack img * kSectorSize) →
  0 ≤ track < fNumTracks img →
  0 ≤ sector < fNumSectPerTrack img →
  CalcSectorAndOffset img track sector order order
  = Some (Ok (track * fNumSectPerTrack img * kSectorSize
              + sector * kSectorSize,
              if 16 <=? sector then sector - 16 else sector)).
Proof.
  intros Hsec Hpair Hnspt Hfits Htrack Hsector.
  rewrite CalcSectorAndOffset_one_order by assumption.
  rewrite track_start_in_image by (auto; lia). reflexivity.
Qed.

Lemma CalcSectorAndOffset_same_order_witness :
  CalcSectorAndOffset img_do140 17 5 kSectorOrderDOS kSectorOrderDOS
  = Some (Ok (17 * 16 * 256 + 5 * 256, 5)).
Proof.
  apply (CalcSectorAndOffset_same_order img_do140 17 5 kSectorOrderDOS);
    [ reflexivity | reflexivity | left; reflexivity
    | vm_compute; split; discriminate
    | vm_compute; split; [discriminate | reflexivity]
    | vm_compute; split; [discriminate | reflexivity] ].
Defined.

(** X2.  The translation between two orderings is undone by the
    translation the other way: on an image of 16 or 32 sectors per track
    without sector pairing, whose sectors take less than 2 GiB, if sector
    [sector] in the filesystem's order is sector [newSector] in the
    image's order, then asking for [newSector] (in the same half of the
    track) with the two orders exchanged gives [sector] again, at its place
    in the track. *)
Theorem CalcSectorAndOffset_orders_exchanged img track sector imageOrder
    fsOrder offset newSector :
  fSectorPairing img = false →
  fNumSectPerTrack img = 16 ∨ fNumSectPerTrack img = 32 →
  fits_long (fNumTracks img * fNumSectPerTrack img * kSectorSize) →
  CalcSectorAndOffset img track sector imageOrder fsOrder
    = Some (Ok (offset, newSector)) →
  let half := if 16 <=? sector then 16 else 0 in
  0 ≤ newSector < 16 ∧
  CalcSectorAndOffset img track (newSector + half) fsOrder imageOrder
  = Some (Ok (track * fNumSectPerTrack img * kSectorSize
              + sector * kSectorSize, sector - half)).
Proof.
  intros Hpair Hnspt Hfits Hcalc half.
  destruct (CalcSectorAndOffset_Ok _ _ _ _ _ _ Hcalc)
    as (Hsec & Htrack & Hsector).
  destruct (CalcSectorAndOffset_unpaired img track sector imageOrder fsOrder
              Hsec Hpair Hnspt Htrack Hsector)
    as (onDisk & Hcode & Hrange & Heq).
  rewrite Heq in Hcalc. injection Hcalc as _ <-.
  split; [exact Hrange|].
  assert (Hlt : sector < 32) by (destruct Hnspt; lia).
  assert (Hmod : sector `mod` 16 = sector - half)
    by (subst half; destruct (Z.leb_spec 16 sector);
        Z.div_mod_to_equations; lia).
  assert (Hback : 0 ≤ onDisk + half < fNumSectPerTrack img)
    by (subst half; destruct (Z.leb_spec 16 sector); lia).
  destruct (CalcSectorAndOffset_unpaired img track (onDisk + half) fsOrder
              imageOrder Hsec Hpair Hnspt Htrack Hback)
    as (back & Hcode' & _ & Heq').
  assert (Hmod' : (onDisk + half) `mod` 16 = onDisk)
    by (subst half; destruct (Z.leb_spec 16 sector);
        Z.div_mod_to_equations; lia).
  rewrite Hmod' in Hcode'.
  destruct (translate_back imageOrder fsOrder (sector `mod` 16))
    as (n & Hfwd & _ & Hbwd); [apply Z.mod_pos_bound; lia|].
  assert (n = onDisk) as -> by congruence.
  assert (back = sector `mod` 16) as -> by congruence.
  rewrite Heq'. rewrite track_start_in_image by (auto; lia).
  unfold kSectorSize. rewrite Hmod.
  subst half. destruct (Z.leb_spec 16 sector);
    destruct (Z.leb_spec 16 (onDisk + 16));
    destruct (Z.leb_spec 16 (onDisk + 0)); try lia; do 3 f_equal; lia.
Qed.

Lemma CalcSectorAndOffset_orders_exchanged_witness :
  0 ≤ 14 < 16 ∧
  CalcSectorAndOffset img_do140 17 (14 + 0) kSectorOrderProDOS kSectorOrderDOS
  = Some (Ok (17 * 16 * 256 + 1 * 256, 1 - 0)).
Proof.
  apply (CalcSectorAndOffset_orders_exchanged img_do140 17 1 kSectorOrderDOS
           kSectorOrderProDOS (17 * 16 * 256 + 14 * 256) 14);
    [ reflexivity | left; reflexivity | vm_compute; split; discriminate
    | vm_compute; reflexivity ].
Defined.

(** The slots of two different sectors of a track are different. *)
Lemma slots_differ img imageOrder fsOrder sector1 sector2 slot1 slot2 :
  0 ≤ sector1 < fNumSectPerTrack img →
  0 ≤ sector2 < fNumSectPerTrack img →
  (fNumSectPerTrack img = 13 → slot1 = sector1) →
  (fNumSectPerTrack img ≠ 13 →
     slot1 `div` 16 = sector1 `div` 16 ∧
     (fs_to_raw fsOrder (sector1 `mod` 16) ≫= raw_to_image imageOrder)
       = Some (slot1 `mod` 16)) →
  (fNumSectPerTrack img = 13 → slot2 = sector2) →
  (fNumSectPerTrack img ≠ 13 →
     slot2 `div` 16 = sector2 `div` 16 ∧
     (fs_to_raw fsOrder (sector2 `mod` 16) ≫= raw_to_image imageOrder)
       = Some (slot2 `mod` 16)) →
  slot1 = slot2 → sector1 = sector2.
Proof.
  intros Hs1 Hs2 H13a H16a H13b H16b ->.
  destruct (decide (fNumSectPerTrack img = 13)) as [H13 | H13].
  - rewrite <- (H13a H13), <- (H13b H13). reflexivity.
  - destruct (H16a H13) as [Hdiv1 Hmod1].
    destruct (H16b H13) as [Hdiv2 Hmod2].
    assert (sector1 `mod` 16 = sector2 `mod` 16).
    { eapply translate_injective;
        [apply Z.mod_pos_bound; lia | apply Z.mod_pos_bound; lia
        | exact Hmod1 | exact Hmod2]. }
    rewrite (Z.div_mod sector1 16), (Z.div_mod sector2 16) by lia.
    congruence.
Qed.

(** Different sectors of one track lie at least a sector apart in the
    data, however large the image is. *)
Lemma same_track_ranges_apart img imageOrder fsOrder track sector1 sector2
    offset1 newSector1 offset2 newSector2 :
  fSectorPairing img = false →
  fNumSectPerTrack img = 13 ∨ fNumSectPerTrack img = 16
    ∨ fNumSectPerTrack img = 32 →
  CalcSectorAndOffset img track sector1 imageOrder fsOrder
    = Some (Ok (offset1, newSector1)) →
  CalcSectorAndOffset img track sector2 imageOrder fsOrder
    = Some (Ok (offset2, newSector2)) →
  sector1 ≠ sector2 →
  offset1 + kSectorSize ≤ offset2 ∨ offset2 + kSectorSize ≤ offset1.
Proof.
  intros Hpair Hnspt Hcalc1 Hcalc2 Hne.
  destruct (CalcSectorAndOffset_slot _ _ _ _ _ _ _ Hpair Hnspt Hcalc1)
    as (Ht1 & Hs1 & slot1 & Hslot1 & -> & H13a & H16a).
  destruct (CalcSectorAndOffset_slot _ _ _ _ _ _ _ Hpair Hnspt Hcalc2)
    as (Ht2 & Hs2 & slot2 & Hslot2 & -> & H13b & H16b).
  unfold kSectorSize.
  assert (slot1 ≠ slot2); [|lia].
  intros Heq. apply Hne.
  eapply (slots_differ img imageOrder fsOrder); eassumption.
Qed.

(** Different sectors lie at least a sector apart in the data of an image
    whose sectors take less than 2 GiB. *)
Lemma sector_ranges_apart img imageOrder fsOrder track1 sector1 track2
    sector2 offset1 newSector1 offset2 newSector2 :
  fSectorPairing img = false →
  fNumSectPerTrack img = 13 ∨ fNumSectPerTrack img = 16
    ∨ fNumSectPerTrack img = 32 →
  fits_long (fNumTracks img * fNumSectPerTrack img * kSectorSize) →
  CalcSectorAndOffset img track1 sector1 imageOrder fsOrder
    = Some (Ok (offset1, newSector1)) →
  CalcSectorAndOffset img track2 sector2 imageOrder fsOrder
    = Some (Ok (offset2, newSector2)) →
  (track1, sector1) ≠ (track2, sector2) →
  offset1 + kSectorSize ≤ offset2 ∨ offset2 + kSectorSize ≤ offset1.
Proof.
  intros Hpair Hnspt Hfits Hcalc1 Hcalc2 Hne.
  destruct (decide (track1 = track2)) as [-> | Htrack].
  { eapply same_track_ranges_apart; try eassumption. congruence. }
  destruct (CalcSectorAndOffset_slot _ _ _ _ _ _ _ Hpair Hnspt Hcalc1)
    as (Ht1 & Hs1 & slot1 & Hslot1 & -> & _ & _).
  destruct (CalcSectorAndOffset_slot _ _ _ _ _ _ _ Hpair Hnspt Hcalc2)
    as (Ht2 & Hs2 & slot2 & Hslot2 & -> & _ & _).
  rewrite !track_start_in_image by assumption.
  unfold kSectorSize.
  destruct Hnspt as [E | [E | E]]; rewrite E in *; lia.
Qed.

(** X3.  Two different sectors of an image never share storage: without
    sector pairing, on an image of 13, 16 or 32 sectors per track whose
    sectors take less than 2 GiB ([fNumTracks * fNumSectPerTrack * 256] is
    at most 2147483647), the 256-byte ranges that [CalcSectorAndOffset]
    answers for two different (track, sector) pairs do not overlap,
    whatever the two orderings are. *)
Theorem sectors_do_not_overlap img imageOrder fsOrder track1 sector1 track2
    sector2 offset1 newSector1 offset2 newSector2 :
  fSectorPairing img = false →
  fNumSectPerTrack img = 13 ∨ fNumSectPerTrack img = 16
    ∨ fNumSectPerTrack img = 32 →
  fits_long (fNumTracks img * fNumSectPerTrack img * kSectorSize) →
  CalcSectorAndOffset img track1 sector1 imageOrder fsOrder
    = Some (Ok (offset1, newSector1)) →
  CalcSectorAndOffset img track2 sector2 imageOrder fsOrder
    = Some (Ok (offset2, newSector2)) →
  (track1, sector1) ≠ (track2, sector2) →
  offset1 + kSectorSize ≤ offset2 ∨ offset2 + kSectorSize ≤ offset1.
Proof. apply sector_ranges_apart. Qed.

Lemma sectors_do_not_overlap_witness :
  17 * 16 * 256 + 14 * 256 + kSectorSize ≤ 17 * 16 * 256 + 13 * 256
  ∨ 17 * 16 * 256 + 13 * 256 + kSectorSize ≤ 17 * 16 * 256 + 14 * 256.
Proof.
  apply (sectors_do_not_overlap img_do140 kSectorOrderDOS kSectorOrderProDOS
           17 1 17 2 _ 14 _ 13);
    [ reflexivity | right; left; reflexivity | vm_compute; split; discriminate
    | vm_compute; reflexivity | vm_compute; reflexivity | discriminate ].
Defined.

(** X4.  A sector address never leaves the image: without sector pairing,
    on an image of 13, 16 or 32 sectors per track whose sectors take less
    than 2 GiB ([fNumTracks * fNumSectPerTrack * 256] is at most
    2147483647), the offset that [CalcSectorAndOffset] answers is a
    multiple of 256 and the sector's 256 bytes lie inside the first
    [fNumTracks * fNumSectPerTrack * 256] bytes of the data. *)
Theorem sector_offset_in_bounds img imageOrder fsOrder track sector offset
    newSector :
  fSectorPairing img = false →
  fNumSectPerTrack img = 13 ∨ fNumSectPerTrack img = 16
    ∨ fNumSectPerTrack img = 32 →
  fits_long (fNumTracks img * fNumSectPerTrack img * kSectorSize) →
  CalcSectorAndOffset img track sector imageOrder fsOrder
    = Some (Ok (offset, newSector)) →
  0 ≤ offset ∧
  offset + kSectorSize ≤ fNumTracks img * fNumSectPerTrack img * kSectorSize ∧
  offset `mod` kSectorSize = 0.
Proof.
  intros Hpair Hnspt Hfits Hcalc.
  destruct (CalcSectorAndOffset_slot _ _ _ _ _ _ _ Hpair Hnspt Hcalc)
    as (Ht & Hs & slot & Hslot & -> & _ & _).
  rewrite track_start_in_image by assumption.
  unfold kSectorSize. split; [|split].
  - destruct Hnspt as [E | [E | E]]; rewrite E in *; lia.
  - destruct Hnspt as [E | [E | E]]; rewrite E in *; lia.
  - replace (track * fNumSectPerTrack img * 256 + slot * 256)
      with ((track * fNumSectPerTrack img + slot) * 256) by lia.
    apply Z.mod_mul. lia.
Qed.

Lemma sector_offset_in_bounds_witness :
  0 ≤ 17 * 16 * 256 + 14 * 256 ∧
  17 * 16 * 256 + 14 * 256 + kSectorSize
    ≤ fNumTracks img_do140 * fNumSectPerTrack img_do140 * kSectorSize ∧
  (17 * 16 * 256 + 14 * 256) `mod` kSectorSize = 0.
Proof.
  apply (sector_offset_in_bounds img_do140 kSectorOrderDOS kSectorOrderProDOS
           17 1 _ 14);
    [ reflexivity | right; left; reflexivity | vm_compute; split; discriminate
    | vm_compute; reflexivity ].
Defined.

(** The closed form of [CalcSectorAndOffset] with sector pairing, on an
    image of less than 2 GiB: the sector asked for is sector
    [2 * (sector mod 16) + fSectorPairOffset] of a track twice as long. *)
Lemma CalcSectorAndOffset_paired img track sector imageOrder fsOrder offset
    newSector :
  fSectorPairing img = true →
  fSectorPairOffset img = 0 ∨ fSectorPairOffset img = 1 →
  fNumSectPerTrack img = 16 ∨ fNumSectPerTrack img = 32 →
  fits_long (2 * fNumTracks img * fNumSectPerTrack img * kSectorSize) →
  CalcSectorAndOffset img track sector imageOrder fsOrder
    = Some (Ok (offset, newSector)) →
  let doubled := 2 * (sector `mod` 16) + fSectorPairOffset img in
  0 ≤ track < fNumTracks img ∧ 0 ≤ sector < fNumSectPerTrack img ∧
  (fs_to_raw fsOrder (doubled `mod` 16) ≫= raw_to_image imageOrder)
    = Some newSector ∧
  0 ≤ newSector < 16 ∧
  offset = ((2 * track + sector `div` 16) * fNumSectPerTrack img
            + 16 * (doubled `div` 16) + newSector) * 256.
Proof.
  intros Hpair Hpo Hnspt Hfits Hcalc doubled.
  destruct (CalcSectorAndOffset_Ok _ _ _ _ _ _ Hcalc)
    as (Hsec & Htrack & Hsector).
  split; [exact Htrack|]. split; [exact Hsector|].
  assert (Hlt : sector < 32) by (destruct Hnspt; lia).
  assert (Hd : 0 ≤ doubled < 32)
    by (subst doubled; destruct Hpo; Z.div_mod_to_equations; lia).
  destruct (translate_stored_sector imageOrder fsOrder (doubled `mod` 16))
    as (Hrange & Hcode); [apply Z.mod_pos_bound; lia|].
  set (onDisk := stored_sector imageOrder fsOrder (doubled `mod` 16)) in *.
  assert (Hstart : ∀ trk, 0 ≤ trk < 2 * fNumTracks img →
            track_start img trk = trk * fNumSectPerTrack img * 256).
  { intros trk Htrk. apply track_start_exact.
    unfold fits_long, kSectorSize in *. destruct Hnspt as [E | E];
      rewrite E in *; lia. }
  assert (Hlong : ∀ trk, 0 ≤ trk ≤ 2 * fNumTracks img → to_long trk = trk).
  { intros trk Htrk. apply to_long_fits.
    unfold fits_long, kSectorSize in *. destruct Hnspt as [E | E];
      rewrite E in *; lia. }
  revert Hcalc. unfold CalcSectorAndOffset. rewrite Hsec, Hpair.
  simpl negb. cbv iota.
  replace ((track <? 0) || (fNumTracks img <=? track)) with false
    by (symmetry; apply orb_false_iff; split; [apply Z.ltb_ge|apply Z.leb_gt]; lia).
  replace ((sector <? 0) || (fNumSectPerTrack img <=? sector)) with false
    by (symmetry; apply orb_false_iff; split; [apply Z.ltb_ge|apply Z.leb_gt]; lia).
  replace ((fNumSectPerTrack img =? 16) || (fNumSectPerTrack img =? 32))
    with true by (destruct Hnspt as [-> | ->]; reflexivity).
  unfold kSectorSize.
  assert (Hfold : ∀ trk,
    trk = 2 * track + sector `div` 16 →
    (let '(offset, sector) :=
       if 16 <=? doubled
       then (trk * fNumSectPerTrack img * 256 + 16 * 256, doubled - 16)
       else (trk * fNumSectPerTrack img * 256, doubled) in
     newSector ← fs_to_raw fsOrder sector;
     newSector ← raw_to_image imageOrder newSector;
     Some (Ok (offset + newSector * 256, newSector)))
    = Some (Ok (((2 * track + sector `div` 16) * fNumSectPerTrack img
                 + 16 * (doubled `div` 16) + onDisk) * 256, onDisk))).
  { intros trk ->.
    destruct (Z.leb_spec 16 doubled).
    - replace (doubled - 16) with (doubled `mod` 16)
        by (Z.div_mod_to_equations; lia).
      destruct (fs_to_raw fsOrder (doubled `mod` 16)) as [raw|];
        [|discriminate].
      simpl in Hcode |- *. rewrite Hcode. simpl. do 3 f_equal.
      Z.div_mod_to_equations; lia.
    - replace (doubled `mod` 16) with doubled in Hcode
        by (Z.div_mod_to_equations; lia).
      destruct (fs_to_raw fsOrder doubled) as [raw|]; [|discriminate].
      simpl in Hcode |- *. rewrite Hcode. simpl. do 3 f_equal.
      Z.div_mod_to_equations; lia. }
  rewrite (Hlong (track * 2)) by lia.
  rewrite (Hlong (track * 2 + 1)) by lia.
  destruct (Z.leb_spec 16 sector); cbv beta iota zeta.
  - replace ((sector - 16) * 2 + fSectorPairOffset img) with doubled
      by (subst doubled; Z.div_mod_to_equations; lia).
    rewrite (Hstart (track * 2 + 1)) by lia.
    rewrite (Hfold (track * 2 + 1)) by (Z.div_mod_to_equations; lia).
    intros [= <- <-]. auto.
  - replace (sector * 2 + fSectorPairOffset img) with doubled
      by (subst doubled; Z.div_mod_to_equations; lia).
    rewrite (Hstart (track * 2)) by lia.
    rewrite (Hfold (track * 2)) by (Z.div_mod_to_equations; lia).
    intros [= <- <-]. auto.
Qed.

(** X5.  Sector pairing (OzDOS) splits the data between two volumes that
    never meet: with pairing on, on an image of 16 or 32 sectors per track
    and less than 2 GiB ([2 * fNumTracks * fNumSectPerTrack * 256] is at
    most 2147483647), two sector addresses computed with pair offsets 0 or
    1 name ranges of 256 bytes that do not overlap, unless the pair offset,
    the track and the sector are all the same. *)
Theorem paired_volumes_do_not_overlap img imageOrder fsOrder pair1 track1
    sector1 pair2 track2 sector2 offset1 newSector1 offset2 newSector2 :
  fSectorPairing img = true →
  fNumSectPerTrack img = 16 ∨ fNumSectPerTrack img = 32 →
  fits_long (2 * fNumTracks img * fNumSectPerTrack img * kSectorSize) →
  pair1 = 0 ∨ pair1 = 1 →
  pair2 = 0 ∨ pair2 = 1 →
  CalcSectorAndOffset (set_fSectorPairOffset pair1 img) track1 sector1
    imageOrder fsOrder = Some (Ok (offset1, newSector1)) →
  CalcSectorAndOffset (set_fSectorPairOffset pair2 img) track2 sector2
    imageOrder fsOrder = Some (Ok (offset2, newSector2)) →
  (pair1, track1, sector1) ≠ (pair2, track2, sector2) →
  offset1 + kSectorSize ≤ offset2 ∨ offset2 + kSectorSize ≤ offset1.
Proof.
  intros Hpair Hnspt Hfits Hp1 Hp2 Hcalc1 Hcalc2 Hne.
  apply CalcSectorAndOffset_paired in Hcalc1
    as (Ht1 & Hs1 & Hcode1 & Hn1 & ->); [|assumption..].
  apply CalcSectorAndOffset_paired in Hcalc2
    as (Ht2 & Hs2 & Hcode2 & Hn2 & ->); [|assumption..].
  change (fSectorPairOffset (set_fSectorPairOffset pair1 img)) with pair1 in *.
  change (fSectorPairOffset (set_fSectorPairOffset pair2 img)) with pair2 in *.
  change (fNumSectPerTrack (set_fSectorPairOffset pair1 img))
    with (fNumSectPerTrack img) in *.
  change (fNumSectPerTrack (set_fSectorPairOffset pair2 img))
    with (fNumSectPerTrack img) in *.
  change (fNumTracks (set_fSectorPairOffset pair1 img))
    with (fNumTracks img) in *.
  change (fNumTracks (set_fSectorPairOffset pair2 img))
    with (fNumTracks img) in *.
  unfold kSectorSize.
  set (d1 := 2 * (sector1 `mod` 16) + pair1) in *.
  set (d2 := 2 * (sector2 `mod` 16) + pair2) in *.
  assert (Hd1 : 0 ≤ d1 < 32)
    by (subst d1; destruct Hp1; Z.div_mod_to_equations; lia).
  assert (Hd2 : 0 ≤ d2 < 32)
    by (subst d2; destruct Hp2; Z.div_mod_to_equations; lia).
  assert (Hlt1 : sector1 < 32) by (destruct Hnspt; lia).
  assert (Hlt2 : sector2 < 32) by (destruct Hnspt; lia).
  clear Hfits.
  destruct (decide (newSector1 = newSector2 ∧ d1 `div` 16 = d2 `div` 16
                    ∧ sector1 `div` 16 = sector2 `div` 16
                    ∧ track1 = track2)) as [(En & Ed & Es & Et) | Hdiff].
  - exfalso. apply Hne. subst newSector2.
    assert (d1 `mod` 16 = d2 `mod` 16).
    { eapply translate_injective;
        [apply Z.mod_pos_bound; lia | apply Z.mod_pos_bound; lia
        | exact Hcode1 | exact Hcode2]. }
    assert (d1 = d2)
      by (rewrite (Z.div_mod d1 16), (Z.div_mod d2 16) by lia; congruence).
    assert (pair1 = pair2 ∧ sector1 `mod` 16 = sector2 `mod` 16) as [-> Em]
      by (subst d1 d2; destruct Hp1, Hp2; lia).
    assert (sector1 = sector2)
      by (rewrite (Z.div_mod sector1 16), (Z.div_mod sector2 16) by lia;
          congruence).
    congruence.
  - assert (Hq1 : 0 ≤ d1 `div` 16 ≤ 1) by (Z.div_mod_to_equations; lia).
    assert (Hq2 : 0 ≤ d2 `div` 16 ≤ 1) by (Z.div_mod_to_equations; lia).
    assert (Hb1 : 0 ≤ sector1 `div` 16 ∧ sector1 `div` 16 * 16
                    < fNumSectPerTrack img)
      by (destruct Hnspt; Z.div_mod_to_equations; lia).
    assert (Hb2 : 0 ≤ sector2 `div` 16 ∧ sector2 `div` 16 * 16
                    < fNumSectPerTrack img)
      by (destruct Hnspt; Z.div_mod_to_equations; lia).
    generalize dependent (d1 `div` 16). generalize dependent (d2 `div` 16).
    generalize dependent (sector1 `div` 16).
    generalize dependent (sector2 `div` 16).
    intros b2 Hb2 b1 Hb1 q2 Hq2 q1 Hdiff Hq1.
    destruct Hnspt as [E | E]; rewrite E in *; lia.
Qed.

Lemma paired_volumes_do_not_overlap_witness :
  27904 + kSectorSize ≤ 27648 ∨ 27648 + kSectorSize ≤ 27904.
Proof.
  apply (paired_volumes_do_not_overlap
           (set_fSectorPairing true (set_fNumTracks 17 img_do140))
           kSectorOrderDOS kSectorOrderProDOS 0 3 1 1 3 1 _ 13 _ 12);
    [ reflexivity | left; reflexivity | vm_compute; split; discriminate
    | left; reflexivity | right; reflexivity
    | vm_compute; reflexivity | vm_compute; reflexivity | discriminate ].
Defined.

(** X6.  Without sector pairing [CalcSectorAndOffset] always answers (no
    table is indexed outside its bounds), and it answers an address exactly
    when the image has sectors and the track and the sector are those of
    the image; otherwise the answer is UnsupportedAccess, InvalidTrack or
    InvalidSector, in this order of precedence. *)
Theorem CalcSectorAndOffset_succeeds_iff img track sector imageOrder fsOrder :
  fSectorPairing img = false →
  ∃ r,
    CalcSectorAndOffset img track sector imageOrder fsOrder = Some r ∧
    match r with
    | Ok _ =>
        fHasSectors img = true ∧ 0 ≤ track < fNumTracks img ∧
        0 ≤ sector < fNumSectPerTrack img
    | Fail dierr =>
        if fHasSectors img then
          if decide (0 ≤ track < fNumTracks img) then
            dierr = kDIErrInvalidSector ∧
            ¬ 0 ≤ sector < fNumSectPerTrack img
          else dierr = kDIErrInvalidTrack
        else dierr = kDIErrUnsupportedAccess
    end.
Proof.
  intros Hpair.
  destruct (fHasSectors img) eqn:Hsec.
  2:{ eexists. split; [unfold CalcSectorAndOffset; rewrite Hsec; reflexivity|].
      reflexivity. }
  destruct (decide (0 ≤ track < fNumTracks img)) as [Htrack | Htrack].
  2:{ exists (Fail kDIErrInvalidTrack). split; [|reflexivity].
      unfold CalcSectorAndOffset. rewrite Hsec. cbn [negb].
      destruct (Z.ltb_spec track 0); [reflexivity|].
      destruct (Z.leb_spec (fNumTracks img) track); [reflexivity|]. lia. }
  destruct (decide (0 ≤ sector < fNumSectPerTrack img)) as [Hsector | Hsector].
  2:{ exists (Fail kDIErrInvalidSector). split; [|split; [reflexivity|exact Hsector]].
      unfold CalcSectorAndOffset. rewrite Hsec. cbn [negb].
      replace ((track <? 0) || (fNumTracks img <=? track)) with false
        by (symmetry; apply orb_false_iff; split;
            [apply Z.ltb_ge|apply Z.leb_gt]; lia).
      destruct (Z.ltb_spec sector 0); [reflexivity|].
      destruct (Z.leb_spec (fNumSectPerTrack img) sector); [reflexivity|].
      lia. }
  destruct (decide (fNumSectPerTrack img = 16 ∨ fNumSectPerTrack img = 32))
    as [Hnspt | Hnspt].
  - destruct (CalcSectorAndOffset_unpaired img track sector imageOrder fsOrder
                Hsec Hpair Hnspt Htrack Hsector) as (onDisk & _ & _ & ->).
    eexists. split; [reflexivity|]. cbv beta iota. tauto.
  - unfold CalcSectorAndOffset. rewrite Hsec. cbn [negb].
    replace ((track <? 0) || (fNumTracks img <=? track)) with false
      by (symmetry; apply orb_false_iff; split;
          [apply Z.ltb_ge|apply Z.leb_gt]; lia).
    replace ((sector <? 0) || (fNumSectPerTrack img <=? sector)) with false
      by (symmetry; apply orb_false_iff; split;
          [apply Z.ltb_ge|apply Z.leb_gt]; lia).
    replace ((fNumSectPerTrack img =? 16) || (fNumSectPerTrack img =? 32))
      with false
      by (symmetry; apply orb_false_iff; split; apply Z.eqb_neq; tauto).
    destruct (fNumSectPerTrack img =? 13);
      (eexists; split; [reflexivity|]; cbv beta iota; tauto).
Qed.

Lemma CalcSectorAndOffset_succeeds_iff_witness :
  ∃ r,
    CalcSectorAndOffset img_do140 35 16 kSectorOrderDOS kSectorOrderProDOS
      = Some r ∧ r = Fail kDIErrInvalidTrack.
Proof.
  destruct (CalcSectorAndOffset_succeeds_iff img_do140 35 16 kSectorOrderDOS
              kSectorOrderProDOS) as (r & Hr & Hcase); [reflexivity|].
  exists r. split; [exact Hr|].
  destruct r as [a | dierr].
  - destruct Hcase as (_ & Htrack & _). vm_compute in Htrack.
    destruct Htrack as [_ Hlt]. discriminate Hlt.
  - change (fHasSectors img_do140) with true in Hcase.
    destruct (decide (0 ≤ 35 < fNumTracks img_do140)) as [Htrack | _].
    + vm_compute in Htrack. destruct Htrack as [_ Hlt]. discriminate Hlt.
    + rewrite Hcase. reflexivity.
Defined.

(** ** Bytes written and read *)

Lemma length_splice l pos data :
  (pos + length data ≤ length l)%nat → length (splice l pos data) = length l.
Proof.
  intros H. unfold splice. rewrite !length_app, length_take, length_drop. lia.
Qed.

Lemma lookup_splice_outside l pos data i :
  (pos + length data ≤ length l)%nat →
  (i < pos ∨ pos + length data ≤ i)%nat →
  splice l pos data !! i = l !! i.
Proof.
  intros Hlen Hi. unfold splice.
  destruct Hi as [Hi | Hi].
  - rewrite lookup_app_l by (rewrite length_take; lia).
    apply lookup_take_lt. lia.
  - rewrite lookup_app_r by (rewrite length_take; lia).
    rewrite length_take, Nat.min_l by lia.
    rewrite lookup_app_r by lia.
    rewrite lookup_drop. f_equal. lia.
Qed.

Lemma lookup_splice_inside l pos data i :
  (pos + length data ≤ length l)%nat →
  (pos ≤ i < pos + length data)%nat →
  splice l pos data !! i = data !! (i - pos)%nat.
Proof.
  intros Hlen Hi. unfold splice.
  rewrite lookup_app_r by (rewrite length_take; lia).
  rewrite length_take, Nat.min_l by lia.
  apply lookup_app_l. lia.
Qed.

(** Zeros written over zeros: a range that held zeros holds zeros after
    zeros were written anywhere. *)
Lemma splice_zeros_stay l pos n p k :
  (pos + n ≤ length l)%nat →
  take k (drop p l) = replicate k x00 →
  take k (drop p (splice l pos (replicate n x00))) = replicate k x00.
Proof.
  intros Hlen Hzero.
  assert (Hlen' : (pos + length (replicate n x00) ≤ length l)%nat)
    by (rewrite length_replicate; exact Hlen).
  apply list_eq. intros i.
  destruct (decide (i < k)%nat) as [Hi | Hi].
  - assert (Hk : (p + k ≤ length l)%nat).
    { apply (f_equal length) in Hzero.
      rewrite length_take, length_drop, length_replicate in Hzero. lia. }
    rewrite lookup_take_lt, lookup_drop by lia.
    rewrite lookup_replicate_2 by lia.
    destruct (decide (pos ≤ p + i < pos + n)%nat) as [Hin | Hout].
    + rewrite lookup_splice_inside by (rewrite ?length_replicate; lia).
      apply lookup_replicate_2. lia.
    + rewrite lookup_splice_outside by (rewrite ?length_replicate; lia).
      apply (f_equal (λ x, x !! i)) in Hzero.
      rewrite lookup_take_lt, lookup_drop in Hzero by lia.
      rewrite Hzero. apply lookup_replicate_2. lia.
  - rewrite lookup_take_ge by lia.
    symmetry. apply lookup_replicate_None. lia.
Qed.

Lemma take_drop_ext {A} (l k : list A) p n :
  (∀ i, (p ≤ i < p + n)%nat → l !! i = k !! i) →
  take n (drop p l) = take n (drop p k).
Proof.
  intros H. apply list_eq. intros i.
  destruct (decide (i < n)%nat) as [Hi | Hi].
  - rewrite !lookup_take_lt, !lookup_drop by lia. apply H. lia.
  - rewrite !lookup_take_ge by lia. reflexivity.
Qed.

Lemma splice_read_back l pos data :
  (pos + length data ≤ length l)%nat →
  take (length data) (drop pos (splice l pos data)) = data.
Proof.
  intros H. unfold splice.
  rewrite drop_app_length' by (rewrite length_take; lia).
  apply take_app_length.
Qed.

(** [stored fs g offset size]: the [size] bytes at [offset] of the
    GenericFD [g]. *)
Lemma GFD_Read_stored fs g offset size :
  gfd_open fs g = true → 0 ≤ size → offset + size ≤ gfd_length fs g →
  GFD_Read fs g offset size
  = (kDIErrNone,
     take (Z.to_nat size) (drop (Z.to_nat offset) (gfd_bytes fs g))).
Proof.
  intros Hopen Hsize Hlen. unfold GFD_Read. rewrite Hopen. cbn [negb].
  destruct (Z.ltb_spec size 0); [lia|]. cbn [orb].
  destruct (Z.ltb_spec (gfd_length fs g) (offset + size)); [lia|].
  reflexivity.
Qed.

(** What a write through a GenericFD that succeeds has done. *)
Lemma GFD_Write_done fs g offset data fs' :
  0 ≤ gfd_base g → 0 ≤ offset → (0 < length data)%nat →
  GFD_Write fs g offset data = (kDIErrNone, fs') →
  ∃ file,
    fs !! gfd_file g = Some file ∧
    (Z.to_nat (gfd_base g + offset) + length data ≤ length file)%nat ∧
    fs' = <[gfd_file g :=
              splice file (Z.to_nat (gfd_base g + offset)) data]> fs.
Proof.
  intros Hbase Hoff Hdata. unfold GFD_Write, gfd_open, gfd_length, gfd_bytes.
  destruct (fs !! gfd_file g) as [file|] eqn:Hfile.
  2:{ rewrite bool_decide_eq_false_2 by apply is_Some_None.
      cbn [negb]. discriminate. }
  rewrite bool_decide_eq_true_2 by eauto. cbn [negb default from_option id].
  destruct (gfd_readOnly g); [discriminate|].
  rewrite length_drop.
  destruct (Z.ltb_spec (Z.of_nat (length file - Z.to_nat (gfd_base g)))
              (offset + Z.of_nat (length data))); [discriminate|].
  intros [= <-]. exists file. split; [reflexivity|]. split; [lia | reflexivity].
Qed.

Section AfterWrite.
Context (fs : Files) (g0 : GFD) (file : list byte) (offset0 : Z)
  (data : list byte).
Hypothesis Hfile : fs !! gfd_file g0 = Some file.
Hypothesis Hbase0 : 0 ≤ gfd_base g0.
Hypothesis Hoffset0 : 0 ≤ offset0.
Hypothesis Hfits :
  (Z.to_nat (gfd_base g0 + offset0) + length data ≤ length file)%nat.

Let fs' : Files :=
  <[gfd_file g0 := splice file (Z.to_nat (gfd_base g0 + offset0)) data]> fs.

Lemma written_lookup g :
  fs' !! gfd_file g
  = if decide (gfd_file g0 = gfd_file g)
    then Some (splice file (Z.to_nat (gfd_base g0 + offset0)) data)
    else fs !! gfd_file g.
Proof.
  subst fs'. destruct (decide (gfd_file g0 = gfd_file g)) as [E | E].
  - rewrite E. apply lookup_insert_eq.
  - apply lookup_insert_ne. exact E.
Qed.

Lemma written_open g : gfd_open fs' g = gfd_open fs g.
Proof.
  unfold gfd_open. rewrite written_lookup.
  destruct (decide (gfd_file g0 = gfd_file g)) as [E | E]; [|reflexivity].
  rewrite <- E, Hfile. rewrite !bool_decide_eq_true_2 by eauto. reflexivity.
Qed.

Lemma written_length g : gfd_length fs' g = gfd_length fs g.
Proof.
  unfold gfd_length, gfd_bytes. rewrite written_lookup.
  destruct (decide (gfd_file g0 = gfd_file g)) as [E | E]; [|reflexivity].
  rewrite <- E, Hfile. cbn [default from_option id].
  rewrite !length_drop, length_splice by exact Hfits. reflexivity.
Qed.

(** The bytes outside the range written are the bytes that were there. *)
Lemma written_elsewhere g offset size :
  0 ≤ gfd_base g → 0 ≤ offset → 0 ≤ size →
  gfd_file g ≠ gfd_file g0
  ∨ gfd_base g + offset + size ≤ gfd_base g0 + offset0
  ∨ gfd_base g0 + offset0 + Z.of_nat (length data) ≤ gfd_base g + offset →
  take (Z.to_nat size) (drop (Z.to_nat offset) (gfd_bytes fs' g))
  = take (Z.to_nat size) (drop (Z.to_nat offset) (gfd_bytes fs g)).
Proof.
  intros Hbase Hoffset Hsize Hapart.
  unfold gfd_bytes. rewrite written_lookup.
  destruct (decide (gfd_file g0 = gfd_file g)) as [E | E]; [|reflexivity].
  rewrite <- E, Hfile. cbn [default from_option id].
  rewrite !drop_drop. apply take_drop_ext. intros i Hi.
  apply lookup_splice_outside; [exact Hfits|].
  destruct Hapart as [Hne | [Hbefore | Hafter]]; [congruence | lia | lia].
Qed.

(** The bytes inside the range written are the bytes of the write. *)
Lemma written_there :
  take (length data) (drop (Z.to_nat offset0) (gfd_bytes fs' g0)) = data.
Proof.
  unfold gfd_bytes. rewrite written_lookup.
  rewrite decide_True by reflexivity. cbn [default from_option id].
  rewrite drop_drop.
  replace (Z.to_nat (gfd_base g0) + Z.to_nat offset0)%nat
    with (Z.to_nat (gfd_base g0 + offset0)) by lia.
  apply splice_read_back. exact Hfits.
Qed.

(** A read that stays clear of the range written has the outcome it would
    have had before the write. *)
Lemma CopyBytesOut_elsewhere img g buf offset size :
  fpDataGFD img = Some g → 0 ≤ gfd_base g →
  gfd_file g ≠ gfd_file g0
  ∨ gfd_base g + offset + size ≤ gfd_base g0 + offset0
  ∨ gfd_base g0 + offset0 + Z.of_nat (length data) ≤ gfd_base g + offset →
  CopyBytesOut fs' img buf offset size = CopyBytesOut fs img buf offset size.
Proof.
  intros Hg Hbase Hapart. unfold CopyBytesOut, GFD_Seek, GFD_Read.
  rewrite Hg. cbn [mbind option_bind].
  rewrite written_open, written_length.
  destruct (gfd_open fs g); cbn [negb]; [|reflexivity].
  destruct (Z.ltb_spec offset 0); cbn [orb]; [reflexivity|].
  destruct (Z.ltb_spec (gfd_length fs g) offset); [reflexivity|].
  cbn [is_ok negb]. destruct (out_is_nil buf); [reflexivity|].
  destruct (Z.ltb_spec size 0); cbn [orb]; [reflexivity|].
  destruct (Z.ltb_spec (gfd_length fs g) (offset + size)); [reflexivity|].
  cbn [is_ok negb]. rewrite written_elsewhere by assumption. reflexivity.
Qed.

(** A read of the range written answers the bytes of the write. *)
Lemma CopyBytesOut_there img :
  fpDataGFD img = Some g0 →
  offset0 + Z.of_nat (length data) ≤ gfd_length fs g0 →
  CopyBytesOut fs' img out_buf offset0 (Z.of_nat (length data))
  = Some (kDIErrNone, data).
Proof.
  intros Hg Hlen. unfold CopyBytesOut, GFD_Seek. rewrite Hg.
  cbn [mbind option_bind]. rewrite written_open, written_length.
  assert (Hopen : gfd_open fs g0 = true)
    by (unfold gfd_open; rewrite Hfile; apply bool_decide_eq_true_2; eauto).
  rewrite Hopen. cbn [negb].
  destruct (Z.ltb_spec offset0 0); [lia|]. cbn [orb].
  destruct (Z.ltb_spec (gfd_length fs g0) offset0); [lia|].
  cbn [is_ok negb out_is_nil].
  rewrite GFD_Read_stored
    by (rewrite ?written_open, ?written_length; (exact Hopen || lia)).
  cbn [is_ok negb]. rewrite Nat2Z.id, written_there. reflexivity.
Qed.

(** A read that found zeros finds zeros after zeros were written. *)
Lemma CopyBytesOut_zeros_stay img g offset size :
  data = replicate (length data) x00 →
  fpDataGFD img = Some g →
  CopyBytesOut fs img out_buf offset size
    = Some (kDIErrNone, replicate (Z.to_nat size) x00) →
  CopyBytesOut fs' img out_buf offset size
    = Some (kDIErrNone, replicate (Z.to_nat size) x00).
Proof.
  intros Hdata Hg. unfold CopyBytesOut, GFD_Seek, GFD_Read.
  rewrite Hg. cbn [mbind option_bind].
  rewrite written_open, written_length.
  destruct (gfd_open fs g); cbn [negb]; [|discriminate].
  destruct (Z.ltb_spec offset 0); cbn [orb]; [discriminate|].
  destruct (Z.ltb_spec (gfd_length fs g) offset); [discriminate|].
  cbn [is_ok negb out_is_nil].
  destruct (Z.ltb_spec size 0); cbn [orb]; [discriminate|].
  destruct (Z.ltb_spec (gfd_length fs g) (offset + size)); [discriminate|].
  cbn [is_ok negb]. intros [= Hzero]. do 2 f_equal.
  unfold gfd_bytes in *. rewrite written_lookup.
  destruct (decide (gfd_file g0 = gfd_file g)) as [E | E]; [|exact Hzero].
  rewrite <- E, Hfile in Hzero. cbn [default from_option id] in Hzero |- *.
  rewrite drop_drop in Hzero |- *. rewrite Hdata.
  apply splice_zeros_stay; [|exact Hzero].
  rewrite Hdata, length_replicate in Hfits. exact Hfits.
Qed.
End AfterWrite.

(** What a [CopyBytesIn] that succeeds has done. *)
Lemma CopyBytesIn_done w this img buf offset size w' :
  imgs w !! this = Some img →
  (∀ g, fpDataGFD img = Some g → 0 ≤ gfd_base g) →
  0 < size →
  CopyBytesIn w this buf offset size = Some (kDIErrNone, w') →
  ∃ g file data,
    fpDataGFD img = Some g ∧ files w !! gfd_file g = Some file ∧
    buf_take buf size = Some data ∧ Z.of_nat (length data) = size ∧
    0 ≤ offset ∧ offset + size ≤ gfd_length (files w) g ∧
    (Z.to_nat (gfd_base g + offset) + length data ≤ length file)%nat ∧
    files w'
    = <[gfd_file g := splice file (Z.to_nat (gfd_base g + offset)) data]>
        (files w) ∧
    ∀ j x, imgs w !! j = Some x →
           ∃ x', imgs w' !! j = Some x' ∧ x' = set_fDirty (fDirty x') x.
Proof.
  intros Hthis Hbase Hsize Hrun. unfold CopyBytesIn in Hrun.
  rewrite Hthis in Hrun. cbn [mbind option_bind] in Hrun.
  destruct (fReadOnly img); [discriminate|].
  destruct (fpDataGFD img) as [g|] eqn:Hg; [|discriminate].
  cbn [mbind option_bind] in Hrun.
  destruct (GFD_Seek (files w) g offset) eqn:Hseek;
    cbn [is_ok negb] in Hrun; try discriminate.
  destruct (buf_take buf size) as [data|] eqn:Htake; [|discriminate].
  cbn [mbind option_bind] in Hrun.
  destruct (GFD_Write (files w) g offset data) as [dierr fs'] eqn:Hwrite.
  destruct dierr; cbn [is_ok negb] in Hrun; try discriminate.
  destruct (set_dirty_chain (chain_fuel (imgs w)) (Some this) (imgs w)) as [m|] eqn:Hchain;
    [|discriminate].
  cbn [mbind option_bind] in Hrun. injection Hrun as <-.
  assert (Hoff : 0 ≤ offset).
  { unfold GFD_Seek in Hseek. destruct (gfd_open (files w) g); [|discriminate].
    cbn [negb] in Hseek. destruct (Z.ltb_spec offset 0); [discriminate|lia]. }
  assert (Hlen : Z.of_nat (length data) = size).
  { unfold buf_take in Htake. destruct buf as [d|]; [|discriminate].
    cbn [mbind option_bind] in Htake.
    destruct (Z.ltb_spec size 0); [lia|]. cbn [orb] in Htake.
    destruct (Z.ltb_spec (Z.of_nat (length d)) size); [discriminate|].
    injection Htake as <-. rewrite length_take. lia. }
  assert (Hfit : offset + size ≤ gfd_length (files w) g).
  { unfold GFD_Write in Hwrite.
    destruct (gfd_open (files w) g); [|discriminate]. cbn [negb] in Hwrite.
    destruct (gfd_readOnly g); [discriminate|].
    destruct (Z.ltb_spec (gfd_length (files w) g)
                (offset + Z.of_nat (length data))); [discriminate|lia]. }
  destruct (GFD_Write_done (files w) g offset data fs')
    as (file & Hfile & Hfits & ->);
    [apply Hbase; reflexivity | exact Hoff | lia | exact Hwrite |].
  exists g, file, data. repeat (split; [assumption || reflexivity|]).
  intros j x Hj. apply set_dirty_chain_spec in Hchain as [Hkeep _].
  destruct (Hkeep j x Hj) as (x' & Hx' & _ & Heq). eauto.
Qed.

(** Reads do not look at the dirty flag. *)
Lemma ReadBlock_dirty nib fs img d block buf :
  IsSectorFormat (fPhysical img) = true →
  ReadBlock nib fs (set_fDirty d img) block buf = ReadBlock nib fs img block buf.
Proof.
  intros Hsector. destruct img. cbn [fPhysical] in Hsector.
  apply bool_decide_eq_true_1 in Hsector. subst. reflexivity.
Qed.

(** [CalcSectorAndOffset] fails with an error code. *)
Lemma CalcSectorAndOffset_Fail img track sector imageOrder fsOrder dierr :
  CalcSectorAndOffset img track sector imageOrder fsOrder = Some (Fail dierr) →
  dierr ≠ kDIErrNone.
Proof.
  unfold CalcSectorAndOffset.
  destruct (negb (fHasSectors img)); [intros [= <-]; discriminate|].
  destruct ((track <? 0) || (fNumTracks img <=? track));
    [intros [= <-]; discriminate|].
  destruct ((sector <? 0) || (fNumSectPerTrack img <=? sector));
    [intros [= <-]; discriminate|].
  destruct ((fNumSectPerTrack img =? 16) || (fNumSectPerTrack img =? 32)).
  - destruct (if fSectorPairing img then _ else _) as [offset sector'].
    destruct (fs_to_raw fsOrder sector') as [raw|];
      cbn [mbind option_bind]; [|discriminate].
    destruct (raw_to_image imageOrder raw); cbn [mbind option_bind];
      discriminate.
  - destruct (fNumSectPerTrack img =? 13); discriminate.
Qed.

(** A write changes no DiskImg but in its dirty flag. *)
Lemma CopyBytesIn_images w this buf offset size dierr w' :
  CopyBytesIn w this buf offset size = Some (dierr, w') →
  ∀ j x, imgs w !! j = Some x →
         ∃ x', imgs w' !! j = Some x' ∧ x' = set_fDirty (fDirty x') x.
Proof.
  intros Hrun j x Hj.
  assert (Hsame : ∃ x', imgs w !! j = Some x' ∧ x' = set_fDirty (fDirty x') x)
    by (exists x; split; [exact Hj | destruct x; reflexivity]).
  unfold CopyBytesIn in Hrun.
  destruct (imgs w !! this) as [img|]; [|discriminate].
  cbn [mbind option_bind] in Hrun.
  destruct (fReadOnly img); [injection Hrun as _ <-; exact Hsame|].
  destruct (fpDataGFD img) as [g|]; [|discriminate].
  cbn [mbind option_bind] in Hrun.
  destruct (is_ok (GFD_Seek (files w) g offset)); cbn [negb] in Hrun;
    [|injection Hrun as _ <-; exact Hsame].
  destruct (buf_take buf size) as [data|]; [|discriminate].
  cbn [mbind option_bind] in Hrun.
  destruct (GFD_Write (files w) g offset data) as [dierr' fs].
  destruct (is_ok dierr'); cbn [negb] in Hrun;
    [|injection Hrun as _ <-; exact Hsame].
  destruct (set_dirty_chain (chain_fuel (imgs w)) (Some this) (imgs w)) as [m|] eqn:Hchain;
    [|discriminate].
  cbn [mbind option_bind] in Hrun. injection Hrun as _ <-.
  apply set_dirty_chain_spec in Hchain as [Hkeep _].
  destruct (Hkeep j x Hj) as (x' & Hx' & _ & Heq). eauto.
Qed.

(** What a [WriteTrackSector] that succeeds on a sector image has done. *)
Lemma WriteTrackSector_done nib w this img track sector buf w' :
  imgs w !! this = Some img →
  IsSectorFormat (fPhysical img) = true →
  WriteTrackSector nib w this track sector buf = Some (kDIErrNone, w') →
  ∃ offset newSector,
    CalcSectorAndOffset img track sector (fOrder img) (fFileSysOrder img)
      = Some (Ok (offset, newSector)) ∧
    CopyBytesIn w this buf offset kSectorSize = Some (kDIErrNone, w').
Proof.
  intros Hthis Hsector Hrun. unfold WriteTrackSector in Hrun.
  rewrite Hthis in Hrun. cbn [mbind option_bind] in Hrun.
  destruct (bool_decide (buf = None)); [discriminate|].
  destruct (fReadOnly img); [discriminate|].
  destruct (CalcSectorAndOffset img track sector (fOrder img)
              (fFileSysOrder img)) as [[[offset newSector]|dierr]|] eqn:Hcalc;
    cbn [mbind option_bind] in Hrun; [|exfalso|discriminate].
  - rewrite Hsector in Hrun. eauto.
  - apply CalcSectorAndOffset_Fail in Hcalc. congruence.
Qed.

(** What a [WriteBlock] that succeeds on a sector image has done: one write
    of 512 bytes where the blocks are linear, two writes of 256 bytes
    otherwise. *)
Lemma WriteBlock_done nib w this img block buf w' :
  imgs w !! this = Some img →
  IsSectorFormat (fPhysical img) = true →
  WriteBlock nib w this block buf = Some (kDIErrNone, w') →
  fHasBlocks img = true ∧ 0 ≤ block < fNumBlocks img ∧
  ((fHasSectors img
    && negb (IsLinearBlocks img (fOrder img) (fFileSysOrder img)) = false ∧
    CopyBytesIn w this buf (block * kBlockSize) kBlockSize
      = Some (kDIErrNone, w'))
   ∨ (fHasSectors img
      && negb (IsLinearBlocks img (fOrder img) (fFileSysOrder img)) = true ∧
      ∃ track blkInTrk offset1 newSector1 offset2 newSector2 w1 img1,
        track_of_block img block = Some (track, blkInTrk) ∧
        CalcSectorAndOffset img track (blkInTrk * 2) (fOrder img)
          (fFileSysOrder img) = Some (Ok (offset1, newSector1)) ∧
        CalcSectorAndOffset img track (blkInTrk * 2 + 1) (fOrder img)
          (fFileSysOrder img) = Some (Ok (offset2, newSector2)) ∧
        CopyBytesIn w this buf offset1 kSectorSize = Some (kDIErrNone, w1) ∧
        imgs w1 !! this = Some img1 ∧
        img1 = set_fDirty (fDirty img1) img ∧
        CopyBytesIn w1 this (buf_advance buf kSectorSize) offset2 kSectorSize
          = Some (kDIErrNone, w'))).
Proof.
  intros Hthis Hsector Hrun. unfold WriteBlock in Hrun.
  rewrite Hthis in Hrun. cbn [mbind option_bind] in Hrun.
  destruct (fHasBlocks img); [|discriminate]. cbn [negb] in Hrun.
  destruct (Z.ltb_spec block 0); [discriminate|].
  destruct (Z.leb_spec (fNumBlocks img) block); [discriminate|].
  cbn [orb] in Hrun. split; [reflexivity|]. split; [lia|].
  destruct (bool_decide (buf = None)); [discriminate|].
  destruct (fReadOnly img); [discriminate|].
  destruct (fHasSectors img
            && negb (IsLinearBlocks img (fOrder img) (fFileSysOrder img)));
    [right | left; split; [reflexivity | exact Hrun]].
  split; [reflexivity|].
  destruct (track_of_block img block) as [[track blkInTrk]|]; [|discriminate].
  cbn [mbind option_bind] in Hrun.
  destruct (WriteTrackSector nib w this track (blkInTrk * 2) buf)
    as [[dierr w1]|] eqn:Hfirst; [|discriminate].
  cbn [mbind option_bind] in Hrun.
  destruct dierr; cbn [is_ok negb] in Hrun; try congruence.
  destruct (WriteTrackSector_done _ _ _ _ _ _ _ _ Hthis Hsector Hfirst)
    as (offset1 & newSector1 & Hcalc1 & Hcopy1).
  assert (Himg1 : ∃ img1, imgs w1 !! this = Some img1
                          ∧ img1 = set_fDirty (fDirty img1) img)
    by exact (CopyBytesIn_images _ _ _ _ _ _ _ Hcopy1 this img Hthis).
  destruct Himg1 as (img1 & Himg1 & Heq1).
  assert (Hsector1 : IsSectorFormat (fPhysical img1) = true)
    by (rewrite Heq1; exact Hsector).
  destruct (WriteTrackSector_done _ _ _ _ _ _ _ _ Himg1 Hsector1 Hrun)
    as (offset2 & newSector2 & Hcalc2 & Hcopy2).
  rewrite Heq1 in Hcalc2.
  change (CalcSectorAndOffset (set_fDirty (fDirty img1) img) track
            (blkInTrk * 2 + 1) (fOrder (set_fDirty (fDirty img1) img))
            (fFileSysOrder (set_fDirty (fDirty img1) img)))
    with (CalcSectorAndOffset img track (blkInTrk * 2 + 1) (fOrder img)
            (fFileSysOrder img)) in Hcalc2.
  exists track, blkInTrk, offset1, newSector1, offset2, newSector2, w1, img1.
  auto 10.
Qed.

Lemma ReadTrackSectorSwapped_sector nib fs img track sector imageOrder
    fsOrder :
  IsSectorFormat (fPhysical img) = true →
  ReadTrackSectorSwapped nib fs img track sector out_buf imageOrder fsOrder
  = (r ← CalcSectorAndOffset img track sector imageOrder fsOrder;
     match r with
     | Fail dierr => Some (dierr, [])
     | Ok (offset, _) => CopyBytesOut fs img out_buf offset kSectorSize
     end).
Proof.
  intros Hsector. unfold ReadTrackSectorSwapped. cbn [out_is_nil].
  destruct (CalcSectorAndOffset img track sector imageOrder fsOrder)
    as [[[offset newSector]|dierr]|]; cbn [mbind option_bind];
    [rewrite Hsector|..]; reflexivity.
Qed.

(** [ReadBlock] on a block of the image that is not marked bad. *)
Lemma ReadBlock_paths nib fs img block :
  fHasBlocks img = true → 0 ≤ block < fNumBlocks img →
  CheckForBadBlocks img block 1 = false →
  ReadBlock nib fs img block out_buf
  = if fHasSectors img
       && negb (IsLinearBlocks img (fOrder img) (fFileSysOrder img))
    then
      '(track, blkInTrk) ← track_of_block img block;
      '(dierr, lo) ← ReadTrackSectorSwapped nib fs img track (blkInTrk * 2)
                        out_buf (fOrder img) (fFileSysOrder img);
      if negb (is_ok dierr) then Some (dierr, lo)
      else
        '(dierr, hi) ← ReadTrackSectorSwapped nib fs img track
                          (blkInTrk * 2 + 1) out_buf (fOrder img)
                          (fFileSysOrder img);
        Some (dierr, lo ++ hi)
    else CopyBytesOut fs img out_buf (block * kBlockSize) kBlockSize.
Proof.
  intros Hblocks Hrange Hbad. unfold ReadBlock, ReadBlockSwapped.
  rewrite Hblocks, Hbad. cbn [negb out_is_nil].
  destruct (Z.ltb_spec block 0); [lia|]. cbn [orb].
  destruct (Z.leb_spec (fNumBlocks img) block); [lia|]. reflexivity.
Qed.

(** The two sectors of a block are two different sectors, and the sectors
    of different blocks are different. *)
Lemma track_of_block_sectors img block block' track blkInTrk track' blkInTrk'
    (i j : Z) :
  track_of_block img block = Some (track, blkInTrk) →
  track_of_block img block' = Some (track', blkInTrk') →
  0 ≤ i ≤ 1 → 0 ≤ j ≤ 1 →
  block ≠ block' ∨ i ≠ j →
  (track, blkInTrk * 2 + i) ≠ (track', blkInTrk' * 2 + j).
Proof.
  unfold track_of_block.
  destruct (Z.quot (fNumSectPerTrack img) 2 =? 0); [discriminate|].
  intros [= <- <-] [= <- <-] Hi Hj Hne [= Htrack Hsector].
  rewrite Htrack in Hsector. lia.
Qed.

Lemma set_fDirty_twice a b c da db :
  a = set_fDirty da b → b = set_fDirty db c → a = set_fDirty da c.
Proof. intros -> ->. reflexivity. Qed.

(** A block that was written reads back as written. *)
Lemma WriteBlock_read_back nib w this img block data w' :
  imgs w !! this = Some img →
  plain_sector_image img →
  CheckForBadBlocks img block 1 = false →
  WriteBlock nib w this block (Some data) = Some (kDIErrNone, w') →
  ∃ img',
    imgs w' !! this = Some img' ∧ img' = set_fDirty (fDirty img') img ∧
    ReadBlock nib (files w') img' block out_buf
    = Some (kDIErrNone, take (Z.to_nat kBlockSize) data).
Proof.
  intros Hthis (Hsector & Hpair & Hspt & Hbase) Hbad Hrun.
  destruct (WriteBlock_done _ _ _ _ _ _ _ Hthis Hsector Hrun)
    as (Hblocks & Hrange &
        [[Hlin Hcopy]
        | (Hnl & track & blkInTrk & o1 & n1 & o2 & n2 & w1 & img1 & Htb & Hc1
           & Hc2 & Hcopy1 & Himg1 & Heq1 & Hcopy2)]).
  - destruct (CopyBytesIn_done _ _ _ _ _ kBlockSize _ Hthis Hbase eq_refl Hcopy)
      as (g & file & d & Hg & Hfile & Htake & Hlen & Hoff & Hfit & Hfits
          & Hfiles & Himgs).
    destruct (Himgs this img Hthis) as (img' & Himg' & Heq').
    exists img'. split; [exact Himg'|]. split; [exact Heq'|].
    rewrite Heq', ReadBlock_dirty, ReadBlock_paths, Hlin, Hfiles
      by assumption.
    assert (d = take (Z.to_nat kBlockSize) data) as Hd.
    { unfold buf_take in Htake. cbn [mbind option_bind] in Htake.
      destruct ((kBlockSize <? 0) || (Z.of_nat (length data) <? kBlockSize));
        congruence. }
    rewrite <- Hd.
    pose proof (CopyBytesOut_there (files w) g file (block * kBlockSize) d
                  Hfile (Hbase g Hg) Hoff Hfits img Hg) as Hread.
    rewrite Hlen in Hread. apply Hread. exact Hfit.
  - assert (Hsec : fHasSectors img = true)
      by (destruct (fHasSectors img); [reflexivity | discriminate]).
    destruct (CopyBytesIn_done _ _ _ _ _ kSectorSize _ Hthis Hbase eq_refl Hcopy1)
      as (g & file & d1 & Hg & Hfile & Htake1 & Hlen1 & Hoff1 & Hfit1 & Hfits1
          & Hfiles1 & _).
    assert (Hbase1 : ∀ g, fpDataGFD img1 = Some g → 0 ≤ gfd_base g)
      by (rewrite Heq1; exact Hbase).
    destruct (CopyBytesIn_done _ _ _ _ _ kSectorSize _ Himg1 Hbase1 eq_refl Hcopy2)
      as (g' & file1 & d2 & Hg' & Hfile1 & Htake2 & Hlen2 & Hoff2 & Hfit2
          & Hfits2 & Hfiles2 & _).
    assert (Hg1 : fpDataGFD img1 = fpDataGFD img)
      by (rewrite Heq1; reflexivity).
    assert (g' = g) as -> by congruence.
    destruct (CopyBytesIn_images _ _ _ _ _ _ _ Hcopy2 this img1 Himg1)
      as (img' & Himg' & Heq').
    assert (Heq : img' = set_fDirty (fDirty img') img)
      by exact (set_fDirty_twice _ _ _ _ _ Heq' Heq1).
    exists img'. split; [exact Himg'|]. split; [exact Heq|].
    assert (Hapart : o1 + kSectorSize ≤ o2 ∨ o2 + kSectorSize ≤ o1).
    { eapply (same_track_ranges_apart img); [exact Hpair | right; auto
        | exact Hc1 | exact Hc2 |].
      lia. }
    rewrite Heq, ReadBlock_dirty, ReadBlock_paths, Hnl, Htb by assumption.
    cbn [mbind option_bind].
    rewrite !ReadTrackSectorSwapped_sector, Hc1, Hc2 by exact Hsector.
    cbn [mbind option_bind].
    assert (Hd : d1 ++ d2 = take (Z.to_nat kBlockSize) data).
    { unfold buf_take, buf_advance in Htake1, Htake2.
      cbn [mbind option_bind fmap option_fmap option_map] in Htake1, Htake2.
      destruct ((kSectorSize <? 0)
                || (Z.of_nat (length data) <? kSectorSize)); [discriminate|].
      destruct ((kSectorSize <? 0)
                || (Z.of_nat (length (drop (Z.to_nat kSectorSize) data))
                    <? kSectorSize)); [discriminate|].
      injection Htake1 as <-. injection Htake2 as <-.
      rewrite take_take_drop. reflexivity. }
    assert (Hfirst : CopyBytesOut (files w') img out_buf o1 kSectorSize
                     = Some (kDIErrNone, d1)).
    { rewrite Hfiles2.
      rewrite (CopyBytesOut_elsewhere (files w1) g file1 o2 d2 Hfile1
                 (Hbase g Hg) Hoff2 Hfits2 img g out_buf o1 kSectorSize Hg
                 (Hbase g Hg)) by (right; lia).
      rewrite Hfiles1.
      pose proof (CopyBytesOut_there (files w) g file o1 d1
                    Hfile (Hbase g Hg) Hoff1 Hfits1 img Hg) as Hread.
      rewrite Hlen1 in Hread. apply Hread. exact Hfit1. }
    assert (Hsecond : CopyBytesOut (files w') img out_buf o2 kSectorSize
                      = Some (kDIErrNone, d2)).
    { rewrite Hfiles2.
      pose proof (CopyBytesOut_there (files w1) g file1 o2 d2
                    Hfile1 (Hbase g Hg) Hoff2 Hfits2 img Hg) as Hread.
      rewrite Hlen2 in Hread. apply Hread. exact Hfit2. }
    rewrite Hfirst. cbn [is_ok negb]. rewrite Hsecond.
    cbn [mbind option_bind]. rewrite Hd. reflexivity.
Qed.

(** The checks that [ReadBlockSwapped] makes before it reads do not depend
    on the data. *)
Lemma ReadBlock_guarded nib fs fs' img block buf :
  ¬ 0 ≤ block < fNumBlocks img ∨ CheckForBadBlocks img block 1 = true →
  ReadBlock nib fs' img block buf = ReadBlock nib fs img block buf.
Proof.
  intros Hguard. unfold ReadBlock, ReadBlockSwapped.
  destruct (negb (fHasBlocks img)); [reflexivity|].
  destruct (Z.ltb_spec block 0); [reflexivity|].
  destruct (Z.leb_spec (fNumBlocks img) block); [reflexivity|]. cbn [orb].
  destruct (out_is_nil buf); [reflexivity|].
  destruct (CheckForBadBlocks img block 1); [reflexivity|].
  destruct Hguard as [Hout | Hbad]; [lia | discriminate].
Qed.

(** A write of one block leaves the other blocks as they read before, on
    an image whose sectors take less than 2 GiB. *)
Lemma WriteBlock_frame nib w this img block buf w' block' :
  imgs w !! this = Some img →
  plain_sector_image img →
  fits_long (fNumTracks img * fNumSectPerTrack img * kSectorSize) →
  WriteBlock nib w this block buf = Some (kDIErrNone, w') →
  block' ≠ block →
  ∃ img',
    imgs w' !! this = Some img' ∧ img' = set_fDirty (fDirty img') img ∧
    ReadBlock nib (files w') img' block' out_buf
    = ReadBlock nib (files w) img block' out_buf.
Proof.
  intros Hthis (Hsector & Hpair & Hspt & Hbase) Hlong Hrun Hne.
  destruct (WriteBlock_done _ _ _ _ _ _ _ Hthis Hsector Hrun)
    as (Hblocks & Hrange &
        [[Hlin Hcopy]
        | (Hnl & track & blkInTrk & o1 & n1 & o2 & n2 & w1 & img1 & Htb & Hc1
           & Hc2 & Hcopy1 & Himg1 & Heq1 & Hcopy2)]).
  - destruct (CopyBytesIn_done _ _ _ _ _ kBlockSize _ Hthis Hbase eq_refl Hcopy)
      as (g & file & d & Hg & Hfile & Htake & Hlen & Hoff & Hfit & Hfits
          & Hfiles & Himgs).
    destruct (Himgs this img Hthis) as (img' & Himg' & Heq').
    exists img'. split; [exact Himg'|]. split; [exact Heq'|].
    rewrite Heq', ReadBlock_dirty by exact Hsector.
    destruct (decide (0 ≤ block' < fNumBlocks img)) as [Hrange' | Hout];
      [|apply ReadBlock_guarded; left; exact Hout].
    destruct (CheckForBadBlocks img block' 1) eqn:Hbad;
      [apply ReadBlock_guarded; right; exact Hbad|].
    rewrite !ReadBlock_paths, Hlin, Hfiles by assumption.
    apply (CopyBytesOut_elsewhere (files w) g file (block * kBlockSize) d
             Hfile (Hbase g Hg) Hoff Hfits img g out_buf _ _ Hg (Hbase g Hg)).
    right. rewrite Hlen. unfold kBlockSize. lia.
  - assert (Hsec : fHasSectors img = true)
      by (destruct (fHasSectors img); [reflexivity | discriminate]).
    destruct (CopyBytesIn_done _ _ _ _ _ kSectorSize _ Hthis Hbase eq_refl
                Hcopy1)
      as (g & file & d1 & Hg & Hfile & Htake1 & Hlen1 & Hoff1 & Hfit1 & Hfits1
          & Hfiles1 & _).
    assert (Hbase1 : ∀ g, fpDataGFD img1 = Some g → 0 ≤ gfd_base g)
      by (rewrite Heq1; exact Hbase).
    destruct (CopyBytesIn_done _ _ _ _ _ kSectorSize _ Himg1 Hbase1 eq_refl
                Hcopy2)
      as (g' & file1 & d2 & Hg' & Hfile1 & Htake2 & Hlen2 & Hoff2 & Hfit2
          & Hfits2 & Hfiles2 & _).
    assert (Hg1 : fpDataGFD img1 = fpDataGFD img)
      by (rewrite Heq1; reflexivity).
    assert (g' = g) as -> by congruence.
    destruct (CopyBytesIn_images _ _ _ _ _ _ _ Hcopy2 this img1 Himg1)
      as (img' & Himg' & Heq').
    assert (Heq : img' = set_fDirty (fDirty img') img)
      by exact (set_fDirty_twice _ _ _ _ _ Heq' Heq1).
    exists img'. split; [exact Himg'|]. split; [exact Heq|].
    rewrite Heq, ReadBlock_dirty by exact Hsector.
    destruct (decide (0 ≤ block' < fNumBlocks img)) as [Hrange' | Hout];
      [|apply ReadBlock_guarded; left; exact Hout].
    destruct (CheckForBadBlocks img block' 1) eqn:Hbad;
      [apply ReadBlock_guarded; right; exact Hbad|].
    rewrite !ReadBlock_paths, Hnl by assumption.
    destruct (track_of_block img block') as [[track' blkInTrk']|] eqn:Htb';
      [|reflexivity].
    cbn [mbind option_bind].
    assert (Hsame : ∀ i offset newSector,
      0 ≤ i ≤ 1 →
      CalcSectorAndOffset img track' (blkInTrk' * 2 + i) (fOrder img)
        (fFileSysOrder img) = Some (Ok (offset, newSector)) →
      CopyBytesOut (files w') img out_buf offset kSectorSize
      = CopyBytesOut (files w) img out_buf offset kSectorSize).
    { intros i offset newSector Hi Hcalc.
      assert (Hnspt : fNumSectPerTrack img = 13 ∨ fNumSectPerTrack img = 16
                      ∨ fNumSectPerTrack img = 32) by (right; auto).
      assert (H1 : offset + kSectorSize ≤ o1 ∨ o1 + kSectorSize ≤ offset).
      { eapply (sector_ranges_apart img);
          [exact Hpair | exact Hnspt | exact Hlong | exact Hcalc | exact Hc1 |].
        replace (blkInTrk * 2) with (blkInTrk * 2 + 0) by lia.
        eapply track_of_block_sectors;
          [exact Htb' | exact Htb | exact Hi | lia | left; exact Hne]. }
      assert (H2 : offset + kSectorSize ≤ o2 ∨ o2 + kSectorSize ≤ offset).
      { eapply (sector_ranges_apart img);
          [exact Hpair | exact Hnspt | exact Hlong | exact Hcalc | exact Hc2 |].
        eapply track_of_block_sectors;
          [exact Htb' | exact Htb | exact Hi | lia | left; exact Hne]. }
      rewrite Hfiles2.
      rewrite (CopyBytesOut_elsewhere (files w1) g file1 o2 d2 Hfile1
                 (Hbase g Hg) Hoff2 Hfits2 img g out_buf offset kSectorSize Hg
                 (Hbase g Hg)) by (right; lia).
      rewrite Hfiles1.
      apply (CopyBytesOut_elsewhere (files w) g file o1 d1 Hfile
               (Hbase g Hg) Hoff1 Hfits1 img g out_buf _ _ Hg (Hbase g Hg)).
      right. lia. }
    rewrite !ReadTrackSectorSwapped_sector by exact Hsector.
    destruct (CalcSectorAndOffset img track' (blkInTrk' * 2) (fOrder img)
                (fFileSysOrder img)) as [[[oa na]|ea]|] eqn:Hca;
      cbn [mbind option_bind]; [| |reflexivity].
    2:{ apply CalcSectorAndOffset_Fail in Hca.
        destruct ea; [congruence | reflexivity ..]. }
    rewrite (Hsame 0 oa na) by (rewrite ?Z.add_0_r; (lia || exact Hca)).
    destruct (CopyBytesOut (files w) img out_buf oa kSectorSize)
      as [[dierr lo]|]; cbn [mbind option_bind]; [|reflexivity].
    destruct (negb (is_ok dierr)); [reflexivity|].
    destruct (CalcSectorAndOffset img track' (blkInTrk' * 2 + 1) (fOrder img)
                (fFileSysOrder img)) as [[[ob nb]|eb]|] eqn:Hcb;
      cbn [mbind option_bind]; [|reflexivity|reflexivity].
    rewrite (Hsame 1 ob nb) by (lia || exact Hcb). reflexivity.
Qed.

(** X7.  What is written is what is read: on an image of plain sectors
    (linear blocks, or 16 or 32 sectors per track in any two orderings),
    after a [WriteBlock] that succeeded a [ReadBlock] of the same block
    answers the 512 bytes that were written, provided the block is not in
    the bad block map. *)
Theorem WriteBlock_then_ReadBlock nib w this img block data w' :
  imgs w !! this = Some img →
  plain_sector_image img →
  CheckForBadBlocks img block 1 = false →
  WriteBlock nib w this block (Some data) = Some (kDIErrNone, w') →
  ∃ img',
    imgs w' !! this = Some img' ∧
    ReadBlock nib (files w') img' block out_buf
    = Some (kDIErrNone, take (Z.to_nat kBlockSize) data).
Proof.
  intros Hthis Hplain Hbad Hrun.
  destruct (WriteBlock_read_back nib w this img block data w' Hthis Hplain
              Hbad Hrun) as (img' & Himg' & _ & Hread).
  eauto.
Qed.

Lemma img_po2_plain : plain_sector_image img_po2.
Proof.
  split; [reflexivity|]. split; [reflexivity|]. split; [discriminate|].
  intros g [= <-]. reflexivity.
Qed.

Lemma WriteBlock_then_ReadBlock_witness :
  ∃ w' img',
    WriteBlock no_nibbles world0 0%nat 1 (Some (replicate 512 x03))
      = Some (kDIErrNone, w') ∧
    imgs w' !! 0%nat = Some img' ∧
    ReadBlock no_nibbles (files w') img' 1 out_buf
    = Some (kDIErrNone, replicate 512 x03).
Proof.
  destruct (WriteBlock no_nibbles world0 0%nat 1 (Some (replicate 512 x03)))
    as [[dierr w']|] eqn:Hrun; [|vm_compute in Hrun; discriminate Hrun].
  assert (dierr = kDIErrNone) as ->
    by (vm_compute in Hrun; injection Hrun as <- _; reflexivity).
  destruct (WriteBlock_then_ReadBlock no_nibbles world0 0%nat img_po2 1
              (replicate 512 x03) w')
    as (img' & Himg' & Hread);
    [reflexivity | exact img_po2_plain | reflexivity | exact Hrun |].
  exists w', img'. split; [reflexivity|]. split; [exact Himg' | exact Hread].
Defined.

(** X8.  A write of one block touches no other block: on an image of plain
    sectors whose sectors take less than 2 GiB
    ([fNumTracks * fNumSectPerTrack * 256], a [long] product in the code,
    is at most 2147483647), after a [WriteBlock] that succeeded, a
    [ReadBlock] of any other block has the outcome (error or data) that it
    had before the write. *)
Theorem WriteBlock_keeps_other_blocks nib w this img block buf w' block' :
  imgs w !! this = Some img →
  plain_sector_image img →
  fits_long (fNumTracks img * fNumSectPerTrack img * kSectorSize) →
  WriteBlock nib w this block buf = Some (kDIErrNone, w') →
  block' ≠ block →
  ∃ img',
    imgs w' !! this = Some img' ∧
    ReadBlock nib (files w') img' block' out_buf
    = ReadBlock nib (files w) img block' out_buf.
Proof.
  intros Hthis Hplain Hlong Hrun Hne.
  destruct (WriteBlock_frame nib w this img block buf w' block' Hthis Hplain
              Hlong Hrun Hne) as (img' & Himg' & _ & Hread).
  eauto.
Qed.

Lemma WriteBlock_keeps_other_blocks_witness :
  ∃ w' img',
    WriteBlock no_nibbles world0 0%nat 1 (Some (replicate 512 x03))
      = Some (kDIErrNone, w') ∧
    imgs w' !! 0%nat = Some img' ∧
    ReadBlock no_nibbles (files w') img' 0 out_buf
    = Some (kDIErrNone, replicate 512 x01).
Proof.
  destruct (WriteBlock no_nibbles world0 0%nat 1 (Some (replicate 512 x03)))
    as [[dierr w']|] eqn:Hrun; [|vm_compute in Hrun; discriminate Hrun].
  assert (dierr = kDIErrNone) as ->
    by (vm_compute in Hrun; injection Hrun as <- _; reflexivity).
  destruct (WriteBlock_keeps_other_blocks no_nibbles world0 0%nat img_po2 1
              (Some (replicate 512 x03)) w' 0)
    as (img' & Himg' & Hread);
    [reflexivity | exact img_po2_plain | vm_compute; split; discriminate
    | exact Hrun | discriminate |].
  exists w', img'. split; [reflexivity|]. split; [exact Himg'|].
  rewrite Hread. vm_compute. reflexivity.
Defined.

(** ** Zeroing an image *)

(** A read that succeeds answers as many bytes as were asked for. *)
Lemma CopyBytesOut_length fs img buf offset size data :
  CopyBytesOut fs img buf offset size = Some (kDIErrNone, data) →
  length data = Z.to_nat size.
Proof.
  unfold CopyBytesOut, GFD_Seek, GFD_Read.
  destruct (fpDataGFD img) as [g|]; [|discriminate].
  cbn [mbind option_bind].
  destruct (gfd_open fs g); cbn [negb]; [|discriminate].
  destruct (Z.ltb_spec offset 0); cbn [orb]; [discriminate|].
  destruct (Z.ltb_spec (gfd_length fs g) offset); [discriminate|].
  cbn [is_ok negb]. destruct (out_is_nil buf); [discriminate|].
  destruct (Z.ltb_spec size 0); cbn [orb]; [discriminate|].
  destruct (Z.ltb_spec (gfd_length fs g) (offset + size)); [discriminate|].
  cbn [is_ok negb]. intros [= <-].
  rewrite length_take, length_drop. unfold gfd_length in *. lia.
Qed.

(** A [ReadBlock] that succeeds passed the guards. *)
Lemma ReadBlock_ok_guards nib fs img block buf blk :
  ReadBlock nib fs img block buf = Some (kDIErrNone, blk) →
  fHasBlocks img = true ∧ 0 ≤ block < fNumBlocks img ∧
  buf = out_buf ∧ CheckForBadBlocks img block 1 = false.
Proof.
  unfold ReadBlock, ReadBlockSwapped.
  destruct (fHasBlocks img); [|discriminate]. cbn [negb].
  destruct (Z.ltb_spec block 0); [discriminate|]. cbn [orb].
  destruct (Z.leb_spec (fNumBlocks img) block); [discriminate|].
  destruct buf; [discriminate|]. cbn [out_is_nil].
  destruct (CheckForBadBlocks img block 1); [discriminate|].
  intros _. repeat split; lia.
Qed.

Lemma zeros_split :
  replicate (Z.to_nat kBlockSize) x00
  = replicate (Z.to_nat kSectorSize) x00
    ++ replicate (Z.to_nat kSectorSize) x00.
Proof. rewrite <- replicate_add. reflexivity. Qed.

(** A block that read as zeros reads as zeros after zeros were written
    through the GenericFD of the image. *)
Lemma ReadBlock_zeros_stay nib fs img g file offset n block :
  IsSectorFormat (fPhysical img) = true →
  fpDataGFD img = Some g →
  fs !! gfd_file g = Some file →
  (Z.to_nat (gfd_base g + offset) + n ≤ length file)%nat →
  ReadBlock nib fs img block out_buf
    = Some (kDIErrNone, replicate (Z.to_nat kBlockSize) x00) →
  ReadBlock nib
    (<[gfd_file g :=
         splice file (Z.to_nat (gfd_base g + offset)) (replicate n x00)]> fs)
    img block out_buf
  = Some (kDIErrNone, replicate (Z.to_nat kBlockSize) x00).
Proof.
  intros Hsector Hg Hfile Hfits Hread.
  destruct (ReadBlock_ok_guards _ _ _ _ _ _ Hread)
    as (Hblocks & Hrange & _ & Hbad).
  assert (Hstay : ∀ off size,
    CopyBytesOut fs img out_buf off size
      = Some (kDIErrNone, replicate (Z.to_nat size) x00) →
    CopyBytesOut
      (<[gfd_file g :=
           splice file (Z.to_nat (gfd_base g + offset)) (replicate n x00)]>
         fs) img out_buf off size
    = Some (kDIErrNone, replicate (Z.to_nat size) x00)).
  { intros off size.
    assert (Hfits' : (Z.to_nat (gfd_base g + offset)
                      + length (replicate n x00) ≤ length file)%nat)
      by (rewrite length_replicate; exact Hfits).
    apply (CopyBytesOut_zeros_stay fs g file offset (replicate n x00) Hfile
             Hfits' img g off size);
      [rewrite length_replicate; reflexivity | exact Hg]. }
  rewrite ReadBlock_paths in Hread |- * by assumption.
  destruct (fHasSectors img
            && negb (IsLinearBlocks img (fOrder img) (fFileSysOrder img)));
    [|apply Hstay; exact Hread].
  destruct (track_of_block img block) as [[track blkInTrk]|];
    [|discriminate].
  cbn [mbind option_bind] in Hread |- *.
  rewrite !ReadTrackSectorSwapped_sector in Hread |- * by exact Hsector.
  destruct (CalcSectorAndOffset img track (blkInTrk * 2) (fOrder img)
              (fFileSysOrder img)) as [[[oa na]|ea]|] eqn:Hca;
    cbn [mbind option_bind] in Hread |- *; [| |discriminate].
  2:{ apply CalcSectorAndOffset_Fail in Hca.
      destruct ea; [congruence | discriminate ..]. }
  destruct (CopyBytesOut fs img out_buf oa kSectorSize) as [[dierr lo]|]
    eqn:Hlo; cbn [mbind option_bind] in Hread; [|discriminate].
  destruct (is_ok dierr) eqn:Hok; cbn [negb] in Hread;
    [|injection Hread as -> _; discriminate Hok].
  apply is_ok_true in Hok. subst dierr.
  destruct (CalcSectorAndOffset img track (blkInTrk * 2 + 1) (fOrder img)
              (fFileSysOrder img)) as [[[ob nb]|eb]|] eqn:Hcb;
    cbn [mbind option_bind] in Hread |- *; [| |discriminate].
  2:{ apply CalcSectorAndOffset_Fail in Hcb. congruence. }
  destruct (CopyBytesOut fs img out_buf ob kSectorSize) as [[dierr hi]|]
    eqn:Hhi; cbn [mbind option_bind] in Hread; [|discriminate].
  assert (dierr = kDIErrNone) as -> by congruence.
  pose proof (CopyBytesOut_length _ _ _ _ _ _ Hlo) as Hllo.
  pose proof (CopyBytesOut_length _ _ _ _ _ _ Hhi) as Hlhi.
  rewrite zeros_split in Hread |- *.
  remember (replicate (Z.to_nat kSectorSize) x00) as z eqn:Hz.
  injection Hread as Hcat.
  apply app_inj_1 in Hcat as [-> ->];
    [|rewrite Hz, length_replicate; exact Hllo].
  rewrite (Hstay oa kSectorSize) by (rewrite <- Hz; exact Hlo).
  cbn [mbind option_bind is_ok negb].
  rewrite (Hstay ob kSectorSize) by (rewrite <- Hz; exact Hhi).
  cbn [mbind option_bind]. rewrite <- Hz. reflexivity.
Qed.

(** The bytes that a write of zeros takes from its buffer are zeros. *)
Lemma buf_take_zeros n size data :
  buf_take (Some (replicate n x00)) size = Some data →
  data = replicate (length data) x00.
Proof.
  unfold buf_take. cbn [mbind option_bind].
  destruct (_ || _); [discriminate|]. intros [= <-].
  rewrite take_replicate, length_replicate. reflexivity.
Qed.

Lemma buf_advance_zeros n k :
  buf_advance (Some (replicate n x00)) k
  = Some (replicate (n - Z.to_nat k) x00).
Proof.
  unfold buf_advance. cbn [fmap option_fmap option_map].
  rewrite drop_replicate. reflexivity.
Qed.

(** Zeros written to one block leave zeros in a block that held zeros. *)
Lemma WriteBlock_zeros_stay nib w this img block n w' b :
  imgs w !! this = Some img →
  plain_sector_image img →
  WriteBlock nib w this block (Some (replicate n x00))
    = Some (kDIErrNone, w') →
  ReadBlock nib (files w) img b out_buf
    = Some (kDIErrNone, replicate (Z.to_nat kBlockSize) x00) →
  ∃ img',
    imgs w' !! this = Some img' ∧ img' = set_fDirty (fDirty img') img ∧
    ReadBlock nib (files w') img' b out_buf
    = Some (kDIErrNone, replicate (Z.to_nat kBlockSize) x00).
Proof.
  intros Hthis (Hsector & Hpair & Hspt & Hbase) Hrun Hread.
  destruct (WriteBlock_done _ _ _ _ _ _ _ Hthis Hsector Hrun)
    as (Hblocks & Hrange &
        [[Hlin Hcopy]
        | (Hnl & track & blkInTrk & o1 & n1 & o2 & n2 & w1 & img1 & Htb & Hc1
           & Hc2 & Hcopy1 & Himg1 & Heq1 & Hcopy2)]).
  - destruct (CopyBytesIn_done _ _ _ _ _ kBlockSize _ Hthis Hbase eq_refl Hcopy)
      as (g & file & d & Hg & Hfile & Htake & Hlen & Hoff & Hfit & Hfits
          & Hfiles & Himgs).
    destruct (Himgs this img Hthis) as (img' & Himg' & Heq').
    exists img'. split; [exact Himg'|]. split; [exact Heq'|].
    rewrite Heq', ReadBlock_dirty, Hfiles by exact Hsector.
    rewrite (buf_take_zeros _ _ _ Htake).
    apply ReadBlock_zeros_stay; assumption.
  - destruct (CopyBytesIn_done _ _ _ _ _ kSectorSize _ Hthis Hbase eq_refl
                Hcopy1)
      as (g & file & d1 & Hg & Hfile & Htake1 & Hlen1 & Hoff1 & Hfit1 & Hfits1
          & Hfiles1 & _).
    assert (Hbase1 : ∀ g, fpDataGFD img1 = Some g → 0 ≤ gfd_base g)
      by (rewrite Heq1; exact Hbase).
    destruct (CopyBytesIn_done _ _ _ _ _ kSectorSize _ Himg1 Hbase1 eq_refl
                Hcopy2)
      as (g' & file1 & d2 & Hg' & Hfile1 & Htake2 & Hlen2 & Hoff2 & Hfit2
          & Hfits2 & Hfiles2 & _).
    assert (Hg1 : fpDataGFD img1 = fpDataGFD img)
      by (rewrite Heq1; reflexivity).
    assert (g' = g) as -> by congruence.
    destruct (CopyBytesIn_images _ _ _ _ _ _ _ Hcopy2 this img1 Himg1)
      as (img' & Himg' & Heq').
    assert (Heq : img' = set_fDirty (fDirty img') img)
      by exact (set_fDirty_twice _ _ _ _ _ Heq' Heq1).
    exists img'. split; [exact Himg'|]. split; [exact Heq|].
    rewrite Heq, ReadBlock_dirty, Hfiles2 by exact Hsector.
    rewrite buf_advance_zeros in Htake2.
    rewrite (buf_take_zeros _ _ _ Htake2).
    apply ReadBlock_zeros_stay; try assumption.
    rewrite Hfiles1. rewrite (buf_take_zeros _ _ _ Htake1).
    apply ReadBlock_zeros_stay; assumption.
Qed.

Lemma ZeroImage_from_zeroes nib this fuel w block img w' :
  imgs w !! this = Some img →
  plain_sector_image img →
  fpBadBlockMap img = None →
  0 ≤ block →
  (∀ b, 0 ≤ b < block → b < fNumBlocks img →
        ReadBlock nib (files w) img b out_buf
        = Some (kDIErrNone, replicate (Z.to_nat kBlockSize) x00)) →
  ZeroImage_from nib fuel w this block = Some (kDIErrNone, w') →
  ∃ img',
    imgs w' !! this = Some img' ∧ img' = set_fDirty (fDirty img') img ∧
    ∀ b, 0 ≤ b < fNumBlocks img →
         ReadBlock nib (files w') img' b out_buf
         = Some (kDIErrNone, replicate (Z.to_nat kBlockSize) x00).
Proof.
  revert w block img.
  induction fuel as [|fuel IH]; intros w block img Hthis Hplain Hmap Hblock
    Hdone Hrun.
  - cbn [ZeroImage_from] in Hrun. rewrite Hthis in Hrun.
    cbn [mbind option_bind] in Hrun. unfold GetNumBlocks in Hrun.
    destruct (Z.ltb_spec block (fNumBlocks img)); [discriminate|].
    injection Hrun as <-. exists img. split; [exact Hthis|].
    split; [destruct img; reflexivity|].
    intros b Hb. apply Hdone; lia.
  - cbn [ZeroImage_from] in Hrun. rewrite Hthis in Hrun.
    cbn [mbind option_bind] in Hrun. unfold GetNumBlocks in Hrun.
    destruct (Z.ltb_spec block (fNumBlocks img)).
    2:{ injection Hrun as <-. exists img. split; [exact Hthis|].
        split; [destruct img; reflexivity|].
        intros b Hb. apply Hdone; lia. }
    destruct (WriteBlock nib w this block
                (Some (replicate (Z.to_nat kBlockSize) x00)))
      as [[dierr w1]|] eqn:Hwrite; [|discriminate].
    cbn [mbind option_bind] in Hrun.
    destruct (is_ok dierr) eqn:Hok; cbn [negb] in Hrun.
    2:{ injection Hrun as -> _. discriminate Hok. }
    assert (dierr = kDIErrNone) as -> by (destruct dierr; (reflexivity || discriminate)).
    assert (Hbad : ∀ b, CheckForBadBlocks img b 1 = false)
      by (intros b; unfold CheckForBadBlocks; rewrite Hmap; reflexivity).
    destruct (WriteBlock_read_back nib w this img block _ w1 Hthis Hplain
                (Hbad block) Hwrite) as (img1 & Himg1 & Heq1 & Hback).
    assert (Hplain1 : plain_sector_image img1) by (rewrite Heq1; exact Hplain).
    assert (Hmap1 : fpBadBlockMap img1 = None) by (rewrite Heq1; exact Hmap).
    assert (Hnum1 : fNumBlocks img1 = fNumBlocks img)
      by (rewrite Heq1; reflexivity).
    destruct (IH w1 (block + 1) img1 Himg1 Hplain1 Hmap1) as
      (img' & Himg' & Heq' & Hall); [lia | | exact Hrun |].
    + intros b Hb Hlt. destruct (decide (b = block)) as [-> | Hne].
      * exact Hback.
      * destruct (WriteBlock_zeros_stay nib w this img block _ w1 b Hthis
                    Hplain Hwrite) as (img1' & Himg1' & _ & Hsame).
        { apply Hdone; lia. }
        assert (img1' = img1) as -> by congruence.
        exact Hsame.
    + exists img'. split; [exact Himg'|].
      split; [exact (set_fDirty_twice _ _ _ _ _ Heq' Heq1)|].
      intros b Hb. apply Hall. lia.
Qed.

(** X9.  [ZeroImage] clears the image: on an image of plain sectors
    without a bad block map, after a [ZeroImage] that returned no error
    every block of the image reads as 512 zero bytes. *)
Theorem ZeroImage_zeroes_every_block nib w this img w' :
  imgs w !! this = Some img →
  plain_sector_image img →
  fpBadBlockMap img = None →
  ZeroImage nib w this = Some (kDIErrNone, w') →
  ∃ img',
    imgs w' !! this = Some img' ∧
    ∀ block, 0 ≤ block < fNumBlocks img →
      ReadBlock nib (files w') img' block out_buf
      = Some (kDIErrNone, replicate (Z.to_nat kBlockSize) x00).
Proof.
  intros Hthis Hplain Hmap Hrun. unfold ZeroImage in Hrun.
  rewrite Hthis in Hrun. cbn [mbind option_bind] in Hrun.
  destruct (ZeroImage_from_zeroes nib this (Z.to_nat (GetNumBlocks img)) w 0
              img w' Hthis Hplain Hmap)
    as (img' & Himg' & _ & Hall); [lia | intros b Hb; lia | exact Hrun |].
  eauto.
Qed.

Lemma ZeroImage_zeroes_every_block_witness :
  ∃ w' img',
    ZeroImage no_nibbles world0 0%nat = Some (kDIErrNone, w') ∧
    imgs w' !! 0%nat = Some img' ∧
    ReadBlock no_nibbles (files w') img' 1 out_buf
    = Some (kDIErrNone, replicate 512 x00).
Proof.
  destruct (ZeroImage no_nibbles world0 0%nat) as [[dierr w']|] eqn:Hrun;
    [|vm_compute in Hrun; discriminate Hrun].
  assert (dierr = kDIErrNone) as ->
    by (vm_compute in Hrun; injection Hrun as <- _; reflexivity).
  destruct (ZeroImage_zeroes_every_block no_nibbles world0 0%nat img_po2 w')
    as (img' & Himg' & Hall);
    [reflexivity | exact img_po2_plain | reflexivity | exact Hrun |].
  exists w', img'. split; [reflexivity|]. split; [exact Himg'|].
  apply Hall. vm_compute. split; [discriminate | reflexivity].
Defined.

(** X10.  [ZeroImage] works through blocks only: on an image whose block
    count is not positive (a 13-sector image has no blocks, and a count of
    -1) it writes nothing and returns no error. *)
Theorem ZeroImage_without_blocks nib w this img :
  imgs w !! this = Some img →
  fNumBlocks img ≤ 0 →
  ZeroImage nib w this = Some (kDIErrNone, w).
Proof.
  intros Hthis Hnone. unfold ZeroImage. rewrite Hthis.
  cbn [mbind option_bind]. unfold GetNumBlocks.
  destruct (Z.to_nat (fNumBlocks img)); cbn [ZeroImage_from];
    rewrite Hthis; cbn [mbind option_bind]; unfold GetNumBlocks;
    (destruct (Z.ltb_spec 0 (fNumBlocks img)); [lia | reflexivity]).
Qed.

Lemma ZeroImage_without_blocks_witness :
  fHasSectors img_d13 = true ∧
  ZeroImage no_nibbles world_d13 0%nat = Some (kDIErrNone, world_d13).
Proof.
  split; [lazy; reflexivity|].
  apply (ZeroImage_without_blocks no_nibbles world_d13 0%nat img_d13).
  - unfold world_d13. cbn [imgs]. apply lookup_singleton_eq.
  - assert (fNumBlocks img_d13 = -1) as -> by (lazy; reflexivity). lia.
Defined.

(** ** Linear blocks *)

(** X11.  The short cut of [IsLinearBlocks] is sound: on an image of 16 or
    32 sectors per track without sector pairing, whose sectors take less
    than 2 GiB ([fNumTracks * fNumSectPerTrack * 256], a [long] product in
    the sector path of the code, is at most 2147483647), when the image
    order and the filesystem order agree, the two sectors that make up
    block [block] (sectors [2k] and [2k+1] of its track) lie at
    [block*512] and [block*512 + 256], so that reading sector by sector
    and reading 512 bytes at [block*512] address the same bytes. *)
Theorem linear_block_is_two_adjacent_sectors img order block :
  fHasSectors img = true →
  fSectorPairing img = false →
  fNumSectPerTrack img = 16 ∨ fNumSectPerTrack img = 32 →
  fits_long (fNumTracks img * fNumSectPerTrack img * kSectorSize) →
  0 ≤ block < fNumTracks img * Z.quot (fNumSectPerTrack img) 2 →
  ∃ track blkInTrk newSector1 newSector2,
    track_of_block img block = Some (track, blkInTrk) ∧
    CalcSectorAndOffset img track (blkInTrk * 2) order order
      = Some (Ok (block * kBlockSize, newSector1)) ∧
    CalcSectorAndOffset img track (blkInTrk * 2 + 1) order order
      = Some (Ok (block * kBlockSize + kSectorSize, newSector2)).
Proof.
  intros Hsec Hpair Hnspt Hfits Hblock.
  set (perTrack := Z.quot (fNumSectPerTrack img) 2) in *.
  assert (Hper : 0 < perTrack ∧ perTrack * 2 = fNumSectPerTrack img)
    by (subst perTrack; destruct Hnspt as [-> | ->]; split; reflexivity).
  destruct Hper as [Hpos Hdouble].
  set (track := Z.quot block perTrack).
  assert (Htrack : track = block `div` perTrack)
    by (subst track; apply Z.quot_div_nonneg; lia).
  assert (Hin : 0 ≤ block - track * perTrack < perTrack)
    by (rewrite Htrack; pose proof (Z.div_mod block perTrack);
        pose proof (Z.mod_pos_bound block perTrack); lia).
  assert (Hlt : 0 ≤ track < fNumTracks img).
  { rewrite Htrack. split; [apply Z.div_pos; lia|].
    apply Z.div_lt_upper_bound; lia. }
  exists track, (block - track * perTrack). do 2 eexists.
  split; [|split].
  - unfold track_of_block. fold perTrack.
    destruct (Z.eqb_spec perTrack 0); [lia | reflexivity].
  - rewrite CalcSectorAndOffset_one_order by (assumption || lia).
    rewrite track_start_in_image by auto.
    unfold kSectorSize, kBlockSize. do 3 f_equal. rewrite <- Hdouble. lia.
  - rewrite CalcSectorAndOffset_one_order by (assumption || lia).
    rewrite track_start_in_image by auto.
    unfold kSectorSize, kBlockSize. do 3 f_equal. rewrite <- Hdouble. lia.
Qed.

Lemma linear_block_is_two_adjacent_sectors_witness :
  ∃ track blkInTrk newSector1 newSector2,
    track_of_block img_do140 139 = Some (track, blkInTrk) ∧
    CalcSectorAndOffset img_do140 track (blkInTrk * 2) kSectorOrderDOS
      kSectorOrderDOS = Some (Ok (139 * kBlockSize, newSector1)) ∧
    CalcSectorAndOffset img_do140 track (blkInTrk * 2 + 1) kSectorOrderDOS
      kSectorOrderDOS = Some (Ok (139 * kBlockSize + kSectorSize, newSector2)).
Proof.
  apply (linear_block_is_two_adjacent_sectors img_do140 kSectorOrderDOS 139);
    [ reflexivity | reflexivity | left; reflexivity
    | vm_compute; split; discriminate
    | vm_compute; split; [discriminate | reflexivity] ].
Defined.

(** ** Flushing and closing *)

(** X12.  The dirty flag after a flush: [FlushImage] on a dirty image
    leaves the image clean exactly when it returns no error and did flush;
    after an error the image is still dirty, and so it is after a
    fast-only flush that met a slow wrapper. *)
Theorem FlushImage_dirty_after ops w this mode img dierr w' :
  imgs w !! this = Some img →
  fDirty img = true →
  FlushImage ops w this mode = Some (dierr, w') →
  ∃ img',
    imgs w' !! this = Some img' ∧
    fDirty img' = (if is_ok dierr then flush_skipped ops mode img else true).
Proof.
  intros Hthis Hdirty Hrun.
  destruct (FlushImage_effect ops w this mode img dierr w' Hthis Hrun)
    as (wl & Himgs).
  eexists. split; [rewrite Himgs; apply lookup_insert_eq|].
  rewrite Hdirty. reflexivity.
Qed.

Lemma FlushImage_dirty_after_witness :
  ∃ img',
    imgs world_flushed !! 0%nat = Some img' ∧
    fDirty img'
    = (if is_ok kDIErrNone
       then flush_skipped plain_wrappers kFlushAll
              (default DiskImg_new (imgs world_written !! 0%nat))
       else true).
Proof.
  apply (FlushImage_dirty_after plain_wrappers world_written 0%nat kFlushAll
           (default DiskImg_new (imgs world_written !! 0%nat)) kDIErrNone
           world_flushed);
    vm_compute; reflexivity.
Defined.

(** X13.  [CloseImage] closes all or nothing: when it returns no error the
    image is clean and its three GenericFDs and two wrappers are gone;
    when the flush fails the error is returned and the image stays open
    and dirty, with its GenericFDs and wrappers in place.  No other
    DiskImg is touched. *)
Theorem CloseImage_all_or_nothing ops w this img dierr w' :
  imgs w !! this = Some img →
  CloseImage ops w this = Some (dierr, w') →
  ∃ img',
    imgs w' !! this = Some img' ∧
    (∀ j, j ≠ this → imgs w' !! j = imgs w !! j) ∧
    (dierr = kDIErrNone →
       fDirty img' = false ∧ fpDataGFD img' = None ∧
       fpWrapperGFD img' = None ∧ fpOuterGFD img' = None ∧
       fpImageWrapper img' = None ∧ fpOuterWrapper img' = None) ∧
    (dierr ≠ kDIErrNone →
       fDirty img' = true ∧ fpDataGFD img' = fpDataGFD img ∧
       fpWrapperGFD img' = fpWrapperGFD img ∧
       fpOuterGFD img' = fpOuterGFD img ∧
       fpImageWrapper img' = fpImageWrapper img ∧
       fpOuterWrapper img' = fpOuterWrapper img).
Proof.
  intros Hthis Hrun. unfold CloseImage in Hrun.
  destruct (FlushImage ops w this kFlushAll) as [[e w1]|] eqn:Hflush;
    [|discriminate].
  cbn [mbind option_bind] in Hrun.
  destruct (FlushImage_effect ops w this kFlushAll img e w1 Hthis Hflush)
    as (wl & Himgs).
  change (flush_skipped ops kFlushAll img) with false in Himgs.
  destruct (is_ok e) eqn:Hok; cbn [negb] in Hrun.
  - rewrite Himgs, lookup_insert_eq in Hrun. cbn [mbind option_bind] in Hrun.
    injection Hrun as <- <-. eexists.
    split; [cbn [set_img imgs]; apply lookup_insert_eq|].
    split.
    { intros j Hj. cbn [set_img imgs].
      rewrite lookup_insert_ne by congruence.
      rewrite Himgs. apply lookup_insert_ne. congruence. }
    split.
    + intros _. rewrite andb_false_r. repeat split.
    + intros Hne. destruct e; (discriminate Hok || contradiction).
  - injection Hrun as <- <-. eexists.
    split; [rewrite Himgs; apply lookup_insert_eq|].
    split; [intros j Hj; rewrite Himgs; apply lookup_insert_ne; congruence|].
    split.
    + intros ->. discriminate Hok.
    + intros _. rewrite andb_true_r.
      assert (Hdirty : fDirty img = true).
      { unfold FlushImage in Hflush. rewrite Hthis in Hflush.
        cbn [mbind option_bind] in Hflush.
        destruct (fDirty img); [reflexivity|].
        injection Hflush as <- _. discriminate Hok. }
      repeat split. exact Hdirty.
Qed.

Lemma CloseImage_all_or_nothing_witness :
  ∃ dierr w' img',
    CloseImage plain_wrappers world_written 0%nat = Some (dierr, w') ∧
    dierr = kDIErrNone ∧
    imgs w' !! 0%nat = Some img' ∧
    fDirty img' = false ∧ fpDataGFD img' = None.
Proof.
  destruct (CloseImage plain_wrappers world_written 0%nat)
    as [[dierr w']|] eqn:Hrun; [|vm_compute in Hrun; discriminate Hrun].
  assert (Hok : dierr = kDIErrNone)
    by (vm_compute in Hrun; injection Hrun as <- _; reflexivity).
  destruct (CloseImage_all_or_nothing plain_wrappers world_written 0%nat
              (default DiskImg_new (imgs world_written !! 0%nat)) dierr w')
    as (img' & Himg' & _ & Hclosed & _);
    [vm_compute; reflexivity | exact Hrun |].
  destruct (Hclosed Hok) as (Hclean & Hdata & _).
  exists dierr, w', img'. auto.
Defined.

Lemma release_release img : release (release img) = release img.
Proof. destruct img. reflexivity. Qed.

Lemma fDirty_release img : fDirty (release img) = fDirty img.
Proof. destruct img. reflexivity. Qed.

(** X14.  Closing twice is closing once: after a [CloseImage] that
    returned no error, a second [CloseImage] returns no error and changes
    nothing. *)
Theorem CloseImage_twice ops w this w' :
  CloseImage ops w this = Some (kDIErrNone, w') →
  CloseImage ops w' this = Some (kDIErrNone, w').
Proof.
  intros Hrun. unfold CloseImage in Hrun.
  destruct (FlushImage ops w this kFlushAll) as [[e w1]|] eqn:Hflush;
    [|discriminate].
  cbn [mbind option_bind] in Hrun.
  destruct (imgs w !! this) as [img|] eqn:Hthis.
  2:{ unfold FlushImage in Hflush. rewrite Hthis in Hflush. discriminate. }
  destruct (FlushImage_effect ops w this kFlushAll img e w1 Hthis Hflush)
    as (wl & Himgs).
  change (flush_skipped ops kFlushAll img) with false in Himgs.
  destruct (is_ok e) eqn:Hok; cbn [negb] in Hrun.
  2:{ injection Hrun as -> _. discriminate Hok. }
  rewrite Himgs, lookup_insert_eq in Hrun. cbn [mbind option_bind] in Hrun.
  injection Hrun as -> <-. rewrite andb_false_r.
  set (closed := release (set_fDirty false (set_fWrappedLength wl img))).
  unfold CloseImage, FlushImage. cbn [set_img imgs].
  rewrite lookup_insert_eq. cbn [mbind option_bind].
  assert (Hclean : fDirty closed = false)
    by (subst closed; rewrite fDirty_release; reflexivity).
  rewrite Hclean. cbn [negb mbind option_bind is_ok set_img imgs].
  rewrite lookup_insert_eq. cbn [mbind option_bind].
  subst closed. rewrite release_release.
  unfold set_img. cbn [imgs files]. rewrite insert_insert_eq. reflexivity.
Qed.

Lemma CloseImage_twice_witness :
  ∃ w',
    CloseImage plain_wrappers world_written 0%nat = Some (kDIErrNone, w') ∧
    CloseImage plain_wrappers w' 0%nat = Some (kDIErrNone, w').
Proof.
  destruct (CloseImage plain_wrappers world_written 0%nat)
    as [[dierr w']|] eqn:Hrun; [|vm_compute in Hrun; discriminate Hrun].
  assert (dierr = kDIErrNone) as ->
    by (vm_compute in Hrun; injection Hrun as <- _; reflexivity).
  exists w'. split; [reflexivity|].
  apply (CloseImage_twice plain_wrappers world_written 0%nat w'). exact Hrun.
Defined.

(** ** Sub-images *)

(** The three ways out of [OpenImage] on a range of blocks of a parent: a
    check of the function fails and nothing is changed; GFDGFD::Open
    refuses, and the image has the parent's read-only flag; the image is
    opened. *)
Lemma OpenImage_blocks_done opens w this parentId firstBlock numBlocks dierr
    w' :
  OpenImage_blocks opens w this (Some parentId) firstBlock numBlocks
    = Some (dierr, w') →
  (dierr ≠ kDIErrNone ∧ w' = w) ∨
  ∃ img parent,
    imgs w !! this = Some img ∧ fpDataGFD img = None ∧
    imgs w !! parentId = Some parent ∧
    0 ≤ firstBlock ∧ 0 < numBlocks ∧
    to_long (firstBlock + numBlocks) ≤ fNumBlocks parent ∧
    ((dierr ≠ kDIErrNone ∧
      dierr = opens (fpDataGFD parent) (to_long (firstBlock * kBlockSize))
                (fReadOnly parent) ∧
      w' = set_img this (set_fReadOnly (fReadOnly parent) img) w)
     ∨ (dierr = kDIErrNone ∧
        ∃ parentGFD,
          fpDataGFD parent = Some parentGFD ∧
          w' = set_img this
                 (sub_image parentId parent parentGFD
                    (to_long (firstBlock * kBlockSize))
                    (to_long (numBlocks * kBlockSize)) img) w)).
Proof.
  unfold OpenImage_blocks. intros Hrun.
  destruct (imgs w !! this) as [img|]; [|discriminate].
  cbn [mbind option_bind] in Hrun.
  destruct (fpDataGFD img) eqn:Hclosed;
    [injection Hrun as <- <-; left; split; [discriminate | reflexivity]|].
  destruct (imgs w !! parentId) as [parent|]; [|discriminate].
  cbn [mbind option_bind] in Hrun. unfold GetNumBlocks, GetReadOnly in Hrun.
  destruct (Z.ltb_spec firstBlock 0);
    [injection Hrun as <- <-; left; split; [discriminate | reflexivity]|].
  destruct (Z.leb_spec numBlocks 0);
    [injection Hrun as <- <-; left; split; [discriminate | reflexivity]|].
  destruct (Z.ltb_spec (fNumBlocks parent) (to_long (firstBlock + numBlocks)));
    [injection Hrun as <- <-; left; split; [discriminate | reflexivity]|].
  cbn [orb] in Hrun. cbv zeta in Hrun.
  change (fReadOnly (set_fReadOnly (fReadOnly parent) img))
    with (fReadOnly parent) in Hrun.
  right. exists img, parent. split; [reflexivity|].
  split; [exact Hclosed|]. split; [reflexivity|].
  do 3 (split; [lia|]).
  destruct (is_ok (opens (fpDataGFD parent)
                     (to_long (firstBlock * kBlockSize)) (fReadOnly parent)))
    eqn:Hok; cbn [negb] in Hrun.
  - apply is_ok_true in Hok. rewrite Hok in Hrun.
    destruct (fpDataGFD parent) as [parentGFD|]; [|discriminate].
    cbn [mbind option_bind] in Hrun. injection Hrun as <- <-.
    right. split; [reflexivity|]. exists parentGFD. split; reflexivity.
  - apply is_ok_false in Hok. injection Hrun as <- <-.
    left. split; [exact Hok|]. split; reflexivity.
Qed.

Lemma OpenImage_sectors_done opens w this parentId firstTrack firstSector
    numSectors dierr w' :
  OpenImage_sectors opens w this (Some parentId) firstTrack firstSector
    numSectors = Some (dierr, w') →
  (dierr ≠ kDIErrNone ∧ w' = w) ∨
  ∃ img parent,
    imgs w !! this = Some img ∧ fpDataGFD img = None ∧
    imgs w !! parentId = Some parent ∧
    0 ≤ firstTrack ∧ 0 < numSectors ∧
    last_track firstTrack numSectors (fNumSectPerTrack parent)
      ≤ fNumTracks parent ∧
    let start :=
      to_long (to_long (kSectorSize * firstTrack) * fNumSectPerTrack parent)
    in
    ((dierr ≠ kDIErrNone ∧
      dierr = opens (fpDataGFD parent) start (fReadOnly parent) ∧
      w' = set_img this (set_fReadOnly (fReadOnly parent) img) w)
     ∨ (dierr = kDIErrNone ∧
        ∃ parentGFD,
          fpDataGFD parent = Some parentGFD ∧
          w' = set_img this
                 (sub_image parentId parent parentGFD start
                    (to_long (numSectors * kSectorSize)) img) w)).
Proof.
  unfold OpenImage_sectors. intros Hrun.
  destruct (imgs w !! this) as [img|]; [|discriminate].
  cbn [mbind option_bind] in Hrun.
  destruct (fpDataGFD img) eqn:Hclosed;
    [injection Hrun as <- <-; left; split; [discriminate | reflexivity]|].
  destruct (imgs w !! parentId) as [parent|]; [|discriminate].
  cbn [mbind option_bind] in Hrun.
  unfold GetNumSectPerTrack, GetNumTracks, GetReadOnly in Hrun.
  cbv zeta in Hrun.
  destruct (fNumSectPerTrack parent =? 0); [discriminate|].
  destruct (Z.ltb_spec firstTrack 0);
    [injection Hrun as <- <-; left; split; [discriminate | reflexivity]|].
  destruct (Z.leb_spec numSectors 0);
    [injection Hrun as <- <-; left; split; [discriminate | reflexivity]|].
  destruct (Z.ltb_spec (fNumTracks parent)
              (last_track firstTrack numSectors (fNumSectPerTrack parent)));
    [injection Hrun as <- <-; left; split; [discriminate | reflexivity]|].
  cbn [orb] in Hrun.
  change (fReadOnly (set_fReadOnly (fReadOnly parent) img))
    with (fReadOnly parent) in Hrun.
  right. exists img, parent. split; [reflexivity|].
  split; [exact Hclosed|]. split; [reflexivity|].
  do 3 (split; [lia|]). cbv zeta.
  destruct (is_ok (opens (fpDataGFD parent)
                     (to_long (to_long (kSectorSize * firstTrack)
                               * fNumSectPerTrack parent))
                     (fReadOnly parent)))
    eqn:Hok; cbn [negb] in Hrun.
  - apply is_ok_true in Hok. rewrite Hok in Hrun.
    destruct (fpDataGFD parent) as [parentGFD|]; [|discriminate].
    cbn [mbind option_bind] in Hrun. injection Hrun as <- <-.
    right. split; [reflexivity|]. exists parentGFD. split; reflexivity.
  - apply is_ok_false in Hok. injection Hrun as <- <-.
    left. split; [exact Hok|]. split; reflexivity.
Qed.

(** X15.  A sub-image is as writable as its parent ("very important" in
    the code): after either [OpenImage] on a parent the new image has the
    parent's read-only flag, physical format and order, and points to the
    parent; if the parent is read-only, every [CopyBytesIn] through the
    sub-image answers AccessDenied and changes nothing. *)
Theorem sub_image_inherits_read_only opens w this parentId parent w' :
  imgs w !! parentId = Some parent →
  (∃ firstBlock numBlocks,
     OpenImage_blocks opens w this (Some parentId) firstBlock numBlocks
       = Some (kDIErrNone, w'))
  ∨ (∃ firstTrack firstSector numSectors,
       OpenImage_sectors opens w this (Some parentId) firstTrack firstSector
         numSectors = Some (kDIErrNone, w')) →
  ∃ img',
    imgs w' !! this = Some img' ∧
    fReadOnly img' = fReadOnly parent ∧
    fpParentImg img' = Some parentId ∧
    fPhysical img' = fPhysical parent ∧
    fOrder img' = fOrder parent ∧
    (fReadOnly parent = true →
     ∀ buf offset size,
       CopyBytesIn w' this buf offset size = Some (kDIErrAccessDenied, w')).
Proof.
  intros Hparent Hopen.
  assert (Hshape : ∃ img pg start len,
    w' = set_img this (sub_image parentId parent pg start len img) w).
  { destruct Hopen as [(a & b & Hrun) | (a & b & c & Hrun)].
    - apply OpenImage_blocks_done in Hrun
        as [[Hne _]
           | (img & parent' & _ & _ & Hp & _ & _ & _
              & [(Hne & _) | (_ & pg & _ & ->)])];
        [congruence | congruence |].
      assert (parent' = parent) as -> by congruence. eauto.
    - apply OpenImage_sectors_done in Hrun
        as [[Hne _]
           | (img & parent' & _ & _ & Hp & _ & _ & _
              & [(Hne & _) | (_ & pg & _ & ->)])];
        [congruence | congruence |].
      assert (parent' = parent) as -> by congruence. eauto. }
  destruct Hshape as (img & pg & start & len & ->).
  eexists. split; [cbn [set_img imgs]; apply lookup_insert_eq|].
  do 4 (split; [reflexivity|]).
  intros Hro buf offset size. unfold CopyBytesIn. cbn [set_img imgs].
  rewrite lookup_insert_eq. cbn [mbind option_bind].
  match goal with
  | |- (if fReadOnly ?x then _ else _) = _ =>
      change (fReadOnly x) with (fReadOnly parent)
  end.
  rewrite Hro. reflexivity.
Qed.

Lemma world_child_opened :
  OpenImage_blocks always_opens world0 1%nat (Some 0%nat) 1 1
  = Some (kDIErrNone, world_child).
Proof. vm_compute. reflexivity. Qed.

Lemma sub_image_inherits_read_only_witness :
  ∃ img',
    imgs world_child !! 1%nat = Some img' ∧
    fReadOnly img' = false ∧ fpParentImg img' = Some 0%nat.
Proof.
  destruct (sub_image_inherits_read_only always_opens world0 1%nat 0%nat
              img_po2 world_child)
    as (img' & Himg' & Hro & Hparent & _);
    [reflexivity | left; exists 1, 1; exact world_child_opened |].
  exists img'. split; [exact Himg'|]. split; [exact Hro | exact Hparent].
Defined.

(** [lastTrack] where nothing overflows. *)
Lemma last_track_exact firstTrack numSectors spt :
  0 ≤ firstTrack → 0 < numSectors → 0 < spt →
  firstTrack + numSectors + spt ≤ 2147483647 →
  last_track firstTrack numSectors spt
  = firstTrack + (numSectors + spt - 1) `div` spt.
Proof.
  intros Ht Hn Hspt Hsum. unfold last_track.
  assert (Hq : Z.quot (numSectors + spt - 1) spt
               = (numSectors + spt - 1) `div` spt)
    by (apply Z.quot_div_nonneg; lia).
  assert (Hle : 0 ≤ (numSectors + spt - 1) `div` spt ≤ numSectors + spt - 1).
  { split; [apply Z.div_pos; lia|].
    apply Z.div_le_upper_bound; [lia|]. nia. }
  rewrite (to_long_fits (numSectors + spt)) by (unfold fits_long; lia).
  rewrite (to_long_fits (numSectors + spt - 1)) by (unfold fits_long; lia).
  rewrite Hq.
  rewrite (to_long_fits ((numSectors + spt - 1) `div` spt))
    by (unfold fits_long; lia).
  rewrite (to_long_fits (firstTrack + (numSectors + spt - 1) `div` spt))
    by (unfold fits_long; lia).
  apply to_int_fits. unfold fits_long. lia.
Qed.

(** X16.  A sub-image lies inside its parent, where the [long] arithmetic
    of [OpenImage] does not overflow.  On a parent whose blocks take less
    than 2 GiB ([fNumBlocks * 512] is at most 2147483647), for a range
    with [firstBlock + numBlocks] at most 2147483647: after [OpenImage] on
    the range the data of the new image starts [firstBlock*512] bytes into
    the parent's data and ends within the parent's [fNumBlocks] blocks.
    On a parent with a positive number of sectors per track whose sectors
    take less than 2 GiB, for [firstTrack + numSectors + sectors per track]
    at most 2147483647: after [OpenImage] on tracks the new image starts
    at the start of track [firstTrack] and ends within the parent's
    [fNumTracks] tracks.  Both share the bytes of the parent. *)
Theorem sub_image_inside_parent opens w this parentId parent w' :
  imgs w !! parentId = Some parent →
  (∀ firstBlock numBlocks,
     fits_long (fNumBlocks parent * kBlockSize) →
     firstBlock + numBlocks ≤ 2147483647 →
     OpenImage_blocks opens w this (Some parentId) firstBlock numBlocks
       = Some (kDIErrNone, w') →
     ∃ img' g pg,
       imgs w' !! this = Some img' ∧ fpDataGFD img' = Some g ∧
       fpDataGFD parent = Some pg ∧ gfd_file g = gfd_file pg ∧
       gfd_base g = gfd_base pg + firstBlock * kBlockSize ∧
       0 ≤ firstBlock * kBlockSize ∧ 0 < fLength img' ∧
       firstBlock * kBlockSize + fLength img'
         ≤ fNumBlocks parent * kBlockSize) ∧
  (∀ firstTrack firstSector numSectors,
     0 < fNumSectPerTrack parent →
     fits_long (fNumTracks parent * fNumSectPerTrack parent * kSectorSize) →
     firstTrack + numSectors + fNumSectPerTrack parent ≤ 2147483647 →
     OpenImage_sectors opens w this (Some parentId) firstTrack firstSector
       numSectors = Some (kDIErrNone, w') →
     ∃ img' g pg,
       imgs w' !! this = Some img' ∧ fpDataGFD img' = Some g ∧
       fpDataGFD parent = Some pg ∧ gfd_file g = gfd_file pg ∧
       gfd_base g
       = gfd_base pg + kSectorSize * firstTrack * fNumSectPerTrack parent ∧
       0 ≤ kSectorSize * firstTrack * fNumSectPerTrack parent ∧
       0 < fLength img' ∧
       kSectorSize * firstTrack * fNumSectPerTrack parent + fLength img'
         ≤ fNumTracks parent * fNumSectPerTrack parent * kSectorSize).
Proof.
  intros Hparent. split.
  - intros firstBlock numBlocks Hlong Hsum Hrun.
    apply OpenImage_blocks_done in Hrun
      as [[Hne _]
         | (img & parent' & _ & _ & Hp & H0 & Hn & Hfit
            & [(Hne & _) | (_ & pg & Hpg & ->)])];
      [congruence | congruence |].
    assert (parent' = parent) as -> by congruence.
    rewrite to_long_fits in Hfit by (unfold fits_long; lia).
    unfold fits_long, kBlockSize in *.
    eexists _, _, pg. split; [cbn [set_img imgs]; apply lookup_insert_eq|].
    split; [reflexivity|]. split; [exact Hpg|]. split; [reflexivity|].
    cbn [sub_image fpDataGFD set_fpParentImg set_fOrder set_fPhysical
         set_fFileFormat set_fOuterLength set_fWrappedLength set_fLength
         set_fpDataGFD GFDGFD_Open gfd_base].
    change (fLength (sub_image parentId parent pg (to_long (firstBlock * 512))
                       (to_long (numBlocks * 512)) img))
      with (to_long (numBlocks * 512)).
    rewrite !to_long_fits by (unfold fits_long; lia).
    split; [reflexivity|]. lia.
  - intros firstTrack firstSector numSectors Hspt Hlong Hsum Hrun.
    apply OpenImage_sectors_done in Hrun
      as [[Hne _]
         | (img & parent' & _ & _ & Hp & H0 & Hn & Hfit
            & [(Hne & _) | (_ & pg & Hpg & ->)])];
      [congruence | congruence |].
    assert (parent' = parent) as -> by congruence.
    rewrite last_track_exact in Hfit by lia.
    set (spt := fNumSectPerTrack parent) in *.
    set (q := (numSectors + spt - 1) `div` spt) in *.
    assert (Hcover : numSectors ≤ q * spt ∧ 0 ≤ q).
    { pose proof (Z.div_mod (numSectors + spt - 1) spt).
      pose proof (Z.mod_pos_bound (numSectors + spt - 1) spt).
      subst q. split; [lia|]. apply Z.div_pos; lia. }
    destruct Hcover as [Hcover Hq0].
    assert (Hall : (firstTrack + q) * spt ≤ fNumTracks parent * spt)
      by (apply Z.mul_le_mono_nonneg_r; lia).
    unfold fits_long, kSectorSize in *.
    assert (Hstart : to_long (to_long (256 * firstTrack) * spt)
                     = 256 * firstTrack * spt).
    { rewrite (to_long_fits (256 * firstTrack)) by (unfold fits_long; nia).
      apply to_long_fits. unfold fits_long. nia. }
    assert (Hlen : to_long (numSectors * 256) = numSectors * 256)
      by (apply to_long_fits; unfold fits_long; nia).
    eexists _, _, pg. split; [cbn [set_img imgs]; apply lookup_insert_eq|].
    split; [reflexivity|]. split; [exact Hpg|]. split; [reflexivity|].
    cbn [sub_image fpDataGFD set_fpParentImg set_fOrder set_fPhysical
         set_fFileFormat set_fOuterLength set_fWrappedLength set_fLength
         set_fpDataGFD GFDGFD_Open gfd_base].
    change (fLength (sub_image parentId parent pg
                       (to_long (to_long (256 * firstTrack) * spt))
                       (to_long (numSectors * 256)) img))
      with (to_long (numSectors * 256)).
    rewrite Hstart, Hlen.
    split; [reflexivity|]. split; [nia|]. split; [lia|]. nia.
Qed.

Lemma sub_image_inside_parent_witness :
  ∃ img' g pg,
    imgs world_child !! 1%nat = Some img' ∧ fpDataGFD img' = Some g ∧
    fpDataGFD img_po2 = Some pg ∧ gfd_file g = gfd_file pg ∧
    gfd_base g = gfd_base pg + 1 * kBlockSize ∧
    0 ≤ 1 * kBlockSize ∧ 0 < fLength img' ∧
    1 * kBlockSize + fLength img' ≤ fNumBlocks img_po2 * kBlockSize.
Proof.
  destruct (sub_image_inside_parent always_opens world0 1%nat 0%nat img_po2
              world_child)
    as [Hblocks _]; [reflexivity|].
  apply (Hblocks 1 1);
    [vm_compute; split; discriminate | vm_compute; discriminate
    | exact world_child_opened].
Defined.

(** X17.  What an [OpenImage] on a parent that fails leaves behind.  When
    a check of the function fails (the image is open, the parent is nil,
    the range is not in the parent), the DiskImg objects and the bytes are
    as before.  When the checks pass and GFDGFD::Open refuses, its error
    is returned and the read-only flag of the image, assigned before the
    call, is the parent's; nothing else is changed. *)
Theorem failed_sub_image_open_trace opens w this pParent dierr w' :
  dierr ≠ kDIErrNone →
  (∃ firstBlock numBlocks,
     OpenImage_blocks opens w this pParent firstBlock numBlocks
       = Some (dierr, w'))
  ∨ (∃ firstTrack firstSector numSectors,
       OpenImage_sectors opens w this pParent firstTrack firstSector
         numSectors = Some (dierr, w')) →
  w' = w
  ∨ ∃ parentId img parent start,
      pParent = Some parentId ∧
      imgs w !! this = Some img ∧ fpDataGFD img = None ∧
      imgs w !! parentId = Some parent ∧
      dierr = opens (fpDataGFD parent) start (fReadOnly parent) ∧
      w' = set_img this (set_fReadOnly (fReadOnly parent) img) w.
Proof.
  intros Hne [(a & b & Hrun) | (a & b & c & Hrun)].
  - destruct pParent as [parentId|].
    + apply OpenImage_blocks_done in Hrun
        as [[_ ->]
           | (img & parent & Himg & Hclosed & Hp & _ & _ & _
              & [(_ & Herr & ->) | (-> & _)])];
        [left; reflexivity | | contradiction].
      right. exists parentId, img, parent. eauto 10.
    + left. unfold OpenImage_blocks in Hrun.
      destruct (imgs w !! this) as [img|]; [|discriminate].
      cbn [mbind option_bind] in Hrun.
      destruct (fpDataGFD img); injection Hrun as _ <-; reflexivity.
  - destruct pParent as [parentId|].
    + apply OpenImage_sectors_done in Hrun
        as [[_ ->]
           | (img & parent & Himg & Hclosed & Hp & _ & _ & _
              & [(_ & Herr & ->) | (-> & _)])];
        [left; reflexivity | | contradiction].
      right. exists parentId, img, parent. eauto 10.
    + left. unfold OpenImage_sectors in Hrun.
      destruct (imgs w !! this) as [img|]; [|discriminate].
      cbn [mbind option_bind] in Hrun.
      destruct (fpDataGFD img); injection Hrun as _ <-; reflexivity.
Qed.

(** A GFDGFD::Open that refuses what it is given. *)
Lemma failed_sub_image_open_trace_witness :
  ∃ img,
    imgs world0 !! 1%nat = Some img ∧
    OpenImage_blocks (λ _ _ _, kDIErrAccessDenied) world0 1%nat (Some 0%nat)
      1 1
    = Some (kDIErrAccessDenied,
            set_img 1%nat (set_fReadOnly (fReadOnly img_po2) img) world0).
Proof.
  destruct (OpenImage_blocks (λ _ _ _, kDIErrAccessDenied) world0 1%nat
              (Some 0%nat) 1 1) as [[dierr w']|] eqn:Hrun;
    [|vm_compute in Hrun; discriminate Hrun].
  assert (Herr : dierr = kDIErrAccessDenied)
    by (vm_compute in Hrun; injection Hrun as <- _; reflexivity).
  subst dierr.
  destruct (failed_sub_image_open_trace (λ _ _ _, kDIErrAccessDenied) world0
              1%nat (Some 0%nat) kDIErrAccessDenied w')
    as [-> | (parentId & img & parent & start & Hp & Himg & _ & Hparent & _
              & ->)];
    [discriminate | left; exists 1, 1; exact Hrun | |].
  - vm_compute in Hrun. discriminate Hrun.
  - injection Hp as <-.
    assert (parent = img_po2) as ->
      by (vm_compute in Hparent; injection Hparent as <-; reflexivity).
    exists img. split; [exact Himg | reflexivity].
Defined.

(** ** Geometry *)

(** [AnalyzeImage] on a fresh image in sector format, sector pairing off:
    the geometry by the length of the data. *)
Lemma AnalyzeImage_sector_image nib test fs img :
  is_Some (fpDataGFD img) →
  IsSectorFormat (fPhysical img) = true →
  fSectorPairing img = false →
  fHasSectors img = false →
  AnalyzeImage nib test fs img
  = if fLength img =? 0 then Some (kDIErrOddLength, img, [])
    else if fLength img =? kD13Length then
      let '(img', called) :=
        AnalyzeImageFS test fs
          (set_fNumTracks kTrackCount525
             (set_fNumSectPerTrack 13 (set_fHasSectors true img))) in
      Some (kDIErrNone, img', called)
    else if Z.rem (fLength img) (16 * kSectorSize) =? 0 then
      let '(img', called) :=
        AnalyzeImageFS test fs
          (set_fNumBlocks
             (Z.quot (Z.quot (fLength img) (16 * kSectorSize) * 16) 2)
             (set_fHasBlocks true
                (set_fNumTracks (Z.quot (fLength img) (16 * kSectorSize))
                   (set_fNumSectPerTrack 16 (set_fHasSectors true img))))) in
      Some (kDIErrNone, img', called)
    else if Z.rem (fLength img) kBlockSize =? 0 then
      let '(img', called) :=
        AnalyzeImageFS test fs
          (set_fNumBlocks (Z.quot (fLength img) kBlockSize)
             (set_fHasBlocks true img)) in
      Some (kDIErrNone, img', called)
    else
      Some (kDIErrGeneric,
            set_fNumBlocks (Z.quot (fLength img) kBlockSize)
              (set_fHasBlocks true img), []).
Proof.
  intros [g Hg] Hsector Hpair Hsec. destruct img. cbn in Hg, Hsector, Hpair, Hsec.
  subst. unfold AnalyzeImage, AnalyzeImage_geometry. cbn [fpDataGFD fPhysical].
  rewrite Hsector. cbn [fLength].
  destruct (fLength0 =? 0); [reflexivity|].
  destruct (fLength0 =? kD13Length); [reflexivity|].
  destruct (Z.rem fLength0 (16 * kSectorSize) =? 0); [reflexivity|].
  cbn. destruct (Z.rem fLength0 kBlockSize =? 0); reflexivity.
Qed.

(** The probes write to the order and the format of the image only. *)
Lemma first_success_shape test fs order img :
  ∃ o f, (first_success test fs order img).2 = set_fFormat f (set_fOrder o img).
Proof.
  revert img. induction order as [|p rest IH]; intros img.
  - exists (fOrder img), (fFormat img). destruct img. reflexivity.
  - cbn [first_success]. unfold probe_image.
    destruct (test p fs img (fOrder img) (fFormat img) kLeniencyNot)
      as [[dierr o] f].
    destruct (is_ok dierr); [exists o, f; reflexivity|].
    destruct (IH (set_fFormat f (set_fOrder o img))) as (o' & f' & Heq).
    destruct (first_success test fs rest (set_fFormat f (set_fOrder o img)))
      as [[called winner] img1].
    cbn [snd] in Heq |- *. exists o', f'. rewrite Heq.
    destruct img. reflexivity.
Qed.

(** [AnalyzeImageFS] sets the order and the format, in the wide cases the
    geometry of 32 sectors, and then the filesystem order. *)
Lemma AnalyzeImageFS_shape test fs img :
  ∃ o f (wide : bool),
    (AnalyzeImageFS test fs img).1
    = (let img2 := (if wide then widen else id)
                     (set_fFormat f (set_fOrder o img)) in
       set_fFileSysOrder (CalcFSSectorOrder img2) img2).
Proof.
  rewrite AnalyzeImageFS_first_success.
  destruct (first_success_shape test fs probe_order img) as (o & f & Heq).
  destruct (first_success test fs probe_order img) as [[called winner] img1].
  cbn [snd] in Heq. subst img1. cbn [fst].
  assert (Hformat : ∀ f',
            set_fFormat f' (set_fFormat f (set_fOrder o img))
            = set_fFormat f' (set_fOrder o img))
    by (intros f'; destruct img; reflexivity).
  destruct winner as [[]|]; cbn [after_probe];
    try (exists o, f, false; reflexivity);
    try (exists o, f, true; reflexivity).
  - destruct (fNumSectPerTrack (set_fFormat f (set_fOrder o img)) =? 13).
    + exists o, kFormatDOS32, false. rewrite Hformat. reflexivity.
    + exists o, f, false. reflexivity.
  - exists o, kFormatUnknown, false. rewrite Hformat. reflexivity.
Qed.

(** X18.  Which lengths [AnalyzeImage] takes: for a fresh image in sector
    format with sector pairing off, the analysis returns no error exactly
    when the length of the data is not zero and is either that of a
    13-sector disk (35*13*256) or a multiple of 512; a zero length gives
    OddLength, any other length Generic. *)
Theorem AnalyzeImage_accepts_lengths nib test fs img :
  is_Some (fpDataGFD img) →
  IsSectorFormat (fPhysical img) = true →
  fSectorPairing img = false →
  fHasSectors img = false →
  ∃ dierr img' called,
    AnalyzeImage nib test fs img = Some (dierr, img', called) ∧
    (dierr = kDIErrNone ↔
       fLength img ≠ 0 ∧
       (fLength img = kD13Length ∨ Z.rem (fLength img) kBlockSize = 0)) ∧
    (dierr ≠ kDIErrNone →
       dierr = if fLength img =? 0 then kDIErrOddLength else kDIErrGeneric).
Proof.
  intros Hg Hsector Hpair Hsec.
  rewrite AnalyzeImage_sector_image by assumption.
  destruct (Z.eqb_spec (fLength img) 0) as [H0 | H0].
  { do 3 eexists. split; [reflexivity|]. split; [|reflexivity].
    split; [discriminate | intros [Hne _]; contradiction]. }
  destruct (Z.eqb_spec (fLength img) kD13Length) as [H13 | H13].
  { destruct (AnalyzeImageFS test fs _) as [img' called].
    do 3 eexists. split; [reflexivity|]. split; [|congruence]. tauto. }
  destruct (Z.eqb_spec (Z.rem (fLength img) (16 * kSectorSize)) 0)
    as [H16 | H16].
  { destruct (AnalyzeImageFS test fs _) as [img' called].
    do 3 eexists. split; [reflexivity|]. split; [|congruence].
    split; [|reflexivity]. intros _. split; [exact H0|]. right.
    unfold kSectorSize, kBlockSize in *. change (16 * 256) with 4096 in H16.
    pose proof (Z.quot_rem' (fLength img) 4096) as Hq.
    rewrite H16, Z.add_0_r in Hq. rewrite Hq.
    replace (4096 * Z.quot (fLength img) 4096)
      with (Z.quot (fLength img) 4096 * 8 * 512) by lia.
    apply Z.rem_mul. discriminate. }
  destruct (Z.eqb_spec (Z.rem (fLength img) kBlockSize) 0) as [H512 | H512].
  { destruct (AnalyzeImageFS test fs _) as [img' called].
    do 3 eexists. split; [reflexivity|]. split; [|congruence]. tauto. }
  do 3 eexists. split; [reflexivity|]. split; [|reflexivity].
  split; [discriminate | intros [_ [? | ?]]; contradiction].
Qed.

Lemma AnalyzeImage_accepts_lengths_witness :
  ∃ dierr img' called,
    AnalyzeImage no_nibbles no_filesystem d13_files img_d13_file
      = Some (dierr, img', called) ∧
    dierr = kDIErrNone.
Proof.
  destruct (AnalyzeImage_accepts_lengths no_nibbles no_filesystem d13_files
              img_d13_file)
    as (dierr & img' & called & Hrun & Hiff & _);
    [eexists; reflexivity | reflexivity | reflexivity | reflexivity |].
  exists dierr, img', called. split; [exact Hrun|].
  apply Hiff. split; [discriminate | left; reflexivity].
Defined.

(** What [AnalyzeImageFS] leaves alone, and what it does to the
    geometry. *)
Lemma AnalyzeImageFS_keeps test fs g :
  let img' := (AnalyzeImageFS test fs g).1 in
  fLength img' = fLength g ∧ fSectorPairing img' = fSectorPairing g ∧
  fHasSectors img' = fHasSectors g ∧ fHasBlocks img' = fHasBlocks g ∧
  fNumBlocks img' = fNumBlocks g ∧ fPhysical img' = fPhysical g ∧
  fReadOnly img' = fReadOnly g ∧ fNotes img' = fNotes g ∧
  fpDataGFD img' = fpDataGFD g ∧
  ((fNumSectPerTrack img' = fNumSectPerTrack g ∧
    fNumTracks img' = fNumTracks g)
   ∨ (fNumSectPerTrack img' = 32 ∧
      fNumTracks img' = Z.quot (fNumTracks g) 2)).
Proof.
  destruct (AnalyzeImageFS_shape test fs g) as (o & f & wide & Heq).
  cbv zeta. rewrite Heq. destruct g, wide; cbn; repeat split; auto.
Qed.

(** X19.  The geometry fits the data: after an [AnalyzeImage] without
    error of a fresh image in sector format (sector pairing off) whose
    length is not negative and less than 2 GiB (at most 2147483647, so
    that the [long] products of [CalcSectorAndOffset] are exact), the
    blocks, if the image has blocks, are exactly the data
    ([fNumBlocks * 512 = fLength]), and every address that
    [CalcSectorAndOffset] answers lies inside the data (the
    [assert(offset+kSectorSize <= fLength)] of the sector calls), unless a
    13-sector image was taken for a wide one. *)
Theorem AnalyzeImage_geometry_fits nib test fs img img' called :
  IsSectorFormat (fPhysical img) = true →
  fSectorPairing img = false →
  fHasSectors img = false →
  fHasBlocks img = false →
  0 ≤ fLength img ≤ 2147483647 →
  AnalyzeImage nib test fs img = Some (kDIErrNone, img', called) →
  fLength img' = fLength img ∧
  (fHasBlocks img' = true → fNumBlocks img' * kBlockSize = fLength img') ∧
  (fLength img ≠ kD13Length ∨ fNumSectPerTrack img' = 13 →
   ∀ track sector imageOrder fsOrder offset newSector,
     CalcSectorAndOffset img' track sector imageOrder fsOrder
       = Some (Ok (offset, newSector)) →
     0 ≤ offset ∧ offset + kSectorSize ≤ fLength img').
Proof.
  intros Hsector Hpair Hsec Hblk Hlen Hrun.
  assert (Hg : is_Some (fpDataGFD img)).
  { unfold AnalyzeImage in Hrun. destruct (fpDataGFD img); [eauto|].
    discriminate. }
  rewrite AnalyzeImage_sector_image in Hrun by assumption.
  assert (Hbounds : ∀ g : DiskImg,
    fSectorPairing g = false →
    fNumSectPerTrack g = 13 ∨ fNumSectPerTrack g = 16
      ∨ fNumSectPerTrack g = 32 →
    fNumTracks g * fNumSectPerTrack g * 256 ≤ fLength g →
    fLength g ≤ 2147483647 →
    ∀ track sector imageOrder fsOrder offset newSector,
      CalcSectorAndOffset g track sector imageOrder fsOrder
        = Some (Ok (offset, newSector)) →
      0 ≤ offset ∧ offset + kSectorSize ≤ fLength g).
  { intros g Hp Hn Hfit Hsmall track sector imageOrder fsOrder offset
      newSector Hc.
    destruct (CalcSectorAndOffset_slot _ _ _ _ _ _ _ Hp Hn Hc)
      as (Ht & Hs & slot & Hslot & -> & _ & _).
    rewrite track_start_in_image
      by (try assumption; unfold fits_long, kSectorSize;
          destruct Hn as [E | [E | E]]; rewrite E in *; lia).
    unfold kSectorSize.
    destruct Hn as [E | [E | E]]; rewrite E in *; lia. }
  destruct (Z.eqb_spec (fLength img) 0) as [H0 | H0]; [discriminate|].
  destruct (Z.eqb_spec (fLength img) kD13Length) as [H13 | H13].
  { set (g := set_fNumTracks kTrackCount525 _) in Hrun.
    pose proof (AnalyzeImageFS_keeps test fs g) as K.
    destruct (AnalyzeImageFS test fs g) as [img2 called2].
    cbn [fst] in K. injection Hrun as <- <-.
    destruct K as (Klen & Kpair & Ksec & Kblk & Knum & _ & _ & _ & _ & Kgeo).
    assert (Hfacts : fLength g = fLength img ∧ fSectorPairing g = false
                     ∧ fHasBlocks g = false ∧ fNumSectPerTrack g = 13
                     ∧ fNumTracks g = 35)
      by (subst g; destruct img; cbn in Hpair, Hblk |- *; subst;
          repeat split).
    destruct Hfacts as (Glen & Gpair & Gblk & Gspt & Gtracks).
    split; [congruence|]. split; [congruence|].
    intros [Hne | Hstay]; [contradiction|].
    destruct Kgeo as [[Kspt Ktracks] | [Kspt _]]; [|congruence].
    apply Hbounds; [congruence | left; congruence | | lia].
    rewrite Kspt, Ktracks, Gspt, Gtracks, Klen, Glen, H13. reflexivity. }
  destruct (Z.eqb_spec (Z.rem (fLength img) (16 * kSectorSize)) 0)
    as [H16 | H16].
  { set (g := set_fNumBlocks _ _) in Hrun.
    pose proof (AnalyzeImageFS_keeps test fs g) as K.
    destruct (AnalyzeImageFS test fs g) as [img2 called2].
    cbn [fst] in K. injection Hrun as <- <-.
    destruct K as (Klen & Kpair & Ksec & Kblk & Knum & _ & _ & _ & _ & Kgeo).
    unfold kSectorSize, kBlockSize in *. change (16 * 256) with 4096 in *.
    assert (Hfacts : fLength g = fLength img ∧ fSectorPairing g = false
                     ∧ fNumSectPerTrack g = 16
                     ∧ fNumTracks g = Z.quot (fLength img) 4096
                     ∧ fNumBlocks g
                       = Z.quot (Z.quot (fLength img) 4096 * 16) 2)
      by (subst g; destruct img; cbn in Hpair |- *; subst; repeat split).
    destruct Hfacts as (Glen & Gpair & Gspt & Gtracks & Gnum).
    pose proof (Z.quot_rem' (fLength img) 4096) as Hq.
    rewrite H16, Z.add_0_r in Hq.
    assert (Hpos : 0 ≤ Z.quot (fLength img) 4096) by (apply Z.quot_pos; lia).
    set (tracks := Z.quot (fLength img) 4096) in *.
    assert (Hhalf : Z.quot (tracks * 16) 2 = tracks * 8)
      by (replace (tracks * 16) with (tracks * 8 * 2) by lia;
          apply Z.quot_mul; discriminate).
    split; [congruence|]. split; [intros _; lia|]. intros _.
    destruct Kgeo as [[Kspt Ktracks] | [Kspt Ktracks]].
    - apply Hbounds; [congruence | right; left; congruence | lia | lia].
    - apply Hbounds; [congruence | right; right; exact Kspt | | lia].
      pose proof (Z.quot_rem' tracks 2) as Hw.
      assert (0 ≤ Z.rem tracks 2) by (apply Z.rem_nonneg; lia).
      rewrite Kspt, Ktracks, Gtracks, Klen, Glen. lia. }
  destruct (Z.eqb_spec (Z.rem (fLength img) kBlockSize) 0) as [H512 | H512];
    [|discriminate].
  set (g := set_fNumBlocks _ _) in Hrun.
  pose proof (AnalyzeImageFS_keeps test fs g) as K.
  destruct (AnalyzeImageFS test fs g) as [img2 called2].
  cbn [fst] in K. injection Hrun as <- <-.
  destruct K as (Klen & Kpair & Ksec & Kblk & Knum & _ & _ & _ & _ & Kgeo).
  unfold kBlockSize in *.
  assert (Hfacts : fLength g = fLength img ∧ fHasSectors g = false
                   ∧ fNumBlocks g = Z.quot (fLength img) 512)
    by (subst g; destruct img; cbn in Hsec |- *; subst; repeat split).
  destruct Hfacts as (Glen & Gsec & Gnum).
  pose proof (Z.quot_rem' (fLength img) 512) as Hq.
  rewrite H512, Z.add_0_r in Hq.
  split; [congruence|]. split; [intros _; lia|].
  intros _ track sector imageOrder fsOrder offset newSector Hc.
  apply CalcSectorAndOffset_Ok in Hc as [Hyes _]. congruence.
Qed.

Lemma AnalyzeImage_geometry_fits_witness :
  fLength img_dc42 = fLength img_dc42_opened ∧
  (fHasBlocks img_dc42 = true →
   fNumBlocks img_dc42 * kBlockSize = fLength img_dc42) ∧
  (fLength img_dc42_opened ≠ kD13Length ∨ fNumSectPerTrack img_dc42 = 13 →
   ∀ track sector imageOrder fsOrder offset newSector,
     CalcSectorAndOffset img_dc42 track sector imageOrder fsOrder
       = Some (Ok (offset, newSector)) →
     0 ≤ offset ∧ offset + kSectorSize ≤ fLength img_dc42).
Proof.
  apply (AnalyzeImage_geometry_fits no_nibbles no_filesystem dc42_files
           img_dc42_opened img_dc42 probe_order);
    try (vm_compute; reflexivity).
  vm_compute. split; discriminate.
Defined.

(** ** Filesystem analysis *)

(** X20.  [AnalyzeImageFS] decides the format and nothing else: the image
    it leaves differs from the image it was given in the order, the format
    and the filesystem order only, and in the two numbers of the geometry,
    which are either as before or those of the wide layout (32 sectors
    per track, half the tracks); the filesystem order it leaves is the one
    [CalcFSSectorOrder] computes from the format and order it leaves. *)
Theorem AnalyzeImageFS_decides_format_only test fs img :
  let img' := (AnalyzeImageFS test fs img).1 in
  fFileSysOrder img' = CalcFSSectorOrder img' ∧
  img' = set_fFileSysOrder (fFileSysOrder img')
           (set_fNumTracks (fNumTracks img')
              (set_fNumSectPerTrack (fNumSectPerTrack img')
                 (set_fFormat (fFormat img')
                    (set_fOrder (fOrder img') img)))) ∧
  ((fNumSectPerTrack img' = fNumSectPerTrack img ∧
    fNumTracks img' = fNumTracks img)
   ∨ (fNumSectPerTrack img' = 32 ∧
      fNumTracks img' = Z.quot (fNumTracks img) 2)).
Proof.
  destruct (AnalyzeImageFS_shape test fs img) as (o & f & wide & Heq).
  cbv zeta. rewrite Heq. destruct img, wide; cbn; repeat split; auto.
Qed.

(** X21.  Without a filesystem nothing is swapped: when none of the
    probes that [AnalyzeImageFS] calls on the image succeeds (each is
    called on the image as the probes before it left it),
    [AnalyzeImageFS] leaves the format Unknown and the filesystem order
    equal to the image order, so that an image in sector format with
    blocks is read and written as linear blocks. *)
Theorem unknown_filesystem_reads_linear test fs img :
  (first_success test fs probe_order img).1.2 = None →
  let img' := (AnalyzeImageFS test fs img).1 in
  fFormat img' = kFormatUnknown ∧
  fFileSysOrder img' = fOrder img' ∧
  IsLinearBlocks img' (fOrder img') (fFileSysOrder img')
  = IsSectorFormat (fPhysical img) && fHasBlocks img.
Proof.
  intros Hnone. cbv zeta. rewrite AnalyzeImageFS_first_success.
  destruct (first_success_shape test fs probe_order img) as (o & f & Heq).
  destruct (first_success test fs probe_order img) as [[called winner] img1].
  cbn [fst snd] in Hnone, Heq. subst winner img1. cbn [after_probe fst].
  unfold IsLinearBlocks. destruct img. cbn.
  split; [reflexivity|]. split; [reflexivity|].
  rewrite bool_decide_eq_true_2 by reflexivity. apply andb_true_r.
Qed.

Lemma unknown_filesystem_reads_linear_witness :
  fFormat (AnalyzeImageFS no_filesystem two_block_files img_po2).1
    = kFormatUnknown ∧
  IsLinearBlocks (AnalyzeImageFS no_filesystem two_block_files img_po2).1
    (fOrder (AnalyzeImageFS no_filesystem two_block_files img_po2).1)
    (fFileSysOrder (AnalyzeImageFS no_filesystem two_block_files img_po2).1)
  = true.
Proof.
  destruct (unknown_filesystem_reads_linear no_filesystem two_block_files
              img_po2) as (Hformat & _ & Hlinear);
    [vm_compute; reflexivity|].
  split; [exact Hformat|]. rewrite Hlinear. reflexivity.
Defined.

(** ** Nibble images *)

(** X22.  Sectors whose data checksum is not verified are not written:
    when [AnalyzeImage] finds, on an image in a nibble format, a
    descriptor that does not verify the data checksum, the image it
    leaves is read-only, and if the image was writable a note says so. *)
Theorem unverified_checksum_disables_writes nib test fs img img1 descr img'
    called :
  is_Some (fpDataGFD img) →
  IsNibbleFormat (fPhysical img) = true →
  AnalyzeNibbleData nib fs (set_fHasSectors true (set_fHasNibbles true img))
    = (kDIErrNone, img1) →
  fpNibbleDescr img1 = Some descr →
  dataVerifyChecksum descr = false →
  AnalyzeImage nib test fs img = Some (kDIErrNone, img', called) →
  fReadOnly img' = true ∧
  (fReadOnly img1 = false →
   GetNotes img'
   = GetNotes img1
     +:+ "- Sectors use non-standard data checksums; writing disabled."
     +:+ newline).
Proof.
  intros [g Hg] Hnib Hscan Hdescr Hverify Hrun.
  unfold AnalyzeImage in Hrun. rewrite Hg in Hrun.
  unfold AnalyzeImage_geometry in Hrun.
  assert (Hnot : IsSectorFormat (fPhysical img) = false)
    by (destruct (fPhysical img); (reflexivity || discriminate)).
  rewrite Hnot, Hnib, Hscan in Hrun. cbn [is_ok] in Hrun.
  rewrite Hdescr in Hrun. cbn [mbind option_bind] in Hrun.
  rewrite Hverify in Hrun. cbn [negb] in Hrun. rewrite andb_true_r in Hrun.
  set (base := set_fOrder kSectorOrderPhysical
                 (set_fNumSectPerTrack (numSectors descr) img1)) in Hrun.
  assert (Hbase : fReadOnly base = fReadOnly img1 ∧ fNotes base = fNotes img1)
    by (subst base; destruct img1; split; reflexivity).
  destruct Hbase as [Hro Hnotes].
  set (noted := AddNote kNoteInfo
                  "Sectors use non-standard data checksums; writing disabled."
                  base) in Hrun.
  set (result := if negb (fReadOnly base)
                 then Some (kDIErrNone, set_fReadOnly true noted)
                 else Some (kDIErrNone, base)) in Hrun.
  assert (Hresult : ∃ geo,
    result = Some (kDIErrNone, geo) ∧ fReadOnly geo = true ∧
    (fReadOnly img1 = false →
     GetNotes geo
     = GetNotes img1
       +:+ "- Sectors use non-standard data checksums; writing disabled."
       +:+ newline)).
  { subst result. destruct (fReadOnly base) eqn:Hbro; cbn [negb].
    - exists base. split; [reflexivity|]. split; [exact Hbro|]. congruence.
    - exists (set_fReadOnly true noted). split; [reflexivity|].
      split; [reflexivity|]. intros _.
      change (GetNotes (set_fReadOnly true noted)) with (GetNotes noted).
      subst noted. unfold GetNotes, AddNote.
      match goal with
      | |- context [if ?c then ?a else ?b] =>
          assert (Hbuf : (if c then a else b)
            = ("- Sectors use non-standard data checksums; writing disabled."
               +:+ newline)%string) by (vm_compute; reflexivity)
      end.
      rewrite Hbuf. rewrite <- Hnotes.
      destruct (fNotes base) as [notes|] eqn:Hn.
      + change (fNotes (set_fNotes ?v base)) with v. reflexivity.
      + change (fNotes (set_fNotes ?v base)) with v. reflexivity. }
  destruct Hresult as (geo & -> & Hgro & Hgnotes).
  cbn [mbind option_bind is_ok negb] in Hrun.
  destruct (AnalyzeImage_blocks geo) as [dierr blocks] eqn:Hblocks.
  assert (Hkeep : fReadOnly blocks = fReadOnly geo ∧ fNotes blocks = fNotes geo).
  { unfold AnalyzeImage_blocks in Hblocks.
    repeat match type of Hblocks with
           | context [if ?c then _ else _] => destruct c
           end;
      injection Hblocks as _ <-; destruct geo; split; reflexivity. }
  destruct (is_ok dierr) eqn:Hok; cbn [negb] in Hrun;
    [|injection Hrun as -> _ _; discriminate Hok].
  pose proof (AnalyzeImageFS_keeps test fs blocks) as K.
  destruct (AnalyzeImageFS test fs blocks) as [final called'].
  cbn [fst] in K. injection Hrun as <- <-.
  destruct K as (_ & _ & _ & _ & _ & _ & Kro & Knotes & _).
  destruct Hkeep as [Hbro Hbnotes].
  split; [congruence|]. intros Hw. unfold GetNotes in *.
  rewrite Knotes, Hbnotes. apply Hgnotes. exact Hw.
Qed.

Lemma unverified_checksum_disables_writes_witness :
  ∃ img' called,
    AnalyzeImage unverified_nibbles no_filesystem nib_files img_nib_file
      = Some (kDIErrNone, img', called) ∧
    fReadOnly img' = true ∧
    GetNotes img'
    = ("- Sectors use non-standard data checksums; writing disabled."
       +:+ newline)%string.
Proof.
  destruct (AnalyzeImage unverified_nibbles no_filesystem nib_files
              img_nib_file) as [[[dierr img'] called]|] eqn:Hrun;
    [|vm_compute in Hrun; discriminate Hrun].
  assert (dierr = kDIErrNone) as ->
    by (vm_compute in Hrun; injection Hrun as <- _ _; reflexivity).
  exists img', called. split; [reflexivity|].
  apply (unverified_checksum_disables_writes unverified_nibbles no_filesystem
           nib_files img_nib_file
           (set_fNumTracks 35
              (set_fpNibbleDescr (Some descr_unverified)
                 (set_fHasSectors true (set_fHasNibbles true img_nib_file))))
           descr_unverified img' called) in Hrun as [Hro Hnote];
    [ | eexists; reflexivity | reflexivity | reflexivity | reflexivity
      | reflexivity ].
  split; [exact Hro|]. apply Hnote. reflexivity.
Defined.

(** ** Overriding the format *)

(** The end of [OverrideFormat], after the probe. *)
Lemma override_tail img format order d o (called : list FSProbe) :
  let '(dierr, img', called') :=
    (if negb (is_ok d) then (d, img, called)
     else if negb (bool_decide (o = order))
     then (kDIErrBadOrdering, img, called)
     else
       let img := set_fOrder o (set_fFormat format img) in
       (kDIErrNone, set_fFileSysOrder (CalcFSSectorOrder img) img, called))
  in
  called' = called ∧
  if is_ok dierr
  then fFormat img' = format ∧ fOrder img' = order ∧
       fPhysical img' = fPhysical img ∧
       fFileSysOrder img' = CalcFSSectorOrder img' ∧
       img' = set_fFileSysOrder (fFileSysOrder img')
                (set_fOrder order (set_fFormat format img))
  else img' = img.
Proof.
  destruct (is_ok d) eqn:Hd; cbn [negb].
  - destruct (bool_decide (o = order)) eqn:Ho; cbn [negb is_ok].
    + apply bool_decide_eq_true_1 in Ho. subst o.
      split; [reflexivity|]. destruct img; repeat apply conj; reflexivity.
    + split; reflexivity.
  - rewrite Hd. split; reflexivity.
Qed.

(** X23.  [OverrideFormat] is all or nothing.  When it answers an error the
    image is as it was.  When it answers no error the image has the
    requested format and order and its own physical format, the filesystem
    order is the one [CalcFSSectorOrder] gives (or nothing was to be done
    and the image is as it was), and no other field has changed.  At most
    one probe runs, the one that belongs to the requested format. *)
Theorem OverrideFormat_all_or_nothing test fs img physical format order :
  let '(dierr, img', called) :=
    OverrideFormat test fs img physical format order in
  (length called ≤ 1)%nat ∧
  (∀ p, p ∈ called → override_probe format = Some (Some p)) ∧
  if is_ok dierr
  then fFormat img' = format ∧ fOrder img' = order ∧
       fPhysical img' = physical ∧
       (img' = img ∨ fFileSysOrder img' = CalcFSSectorOrder img') ∧
       img' = set_fFileSysOrder (fFileSysOrder img')
                (set_fOrder order (set_fFormat format img))
  else img' = img.
Proof.
  unfold OverrideFormat.
  destruct (negb (IsSectorFormat physical) && negb (IsNibbleFormat physical)).
  { cbn. split; [lia|]. split; [intros p Hp; inversion Hp|reflexivity]. }
  destruct (bool_decide (physical = fPhysical img)) eqn:Hphys; cbn [negb];
    [ apply bool_decide_eq_true_1 in Hphys
    | cbn; split; [lia|]; split; [intros p Hp; inversion Hp|reflexivity] ].
  cbn [andb].
  destruct (bool_decide (format = fFormat img) && bool_decide (order = fOrder img))
    eqn:Hsame.
  { apply andb_true_iff in Hsame as [Hformat Horder].
    apply bool_decide_eq_true_1 in Hformat, Horder.
    cbn [is_ok length]. split; [lia|].
    split; [intros p Hp; inversion Hp|]. subst.
    destruct img; repeat apply conj; auto. }
  assert (Htail : ∀ d o called,
    (length called ≤ 1)%nat →
    (∀ p, p ∈ called → override_probe format = Some (Some p)) →
    let '(dierr, img', called') :=
      (if negb (is_ok d) then (d, img, called)
       else if negb (bool_decide (o = order))
       then (kDIErrBadOrdering, img, called)
       else
         let img := set_fOrder o (set_fFormat format img) in
         (kDIErrNone, set_fFileSysOrder (CalcFSSectorOrder img) img, called))
    in
    (length called' ≤ 1)%nat ∧
    (∀ p, p ∈ called' → override_probe format = Some (Some p)) ∧
    if is_ok dierr
    then fFormat img' = format ∧ fOrder img' = order ∧
         fPhysical img' = physical ∧
         (img' = img ∨ fFileSysOrder img' = CalcFSSectorOrder img') ∧
         img' = set_fFileSysOrder (fFileSysOrder img')
                  (set_fOrder order (set_fFormat format img))
    else img' = img).
  { intros d o called Hlen Hcalled.
    pose proof (override_tail img format order d o called) as T.
    destruct (if negb (is_ok d) then _ else _) as [[dierr img'] called'].
    destruct T as [-> T]. split; [exact Hlen|]. split; [exact Hcalled|].
    destruct (is_ok dierr); [|exact T].
    destruct T as (T1 & T2 & T3 & T4 & T5). rewrite Hphys.
    repeat apply conj; auto. }
  destruct (override_probe format) as [[p|]|] eqn:Hprobe.
  - destruct (test p fs img order format kLeniencyVery) as [[d o] f].
    assert (Hp : ∀ q, q ∈ [p] → Some (Some p) = Some (Some q))
      by (intros q Hq; apply list_elem_of_singleton in Hq; congruence).
    destruct (is_RDOS format && negb (bool_decide (f = format))).
    + apply (Htail kDIErrFilesystemNotFound o [p]); [cbn; lia|exact Hp].
    + apply (Htail d o [p]); [cbn; lia|exact Hp].
  - apply (Htail kDIErrNone order []); [cbn; lia|]. intros q Hq. inversion Hq.
  - apply (Htail kDIErrUnsupportedFSFmt order []); [cbn; lia|].
    intros q Hq. inversion Hq.
Qed.

(** ** Opening read-only *)

Lemma AddNote_keeps type fmt img :
  fReadOnly (AddNote type fmt img) = fReadOnly img ∧
  fpOuterWrapper (AddNote type fmt img) = fpOuterWrapper img ∧
  fFileFormat (AddNote type fmt img) = fFileFormat img.
Proof. unfold AddNote. destruct (fNotes img); repeat split. Qed.

Lemma load_read_only ops fs img g c ext need img1 fs1 ext1 :
  AnalyzeImageFile_load ops fs img g c ext need = (kDIErrNone, img1, fs1, ext1) →
  fReadOnly img1 = fReadOnly img || outer_damaged img1.
Proof.
  unfold AnalyzeImageFile_load, outer_damaged. cbv zeta.
  set (r := Outer_Load ops c fs g (fOuterLength img) (fReadOnly img)).
  destruct (is_ok (lo_err r)) eqn:Hok; cbn [negb].
  - intros [= <- _ _]. destruct (lo_damaged r).
    + transitivity true; [reflexivity|]. symmetry. apply orb_true_iff. right.
      unfold AddNote. destruct (fNotes _); reflexivity.
    + cbn. rewrite orb_false_r. reflexivity.
  - intros [= Herr _ _ _]. apply is_ok_false in Hok. contradiction.
Qed.

Lemma outer_read_only ops fs img g pathName fssep ext img1 fs1 ext1 calls :
  fpOuterWrapper img = None →
  AnalyzeImageFile_outer ops fs img g pathName fssep ext
    = (kDIErrNone, img1, fs1, ext1, calls) →
  fReadOnly img1 = fReadOnly img || outer_damaged img1.
Proof.
  intros Hnone. unfold AnalyzeImageFile_outer.
  assert (Hplain : fReadOnly (set_fOuterFormat kOuterFormatNone img)
                   = fReadOnly img
                     || outer_damaged (set_fOuterFormat kOuterFormatNone img)).
  { unfold outer_damaged.
    change (fpOuterWrapper (set_fOuterFormat kOuterFormatNone img))
      with (fpOuterWrapper img).
    rewrite Hnone. cbn. rewrite orb_false_r. reflexivity. }
  destruct (strcasecmp_eq ext "gz").
  - destruct (is_ok (Outer_Test ops OuterGzip fs g (fOuterLength img))).
    + destruct (AnalyzeImageFile_load _ _ _ _ _ _ _) as [[[d i] f] e] eqn:Hload.
      intros [= -> -> _ _ _]. apply load_read_only in Hload. exact Hload.
    + intros [= <- _ _ _]. exact Hplain.
  - destruct (strcasecmp_eq ext "zip").
    + cbv zeta.
      destruct (is_ok (Outer_Test ops OuterZip fs g (fOuterLength img))) eqn:Hok;
        cbn [negb].
      * destruct (AnalyzeImageFile_load _ _ _ _ _ _ _) as [[[d i] f] e] eqn:Hload.
        intros [= -> -> _ _ _]. apply load_read_only in Hload. exact Hload.
      * intros [= Herr _ _ _ _]. apply is_ok_false in Hok. contradiction.
    + intros [= <- _ _ _]. exact Hplain.
Qed.

Lemma byExtension_read_only ops fs img g ext :
  let img' := (AnalyzeImageFile_byExtension ops fs img g ext).1.2 in
  fReadOnly img' = fReadOnly img ∧ fpOuterWrapper img' = fpOuterWrapper img.
Proof.
  unfold AnalyzeImageFile_byExtension. cbv zeta.
  split_ifs; split; reflexivity.
Qed.

Lemma probe_read_only ops fs img g :
  let img' := (AnalyzeImageFile_probe ops fs img g).1.2 in
  fReadOnly img' = fReadOnly img ∧ fpOuterWrapper img' = fpOuterWrapper img.
Proof.
  unfold AnalyzeImageFile_probe, AnalyzeImageFile_guess. cbv zeta.
  split_ifs; split; reflexivity.
Qed.

Lemma note_damage_fpOuterWrapper fmt img :
  fpOuterWrapper (set_fFileFormat fmt (note_damage img)) = fpOuterWrapper img.
Proof. unfold note_damage, AddNote. destruct (fNotes img); reflexivity. Qed.

Lemma byExtension_bail ops fs img g ext d :
  (AnalyzeImageFile_byExtension ops fs img g ext).1.1.1.1 = Some d →
  d ≠ kDIErrNone.
Proof.
  unfold AnalyzeImageFile_byExtension. cbv zeta.
  repeat match goal with
         | |- context [if ?b then _ else _] => destruct b eqn:?
         end; cbn [fst snd]; try discriminate.
  intros [= <-].
  match goal with
  | H : bool_decide (_ = kDIErrFileArchive) = true |- _ =>
      apply bool_decide_eq_true_1 in H; rewrite H; discriminate
  end.
Qed.

Lemma probe_bail ops fs img g :
  (AnalyzeImageFile_probe ops fs img g).1.1.1.1 = true →
  (AnalyzeImageFile_probe ops fs img g).1.1.1.2 ≠ kDIErrNone.
Proof.
  unfold AnalyzeImageFile_probe. cbv zeta.
  destruct (AnalyzeImageFile_guess ops fs img g) as [[f i] more].
  repeat match goal with
         | |- context [if ?b then _ else _] => destruct b eqn:?
         end; cbn [fst snd]; try discriminate; intros _;
    match goal with
    | H : bool_decide (_ = _) = true |- _ =>
        apply bool_decide_eq_true_1 in H; rewrite H; discriminate
    end.
Qed.

Lemma prep_read_only ops fs img dierr0 fmt img' fs' calls :
  AnalyzeImageFile_prep ops fs img dierr0 fmt = (kDIErrNone, img', fs', calls) →
  fReadOnly img'
  = fReadOnly img || bool_decide (fFileFormat img' = kFileFormatFDI)
    || wrapper_damaged img' ∧
  fpOuterWrapper img' = fpOuterWrapper img.
Proof.
  unfold AnalyzeImageFile_prep.
  set (img1 := match fmt with kFileFormatFDI => set_fReadOnly true img
               | _ => img end).
  assert (H1 : fReadOnly img1
               = fReadOnly img || bool_decide (fmt = kFileFormatFDI)
               ∧ fpOuterWrapper img1 = fpOuterWrapper img).
  { subst img1. destruct fmt; cbn; rewrite ?orb_false_r, ?orb_true_r;
      split; reflexivity. }
  destruct H1 as [Hro Houter].
  destruct (wrapper_for fmt img1) as [c|].
  2:{ cbv zeta. destruct (is_ok (if in_wrapper_switch fmt then _ else _)) eqn:Hok.
      - discriminate.
      - intros [= Herr _ _ _]. apply is_ok_false in Hok. contradiction. }
  set (r := Wrapper_Prep ops c fs img1). cbv zeta.
  destruct (is_ok (pr_err r)) eqn:Hok; cbn [negb].
  2:{ intros [= Herr _ _ _]. apply is_ok_false in Hok. contradiction. }
  intros [= <- _ _]. unfold wrapper_damaged.
  assert (Hfmt : ∀ x, fFileFormat (set_fFileFormat fmt x) = fmt)
    by reflexivity.
  rewrite Hfmt.
  destruct (pr_damaged r) eqn:Hd.
  - destruct (note_damage_fields fmt (store_prep c r img1)) as (Hr & Hw & _).
    rewrite Hr, Hw, store_prep_fpImageWrapper. cbn [from_option iw_damaged].
    rewrite Hd, orb_true_r. split; [reflexivity|].
    rewrite note_damage_fpOuterWrapper. exact Houter.
  - change (fReadOnly (set_fFileFormat fmt (store_prep c r img1)))
      with (fReadOnly img1).
    change (fpImageWrapper (set_fFileFormat fmt (store_prep c r img1)))
      with (Some (mkImageWrapper c (pr_damaged r))).
    cbn [from_option iw_damaged]. rewrite Hd, orb_false_r.
    split; [exact Hro|exact Houter].
Qed.

Lemma AnalyzeImageFile_read_only ops fs img pathName fssep img' fs' calls :
  fpOuterWrapper img = None →
  AnalyzeImageFile ops fs img pathName fssep = Some (kDIErrNone, img', fs', calls) →
  fReadOnly img'
  = fReadOnly img || outer_damaged img'
    || bool_decide (fFileFormat img' = kFileFormatFDI)
    || wrapper_damaged img'.
Proof.
  intros Hnone. unfold AnalyzeImageFile.
  destruct (fpWrapperGFD (set_fLength (-1) img)) as [g0|]; [|discriminate].
  cbn [mbind option_bind].
  destruct (GFD_SeekEnd fs g0) as [dierr0 len].
  destruct (is_ok dierr0) eqn:Hok0; cbn [negb].
  2:{ intros [= Herr _ _ _]. apply is_ok_false in Hok0. contradiction. }
  destruct (_ =? 0); [discriminate|].
  set (img0 := set_fOuterLength len (set_fWrappedLength len (set_fLength (-1) img))).
  destruct (AnalyzeImageFile_outer ops fs img0 g0 pathName fssep _)
    as [[[[dierr1 img1] fs1] ext1] outer] eqn:Houter.
  destruct (is_ok dierr1) eqn:Hok1; cbn [negb].
  2:{ intros [= Herr _ _ _]. apply is_ok_false in Hok1. contradiction. }
  apply is_ok_true in Hok1. subst dierr1.
  apply outer_read_only in Houter; [|exact Hnone].
  change (fReadOnly img0) with (fReadOnly img) in Houter.
  destruct (fpWrapperGFD img1) as [g|]; [|discriminate].
  cbn [mbind option_bind].
  pose proof (byExtension_read_only ops fs1 img1 g ext1) as Hfirst.
  pose proof (byExtension_bail ops fs1 img1 g ext1) as Hbail1.
  destruct (AnalyzeImageFile_byExtension _ _ _ _ _)
    as [[[[bail fmt] reliable] img2] first]. cbn [fst snd] in Hfirst, Hbail1.
  destruct Hfirst as [Hro2 How2].
  assert (Hend : ∀ img3 d f,
    fReadOnly img3 = fReadOnly img1 → fpOuterWrapper img3 = fpOuterWrapper img1 →
    (AnalyzeImageFile_prep ops fs1 img3 d f).1.1.1 = kDIErrNone →
    let img4 := (AnalyzeImageFile_prep ops fs1 img3 d f).1.1.2 in
    fReadOnly img4
    = fReadOnly img || outer_damaged img4
      || bool_decide (fFileFormat img4 = kFileFormatFDI)
      || wrapper_damaged img4).
  { intros img3 d f Hro3 How3.
    destruct (AnalyzeImageFile_prep ops fs1 img3 d f)
      as [[[dierr4 img4] fs4] prep] eqn:Hprep.
    cbn [fst snd]. intros ->. apply prep_read_only in Hprep as [Hro4 How4].
    rewrite Hro4, Hro3, Houter. unfold outer_damaged. rewrite How4, How3.
    reflexivity. }
  destruct bail as [dierr2|].
  { intros [= -> _ _ _]. destruct (Hbail1 kDIErrNone); reflexivity. }
  destruct (bool_decide (fmt = kFileFormatUnknown)); cbn [negb].
  - destruct reliable; [discriminate|].
    pose proof (probe_read_only ops fs1 img2 g) as Hsecond.
    pose proof (probe_bail ops fs1 img2 g) as Hbail2.
    destruct (AnalyzeImageFile_probe _ _ _ _)
      as [[[[bail dierr3] fmt3] img3] second]. cbn [fst snd] in Hsecond, Hbail2.
    destruct Hsecond as [Hro3 How3].
    destruct bail.
    { intros [= -> _ _ _]. destruct Hbail2; reflexivity. }
    specialize (Hend img3 dierr3 fmt3).
    destruct (AnalyzeImageFile_prep ops fs1 img3 dierr3 fmt3)
      as [[[dierr4 img4] fs4] prep].
    intros [= -> <- _ _]. apply Hend; [congruence|congruence|reflexivity].
  - specialize (Hend img2 kDIErrNone fmt).
    destruct (AnalyzeImageFile_prep ops fs1 img2 kDIErrNone fmt)
      as [[[dierr4 img4] fs4] prep].
    intros [= -> <- _ _]. apply Hend; [congruence|congruence|reflexivity].
Qed.

(** X24.  Why an opened image is read-only.  After [OpenImage] of a path
    succeeds on an image that was closed, the image is read-only exactly
    when read-only access was asked for, or the zip/gzip wrapper is
    damaged, or the file is an FDI file, or the image wrapper is damaged.
    In particular an image asked for read-only never comes back
    writable. *)
Theorem OpenImage_read_only_exactly ops fs img pathName fssep readOnly img'
    fs' calls :
  fpDataGFD img = None → fpOuterWrapper img = None →
  OpenImage ops fs img pathName fssep readOnly
    = Some (kDIErrNone, img', fs', calls) →
  fReadOnly img'
  = readOnly || outer_damaged img'
    || bool_decide (fFileFormat img' = kFileFormatFDI)
    || wrapper_damaged img'.
Proof.
  intros Hclosed Hnone. unfold OpenImage. rewrite Hclosed.
  destruct (GFDFile_Open ops fs pathName _) as [dierr0 gfd].
  destruct (is_ok dierr0) eqn:Hok; cbn [negb].
  - intros Hrun. apply AnalyzeImageFile_read_only in Hrun; [exact Hrun|].
    exact Hnone.
  - intros [= Herr _ _ _]. apply is_ok_false in Hok. contradiction.
Qed.

Lemma OpenImage_read_only_exactly_witness :
  ∃ img' fs' calls,
    OpenImage damaged_dc42 dc42_files DiskImg_new "image" slash false
      = Some (kDIErrNone, img', fs', calls) ∧
    fReadOnly img'
    = false || outer_damaged img'
      || bool_decide (fFileFormat img' = kFileFormatFDI)
      || wrapper_damaged img'.
Proof.
  destruct (OpenImage damaged_dc42 dc42_files DiskImg_new "image" slash false)
    as [[[[dierr img'] fs'] calls]|] eqn:Hrun;
    [|vm_compute in Hrun; discriminate Hrun].
  assert (dierr = kDIErrNone) as ->
    by (vm_compute in Hrun; injection Hrun as <- _ _ _; reflexivity).
  exists img', fs', calls. split; [reflexivity|].
  apply (OpenImage_read_only_exactly damaged_dc42 dc42_files DiskImg_new
           "image" slash false img' fs' calls);
    [reflexivity | reflexivity | exact Hrun].
Defined.

(** ** Reliable extensions *)

Lemma strcasecmp_eq_lowercase ext low lit :
  lowercase ext = low →
  strcasecmp_eq ext lit = bool_decide (low = lowercase lit).
Proof. intros <-. reflexivity. Qed.

Ltac decide_extensions :=
  repeat match goal with
         | |- context [bool_decide (?a = lowercase ?b)] =>
             let v := eval vm_compute in (bool_decide (a = lowercase b)) in
             change (bool_decide (a = lowercase b)) with v
         end.

(** X25.  A reliable extension is final.  A file that is not empty, whose
    extension (in any case of letters) is one of 2mg, 2img, shk, sdk, bxy,
    ddd, app and fdi and which fails the test of the format that the
    extension names, is not analysed any further: [AnalyzeImageFile]
    answers BadFileFormat (FileArchive, when the NuFX test says that the
    file is a file archive) after this one test, no wrapper is prepared and
    the data, the wrapper and the file format of the image are as they
    were. *)
Theorem reliable_extension_is_not_guessed ops fs img pathName fssep g len low
    c :
  fpWrapperGFD img = Some g →
  GFD_SeekEnd fs g = (kDIErrNone, len) →
  len ≠ 0 →
  lowercase (extension ops pathName fssep) = low →
  (low, c) ∈ reliable_extensions →
  Wrapper_Test ops c fs g len ≠ kDIErrNone →
  ∃ img',
    AnalyzeImageFile ops fs img pathName fssep
    = Some (if bool_decide (Wrapper_Test ops c fs g len = kDIErrFileArchive)
               && bool_decide (c = WrapperNuFX)
            then kDIErrFileArchive else kDIErrBadFileFormat,
            img', fs, [CallWrapperTest c]) ∧
    fpDataGFD img' = fpDataGFD img ∧
    fpImageWrapper img' = fpImageWrapper img ∧
    fFileFormat img' = fFileFormat img.
Proof.
  intros Hg Hend Hlen Hlow Hin Htest.
  apply is_ok_false in Htest.
  unfold AnalyzeImageFile.
  change (fpWrapperGFD (set_fLength (-1) img)) with (fpWrapperGFD img).
  rewrite Hg. cbn [mbind option_bind]. rewrite Hend. cbn [is_ok negb].
  change (fWrappedLength (set_fOuterLength len (set_fWrappedLength len ?x)))
    with len.
  destruct (Z.eqb_spec len 0) as [|_]; [contradiction|].
  unfold reliable_extensions in Hin.
  repeat (apply elem_of_cons in Hin as [Hin|Hin];
          [injection Hin as -> ->|]); [..|apply elem_of_nil in Hin; destruct Hin].
  all: unfold AnalyzeImageFile_outer;
       rewrite !(strcasecmp_eq_lowercase _ _ _ Hlow);
       decide_extensions; cbn [orb andb negb is_ok mbind option_bind];
       change (fpWrapperGFD (set_fOuterFormat kOuterFormatNone
         (set_fOuterLength len (set_fWrappedLength len (set_fLength (-1) img)))))
         with (fpWrapperGFD img);
       rewrite Hg; cbn [mbind option_bind];
       unfold AnalyzeImageFile_byExtension;
       rewrite !(strcasecmp_eq_lowercase _ _ _ Hlow);
       decide_extensions; cbn [orb andb negb is_ok mbind option_bind];
       cbv zeta;
       change (fWrappedLength (set_fOuterFormat kOuterFormatNone
         (set_fOuterLength len (set_fWrappedLength len (set_fLength (-1) img)))))
         with len;
       rewrite ?Htest.
  all: match goal with
       | |- context [bool_decide (?a = WrapperNuFX)] =>
           let v := eval vm_compute in (bool_decide (a = WrapperNuFX)) in
           change (bool_decide (a = WrapperNuFX)) with v
       end;
       rewrite ?andb_false_r, ?andb_true_r.
  all: try (destruct (bool_decide (Wrapper_Test ops WrapperNuFX fs g len
                                   = kDIErrFileArchive)) eqn:Harch;
            [apply bool_decide_eq_true_1 in Harch; rewrite ?Harch|]).
  all: cbn [app]; eexists; (split; [reflexivity|]); repeat split.
Qed.

Lemma reliable_extension_is_not_guessed_witness :
  ∃ img',
    AnalyzeImageFile (failing_wrappers (Some 5%nat)) two_block_files
      img_unopened "image.2MG" slash
    = Some (kDIErrBadFileFormat, img', two_block_files,
            [CallWrapperTest Wrapper2MG]) ∧
    fpDataGFD img' = None.
Proof.
  destruct (reliable_extension_is_not_guessed (failing_wrappers (Some 5%nat))
              two_block_files img_unopened "image.2MG" slash (mkGFD 0 0 false)
              1024 "2mg" Wrapper2MG)
    as (img' & Hrun & Hdata & _);
    [ reflexivity | reflexivity | lia | reflexivity
    | apply elem_of_cons; left; reflexivity | discriminate | ].
  exists img'. split; [exact Hrun | exact Hdata].
Defined.

(** ** Guessing the file format *)

Ltac failed_before :=
  let t := fresh "t" in
  let Ht := fresh "Ht" in
  intros t Ht;
  repeat (apply elem_of_cons in Ht as [Ht|Ht];
          [subst t; apply is_ok_false; assumption|]);
  apply elem_of_nil in Ht; destruct Ht.

Ltac guess_at k :=
  exists (take k guess_order), (default WrapperNuFX (guess_order !! k));
  split; [exists (drop (S k) guess_order); reflexivity|];
  split; [reflexivity|];
  split; [failed_before|];
  cbn [take guess_order lookup list_lookup default from_option id].

(** X26.  Guessing stops at the first hit.  The second pass of
    [AnalyzeImageFile] tests the formats in one fixed order (NuFX,
    DiskCopy 4.2, 2MG, DDD, Sim2e HDV, TrackStar, FDI, unadorned nibbles,
    unadorned sectors), every test before the last one called has failed,
    and the pass ends in one of three ways.  It is given up, with the
    error of the last test called, exactly when that test is the NuFX
    test and answered a file archive or a bad checksum, or is the
    DiskCopy 4.2 test and answered a bad checksum; no other test gives
    the analysis up.  Otherwise either the last test passed and its
    format is taken, or all nine tests failed and the format is
    unknown. *)
Theorem guessing_stops_at_first_hit ops fs img g :
  let len := fWrappedLength img in
  let '(bail, dierr, fmt, img', called) :=
    AnalyzeImageFile_probe ops fs img g in
  ∃ tested c,
    tested ++ [c] `prefix_of` guess_order ∧
    called = CallWrapperTest <$> (tested ++ [c]) ∧
    (∀ t, t ∈ tested → Wrapper_Test ops t fs g len ≠ kDIErrNone) ∧
    if bail
    then fmt = kFileFormatUnknown ∧ img' = img ∧
         dierr = Wrapper_Test ops c fs g len ∧
         ((c = WrapperNuFX ∧
           (dierr = kDIErrFileArchive ∨ dierr = kDIErrBadChecksum))
          ∨ (c = WrapperDiskCopy42 ∧ dierr = kDIErrBadChecksum))
    else Wrapper_Test ops WrapperNuFX fs g len ≠ kDIErrFileArchive ∧
         Wrapper_Test ops WrapperNuFX fs g len ≠ kDIErrBadChecksum ∧
         (WrapperDiskCopy42 ∈ tested ++ [c] →
          Wrapper_Test ops WrapperDiskCopy42 fs g len ≠ kDIErrBadChecksum) ∧
         if bool_decide (fmt = kFileFormatUnknown)
         then tested ++ [c] = guess_order ∧ img' = img ∧
              Wrapper_Test ops c fs g len ≠ kDIErrNone
         else Wrapper_Test ops c fs g len = kDIErrNone ∧
              wrapper_for fmt img' = Some c.
Proof.
  unfold AnalyzeImageFile_probe, AnalyzeImageFile_guess. cbv zeta.
  repeat match goal with
         | |- context [if ?b then _ else _] => destruct b eqn:?
         end; cbn [app].
  all: repeat match goal with
         | H : bool_decide (_ = _) = true |- _ =>
             apply bool_decide_eq_true_1 in H
         | H : bool_decide (_ = _) = false |- _ =>
             apply bool_decide_eq_false_1 in H
         | H : is_ok _ = true |- _ => apply is_ok_true in H
         end.
  all: try discriminate.
  all: try (match goal with
            | H : _ ≠ kFileFormatUnknown |- _ => exfalso; apply H; reflexivity
            | H : ?x = kFileFormatUnknown |- _ => discriminate H
            end).
  all: first [ guess_at 0%nat | guess_at 1%nat | guess_at 2%nat
             | guess_at 3%nat | guess_at 4%nat | guess_at 5%nat
             | guess_at 6%nat | guess_at 7%nat | guess_at 8%nat ].
  all: repeat match goal with
         | |- _ ∧ _ => split
         | |- _ ≠ kDIErrFileArchive => first [assumption | congruence]
         | |- _ ≠ kDIErrBadChecksum => first [assumption | congruence]
         | |- _ ≠ kDIErrNone => apply is_ok_false; assumption
         | |- _ ∈ _ → _ =>
             let Hin := fresh "Hin" in
             intros Hin;
             first [ assumption
                   | congruence
                   | exfalso; cbn [app] in Hin;
                     apply list_elem_of_singleton in Hin;
                     discriminate Hin ]
         | |- _ ∨ _ => first [ left; split; [reflexivity|];
                               first [left; assumption | right; assumption]
                             | right; split; [reflexivity | assumption] ]
         | |- _ = _ => first [reflexivity | assumption]
         end.
Qed.

(** ** Creating an image *)

Lemma validate_arguments_generic img :
  validate_arguments img = kDIErrNone →
  fOrder img ≠ kSectorOrderUnknown ∧ is_Some (generic_order (fFormat img)).
Proof.
  unfold validate_arguments, is_, isnt.
  repeat match goal with
         | |- context [if ?b then _ else _] => destruct b eqn:?
         end; try discriminate.
  intros _.
  repeat match goal with
         | H : _ || _ = false |- _ => apply orb_false_iff in H as [? ?]
         end.
  split.
  - intros E. rewrite E in *. discriminate.
  - destruct (fFormat img); try (eexists; reflexivity); discriminate.
Qed.

Lemma first_error_head d checks :
  first_error (d :: checks) = kDIErrNone → d = kDIErrNone.
Proof.
  cbn. destruct (is_ok d) eqn:Hok; [intros _; apply is_ok_true; exact Hok|].
  intros ->. discriminate.
Qed.

Lemma CalcFSSectorOrder_generic img order :
  fOrder img ≠ kSectorOrderUnknown →
  generic_order (fFormat img) = Some order →
  CalcFSSectorOrder img = order.
Proof.
  intros Hknown Hgeneric. unfold CalcFSSectorOrder.
  rewrite (bool_decide_eq_false_2 (fOrder img = kSectorOrderUnknown)) by exact Hknown.
  destruct (fFormat img); try discriminate; injection Hgeneric as <-;
    reflexivity.
Qed.

Lemma even_halves x :
  Z.land x 1 = 0 → 0 ≤ x → 2 * Z.quot x 2 = x.
Proof.
  intros Hland Hx. change 1 with (Z.ones 1) in Hland.
  rewrite Z.land_ones in Hland by lia. rewrite Z.quot_div_nonneg by lia.
  change (2 ^ 1) with 2 in Hland. Z.div_mod_to_equations. lia.
Qed.

Lemma CreateImageCommon_validate_accepted img img' :
  CreateImageCommon_validate img = (kDIErrNone, img') →
  (fHasBlocks img = true → 0 < fNumBlocks img ∧ fHasSectors img = false) →
  (fHasBlocks img = false → fHasSectors img = true →
   0 < fNumTracks img ∧ 0 < fNumSectPerTrack img) →
  fReadOnly img' = false ∧ fDirty img' = true ∧
  (fHasBlocks img' = true → 0 < fNumBlocks img') ∧
  (fHasBlocks img' = true → fHasSectors img' = true →
   fNumTracks img' * fNumSectPerTrack img' = 2 * fNumBlocks img') ∧
  fOrder img' = fOrder img ∧ fFormat img' = fFormat img ∧
  generic_order (fFormat img) = Some (fFileSysOrder img').
Proof.
  unfold CreateImageCommon_validate. cbv zeta.
  set (geo := if fHasBlocks img then _ else _).
  set (nib := if fHasSectors geo && _ then _ else geo).
  intros [= Hvalid <-] Hblocks Hsectors.
  apply first_error_head, validate_arguments_generic in Hvalid.
  assert (Hgeo : fOrder geo = fOrder img ∧ fFormat geo = fFormat img ∧
    (fHasBlocks geo = true → 0 < fNumBlocks geo) ∧
    (fHasBlocks geo = true → fHasSectors geo = true →
     fNumTracks geo * fNumSectPerTrack geo = 2 * fNumBlocks geo)).
  { subst geo. destruct (fHasBlocks img) eqn:Hb.
    - destruct Hblocks as [Hpos Hns]; [reflexivity|].
      destruct (Z.eqb_spec (Z.rem (fNumBlocks img) 8) 0) as [Hrem|Hrem].
      + repeat apply conj; try reflexivity; [intros _; exact Hpos|].
        intros _ _.
        change (Z.quot (fNumBlocks img) 8 * 16 = 2 * fNumBlocks img).
        pose proof (Z.quot_rem' (fNumBlocks img) 8). lia.
      + repeat apply conj; try reflexivity; [intros _; exact Hpos|].
        intros _ Hs. congruence.
    - destruct (fHasSectors img) eqn:Hs.
      + destruct Hsectors as [Ht Hspt]; [reflexivity..|].
        destruct (Z.eqb_spec (Z.land (fNumSectPerTrack img) 1) 0) as [Hev|Hev].
        * pose proof (even_halves _ Hev ltac:(lia)) as Hhalf.
          assert (Heq : 2 * Z.quot (fNumTracks img * fNumSectPerTrack img) 2
                        = fNumTracks img * fNumSectPerTrack img).
          { rewrite !Z.quot_div_nonneg in * by nia.
            rewrite <- Hhalf at 1.
            replace (fNumTracks img * (2 * (fNumSectPerTrack img / 2)))
              with ((fNumTracks img * (fNumSectPerTrack img / 2)) * 2) by lia.
            rewrite Z.div_mul by lia. nia. }
          repeat apply conj; try reflexivity.
          -- intros _.
             change (0 < Z.quot (fNumTracks img * fNumSectPerTrack img) 2).
             nia.
          -- intros _ _.
             change (fNumTracks img * fNumSectPerTrack img
                     = 2 * Z.quot (fNumTracks img * fNumSectPerTrack img) 2).
             lia.
        * repeat apply conj; try reflexivity; intros E; congruence.
      + repeat apply conj; try reflexivity; intros E; congruence. }
  destruct Hgeo as (Ho & Hf & Hpos & Hfit).
  assert (Hnib : fOrder nib = fOrder geo ∧ fFormat nib = fFormat geo ∧
    fHasBlocks nib = fHasBlocks geo ∧ fHasSectors nib = fHasSectors geo ∧
    fNumBlocks nib = fNumBlocks geo ∧ fNumTracks nib = fNumTracks geo ∧
    fNumSectPerTrack nib = fNumSectPerTrack geo).
  { subst nib. destruct (fHasSectors geo && _); repeat split. }
  destruct Hnib as (No & Nf & Nb & Ns & Nn & Nt & Np).
  set (final := set_fDirty true (set_fReadOnly false
                  (set_fFileSysOrder (CalcFSSectorOrder nib) nib))) in *.
  change (fOrder final) with (fOrder nib) in *.
  change (fFormat final) with (fFormat nib) in *.
  change (fHasBlocks final) with (fHasBlocks nib).
  change (fHasSectors final) with (fHasSectors nib).
  change (fNumBlocks final) with (fNumBlocks nib).
  change (fNumTracks final) with (fNumTracks nib).
  change (fNumSectPerTrack final) with (fNumSectPerTrack nib).
  change (fFileSysOrder final) with (CalcFSSectorOrder nib).
  change (fReadOnly final) with false. change (fDirty final) with true.
  rewrite No, Nf, Nb, Ns, Nn, Nt, Np, Ho, Hf in *.
  destruct Hvalid as [Hknown [o Hgen]].
  repeat apply conj; try reflexivity; try assumption.
  rewrite Hgen. f_equal. symmetry. apply CalcFSSectorOrder_generic.
  - congruence.
  - congruence.
Qed.



(** ** Ranges of blocks *)

(** The blocks of a range written one by one read back as written, and
    the blocks before the range are as they were, on an image whose sectors
    take less than 2 GiB. *)
Lemma WriteBlocks_each_read_back nib this fuel :
  ∀ numBlocks w startBlock data img w',
    imgs w !! this = Some img →
    plain_sector_image img →
    fits_long (fNumTracks img * fNumSectPerTrack img * kSectorSize) →
    0 ≤ numBlocks ≤ 2147483647 →
    (∀ b, startBlock ≤ b < startBlock + numBlocks →
          CheckForBadBlocks img b 1 = false) →
    WriteBlocks_each fuel nib w this numBlocks startBlock (Some data)
      = Some (kDIErrNone, w') →
    ∃ img',
      imgs w' !! this = Some img' ∧ img' = set_fDirty (fDirty img') img ∧
      (∀ i : nat, (i < Z.to_nat numBlocks)%nat →
         ReadBlock nib (files w') img' (startBlock + Z.of_nat i) out_buf
         = Some (kDIErrNone,
                 take (Z.to_nat kBlockSize)
                   (drop (i * Z.to_nat kBlockSize) data))) ∧
      (∀ b, b < startBlock →
         ReadBlock nib (files w') img' b out_buf
         = ReadBlock nib (files w) img b out_buf).
Proof.
  assert (Hnone : ∀ w s data img w',
    imgs w !! this = Some img →
    Some (kDIErrNone, w) = Some (kDIErrNone, w') →
    ∃ img',
      imgs w' !! this = Some img' ∧ img' = set_fDirty (fDirty img') img ∧
      (∀ i : nat, (i < Z.to_nat 0)%nat →
         ReadBlock nib (files w') img' (s + Z.of_nat i) out_buf
         = Some (kDIErrNone,
                 take (Z.to_nat kBlockSize)
                   (drop (i * Z.to_nat kBlockSize) data))) ∧
      (∀ b, b < s →
         ReadBlock nib (files w') img' b out_buf
         = ReadBlock nib (files w) img b out_buf)).
  { intros w s data img w' Hthis [= <-]. exists img. split; [exact Hthis|].
    split; [destruct img; reflexivity|]. split; [intros i Hi; lia|].
    reflexivity. }
  induction fuel as [|fuel IH];
    intros n w s data img w' Hthis Hplain Hlong Hn Hbad Hrun;
    cbn [WriteBlocks_each] in Hrun;
    destruct (Z.eqb_spec n 0) as [-> | Hnz];
    [eapply Hnone; eassumption | discriminate
    | eapply Hnone; eassumption |].
  destruct (WriteBlock nib w this s (Some data)) as [[dierr w1]|] eqn:Hwrite;
    [|discriminate].
  cbn [mbind option_bind] in Hrun.
  destruct (is_ok dierr) eqn:Hok; cbn [negb] in Hrun.
  2:{ injection Hrun as -> _. discriminate Hok. }
  apply is_ok_true in Hok. subst dierr.
  rewrite count_down in Hrun by lia.
  destruct (WriteBlock_read_back nib w this img s data w1 Hthis Hplain)
    as (img1 & Himg1 & Heq1 & Hback); [apply Hbad; lia | exact Hwrite |].
  assert (Hplain1 : plain_sector_image img1) by (rewrite Heq1; exact Hplain).
  assert (Hlong1 : fits_long (fNumTracks img1 * fNumSectPerTrack img1
                              * kSectorSize))
    by (rewrite Heq1; exact Hlong).
  assert (Hbad1 : ∀ b, s + 1 ≤ b < s + 1 + (n - 1) →
                       CheckForBadBlocks img1 b 1 = false).
  { intros b Hb. rewrite Heq1.
    change (CheckForBadBlocks (set_fDirty (fDirty img1) img) b 1)
      with (CheckForBadBlocks img b 1).
    apply Hbad. lia. }
  cbn [buf_advance fmap option_fmap option_map] in Hrun.
  destruct (IH (n - 1) w1 (s + 1) (drop (Z.to_nat kBlockSize) data) img1 w'
              Himg1 Hplain1 Hlong1 ltac:(lia) Hbad1 Hrun)
    as (img' & Himg' & Heq' & Hin & Hout).
  exists img'. split; [exact Himg'|].
  split; [exact (set_fDirty_twice _ _ _ _ _ Heq' Heq1)|]. split.
  - intros [|i] Hi.
    + rewrite Z.add_0_r. rewrite Hout by lia. exact Hback.
    + replace (s + Z.of_nat (S i)) with (s + 1 + Z.of_nat i) by lia.
      rewrite Hin by lia. rewrite drop_drop. repeat f_equal; lia.
  - intros b Hb. rewrite Hout by lia.
    destruct (WriteBlock_frame nib w this img s (Some data) w1 b Hthis Hplain
                Hlong Hwrite) as (img1' & Himg1' & _ & Hsame); [lia|].
    assert (img1' = img1) as -> by congruence. exact Hsame.
Qed.

(** X28.  A range of blocks that was written reads back as written.  On an
    image of plain sectors whose sectors take less than 2 GiB
    ([fNumTracks * fNumSectPerTrack * 256] is at most 2147483647), for a
    range without bad blocks whose bytes an [int] can count
    ([numBlocks * 512] is at most 2147483647): after a [WriteBlocks]
    without error, [ReadBlocks] of the same range answers the bytes that
    were written, whether the range went out in one piece (the blocks lie
    in a row) or block by block through the sector order translation. *)
Theorem WriteBlocks_then_ReadBlocks nib w this img startBlock numBlocks data w' :
  imgs w !! this = Some img →
  plain_sector_image img →
  fits_long (fNumTracks img * fNumSectPerTrack img * kSectorSize) →
  CheckForBadBlocks img startBlock numBlocks = false →
  0 < numBlocks →
  numBlocks * kBlockSize ≤ 2147483647 →
  WriteBlocks nib w this startBlock numBlocks (Some data)
    = Some (kDIErrNone, w') →
  ∃ img',
    imgs w' !! this = Some img' ∧ img' = set_fDirty (fDirty img') img ∧
    ReadBlocks nib (files w') img' startBlock numBlocks out_buf
    = Some (kDIErrNone, take (Z.to_nat (numBlocks * kBlockSize)) data).
Proof.
  intros Hthis Hplain Hlong Hbad Hn Hint Hrun.
  unfold WriteBlocks in Hrun. rewrite Hthis in Hrun.
  cbn [mbind option_bind] in Hrun.
  destruct ((startBlock <? 0) || (GetNumBlocks img <? numBlocks + startBlock))
    eqn:Hguard; [discriminate|].
  assert (Hsize : to_int (numBlocks * kBlockSize) = numBlocks * kBlockSize)
    by (apply to_int_fits; unfold fits_long, kBlockSize in *; lia).
  assert (Hcount : 0 ≤ numBlocks ≤ 2147483647)
    by (unfold kBlockSize in Hint; lia).
  rewrite Hsize in Hrun.
  assert (Hread : ∀ img', img' = set_fDirty (fDirty img') img →
    ReadBlocks nib (files w') img' startBlock numBlocks out_buf
    = if negb (IsLinearBlocks img (fOrder img) (fFileSysOrder img))
      then ReadBlocks_each (loop_fuel img startBlock) nib (files w') img'
             numBlocks startBlock out_buf
      else CopyBytesOut (files w') img' out_buf (startBlock * kBlockSize)
             (numBlocks * kBlockSize)).
  { intros img' Heq'. unfold ReadBlocks. rewrite Hsize.
    assert (GetNumBlocks img' = GetNumBlocks img) as ->
      by (rewrite Heq'; reflexivity).
    assert (CheckForBadBlocks img' startBlock numBlocks
            = CheckForBadBlocks img startBlock numBlocks) as ->
      by (rewrite Heq'; reflexivity).
    assert (IsLinearBlocks img' (fOrder img') (fFileSysOrder img')
            = IsLinearBlocks img (fOrder img) (fFileSysOrder img)) as ->
      by (rewrite Heq'; reflexivity).
    assert (loop_fuel img' startBlock = loop_fuel img startBlock) as ->
      by (rewrite Heq'; reflexivity).
    rewrite Hguard, Hbad. reflexivity. }
  destruct (IsLinearBlocks img (fOrder img) (fFileSysOrder img)) eqn:Hlin;
    cbn [negb] in Hrun, Hread.
  - destruct Hplain as (Hsector & Hpair & Hspt & Hbase).
    destruct (CopyBytesIn_done w this img (Some data)
                (startBlock * kBlockSize) (numBlocks * kBlockSize) w' Hthis
                Hbase) as (g & file & d & Hg & Hfile & Htake & Hlen & Hoff
                           & Hfit & Hfits & Hfiles & Himgs);
      [unfold kBlockSize; lia | exact Hrun |].
    destruct (Himgs this img Hthis) as (img' & Himg' & Heq').
    exists img'. split; [exact Himg'|]. split; [exact Heq'|].
    rewrite (Hread img' Heq'), Hfiles.
    assert (Hd : d = take (Z.to_nat (numBlocks * kBlockSize)) data).
    { unfold buf_take in Htake. cbn [mbind option_bind] in Htake.
      destruct ((numBlocks * kBlockSize <? 0)
                || (Z.of_nat (length data) <? numBlocks * kBlockSize));
        congruence. }
    rewrite <- Hd.
    assert (Hg' : fpDataGFD img' = Some g) by (rewrite Heq'; exact Hg).
    pose proof (CopyBytesOut_there (files w) g file (startBlock * kBlockSize)
                  d Hfile (Hbase g Hg) Hoff Hfits img' Hg') as Hout.
    rewrite Hlen in Hout. apply Hout. exact Hfit.
  - destruct (WriteBlocks_each_read_back nib this (loop_fuel img startBlock)
                numBlocks w startBlock data img w' Hthis Hplain Hlong Hcount)
      as (img' & Himg' & Heq' & Hin & _); [| exact Hrun |].
    { intros b Hb. apply (CheckForBadBlocks_range img startBlock numBlocks);
        [exact Hbad | lia]. }
    exists img'. split; [exact Himg'|]. split; [exact Heq'|].
    rewrite (Hread img' Heq').
    assert (Hend : startBlock + numBlocks ≤ fNumBlocks img).
    { apply orb_false_iff in Hguard as [_ Hend].
      apply Z.ltb_ge in Hend. unfold GetNumBlocks in Hend. lia. }
    replace (take (Z.to_nat (numBlocks * kBlockSize)) data)
      with (concat ((λ i, take (Z.to_nat kBlockSize)
                            (drop ((0 + i) * Z.to_nat kBlockSize) data))
                    <$> seq 0 (Z.to_nat numBlocks)))
      by (rewrite concat_chunks, drop_0; f_equal; unfold kBlockSize; lia).
    apply ReadBlocks_each_enough;
      [exact Hcount | apply loop_fuel_enough; exact Hend
      | rewrite length_fmap, length_seq; reflexivity |].
    intros i blk Hi. rewrite list_lookup_fmap in Hi.
    destruct (seq 0 (Z.to_nat numBlocks) !! i) as [j|] eqn:Hj;
      [|discriminate].
    apply lookup_seq in Hj as [-> Hlt]. injection Hi as <-.
    apply Hin. exact Hlt.
Qed.

Lemma WriteBlocks_then_ReadBlocks_witness :
  ∃ w' img',
    WriteBlocks no_nibbles world0 0%nat 0 2 (Some (replicate 1024 x03))
      = Some (kDIErrNone, w') ∧
    imgs w' !! 0%nat = Some img' ∧
    ReadBlocks no_nibbles (files w') img' 0 2 out_buf
    = Some (kDIErrNone, replicate 1024 x03).
Proof.
  destruct (WriteBlocks no_nibbles world0 0%nat 0 2
              (Some (replicate 1024 x03))) as [[dierr w']|] eqn:Hrun;
    [|vm_compute in Hrun; discriminate Hrun].
  assert (dierr = kDIErrNone) as ->
    by (vm_compute in Hrun; injection Hrun as <- _; reflexivity).
  destruct (WriteBlocks_then_ReadBlocks no_nibbles world0 0%nat img_po2 0 2
              (replicate 1024 x03) w')
    as (img' & Himg' & _ & Hread);
    [reflexivity | exact img_po2_plain | vm_compute; split; discriminate
    | reflexivity | lia | vm_compute; discriminate | exact Hrun |].
  exists w', img'. split; [reflexivity|]. split; [exact Himg'|exact Hread].
Defined.

(** ** Writing through a sub-image *)

(** X29.  A sub-image shares the data of its parent.  On a parent whose
    blocks take less than 2 GiB ([fNumBlocks * 512] is at most 2147483647,
    so that the [long] product [firstBlock * kBlockSize] of [OpenImage] is
    exact), for a range with [firstBlock + numBlocks] at most 2147483647:
    bytes written at [offset] through a sub-image that was opened on the
    blocks from [firstBlock] of an open image are the bytes that the parent
    then reads at [firstBlock * 512 + offset]. *)
Theorem sub_image_writes_reach_parent opens w this parentId parent firstBlock
    numBlocks w1 data offset size w2 :
  this ≠ parentId →
  imgs w !! parentId = Some parent →
  (∀ g, fpDataGFD parent = Some g → 0 ≤ gfd_base g) →
  fits_long (fNumBlocks parent * kBlockSize) →
  firstBlock + numBlocks ≤ 2147483647 →
  OpenImage_blocks opens w this (Some parentId) firstBlock numBlocks
    = Some (kDIErrNone, w1) →
  0 < size →
  CopyBytesIn w1 this (Some data) offset size = Some (kDIErrNone, w2) →
  ∃ parent',
    imgs w2 !! parentId = Some parent' ∧
    parent' = set_fDirty (fDirty parent') parent ∧
    CopyBytesOut (files w2) parent' out_buf
      (firstBlock * kBlockSize + offset) size
    = Some (kDIErrNone, take (Z.to_nat size) data).
Proof.
  intros Hne Hparent Hbase Hlong Hsum Hopen Hsize Hrun.
  apply OpenImage_blocks_done in Hopen
    as [[Hbad _]
       | (img & parent0 & Himg & _ & Hparent0 & Hfirst & Hnum & Hrange
          & [(Hbad & _) | (_ & pg & Hpg & ->)])];
    [contradiction | contradiction |].
  assert (parent0 = parent) as -> by congruence.
  rewrite to_long_fits in Hrange by (unfold fits_long; lia).
  assert (Hstart : to_long (firstBlock * kBlockSize)
                   = firstBlock * kBlockSize)
    by (apply to_long_fits; unfold fits_long, kBlockSize in *; lia).
  rewrite Hstart in Hrun.
  set (child := sub_image _ _ _ _ _ _) in Hrun.
  assert (Hchild : imgs (set_img this child w) !! this = Some child)
    by apply lookup_insert_eq.
  assert (Hparent1 : imgs (set_img this child w) !! parentId = Some parent)
    by (cbn [imgs set_img]; rewrite lookup_insert_ne by exact Hne;
        exact Hparent).
  pose proof (Hbase pg Hpg) as Hpbase.
  set (g := GFDGFD_Open pg (firstBlock * kBlockSize) (fReadOnly parent)).
  assert (Hgchild : fpDataGFD child = Some g) by reflexivity.
  assert (Hcbase : ∀ g', fpDataGFD child = Some g' → 0 ≤ gfd_base g').
  { intros g' Hg'. rewrite Hgchild in Hg'. injection Hg' as <-.
    cbn [g GFDGFD_Open gfd_base]. unfold kBlockSize. lia. }
  destruct (CopyBytesIn_done _ this child (Some data) offset size w2 Hchild
              Hcbase Hsize Hrun)
    as (g' & file & d & Hg' & Hfile & Htake & Hlen & Hoff & Hfit & Hfits
        & Hfiles & Himgs).
  rewrite Hgchild in Hg'. injection Hg' as <-.
  cbn [files set_img] in Hfile, Hfiles, Hfit.
  destruct (Himgs parentId parent Hparent1) as (parent' & Hparent' & Heq').
  exists parent'. split; [exact Hparent'|]. split; [exact Heq'|].
  assert (Hd : d = take (Z.to_nat size) data).
  { unfold buf_take in Htake. cbn [mbind option_bind] in Htake.
    destruct ((size <? 0) || (Z.of_nat (length data) <? size)); congruence. }
  rewrite <- Hd.
  assert (Hpg' : fpDataGFD parent' = Some pg) by (rewrite Heq'; exact Hpg).
  assert (Hsame : gfd_file g = gfd_file pg) by reflexivity.
  assert (Hgbase : gfd_base g = gfd_base pg + firstBlock * kBlockSize)
    by reflexivity.
  assert (Hpfile : files w !! gfd_file pg = Some file)
    by (rewrite <- Hsame; exact Hfile).
  assert (Hbytes : gfd_bytes (files w2) pg
                   = drop (Z.to_nat (gfd_base pg))
                       (splice file (Z.to_nat (gfd_base g + offset)) d)).
  { unfold gfd_bytes. rewrite Hfiles, Hsame, lookup_insert_eq. reflexivity. }
  assert (Hplen : gfd_length (files w2) pg
                  = Z.of_nat (length file) - gfd_base pg).
  { unfold gfd_length. rewrite Hbytes, length_drop, length_splice by exact Hfits.
    unfold kBlockSize in *. lia. }
  assert (Hopen : gfd_open (files w2) pg = true).
  { unfold gfd_open. rewrite Hfiles, Hsame, lookup_insert_eq.
    apply bool_decide_eq_true_2. eauto. }
  unfold CopyBytesOut. rewrite Hpg'. cbn [mbind option_bind].
  unfold GFD_Seek, GFD_Read. rewrite Hopen, Hplen. cbn [negb].
  rewrite Hgbase in Hfits.
  destruct (Z.ltb_spec (firstBlock * kBlockSize + offset) 0);
    [unfold kBlockSize in *; lia|]. cbn [orb].
  destruct (Z.ltb_spec (Z.of_nat (length file) - gfd_base pg)
              (firstBlock * kBlockSize + offset));
    [unfold kBlockSize in *; lia|].
  cbn [is_ok negb out_is_nil].
  destruct (Z.ltb_spec size 0); [lia|]. cbn [orb].
  destruct (Z.ltb_spec (Z.of_nat (length file) - gfd_base pg)
              (firstBlock * kBlockSize + offset + size));
    [unfold kBlockSize in *; lia|].
  cbn [is_ok negb]. rewrite Hbytes, drop_drop, Hgbase.
  replace (Z.to_nat (gfd_base pg)
           + Z.to_nat (firstBlock * kBlockSize + offset))%nat
    with (Z.to_nat (gfd_base pg + firstBlock * kBlockSize + offset))
    by (unfold kBlockSize in *; lia).
  replace (Z.to_nat size) with (length d) by lia.
  rewrite splice_read_back by exact Hfits. reflexivity.
Qed.

Lemma sub_image_writes_reach_parent_witness :
  ∃ parent',
    imgs world_written !! 0%nat = Some parent' ∧
    CopyBytesOut (files world_written) parent' out_buf 512 512
    = Some (kDIErrNone, replicate 512 x03).
Proof.
  destruct (sub_image_writes_reach_parent always_opens world0 1%nat 0%nat
              img_po2 1 1 world_child (replicate 512 x03) 0 512
              world_written)
    as (parent' & Hparent' & _ & Hread);
    [ lia | reflexivity | intros g [= <-]; cbn; lia
    | vm_compute; split; discriminate | lia | reflexivity | lia
    | vm_compute; reflexivity | ].
  exists parent'. split; [exact Hparent' | exact Hread].
Defined.
